(** * GabbyGums: the Discord-markdown to HTML engine

    Shallow embedding of the two [DiscordMarkdown] classes of the bot
    (utils/discordMarkdownParser.py and events/bulkMessageDelete.py) and
    the properties of the rendering pipeline.

    Strings are lists of Unicode code points ([N]).  The regular
    expressions of the source are kept as syntax trees and run by a
    backtracking matcher that enumerates the candidate matches in the
    priority order of the regex library; [sub] and [findall] are the
    left-to-right scans over non-overlapping matches.

    The development also embeds the composite messages and the message
    groups of events/bulkMessageDelete.py, with the exceptions of the
    source as a result type, and the two commands of cmds/dev.py that
    cut their output to the size of one message.  Its last part
    evaluates the patterns on texts of a given shape: delimiter pairs,
    code, quoted lines, links and emoji tokens between plain text,
    italics nested in bold and underline, and every text without
    HTML-special characters and links, on which it compares the two
    copies. *)

From Stdlib Require Import List NArith ZArith Arith Bool Ascii String Lia.
From Stdlib Require Import DecimalString Sorted Permutation.
Import ListNotations.

(** ** Code points and strings *)

Definition ch (a : ascii) : N := N_of_ascii a.

Definition codes (s : string) : list N := map ch (list_ascii_of_string s).

Definition dquote : N := 34.
Definition newline : N := 10.
Definition backslash : N := 92.

(** The option monad: [None] stands for a Python call that produces no
    string (an exception, or a callback that returns None). *)
Definition bind {A B} (o : option A) (k : A -> option B) : option B :=
  match o with Some x => k x | None => None end.

Notation "x <- e ;; k" := (bind e (fun x => k))
  (at level 61, e at next level, right associativity).

(** A character of the buffer: the engine only ever looks at its code
    point ([code]) and only ever creates characters from its own
    templates ([lit]).  Plain strings are the instance [C := N]; the
    second instance below carries a provenance label. *)
Class Glyph (C : Type) := {
  code : C -> N;
  lit : N -> C;
  code_lit : forall n, code (lit n) = n
}.

#[export] Instance Glyph_N : Glyph N :=
  {| code := fun n => n; lit := fun n => n; code_lit := fun n => eq_refl |}.

Inductive origin := FromInput | FromEngine.

Definition lchar : Type := N * origin.

#[export] Instance Glyph_lchar : Glyph lchar :=
  {| code := fst; lit := fun n => (n, FromEngine); code_lit := fun n => eq_refl |}.

Definition text {C} `{Glyph C} (s : string) : list C := map lit (codes s).

Definition slice {A} (s : list A) (a b : nat) : list A := firstn (b - a) (skipn a s).

(** ** Regular expressions *)

Module Regex.

(** [\s] on str patterns: ASCII whitespace and the Unicode White_Space
    code points. *)
Definition is_space (c : N) : bool :=
  ((9 <=? c) && (c <=? 13) || (c =? 32) || (c =? 133) || (c =? 160)
   || (c =? 5760) || ((8192 <=? c) && (c <=? 8202)) || (c =? 8232)
   || (c =? 8233) || (c =? 8239) || (c =? 8287) || (c =? 12288))%N.

Inductive citem :=
| One (c : N)            (* a single character *)
| Rng (lo hi : N)        (* lo-hi *)
| Space                  (* \s *)
| NonSpace.              (* \S *)

Inductive cls :=
| Pos (l : list citem)   (* [...] *)
| Neg (l : list citem).  (* [^...] *)

Definition item_mem (it : citem) (c : N) : bool :=
  match it with
  | One d => (c =? d)%N
  | Rng lo hi => ((lo <=? c) && (c <=? hi))%N
  | Space => is_space c
  | NonSpace => negb (is_space c)
  end.

Definition cls_mem (k : cls) (c : N) : bool :=
  match k with
  | Pos l => existsb (fun it => item_mem it c) l
  | Neg l => negb (existsb (fun it => item_mem it c) l)
  end.

Inductive re :=
| Set1 (k : cls)                                   (* one character of a class *)
| Str (w : list N)                                 (* a literal string *)
| Seq (a b : re)
| Alt (a b : re)
| Rep (greedy : bool) (lo : nat) (hi : option nat) (k : cls)
                                                   (* k{lo,hi}, greedy or lazy *)
| Opt (a : re)                                     (* (?:a)? *)
| Grp (n : nat) (a : re)                           (* capture group number n *)
| NotBehind (k : cls)                              (* (?<!k) *)
| NotAhead (a : re)                                (* (?!a) *)
| Bol                                              (* ^ with re.MULTILINE *)
| Ref (n : nat).                                   (* \n *)

(** Captures: group number to (start, end), the most recent binding first. *)
Definition caps := list (nat * (nat * nat)).

Fixpoint get (n : nat) (c : caps) : option (nat * nat) :=
  match c with
  | [] => None
  | (k, v) :: t => if Nat.eqb k n then Some v else get n t
  end.

Fixpoint starts_with (w l : list N) : bool :=
  match w, l with
  | [], _ => true
  | x :: w', y :: l' => (x =? y)%N && starts_with w' l'
  | _ :: _, [] => false
  end.

Fixpoint span (k : cls) (l : list N) : nat :=
  match l with
  | x :: t => if cls_mem k x then S (span k t) else 0
  | [] => 0
  end.

(** End positions of [k{lo,hi}] started at [i], in the order the
    backtracking engine tries them. *)
Definition rep_ends (greedy : bool) (lo : nat) (hi : option nat) (k : cls)
    (s : list N) (i : nat) : list nat :=
  let n := span k (skipn i s) in
  let top := match hi with Some h => Nat.min h n | None => n end in
  if top <? lo then []
  else
    let ends := map (fun d => i + d) (seq lo (S top - lo)) in
    if greedy then rev ends else ends.

Definition prev_is (p : N -> bool) (s : list N) (i : nat) : bool :=
  match i with
  | 0 => false
  | S j => match nth_error s j with Some x => p x | None => false end
  end.

(** [mt r s i c]: every way [r] matches [s] from position [i] with the
    captures [c] so far, as (end position, captures), first choice first. *)
Fixpoint mt (r : re) (s : list N) (i : nat) (c : caps) : list (nat * caps) :=
  match r with
  | Set1 k =>
      match nth_error s i with
      | Some x => if cls_mem k x then [(S i, c)] else []
      | None => []
      end
  | Str w => if starts_with w (skipn i s) then [(i + List.length w, c)] else []
  | Seq a b => flat_map (fun jc => mt b s (fst jc) (snd jc)) (mt a s i c)
  | Alt a b => mt a s i c ++ mt b s i c
  | Rep g lo hi k => map (fun j => (j, c)) (rep_ends g lo hi k s i)
  | Opt a => mt a s i c ++ [(i, c)]
  | Grp n a => map (fun jc => (fst jc, (n, (i, fst jc)) :: snd jc)) (mt a s i c)
  | NotBehind k => if prev_is (cls_mem k) s i then [] else [(i, c)]
  | NotAhead a => match mt a s i c with [] => [(i, c)] | _ :: _ => [] end
  | Bol => if (i =? 0) || prev_is (N.eqb newline) s i then [(i, c)] else []
  | Ref n =>
      match get n c with
      | Some (a, b) =>
          let w := slice s a b in
          if starts_with w (skipn i s) then [(i + List.length w, c)] else []
      | None => []
      end
  end.

(** The match the engine reports at start position [i], if any. *)
Definition match_at (r : re) (s : list N) (i : nat) : option (nat * caps) :=
  hd_error (mt r s i []).

(** Match objects. *)
Record Match (C : Type) := mkMatch {
  m_string : list C;
  m_start : nat;
  m_end : nat;
  m_caps : caps
}.

Arguments mkMatch {C} _ _ _ _.
Arguments m_string {C} _.
Arguments m_start {C} _.
Arguments m_end {C} _.
Arguments m_caps {C} _.

Definition group {C} (m : Match C) (n : nat) : option (list C) :=
  match get n (m_caps m) with
  | Some (a, b) => Some (slice (m_string m) a b)
  | None => None
  end.

(** A group interpolated in an f-string: None prints as the word. *)
Definition fmt {C} `{Glyph C} (o : option (list C)) : list C :=
  match o with Some x => x | None => text "None" end.

(** A group expanded in a replacement template ([\g<name>]): a group
    that did not take part expands to nothing. *)
Definition expand {C} (o : option (list C)) : list C :=
  match o with Some x => x | None => [] end.

Section Scan.
Context {C : Type} `{Glyph C}.

(** The scan of [pattern.sub(repl, subject)]: [rest] is the subject from
    position [i] on; [skip] counts the characters of the current match
    still to be passed over.  The empty-match rule (replace, copy one
    character, go on) is never exercised: no pattern of the engine
    matches the empty string. *)
Fixpoint sub_loop (r : re) (repl : Match C -> option (list C))
    (subj : list C) (cs : list N) (rest : list C) (i skip : nat)
    : option (list C) :=
  match skip with
  | S k =>
      match rest with
      | [] => Some []
      | _ :: rest' => sub_loop r repl subj cs rest' (S i) k
      end
  | 0 =>
      match match_at r cs i with
      | Some (j, c) =>
          out <- repl (mkMatch subj i j c) ;;
          match rest with
          | [] => Some out
          | x :: rest' =>
              tl <- sub_loop r repl subj cs rest' (S i) (j - i - 1) ;;
              Some (out ++ (if j <=? i then [x] else []) ++ tl)
          end
      | None =>
          match rest with
          | [] => Some []
          | x :: rest' =>
              tl <- sub_loop r repl subj cs rest' (S i) 0 ;;
              Some (x :: tl)
          end
      end
  end.

Definition sub (r : re) (repl : Match C -> option (list C)) (subj : list C)
    : option (list C) :=
  sub_loop r repl subj (map code subj) subj 0 0.

(** The matches found by the same scan, in order. *)
Fixpoint scan_loop (r : re) (subj : list C) (cs : list N) (rest : list C)
    (i skip : nat) : list (Match C) :=
  match skip with
  | S k =>
      match rest with
      | [] => []
      | _ :: rest' => scan_loop r subj cs rest' (S i) k
      end
  | 0 =>
      match match_at r cs i with
      | Some (j, c) =>
          mkMatch subj i j c ::
          match rest with
          | [] => []
          | _ :: rest' => scan_loop r subj cs rest' (S i) (j - i - 1)
          end
      | None =>
          match rest with
          | [] => []
          | _ :: rest' => scan_loop r subj cs rest' (S i) 0
          end
      end
  end.

Definition finditer (r : re) (subj : list C) : list (Match C) :=
  scan_loop r subj (map code subj) subj 0 0.

(** [pattern.subn]: the new string and the number of substitutions. *)
Definition subn (r : re) (repl : Match C -> option (list C)) (subj : list C)
    : option (list C * nat) :=
  out <- sub r repl subj ;;
  Some (out, List.length (finditer r subj)).

(** [pattern.findall] for a pattern with two groups: pairs of group
    texts, the empty string for a group that did not take part. *)
Definition findall2 (r : re) (subj : list C) : list (list C * list C) :=
  map (fun m => (expand (group m 1), expand (group m 2))) (finditer r subj).

End Scan.

End Regex.

Import Regex.

Infix ";;;" := Seq (at level 60, right associativity).

(** Character classes shared by the patterns. *)
Definition bs_cls : cls := Pos [One backslash].
Definition dot : cls := Neg [One newline].                    (* . *)
Definition any : cls := Pos [Space; NonSpace].                (* [\s\S] *)
Definition non_space : cls := Pos [NonSpace].                 (* \S *)
Definition blank : cls := Neg [One newline; NonSpace].        (* [^\n\S] *)
Definition nl_cls : cls := Pos [One newline].
Definition sym_cls : cls :=                                   (* [^a-zA-Z0-9\s] *)
  Neg [Rng (ch "a") (ch "z"); Rng (ch "A") (ch "Z"); Rng (ch "0") (ch "9"); Space].

Definition is_symbol (c : N) : bool := cls_mem sym_cls c.

(** [jinja2.escape] (markupsafe): the five HTML-significant characters
    become entities, every other character is kept. *)
Definition escape_char {C} `{Glyph C} (x : C) : list C :=
  if (code x =? ch "&")%N then text "&amp;"
  else if (code x =? ch "<")%N then text "&lt;"
  else if (code x =? ch ">")%N then text "&gt;"
  else if (code x =? ch "'")%N then text "&#39;"
  else if (code x =? dquote)%N then text "&#34;"
  else [x].

Definition escape {C} `{Glyph C} (s : list C) : list C := flat_map escape_char s.

(** ** utils/discordMarkdownParser.py *)

Module Parser.

(** "(?P<stag>```)(?:(?P<lang>[a-zA-Z0-9-]+?)\n+)?\n*(?P<content>[\s\S]+?)\n*(?P<etag>```)"
    groups: stag 1, lang 2, content 3, etag 4 *)
Definition codeblock_pattern : re :=
  Grp 1 (Str (codes "```")) ;;;
  Opt (Grp 2 (Rep false 1 None
          (Pos [Rng (ch "a") (ch "z"); Rng (ch "A") (ch "Z"); Rng (ch "0") (ch "9"); One (ch "-")]))
       ;;; Rep true 1 None nl_cls) ;;;
  Rep true 0 None nl_cls ;;;
  Grp 3 (Rep false 1 None any) ;;;
  Rep true 0 None nl_cls ;;;
  Grp 4 (Str (codes "```")).

(** "(?<!\\)(`)(?P<content>[^`]*?[^`])(\1)(?!`)"   groups: 1, content 2, 3 *)
Definition inlinecodeblock_pattern : re :=
  NotBehind bs_cls ;;;
  Grp 1 (Str (codes "`")) ;;;
  Grp 2 (Rep false 0 None (Neg [One (ch "`")]) ;;; Set1 (Neg [One (ch "`")])) ;;;
  Grp 3 (Ref 1) ;;;
  NotAhead (Str (codes "`")).

(** "(?<!\\)~~(?P<content>.+?)(?<!\\)~~(?!_)" *)
Definition strikethrough_pattern : re :=
  NotBehind bs_cls ;;; Str (codes "~~") ;;; Grp 1 (Rep false 1 None dot) ;;;
  NotBehind bs_cls ;;; Str (codes "~~") ;;; NotAhead (Str (codes "_")).

(** "(?<!\\)\|\|(?P<content>.+?)(?<!\\)\|\|" *)
Definition spoiler_pattern : re :=
  NotBehind bs_cls ;;; Str (codes "||") ;;; Grp 1 (Rep false 1 None dot) ;;;
  NotBehind bs_cls ;;; Str (codes "||").

(** "(?<!\\)\*\*(?P<content>.+?)(?<!\\)\*\*" *)
Definition bold_pattern : re :=
  NotBehind bs_cls ;;; Str (codes "**") ;;; Grp 1 (Rep false 1 None dot) ;;;
  NotBehind bs_cls ;;; Str (codes "**").

(** "(?<!\\)__(?P<content>.+?)(?<!\\)__" *)
Definition underline_pattern : re :=
  NotBehind bs_cls ;;; Str (codes "__") ;;; Grp 1 (Rep false 1 None dot) ;;;
  NotBehind bs_cls ;;; Str (codes "__").

(** The alternation STAR|UNDER of the two marker forms, with
    STAR = "(?<!\\)\*(?P<s_content>.+?)(?<!\\)\*" and
    UNDER = "(?<!\\)_(?P<u_content>.+?)(?<!\\)_"; groups: s_content 1,
    u_content 2 *)
Definition italics_star : re :=
  NotBehind bs_cls ;;; Str (codes "*") ;;; Grp 1 (Rep false 1 None dot) ;;;
  NotBehind bs_cls ;;; Str (codes "*").

Definition italics_under : re :=
  NotBehind bs_cls ;;; Str (codes "_") ;;; Grp 2 (Rep false 1 None dot) ;;;
  NotBehind bs_cls ;;; Str (codes "_").

Definition italics_pattern : re := Alt italics_star italics_under.

(** With re.MULTILINE, the alternation of the triple form, "^ *&gt;&gt;&gt; "
    then group 1 = "[\s\S]*", and the single form, "^ *&gt; " then
    group 2 = "[^\n]*\n*". *)
Definition blockQuote_triple : re :=
  Bol ;;; Rep true 0 None (Pos [One (ch " ")]) ;;; Str (codes "&gt;&gt;&gt; ") ;;;
  Grp 1 (Rep true 0 None any).

Definition blockQuote_single : re :=
  Bol ;;; Rep true 0 None (Pos [One (ch " ")]) ;;; Str (codes "&gt; ") ;;;
  Grp 2 (Rep true 0 None dot ;;; Rep true 0 None nl_cls).

Definition blockQuote_pattern : re := Alt blockQuote_triple blockQuote_single.

(** "(?P<content>[^a-zA-Z0-9\s])" *)
Definition symbols_pattern : re := Grp 1 (Set1 sym_cls).

(** "\\(?P<content>[^a-zA-Z0-9\s])" *)
Definition escaped_symbols_pattern : re := Str [backslash] ;;; Grp 1 (Set1 sym_cls).

Definition url_head : re :=                                   (* http[s]?:\/\/ *)
  Str (codes "http") ;;; Rep true 0 (Some 1) (Pos [One (ch "s")]) ;;; Str (codes "://").

(** "&lt;(?P<content>http[s]?:\/\/\S+?)&gt;" *)
Definition suppresed_embed_link_pattern : re :=
  Str (codes "&lt;") ;;; Grp 1 (url_head ;;; Rep false 1 None non_space) ;;;
  Str (codes "&gt;").

(** "\[(.+)\]\([^\n\S]*?(http[s]?:\/\/[\S]+?)[^\n\S]*?\)|(http[s]?:\/\/[\S]+)" *)
Definition labelled_link : re :=
  Str (codes "[") ;;; Grp 1 (Rep true 1 None dot) ;;; Str (codes "]") ;;;
  Str (codes "(") ;;; Rep false 0 None blank ;;;
  Grp 2 (url_head ;;; Rep false 1 None non_space) ;;;
  Rep false 0 None blank ;;; Str (codes ")").

Definition bare_link : re := Grp 3 (url_head ;;; Rep true 1 None non_space).

Definition web_link_pattern : re := Alt labelled_link bare_link.

Definition emoji_name_cls : cls :=                            (* [0-9a-zA-Z_] *)
  Pos [Rng (ch "0") (ch "9"); Rng (ch "a") (ch "z"); Rng (ch "A") (ch "Z"); One (ch "_")].
Definition digit_cls : cls := Pos [Rng (ch "0") (ch "9")].

(** "&lt;(?P<animated>a)?:(?P<name>[0-9a-zA-Z_]{2,32}):(?P<id>[0-9]{15,21})&gt;"
    groups: animated 1, name 2, id 3 *)
Definition nitro_emote_pattern : re :=
  Str (codes "&lt;") ;;; Opt (Grp 1 (Str (codes "a"))) ;;; Str (codes ":") ;;;
  Grp 2 (Rep true 2 (Some 32) emoji_name_cls) ;;; Str (codes ":") ;;;
  Grp 3 (Rep true 15 (Some 21) digit_cls) ;;; Str (codes "&gt;").

(** The side-text class of the emoji mode detector: the printable ASCII
    characters except the two angle brackets, and whitespace:
    "[a-zA-Z0-9!-;=?-~\s]" *)
Definition side_cls : cls :=
  Pos [Rng (ch "a") (ch "z"); Rng (ch "A") (ch "Z"); Rng (ch "0") (ch "9");
       Rng (ch "!") (ch ";"); One (ch "="); Rng (ch "?") (ch "~"); Space].

(** An optional group 1 of side text (greedy, any length), "\s*", the
    raw token "<a?:[0-9a-zA-Z_]{2,32}:[0-9]{15,21}>", "\s*", an optional
    group 2 of side text. *)
Definition womboji_pattern : re :=
  Opt (Grp 1 (Rep true 0 None side_cls)) ;;; Rep true 0 None (Pos [Space]) ;;;
  Str (codes "<") ;;; Rep true 0 (Some 1) (Pos [One (ch "a")]) ;;; Str (codes ":") ;;;
  Rep true 2 (Some 32) emoji_name_cls ;;; Str (codes ":") ;;;
  Rep true 15 (Some 21) digit_cls ;;; Str (codes ">") ;;;
  Rep true 0 None (Pos [Space]) ;;; Opt (Grp 2 (Rep true 0 None side_cls)).

Section Passes.
Context {C : Type} `{Glyph C}.

Definition q : list C := [lit dquote].

Definition escape_symbols_repl (m : Match C) : option (list C) :=
  content <- group m 1 ;;
  Some (lit backslash :: content).

Definition escape_symbols (_input : list C) : option (list C) :=
  sub symbols_pattern escape_symbols_repl _input.

Definition remove_escaped_symbol_repl (m : Match C) : option (list C) :=
  group m 1.

Definition remove_escaped_symbol (_input : list C) : option (list C) :=
  sub escaped_symbols_pattern remove_escaped_symbol_repl _input.

Definition codeblock_repl (m : Match C) : option (list C) :=
  let e_tag := text "</div>" in
  let s_tag :=
    match group m 2 with
    | Some lang => text "<div class=" ++ q ++ text "pre pre--multiline language-"
                     ++ lang ++ q ++ text ">"
    | None => text "<div class=" ++ q ++ text "pre pre--multiline nohighlight" ++ q
                ++ text ">"
    end in
  content <- group m 3 ;;
  content <- escape_symbols content ;;
  Some (s_tag ++ content ++ e_tag).

Definition codeblock (_input : list C) : option (list C) :=
  sub codeblock_pattern codeblock_repl _input.

Definition inline_codeblock_repl (m : Match C) : option (list C) :=
  let s_tag := text "<span class=" ++ q ++ text "pre pre--inline" ++ q ++ text ">" in
  let e_tag := text "</span>" in
  content <- group m 2 ;;
  content <- escape_symbols content ;;
  Some (s_tag ++ content ++ e_tag).

Definition inline_codeblock (_input : list C) : option (list C) :=
  sub inlinecodeblock_pattern inline_codeblock_repl _input.

(** A replacement template "{s_tag}\g<content>{e_tag}". *)
Definition wrap (s_tag e_tag : list C) (m : Match C) : option (list C) :=
  Some (s_tag ++ expand (group m 1) ++ e_tag).

Definition spoiler (_input : list C) : option (list C) :=
  sub spoiler_pattern
    (wrap (text "<span class=" ++ q ++ text "spoiler" ++ q ++ text ">") (text "</span>"))
    _input.

Definition bold (_input : list C) : option (list C) :=
  sub bold_pattern (wrap (text "<strong>") (text "</strong>")) _input.

Definition underline (_input : list C) : option (list C) :=
  sub underline_pattern (wrap (text "<u>") (text "</u>")) _input.

Definition italics_repl (m : Match C) : option (list C) :=
  let s_tag := text "<em>" in
  let e_tag := text "</em>" in
  match group m 1 with
  | Some s_content => Some (s_tag ++ s_content ++ e_tag)
  | None =>
      match group m 2 with
      | Some u_content => Some (s_tag ++ u_content ++ e_tag)
      | None => None
      end
  end.

Definition italics (_input : list C) : option (list C) :=
  sub italics_pattern italics_repl _input.

Definition strikethrough (_input : list C) : option (list C) :=
  sub strikethrough_pattern (wrap (text "<s>") (text "</s>")) _input.

Definition blockquote_repl (m : Match C) : option (list C) :=
  let s_tag := text "<div class=" ++ q ++ text "quote" ++ q ++ text ">" in
  let e_tag := text "</div>" in
  match group m 1 with
  | Some g1 => Some (s_tag ++ g1 ++ e_tag)
  | None =>
      match group m 2 with
      | Some g2 =>
          let content := filter (fun x => negb (code x =? newline)%N) g2 in
          Some (s_tag ++ content ++ e_tag)
      | None => None
      end
  end.

Definition blockquote (_input : list C) : option (list C) :=
  sub blockQuote_pattern blockquote_repl _input.

Definition remove_suppressed_embed_arrows (_input : list C) : option (list C) :=
  sub suppresed_embed_link_pattern (wrap [] []) _input.

Definition linkify_repl (m : Match C) : option (list C) :=
  let s_tag := text "<a href=" ++ q in
  let m_tag := q ++ text ">" in
  let e_tag := text "</a>" in
  match group m 3 with
  | Some g3 => Some (s_tag ++ g3 ++ m_tag ++ g3 ++ e_tag)
  | None =>
      match group m 2 with
      | Some g2 => Some (s_tag ++ g2 ++ m_tag ++ fmt (group m 1) ++ e_tag)
      | None => None
      end
  end.

Definition linkify (_input : list C) : option (list C) :=
  sub web_link_pattern linkify_repl _input.

Definition truthy (o : option (list C)) : bool :=
  match o with Some (_ :: _) => true | _ => false end.

Definition emoji_img (s_tag : list C) (m : Match C) : option (list C) :=
  let m1_tag := q ++ text " title=" ++ q in
  let m2_tag := q ++ text " src=" ++ q in
  let e_tag := q ++ text ">" in
  let emoji_url :=
    if truthy (group m 1)
    then text "https://cdn.discordapp.com/emojis/" ++ fmt (group m 3) ++ text ".gif"
    else text "https://cdn.discordapp.com/emojis/" ++ fmt (group m 3) ++ text ".png" in
  Some (s_tag ++ fmt (group m 2) ++ m1_tag ++ fmt (group m 2) ++ m2_tag
          ++ emoji_url ++ e_tag).

Definition emojify_repl (m : Match C) : option (list C) :=
  emoji_img (text "<img class=" ++ q ++ text "emoji" ++ q ++ text " alt=" ++ q) m.

Definition wombojify_repl (m : Match C) : option (list C) :=
  emoji_img (text "<img class=" ++ q ++ text "emoji emoji--large" ++ q ++ text " alt=" ++ q) m.

Definition is_empty (l : list C) : bool :=
  match l with [] => true | _ :: _ => false end.

(** The loop over the findall result: womboji stays True when both side
    texts of every match are empty. *)
Definition womboji (original_txt : list C) : bool :=
  forallb (fun mm => is_empty (fst mm) && is_empty (snd mm))
          (findall2 womboji_pattern original_txt).

Definition emojify (_input original_txt : list C) : option (list C) :=
  if womboji original_txt
  then sub nitro_emote_pattern wombojify_repl _input
  else sub nitro_emote_pattern emojify_repl _input.

Definition markdown (_input : list C) : option (list C) :=
  let output := escape _input in
  output <- codeblock output ;;
  output <- inline_codeblock output ;;
  output <- remove_suppressed_embed_arrows output ;;
  output <- blockquote output ;;
  output <- spoiler output ;;
  output <- strikethrough output ;;
  output <- bold output ;;
  output <- underline output ;;
  output <- italics output ;;
  output <- linkify output ;;
  output <- emojify output _input ;;
  remove_escaped_symbol output.

End Passes.

End Parser.

(** ** events/bulkMessageDelete.py *)

Module BulkDelete.

(** "(?P<stag>```)(?:(?P<lang>[a-zA-Z0-9-]+?)\n+)?\n*(?P<content>[\s\S]+?)\n*(?P<etag>```)" *)
Definition codeblock_pattern : re :=
  Grp 1 (Str (codes "```")) ;;;
  Opt (Grp 2 (Rep false 1 None
          (Pos [Rng (ch "a") (ch "z"); Rng (ch "A") (ch "Z"); Rng (ch "0") (ch "9"); One (ch "-")]))
       ;;; Rep true 1 None nl_cls) ;;;
  Rep true 0 None nl_cls ;;;
  Grp 3 (Rep false 1 None any) ;;;
  Rep true 0 None nl_cls ;;;
  Grp 4 (Str (codes "```")).

(** "(?<!\\)(`)(?P<content>[^`]*?[^`])(\1)(?!`)" *)
Definition inlinecodeblock_pattern : re :=
  NotBehind bs_cls ;;;
  Grp 1 (Str (codes "`")) ;;;
  Grp 2 (Rep false 0 None (Neg [One (ch "`")]) ;;; Set1 (Neg [One (ch "`")])) ;;;
  Grp 3 (Ref 1) ;;;
  NotAhead (Str (codes "`")).

(** "(?<!\\)~~(?P<content>.+?)(?<!\\)~~(?!_)" *)
Definition strikethrough_pattern : re :=
  NotBehind bs_cls ;;; Str (codes "~~") ;;; Grp 1 (Rep false 1 None dot) ;;;
  NotBehind bs_cls ;;; Str (codes "~~") ;;; NotAhead (Str (codes "_")).

(** "(?<!\\)\|\|(?P<content>.+?)(?<!\\)\|\|" *)
Definition spoiler_pattern : re :=
  NotBehind bs_cls ;;; Str (codes "||") ;;; Grp 1 (Rep false 1 None dot) ;;;
  NotBehind bs_cls ;;; Str (codes "||").

(** "(?<!\\)\*\*(?P<content>.+?)(?<!\\)\*\*" *)
Definition bold_pattern : re :=
  NotBehind bs_cls ;;; Str (codes "**") ;;; Grp 1 (Rep false 1 None dot) ;;;
  NotBehind bs_cls ;;; Str (codes "**").

(** "(?<!\\)__(?P<content>.+?)(?<!\\)__" *)
Definition underline_pattern : re :=
  NotBehind bs_cls ;;; Str (codes "__") ;;; Grp 1 (Rep false 1 None dot) ;;;
  NotBehind bs_cls ;;; Str (codes "__").

(** "(?<!\\)\*(?P<content>.+?)(?<!\\)\*" *)
Definition italics_pattern1 : re :=
  NotBehind bs_cls ;;; Str (codes "*") ;;; Grp 1 (Rep false 1 None dot) ;;;
  NotBehind bs_cls ;;; Str (codes "*").

(** "(?<!\\)_(?P<content>.+?)(?<!\\)_" *)
Definition italics_pattern2 : re :=
  NotBehind bs_cls ;;; Str (codes "_") ;;; Grp 1 (Rep false 1 None dot) ;;;
  NotBehind bs_cls ;;; Str (codes "_").

(** With re.MULTILINE, the alternation of "^ *>>> " then group 1 =
    "[\s\S]*" and "^ *> " then group 2 = "[^\n]*\n*": the markers are
    raw angle brackets here. *)
Definition blockQuote_pattern : re :=
  Alt (Bol ;;; Rep true 0 None (Pos [One (ch " ")]) ;;; Str (codes ">>> ") ;;;
       Grp 1 (Rep true 0 None any))
      (Bol ;;; Rep true 0 None (Pos [One (ch " ")]) ;;; Str (codes "> ") ;;;
       Grp 2 (Rep true 0 None dot ;;; Rep true 0 None nl_cls)).

(** "(?P<content>[^a-zA-Z0-9\s])" *)
Definition symbols_pattern : re := Grp 1 (Set1 sym_cls).

(** "\\(?P<content>[^a-zA-Z0-9\s])" *)
Definition escaped_symbols_pattern : re := Str [backslash] ;;; Grp 1 (Set1 sym_cls).

Section Passes.
Context {C : Type} `{Glyph C}.

Definition q : list C := [lit dquote].

Definition escape_symbols_repl (m : Match C) : option (list C) :=
  content <- group m 1 ;;
  Some (lit backslash :: content).

Definition escape_symbols (_input : list C) : option (list C) :=
  sub symbols_pattern escape_symbols_repl _input.

Definition remove_escaped_symbol_repl (m : Match C) : option (list C) :=
  group m 1.

Definition remove_escaped_symbol (_input : list C) : option (list C) :=
  sub escaped_symbols_pattern remove_escaped_symbol_repl _input.

Definition codeblock_repl (m : Match C) : option (list C) :=
  let e_tag := text "</div>" in
  let s_tag :=
    match group m 2 with
    | Some lang => text "<div class=" ++ q ++ text "pre pre--multiline language-"
                     ++ lang ++ q ++ text ">"
    | None => text "<div class=" ++ q ++ text "pre pre--multiline nohighlight" ++ q
                ++ text ">"
    end in
  content <- group m 3 ;;
  content <- escape_symbols content ;;
  Some (s_tag ++ content ++ e_tag).

Definition codeblock (_input : list C) : option (list C * nat) :=
  subn codeblock_pattern codeblock_repl _input.

Definition inline_codeblock_repl (m : Match C) : option (list C) :=
  let s_tag := text "<span class=" ++ q ++ text "pre pre--inline" ++ q ++ text ">" in
  let e_tag := text "</span>" in
  content <- group m 2 ;;
  content <- escape_symbols content ;;
  Some (s_tag ++ content ++ e_tag).

Definition inline_codeblock (_input : list C) : option (list C * nat) :=
  subn inlinecodeblock_pattern inline_codeblock_repl _input.

Definition wrap (s_tag e_tag : list C) (m : Match C) : option (list C) :=
  Some (s_tag ++ expand (group m 1) ++ e_tag).

Definition spoiler (_input : list C) : option (list C * nat) :=
  subn spoiler_pattern
    (wrap (text "<span class=" ++ q ++ text "spoiler" ++ q ++ text ">") (text "</span>"))
    _input.

Definition bold (_input : list C) : option (list C * nat) :=
  subn bold_pattern (wrap (text "<strong>") (text "</strong>")) _input.

Definition underline (_input : list C) : option (list C * nat) :=
  subn underline_pattern (wrap (text "<u>") (text "</u>")) _input.

Definition italics (_input : list C) : option (list C * nat) :=
  let repl := wrap (text "<em>") (text "</em>") in
  r1 <- subn italics_pattern1 repl _input ;;
  r2 <- subn italics_pattern2 repl (fst r1) ;;
  Some (fst r2, snd r1 + snd r2).

Definition strikethrough (_input : list C) : option (list C * nat) :=
  subn strikethrough_pattern (wrap (text "<s>") (text "</s>")) _input.

Definition blockquote_repl (m : Match C) : option (list C) :=
  let s_tag := text "<div class=" ++ q ++ text "quote" ++ q ++ text ">" in
  let e_tag := text "</div>" in
  match group m 1 with
  | Some g1 => Some (s_tag ++ g1 ++ e_tag)
  | None =>
      match group m 2 with
      | Some g2 =>
          let content := filter (fun x => negb (code x =? newline)%N) g2 in
          Some (s_tag ++ content ++ e_tag)
      | None => None
      end
  end.

Definition blockquote (_input : list C) : option (list C * nat) :=
  subn blockQuote_pattern blockquote_repl _input.

(** The HTML escape is commented out in this copy: the raw input goes
    straight into the code-block pass. *)
Definition markdown (_input : list C) : option (list C) :=
  let output := _input in
  oc <- codeblock output ;;
  oc <- inline_codeblock (fst oc) ;;
  oc <- blockquote (fst oc) ;;
  oc <- spoiler (fst oc) ;;
  oc <- strikethrough (fst oc) ;;
  oc <- bold (fst oc) ;;
  oc <- underline (fst oc) ;;
  oc <- italics (fst oc) ;;
  remove_escaped_symbol (fst oc).

End Passes.

End BulkDelete.

(** ** Definitions used by the statements *)

(** What [escape_symbols] does to one character. *)
Definition protect {C} `{Glyph C} (x : C) : list C :=
  if is_symbol (code x) then [lit backslash; x] else [x].

(** A backslash immediately followed by a symbol. *)
Fixpoint has_escaped_pair (s : list N) : bool :=
  match s with
  | [] => false
  | x :: t =>
      ((x =? backslash)%N && match t with y :: _ => is_symbol y | [] => false end)
      || has_escaped_pair t
  end.

(** Groups that every match of [r] binds. *)
Fixpoint defines (n : nat) (r : re) : bool :=
  match r with
  | Grp k a => Nat.eqb k n || defines n a
  | Seq a b => defines n a || defines n b
  | Alt a b => defines n a && defines n b
  | _ => false
  end.

Definition bound (n : nat) (c : caps) : bool :=
  match get n c with Some _ => true | None => false end.

(** Provenance: the raw input enters the pipeline with every character
    labelled [FromInput]; whatever the engine writes is [FromEngine]. *)
Definition label (s : list N) : list lchar := map (fun n => (n, FromInput)) s.

Definition erase (s : list lchar) : list N := map fst s.

Definition html_special (c : N) : bool :=
  ((c =? ch "<") || (c =? ch ">") || (c =? ch "&"))%N.

(** A character of the buffer is clean when it is not a markup
    character copied from the input. *)
Definition clean (x : lchar) : Prop :=
  snd x = FromInput -> html_special (fst x) = false.

(** The passes that follow the HTML escape, in pipeline order. *)
Definition construct_passes {C} `{Glyph C} (original_txt : list C)
    : list (list C -> option (list C)) :=
  [ Parser.codeblock; Parser.inline_codeblock; Parser.remove_suppressed_embed_arrows;
    Parser.blockquote; Parser.spoiler; Parser.strikethrough; Parser.bold;
    Parser.underline; Parser.italics; Parser.linkify;
    (fun output => Parser.emojify output original_txt);
    Parser.remove_escaped_symbol ].

Definition run_passes {C} (passes : list (list C -> option (list C))) (buf : list C)
    : option (list C) :=
  fold_left (fun acc pass => bind acc pass) passes (Some buf).

(** The characters some pattern or the HTML escape looks for:
    ` ~ | * _ \ [ : & < > ' and the double quote.  A character is inert
    when it is none of them. *)
Definition marks : list N :=
  codes "`~|*_\[:&<>'" ++ [dquote].

Definition inert (c : N) : bool := negb (existsb (N.eqb c) marks).

(** The least number of characters a match of [r] consumes. *)
Fixpoint min_len (r : re) : nat :=
  match r with
  | Set1 _ => 1
  | Str w => List.length w
  | Seq a b => min_len a + min_len b
  | Alt a b => Nat.min (min_len a) (min_len b)
  | Rep _ lo _ _ => lo
  | Grp _ a => min_len a
  | _ => 0
  end.

Definition parser_patterns : list re :=
  [ Parser.codeblock_pattern; Parser.inlinecodeblock_pattern;
    Parser.strikethrough_pattern; Parser.spoiler_pattern; Parser.bold_pattern;
    Parser.underline_pattern; Parser.italics_pattern; Parser.blockQuote_pattern;
    Parser.symbols_pattern; Parser.escaped_symbols_pattern;
    Parser.suppresed_embed_link_pattern; Parser.web_link_pattern;
    Parser.nitro_emote_pattern; Parser.womboji_pattern ].

Definition bulk_patterns : list re :=
  [ BulkDelete.codeblock_pattern; BulkDelete.inlinecodeblock_pattern;
    BulkDelete.strikethrough_pattern; BulkDelete.spoiler_pattern;
    BulkDelete.bold_pattern; BulkDelete.underline_pattern;
    BulkDelete.italics_pattern1; BulkDelete.italics_pattern2;
    BulkDelete.blockQuote_pattern; BulkDelete.symbols_pattern;
    BulkDelete.escaped_symbols_pattern ].

(** [needs_lit ok r]: every match of [r] contains a literal character
    that fails [ok]. *)
Fixpoint needs_lit (ok : N -> bool) (r : re) : bool :=
  match r with
  | Str w => existsb (fun x => negb (ok x)) w
  | Seq a b => needs_lit ok a || needs_lit ok b
  | Alt a b => needs_lit ok a && needs_lit ok b
  | Grp _ a => needs_lit ok a
  | _ => false
  end.

(** [contains w s]: the text [w] occurs in [s]. *)
Fixpoint contains (w s : list N) : bool :=
  starts_with w s || match s with [] => false | _ :: t => contains w t end.

(** Where the matches of a scan start and end. *)
Definition spans {C} (l : list (Match C)) : list (nat * nat) :=
  map (fun m => (m_start m, m_end m)) l.

(** Group numbers that occur in [r]. *)
Fixpoint binds (n : nat) (r : re) : bool :=
  match r with
  | Grp k a => Nat.eqb k n || binds n a
  | Seq a b | Alt a b => binds n a || binds n b
  | Opt a | NotAhead a => binds n a
  | _ => false
  end.

(** A delimiter character of the formatting passes: a symbol other
    than the backslash. *)
Definition is_delim (x : N) : bool := is_symbol x && negb (x =? backslash)%N.

(** The delimiter-pair patterns of the generic formatting passes. *)
Definition formatting_patterns : list re :=
  [ Parser.spoiler_pattern; Parser.strikethrough_pattern; Parser.bold_pattern;
    Parser.underline_pattern; Parser.italics_pattern ].

(** A match keeps clear of the region [lo, hi) of the buffer: it ends
    before it, starts after it, or has all of it inside one captured
    group, away from the delimiters. *)
Definition keeps_clear {C} (lo hi : nat) (m : Match C) : Prop :=
  m_end m <= lo
  \/ hi <= m_start m
  \/ exists g a b, get g (m_caps m) = Some (a, b)
                   /\ m_start m < a /\ a <= lo /\ hi <= b /\ b < m_end m.

(** Expected renderings, spelled out. *)
Definition div_nohighlight : list N :=
  codes "<div class=" ++ [dquote] ++ codes "pre pre--multiline nohighlight" ++ [dquote]
    ++ codes ">".

Definition span_inline : list N :=
  codes "<span class=" ++ [dquote] ++ codes "pre pre--inline" ++ [dquote] ++ codes ">".

Definition img_tag (classes name id ext : string) : list N :=
  codes "<img class=" ++ [dquote] ++ codes classes ++ [dquote]
    ++ codes " alt=" ++ [dquote] ++ codes name ++ [dquote]
    ++ codes " title=" ++ [dquote] ++ codes name ++ [dquote]
    ++ codes " src=" ++ [dquote] ++ codes "https://cdn.discordapp.com/emojis/"
    ++ codes id ++ codes ext ++ [dquote] ++ codes ">".

(** The condition of the specification for the large emoji size, in its
    own words: once the raw emoji tokens are taken out, the message has
    only whitespace and ASCII punctuation left. *)
Definition raw_token : re :=
  Str (codes "<") ;;; Rep true 0 (Some 1) (Pos [One (ch "a")]) ;;; Str (codes ":") ;;;
  Rep true 2 (Some 32) Parser.emoji_name_cls ;;; Str (codes ":") ;;;
  Rep true 15 (Some 21) Parser.digit_cls ;;; Str (codes ">").

Definition is_punct (c : N) : bool :=
  ((33 <=? c) && (c <=? 47) || (58 <=? c) && (c <=? 64)
   || (91 <=? c) && (c <=? 96) || (123 <=? c) && (c <=? 126))%N.

Definition spec_emoji_only (s : list N) : bool :=
  match sub raw_token (fun _ => Some []) s with
  | Some rest => forallb (fun c => is_space c || is_punct c) rest
  | None => false
  end.

(** The generic formatting passes, in pipeline order. *)
Definition formatting_passes : list (list N -> option (list N)) :=
  [ Parser.spoiler; Parser.strikethrough; Parser.bold; Parser.underline;
    Parser.italics ].

(** [pairs_ok p s]: every two neighbours of [s] satisfy [p]. *)
Fixpoint pairs_ok (p : N -> N -> bool) (s : list N) : bool :=
  match s with
  | [] => true
  | x :: t => match t with [] => true | y :: _ => p x y end && pairs_ok p t
  end.

(** Two neighbours leave the emoji tokens alone: no side-text character
    stands directly before a '<' or directly after a '>'. *)
Definition stands_alone (x y : N) : bool :=
  (negb (y =? ch "<")%N || negb (cls_mem Parser.side_cls x))
  && (negb (x =? ch ">")%N || negb (cls_mem Parser.side_cls y)).

(** ** events/bulkMessageDelete.py: composite messages and message groups *)

(** The exceptions the code below can raise, and a call that returns a
    value or raises. *)
Inductive exn := ValueError | AttributeError | IndexError.

Inductive result (A : Type) :=
| Ok (a : A)
| Raise (e : exn).

Arguments Ok {A} _.
Arguments Raise {A} _.

Definition rbind {A B} (r : result A) (k : A -> result B) : result B :=
  match r with Ok a => k a | Raise e => Raise e end.

Notation "x <~ e ;; k" := (rbind e (fun x => k))
  (at level 61, e at next level, right associativity).

(** An int interpolated in an f-string. *)
Definition str_int (n : N) : list N := codes (NilEmpty.string_of_uint (N.to_uint n)).

Fixpoint str_eqb (a b : list N) : bool :=
  match a, b with
  | [], [] => true
  | x :: a', y :: b' => (x =? y)%N && str_eqb a' b'
  | _, _ => false
  end.

Definition is_some {A} (o : option A) : bool :=
  match o with Some _ => true | None => false end.

(** What the code reads of a discord.User or discord.Member. *)
Module User.
Record t := mk {
  id : N;
  name : list N;
  discriminator : list N;
  display_name : list N;
  avatar_url : list N            (* str(avatar_url_as(static_format='png')) *)
}.
End User.

(** What the code reads of a discord.Message; an instant is a number. *)
Module Message.
Record t := mk {
  id : N;
  content : list N;
  author : User.t;
  created_at : N
}.
End Message.

(** The attributes the code reads of a row of the message cache
    (db.CachedMessage). *)
Module CachedMessage.
Record t := mk {
  message_id : N;
  user_id : N;
  ts : N;
  content : list N;
  webhook_author_name : option (list N);
  system_pkid : option (list N);
  member_pkid : option (list N);
  pk_system_account_id : option N
}.
End CachedMessage.

(** class CompositeMessage.  The object is given by the arguments of its
    constructor; [bot] is bot.get_user, a lookup that may find no user.
    The attributes [exists] and [_author] are set once by the
    constructor from these arguments. *)
Module CompositeMessage.

Record t := mk {
  bot : N -> option User.t;
  _msg_id : N;
  mem_msg : option Message.t;
  db_msg : option CachedMessage.t
}.

Definition exists_ (self : t) : bool := is_some (mem_msg self) || is_some (db_msg self).

Definition id (self : t) : N := _msg_id self.

(** "self.mem_msg.author if self.mem_msg is not None else
    self.bot.get_user(self.db_msg.user_id)", evaluated only when one of
    the two is there. *)
Definition find_author (self : t) : option User.t :=
  match mem_msg self, db_msg self with
  | Some mm, _ => Some (Message.author mm)
  | None, Some d => bot self (CachedMessage.user_id d)
  | None, None => None
  end.

Definition get_author (self : t) : option User.t :=
  match mem_msg self, db_msg self with
  | None, None => None
  | _, _ => find_author self
  end.

Definition _author (self : t) : option User.t := get_author self.

(** The property: a second lookup when the first one found nobody. *)
Definition author (self : t) : option User.t :=
  match mem_msg self, db_msg self with
  | None, None => None
  | _, _ =>
      match _author self with
      | Some a => Some a
      | None => find_author self
      end
  end.

Definition raw_content (self : t) : list N :=
  match mem_msg self, db_msg self with
  | None, None => codes "Message was not in the cache"
  | Some mm, _ => Message.content mm
  | None, Some d => CachedMessage.content d
  end.

(** The text goes through the DiscordMarkdown copy of this file. *)
Definition content (self : t) : option (list N) :=
  match mem_msg self, db_msg self with
  | None, None => Some (codes "Message was not in the cache")
  | Some mm, _ => BulkDelete.markdown (Message.content mm)
  | None, Some d => BulkDelete.markdown (CachedMessage.content d)
  end.

Definition created_at (self : t) : option N :=
  match mem_msg self, db_msg self with
  | None, None => None
  | Some mm, _ => Some (Message.created_at mm)
  | None, Some d => Some (CachedMessage.ts d)
  end.

(** [r] is the value randint(0, 4) returns in this call. *)
Definition author_pfp (r : N) (self : t) : result (list N) :=
  let default := codes "https://cdn.discordapp.com/embed/avatars/" ++ str_int r
                   ++ codes ".png" in
  match _author self with
  | Some _ =>
      match author self with
      | Some a => Ok (User.avatar_url a)
      | None => Raise AttributeError
      end
  | None => Ok default
  end.

(** [self._author] as the two name properties read it: after the
    second lookup when it was None. *)
Definition author_again (self : t) : option User.t :=
  match _author self with
  | Some a => Some a
  | None => author self
  end.

Definition display_name (self : t) : result (list N) :=
  match mem_msg self, db_msg self with
  | None, None => Ok (codes "None")
  | _, _ =>
      match db_msg self with
      | Some (CachedMessage.mk _ _ _ _ (Some w) _ _ _) => Ok w
      | _ =>
          match author_again self with
          | Some a => Ok (User.display_name a)
          | None => Raise AttributeError
          end
      end
  end.

Definition user_name_and_discrim (self : t) : result (list N) :=
  match mem_msg self, db_msg self with
  | None, None => Ok (codes "None")
  | _, _ =>
      match db_msg self with
      | Some (CachedMessage.mk _ _ _ _ (Some w) _ _ _) => Ok (w ++ codes "#0000")
      | _ =>
          match author_again self with
          | Some a => Ok (User.name a ++ codes "#" ++ User.discriminator a)
          | None => Raise AttributeError
          end
      end
  end.

Definition system_id (self : t) : option (list N) :=
  match db_msg self with Some d => CachedMessage.system_pkid d | None => None end.

Definition member_id (self : t) : option (list N) :=
  match db_msg self with Some d => CachedMessage.member_pkid d | None => None end.

Definition is_pk (self : t) : bool := is_some (system_id self).

Definition pk_system_owner (self : t) : option User.t :=
  match db_msg self with
  | Some d =>
      match CachedMessage.pk_system_account_id d with
      | Some a => bot self a
      | None => None
      end
  | None => None
  end.

End CompositeMessage.

(** "message.created_at or FakeDateTime()" *)
Inductive stamp := At (t : N) | FakeDateTime.

(** class MessageGroup *)
Module MessageGroup.

Record t := mk {
  messages : list CompositeMessage.t;
  uncached_group : bool;
  author : option User.t;
  created_at : stamp;
  author_pfp : list N;
  author_username : list N;
  author_display_name : list N;
  is_pk : bool;
  author_info : list N
}.

(** __init__; [r] is the random number its call of author_pfp draws. *)
Definition init (r : N) (message : CompositeMessage.t) : result t :=
  let uncached_group := negb (CompositeMessage.exists_ message) in
  let author := CompositeMessage.author message in
  let created_at :=
    match CompositeMessage.created_at message with Some d => At d | None => FakeDateTime end in
  author_pfp <~ CompositeMessage.author_pfp r message ;;
  author_username <~ CompositeMessage.user_name_and_discrim message ;;
  author_display_name <~ CompositeMessage.display_name message ;;
  let is_pk := CompositeMessage.is_pk message in
  let author_info :=
    if is_pk then
      codes "(System ID: " ++ fmt (CompositeMessage.system_id message)
        ++ codes ", Member ID: " ++ fmt (CompositeMessage.member_id message) ++ codes ")"
    else if uncached_group || negb (is_some author) then []
    else match author with
         | Some a => codes "(" ++ str_int (User.id a) ++ codes ")"
         | None => []
         end in
  Ok (mk [message] uncached_group author created_at author_pfp author_username
         author_display_name is_pk author_info).

Definition count (self : t) : nat := List.length (messages self).

Definition push (self : t) (message : CompositeMessage.t) : t :=
  mk (messages self ++ [message]) (uncached_group self) (author self) (created_at self)
     (author_pfp self) (author_username self) (author_display_name self) (is_pk self)
     (author_info self).

(** The test of the second branch of [append]: both authors are there,
    the id of the group's author is compared with itself, and the two
    names are equal. *)
Definition same_author (self : t) (message : CompositeMessage.t) : bool :=
  match CompositeMessage.author message, author self with
  | Some a, Some b => (User.id b =? User.id b)%N && str_eqb (User.name a) (User.name b)
  | _, _ => false
  end.

Definition append (self : t) (message : CompositeMessage.t) : result t :=
  if negb (CompositeMessage.exists_ message) && uncached_group self then
    Ok (push self message)
  else if same_author self message then
    Ok (push self message)
  else Raise ValueError.

End MessageGroup.

(** class MessageGroups: the list [_message_groups]; the last group is
    changed in place by an append that it accepts. *)
Module MessageGroups.

Definition t : Type := list MessageGroup.t.

Definition len (self : t) : nat := List.length self.

Definition last_message_group (self : t) : result MessageGroup.t :=
  match rev self with
  | g :: _ => Ok g
  | [] => Raise IndexError
  end.

Definition append (r : N) (self : t) (message : CompositeMessage.t) : result t :=
  if List.length self =? 0 then
    g <~ MessageGroup.init r message ;;
    Ok (self ++ [g])
  else
    last <~ last_message_group self ;;
    match MessageGroup.append last message with
    | Ok last' => Ok (removelast self ++ [last'])
    | Raise ValueError =>
        g <~ MessageGroup.init r message ;;
        Ok (self ++ [g])
    | Raise e => Raise e
    end.

End MessageGroups.

(** sorted() on a collection of ints. *)
Fixpoint insert_sorted (x : N) (l : list N) : list N :=
  match l with
  | [] => [x]
  | y :: t => if (x <=? y)%N then x :: l else y :: insert_sorted x t
  end.

Definition sorted (l : list N) : list N := fold_right insert_sorted [] l.

(** discord.utils.get(messages, id=msg_id): the first one with that id. *)
Definition utils_get (messages : list Message.t) (msg_id : N) : option Message.t :=
  find (fun m => (Message.id m =? msg_id)%N) messages.

(** "if db_msg is not None: db_cached_messages.append(db_msg)" *)
Definition cache_hit (db_msg : option CachedMessage.t) : list CachedMessage.t :=
  match db_msg with Some d => [d] | None => [] end.

(** The two loops that fill a MessageGroups.  [randint k] is the number
    randint(0, 4) returns when it is called while message number [k] is
    appended; [get_cached_message] and [get_cached_message_for_archive]
    are the two cache queries of the db module. *)
Section Collect.
Variable get_user : N -> option User.t.
Variable get_cached_message : N -> option CachedMessage.t.
Variable get_cached_message_for_archive : N -> option CachedMessage.t.
Variable randint : nat -> N.

(** The state of the loop of on_raw_bulk_message_delete:
    db_cached_messages, message_groups, msg_count. *)
Record collected := mkCollected {
  db_cached_messages : list CachedMessage.t;
  message_groups : MessageGroups.t;
  msg_count : nat
}.

(** comp_msg of the bulk-delete loop *)
Definition bulk_message (cached_messages : list Message.t) (msg_id : N)
    : CompositeMessage.t :=
  let db_msg := get_cached_message msg_id in
  let mem_msg := utils_get cached_messages msg_id in
  CompositeMessage.mk get_user msg_id mem_msg db_msg.

Definition bulk_step (cached_messages : list Message.t) (st : result collected)
    (msg_id : N) : result collected :=
  st <~ st ;;
  let db_msg := get_cached_message msg_id in
  let db_cached_messages := db_cached_messages st ++ cache_hit db_msg in
  let comp_msg := bulk_message cached_messages msg_id in
  groups <~ MessageGroups.append (randint (msg_count st)) (message_groups st) comp_msg ;;
  Ok (mkCollected db_cached_messages groups (msg_count st + 1)).

(** on_raw_bulk_message_delete, from "db_cached_messages = []" to the
    end of its for loop. *)
Definition bulk_collect (message_ids : list N) (cached_messages : list Message.t)
    : result collected :=
  let msg_ids := sorted message_ids in
  fold_left (bulk_step cached_messages) msg_ids (Ok (mkCollected [] [] 0)).

(** The loop of the archive command over the channel history:
    message_groups and actual_msg_count. *)
(** comp_msg of the archive loop *)
Definition archive_message (msg : Message.t) : CompositeMessage.t :=
  let db_msg := get_cached_message_for_archive (Message.id msg) in
  CompositeMessage.mk get_user (Message.id msg) (Some msg) db_msg.

Definition archive_step (st : result (MessageGroups.t * nat)) (msg : Message.t)
    : result (MessageGroups.t * nat) :=
  st <~ st ;;
  let actual_msg_count := snd st + 1 in
  let comp_msg := archive_message msg in
  groups <~ MessageGroups.append (randint (snd st)) (fst st) comp_msg ;;
  Ok (groups, actual_msg_count).

Definition archive_collect (messages : list Message.t) : result (MessageGroups.t * nat) :=
  fold_left archive_step messages (Ok ([], 0)).

End Collect.

(** Appending the messages [l] one after the other, message number [k]
    first. *)
Fixpoint append_all (randint : nat -> N) (k : nat) (self : MessageGroups.t)
    (l : list CompositeMessage.t) : result MessageGroups.t :=
  match l with
  | [] => Ok self
  | m :: l' =>
      self' <~ MessageGroups.append (randint k) self m ;;
      append_all randint (S k) self' l'
  end.

(** The messages of all the groups, in order. *)
Definition all_messages (self : MessageGroups.t) : list CompositeMessage.t :=
  flat_map MessageGroup.messages self.

(** A message for which no name can be shown: it is only in the
    database cache, without a webhook name, and the bot does not find
    its author. *)
Definition nameless (m : CompositeMessage.t) : bool :=
  match CompositeMessage.mem_msg m, CompositeMessage.db_msg m with
  | None, Some d =>
      negb (is_some (CachedMessage.webhook_author_name d))
      && negb (is_some (CompositeMessage.bot m (CachedMessage.user_id d)))
  | _, _ => false
  end.

(** What decides whether [m] goes into the group opened by [m0]: both
    are in no cache, or both have an author and the two names are
    equal. *)
Definition joins (m0 m : CompositeMessage.t) : bool :=
  (negb (CompositeMessage.exists_ m0) && negb (CompositeMessage.exists_ m))
  || match CompositeMessage.author m, CompositeMessage.author m0 with
     | Some a, Some b => str_eqb (User.name a) (User.name b)
     | _, _ => false
     end.

(** The runs of [l]: a run goes on as long as the next message joins
    the one that opened it. *)
Fixpoint runs_from (m0 : CompositeMessage.t) (cur l : list CompositeMessage.t)
    : list (list CompositeMessage.t) :=
  match l with
  | [] => [m0 :: cur]
  | m :: l' =>
      if joins m0 m then runs_from m0 (cur ++ [m]) l'
      else (m0 :: cur) :: runs_from m [] l'
  end.

Definition runs (l : list CompositeMessage.t) : list (list CompositeMessage.t) :=
  match l with
  | [] => []
  | m :: l' => runs_from m [] l'
  end.

(** The state of a group that [m0] opened. *)
Definition opened_by (m0 : CompositeMessage.t) (g : MessageGroup.t) : Prop :=
  MessageGroup.uncached_group g = negb (CompositeMessage.exists_ m0)
  /\ MessageGroup.author g = CompositeMessage.author m0.

(** Sample data of the examples. *)
Definition sample_user (id : N) (name : string) : User.t :=
  User.mk id (codes name) (codes "0001") (codes name)
          (codes "https://cdn.discordapp.com/avatars/1/a.png").

Definition no_users (_ : N) : option User.t := None.

Definition in_memory (id : N) (u : User.t) (content : string) : CompositeMessage.t :=
  CompositeMessage.mk no_users id (Some (Message.mk id (codes content) u 0)) None.

Definition uncached (id : N) : CompositeMessage.t :=
  CompositeMessage.mk no_users id None None.

(** Two users named ann with different ids, one named bob, and two
    messages that are in no cache. *)
Definition sample_messages : list CompositeMessage.t :=
  [ in_memory 1 (sample_user 10 "ann") "hi";
    in_memory 2 (sample_user 11 "ann") "there";
    in_memory 3 (sample_user 12 "bob") "yo";
    uncached 4; uncached 5;
    in_memory 6 (sample_user 12 "bob") "bye" ].

(** ** cmds/dev.py *)

(** An index of a slice, as Python normalises it: a negative index
    counts from the end, and the result is clipped to the sequence. *)
Definition py_index (len i : Z) : Z :=
  if (i <? 0)%Z then Z.max 0 (i + len) else Z.min i len.

(** seq[a:b] *)
Definition py_slice {A} (l : list A) (a b : Z) : list A :=
  let len := Z.of_nat (List.length l) in
  slice l (Z.to_nat (py_index len a)) (Z.to_nat (py_index len b)).

Module Dev.

(** The table text of dump; [rows] holds str(row) for every row. *)
Definition table_msg (rows : list (list N)) : list N :=
  fold_left (fun table_msg row => table_msg ++ row ++ [newline]) rows
            (codes "```python" ++ [newline])
    ++ codes "```".

(** The text of the message that dump sends after its heading. *)
Definition dump (rows : list (list N)) : list N :=
  let table_msg := table_msg rows in
  let len := Z.of_nat (List.length table_msg) in
  if (len >? 2000)%Z then py_slice table_msg (len - 2000) len else table_msg.

(** The rows that past_messages reports. *)
Definition past_messages {A} (rows : list A) (_max : Z) : list A :=
  let len := Z.of_nat (List.length rows) in
  if (len >? _max)%Z then py_slice rows (len - _max) len else rows.

End Dev.

(** ** Definitions used by the rendering properties *)

(** The matcher in continuation form: [K] is tried on every match of
    [r], in order. *)
Definition mtk (r : re) (s : list N) (i : nat) (c : caps)
    (K : nat * caps -> list (nat * caps)) : list (nat * caps) :=
  flat_map K (mt r s i c).

(** A character that is none of [ks]. *)
Definition avoid (ks : list N) (c : N) : bool := negb (existsb (N.eqb c) ks).

(** No two [x] in a row. *)
Definition no_double (x : N) (a b : N) : bool := negb ((a =? x)%N && (b =? x)%N).

(** A delimiter pair around [body], between [pre] and [suf]; where its
    match ends and what it captures. *)
Definition pair_text (d pre body suf : list N) : list N := pre ++ d ++ body ++ d ++ suf.

Definition pair_end (d pre body : list N) : nat :=
  List.length pre + List.length d + List.length body + List.length d.

Definition pair_caps (g : nat) (d pre body : list N) : caps :=
  [(g, (List.length pre + List.length d, List.length pre + List.length d + List.length body))].

Definition spoiler_open : list N :=
  codes "<span class=" ++ [dquote] ++ codes "spoiler" ++ [dquote] ++ codes ">".

(** [nowhere w l]: the word [w] occurs nowhere in [l]. *)
Definition nowhere (w l : list N) : Prop :=
  forall i, starts_with w (skipn i l) = false.

(** [needs_word w r]: every match of [r] contains the word [w]. *)
Fixpoint needs_word (w : list N) (r : re) : bool :=
  match r with
  | Str u => contains w u
  | Seq a b => needs_word w a || needs_word w b
  | Alt a b => needs_word w a && needs_word w b
  | Grp _ a => needs_word w a
  | _ => false
  end.

(** The language tag class of the code-block pattern, "[a-zA-Z0-9-]". *)
Definition lang_cls : cls :=
  Pos [Rng (ch "a") (ch "z"); Rng (ch "A") (ch "Z"); Rng (ch "0") (ch "9"); One (ch "-")].

Definition div_language (lang : list N) : list N :=
  codes "<div class=" ++ [dquote] ++ codes "pre pre--multiline language-" ++ lang
    ++ [dquote] ++ codes ">".

(** What the context of a code element must not contain for the
    element to be the only construct: the code fence, the four
    delimiters, the backslash, and the characters ':' and '&' that
    start a link and an entity. *)
Definition code_marks : list N := codes "`~|*_\:&".

(** What a match of the inline-code pattern captures in
    pre `E` suf. *)
Definition inline_caps (pre E : list N) : caps :=
  [(3, (List.length pre + 1 + List.length E, List.length pre + 1 + List.length E + 1));
   (2, (List.length pre + 1, List.length pre + 1 + List.length E));
   (1, (List.length pre, List.length pre + 1))].

(** A text that is not empty and neither starts nor ends with a line
    break. *)
Definition trimmed (l : list N) : bool :=
  match l with
  | [] => false
  | x :: _ => negb (x =? newline)%N && negb (last l 0%N =? newline)%N
  end.

Definition fence : list N := codes "```".

(** The opening tag of a code block: with the language when there is
    one. *)
Definition code_div (lang : list N) : list N :=
  match lang with
  | [] => div_nohighlight
  | _ :: _ => div_language lang
  end.

(** pre ```lang, line breaks, body, line breaks, ``` suf *)
Definition block_text (pre lang nl1 body nl2 suf : list N) : list N :=
  pre ++ fence ++ lang ++ nl1 ++ body ++ nl2 ++ fence ++ suf.

(** What a match of the code-block pattern captures there. *)
Definition block_caps (pre lang nl1 body nl2 : list N) : caps :=
  let p := List.length pre in
  let q0 := p + 3 + List.length lang + List.length nl1 in
  let q1 := q0 + List.length body in
  let q2 := q1 + List.length nl2 in
  (4, (q2, q2 + 3)) :: (3, (q0, q1))
    :: match lang with
       | [] => [(1, (p, p + 3))]
       | _ :: _ => [(2, (p + 3, p + 3 + List.length lang)); (1, (p, p + 3))]
       end.

Definition block_end (pre lang nl1 body nl2 : list N) : nat :=
  List.length pre + 3 + List.length lang + List.length nl1 + List.length body
    + List.length nl2 + 3.


(** ** Definitions used by the statements on the archive copy *)

(** The characters the patterns of the bulk-delete copy look for, the
    quote marker apart: ` ~ | * _ and the backslash. *)
Definition bulk_marks : list N := codes "`~|*_\".

(** The quote marker of the bulk-delete copy: a raw '>' and a blank. *)
Definition quote_marker : list N := codes "> ".

(** ** Definitions used by the statements on quoted lines *)

(** The blank class of the quote patterns. *)
Definition spc : cls := Pos [One (ch " ")].

(** The shape the quote patterns of the two copies share, with the
    markers [w3] of the triple form and [w1] of the single form. *)
Definition quote_pattern (w3 w1 : list N) : re :=
  Alt (Bol ;;; Rep true 0 None spc ;;; Str w3 ;;; Grp 1 (Rep true 0 None any))
      (Bol ;;; Rep true 0 None spc ;;; Str w1 ;;;
       Grp 2 (Rep true 0 None dot ;;; Rep true 0 None nl_cls)).

(** The markup of a quoted line. *)
Definition quote_div (body : list N) : list N :=
  codes "<div class=" ++ [dquote] ++ codes "quote" ++ [dquote] ++ codes ">"
    ++ body ++ codes "</div>".

(** A quoted line in a buffer: indentation [sp], marker [w1], text
    [body], line breaks [nls]. *)
Definition quote_line (sp w1 body nls : list N) : list N := sp ++ w1 ++ body ++ nls.

Definition quote_caps (pre sp w1 body nls : list N) : caps :=
  [(2, (List.length pre + List.length sp + List.length w1,
        List.length pre + List.length (quote_line sp w1 body nls)))].

(** ** Definitions used by the statements on links *)

(** The two schemes the link patterns accept. *)
Definition scheme (secure : bool) : list N :=
  if secure then codes "https://" else codes "http://".

(** The markup of a link. *)
Definition anchor (href txt : list N) : list N :=
  codes "<a href=" ++ [dquote] ++ href ++ [dquote] ++ codes ">" ++ txt ++ codes "</a>".

(** A character that is neither whitespace nor a control character. *)
Definition visible (c : N) : bool := (32 <? c)%N && negb (is_space c).

(** The text after a word: nothing, or whitespace first. *)
Definition ends_word (suf : list N) : bool :=
  match suf with
  | [] => true
  | y :: _ => is_space y
  end.

Definition bare_caps (pre url : list N) : caps :=
  [(3, (List.length pre, List.length pre + List.length url))].

Definition arrows_caps (pre url : list N) : caps :=
  [(1, (List.length pre + 4, List.length pre + 4 + List.length url))].

(** A labelled link as it is typed: the label in square brackets, then
    the address in round brackets with blanks [b1] and [b2] around it. *)
Definition linked_text (label b1 url b2 : list N) : list N :=
  codes "[" ++ label ++ codes "](" ++ b1 ++ url ++ b2 ++ codes ")".

Definition labelled_caps (pre label b1 url : list N) : caps :=
  let u0 := List.length pre + 1 + List.length label + 2 + List.length b1 in
  [(2, (u0, u0 + List.length url));
   (1, (List.length pre + 1, List.length pre + 1 + List.length label))].


Definition rest_caps (pre sp w3 rest : list N) : caps :=
  [(1, (List.length pre + List.length sp + List.length w3,
        List.length pre + List.length (sp ++ w3 ++ rest)))].

(** ** Definitions used by the statements on emoji tokens *)

(** A letter or a digit: the characters of an emoji name, the
    underscore apart. *)
Definition alnum (c : N) : bool :=
  cls_mem (Pos [Rng (ch "0") (ch "9"); Rng (ch "a") (ch "z"); Rng (ch "A") (ch "Z")]) c.

Definition digit (c : N) : bool := cls_mem Parser.digit_cls c.

(** The mark of an animated emoji. *)
Definition anim (animated : bool) : list N := if animated then codes "a" else [].

(** An emoji token as it is typed, and as it stands in the buffer after
    the HTML escape. *)
Definition emoji_token (animated : bool) (name id : list N) : list N :=
  codes "<" ++ anim animated ++ codes ":" ++ name ++ codes ":" ++ id ++ codes ">".

Definition emoji_escaped (animated : bool) (name id : list N) : list N :=
  codes "&lt;" ++ anim animated ++ codes ":" ++ name ++ codes ":" ++ id ++ codes "&gt;".

(** The image an emoji token renders as. *)
Definition emoji_tag (large animated : bool) (name id : list N) : list N :=
  codes "<img class=" ++ [dquote]
    ++ (if large then codes "emoji emoji--large" else codes "emoji") ++ [dquote]
    ++ codes " alt=" ++ [dquote] ++ name ++ [dquote]
    ++ codes " title=" ++ [dquote] ++ name ++ [dquote]
    ++ codes " src=" ++ [dquote] ++ codes "https://cdn.discordapp.com/emojis/" ++ id
    ++ (if animated then codes ".gif" else codes ".png") ++ [dquote] ++ codes ">".

(** What the size detector takes for text next to a token: a character
    of its side class, or one of the separators 28 to 31, which the
    whitespace class of Python's re matches as well. *)
Definition side_text (c : N) : bool :=
  cls_mem Parser.side_cls c || ((28 <=? c) && (c <=? 31))%N.

Definition last_is (p : N -> bool) (l : list N) : bool :=
  match l with
  | x :: t => p (last t x)
  | [] => false
  end.

Definition first_is (p : N -> bool) (l : list N) : bool :=
  match l with
  | x :: _ => p x
  | [] => false
  end.

(** The captures of the token pattern on a token at the end of [pre]. *)
Definition emoji_caps (animated : bool) (pre name id : list N) : caps :=
  let n0 := List.length pre + 4 + List.length (anim animated) + 1 in
  let d0 := n0 + List.length name + 1 in
  (3, (d0, d0 + List.length id)) :: (2, (n0, n0 + List.length name))
    :: (if animated then [(1, (List.length pre + 4, List.length pre + 5))] else []).


(** ** Definitions used by the statements on code in the archive copy *)

(** Two neighbours open no quote of the archive copy: a '>' does not
    come after a blank or a line break. *)
Definition opens_no_quote (x y : N) : bool :=
  negb (y =? ch ">")%N || negb ((x =? ch " ") || (x =? newline))%N.

(** ** Definitions used by the statements on the two copies *)

(** The characters that the HTML escape of the parser copy rewrites. *)
Definition escaped_chars : list N := codes "&<>'" ++ [dquote].

(** No colon directly before a slash: no link address can stand in
    such a buffer. *)
Definition no_scheme (x y : N) : bool := negb ((y =? ch "/") && (x =? ch ":"))%N.

(** The tags that the passes of both copies write, in the pieces they
    are put together from, and all the characters the passes write on
    their own: those of the tags and the protection backslash. *)
Definition engine_tags : list (list N) :=
  [ codes "<div class=" ++ [dquote] ++ codes "pre pre--multiline nohighlight"
      ++ [dquote] ++ codes ">";
    codes "<div class=" ++ [dquote] ++ codes "pre pre--multiline language-";
    [dquote] ++ codes ">";
    codes "</div>";
    codes "<span class=" ++ [dquote] ++ codes "pre pre--inline" ++ [dquote] ++ codes ">";
    codes "<span class=" ++ [dquote] ++ codes "spoiler" ++ [dquote] ++ codes ">";
    codes "</span>";
    codes "<s>"; codes "</s>"; codes "<strong>"; codes "</strong>";
    codes "<u>"; codes "</u>"; codes "<em>"; codes "</em>" ].

Definition engine_text : list N := backslash :: List.concat engine_tags.

(** No '>' at the start, after a blank or after a line break: no quote
    marker of the archive copy can stand in such a buffer. *)
Definition quote_free (l : list N) : Prop :=
  pairs_ok opens_no_quote l = true /\ first_is (N.eqb (ch ">")) l = false.

(** The six passes that both copies have, in the order both run them. *)
Definition shared_passes (buf : list N) : option (list N) :=
  output <- Parser.codeblock buf ;;
  output <- Parser.inline_codeblock output ;;
  output <- Parser.spoiler output ;;
  output <- Parser.strikethrough output ;;
  output <- Parser.bold output ;;
  Parser.underline output.

(** * Properties *)

(** ** Lists and slices *)

Lemma skipn_cons_inv {A} (l : list A) i x t :
  skipn i l = x :: t -> nth_error l i = Some x /\ skipn (S i) l = t.
Proof.
  revert l; induction i as [|i IH]; intros [|y l] E; simpl in *; try discriminate.
  - inversion E; auto.
  - destruct (IH _ E) as [E1 E2]. split; [exact E1|].
    destruct l; [destruct i; discriminate | exact E2].
Qed.

Lemma skipn_nil_inv {A} (l : list A) i : skipn i l = [] -> nth_error l i = None.
Proof.
  revert l; induction i as [|i IH]; intros [|y l] E; simpl in *;
    try discriminate; auto.
Qed.

Lemma slice_one {A} (l : list A) i x t : skipn i l = x :: t -> slice l i (S i) = [x].
Proof.
  intros E. unfold slice. replace (S i - i) with 1 by lia. rewrite E. reflexivity.
Qed.

Lemma skipn_map_code {C} `{Glyph C} (l : list C) i :
  skipn i (map code l) = map code (skipn i l).
Proof. apply skipn_map. Qed.

Lemma nth_error_map_code {C} `{Glyph C} (l : list C) i x :
  nth_error l i = Some x -> nth_error (map code l) i = Some (code x).
Proof. intros E. rewrite nth_error_map, E. reflexivity. Qed.

Lemma backslash_is_symbol : is_symbol backslash = true.
Proof. reflexivity. Qed.

(** ** Protect / unprotect *)

Section RoundTrip.
Context {C : Type} `{Glyph C}.

Lemma match_at_symbols (subj : list C) i x t :
  skipn i subj = x :: t ->
  match_at Parser.symbols_pattern (map code subj) i =
    if is_symbol (code x) then Some (S i, [(1, (i, S i))]) else None.
Proof.
  intros E. destruct (skipn_cons_inv _ _ _ _ E) as [E1 _].
  unfold match_at, Parser.symbols_pattern. cbn [mt].
  rewrite (nth_error_map_code _ _ _ E1). unfold is_symbol.
  destruct (cls_mem sym_cls (code x)); reflexivity.
Qed.

Lemma protect_symbol (x : C) :
  is_symbol (code x) = true -> protect x = [lit backslash; x].
Proof. intros E. unfold protect. rewrite E. reflexivity. Qed.

Lemma protect_plain (x : C) : is_symbol (code x) = false -> protect x = [x].
Proof. intros E. unfold protect. rewrite E. reflexivity. Qed.

Lemma escape_symbols_repl_one (subj : list C) i e x t :
  skipn i subj = x :: t ->
  Parser.escape_symbols_repl (mkMatch subj i e [(1, (i, S i))]) = Some [lit backslash; x].
Proof.
  intros E. unfold Parser.escape_symbols_repl, group.
  cbn [m_caps m_string get Nat.eqb]. rewrite (slice_one _ _ _ _ E). reflexivity.
Qed.

Lemma remove_escaped_symbol_repl_one (subj : list C) i b e x t :
  skipn i subj = x :: t ->
  Parser.remove_escaped_symbol_repl (mkMatch subj b e [(1, (i, S i))]) = Some [x].
Proof.
  intros E. unfold Parser.remove_escaped_symbol_repl, group.
  cbn [m_caps m_string get Nat.eqb]. rewrite (slice_one _ _ _ _ E). reflexivity.
Qed.

Lemma escape_symbols_loop (subj rest : list C) i :
  skipn i subj = rest ->
  sub_loop Parser.symbols_pattern Parser.escape_symbols_repl subj (map code subj) rest i 0
  = Some (flat_map protect rest).
Proof.
  revert i; induction rest as [|x rest IH]; intros i E.
  - cbn [sub_loop]. unfold match_at, Parser.symbols_pattern. cbn [mt].
    rewrite nth_error_map, (skipn_nil_inv _ _ E). reflexivity.
  - cbn [sub_loop flat_map]. rewrite (match_at_symbols _ _ _ _ E).
    destruct (skipn_cons_inv _ _ _ _ E) as [_ E2].
    destruct (is_symbol (code x)) eqn:Sx.
    + rewrite (escape_symbols_repl_one _ _ _ _ _ E), (protect_symbol _ Sx). cbn [bind].
      replace (S i - i - 1) with 0 by lia. rewrite (IH _ E2). cbn [bind].
      replace (S i <=? i) with false by (symmetry; apply Nat.leb_gt; lia).
      reflexivity.
    + rewrite (IH _ E2), (protect_plain _ Sx). reflexivity.
Qed.

(** [escape_symbols] prefixes one backslash to every symbol. *)
Lemma escape_symbols_spec (s : list C) :
  Parser.escape_symbols s = Some (flat_map protect s).
Proof. apply escape_symbols_loop. reflexivity. Qed.

Lemma remove_escaped_loop (subj : list C) (s : list C) i :
  skipn i subj = flat_map protect s ->
  sub_loop Parser.escaped_symbols_pattern Parser.remove_escaped_symbol_repl
    subj (map code subj) (flat_map protect s) i 0 = Some s.
Proof.
  revert i; induction s as [|x s IH]; intros i E.
  - cbn [flat_map] in *. cbn [sub_loop].
    unfold match_at, Parser.escaped_symbols_pattern. cbn [mt].
    rewrite skipn_map_code, E. reflexivity.
  - cbn [flat_map] in *.
    destruct (is_symbol (code x)) eqn:Sx.
    + rewrite (protect_symbol _ Sx) in *. cbn [app] in *.
      destruct (skipn_cons_inv _ _ _ _ E) as [_ E2].
      destruct (skipn_cons_inv _ _ _ _ E2) as [Ex E3].
      cbn [sub_loop].
      assert (M : match_at Parser.escaped_symbols_pattern (map code subj) i
                  = Some (S (S i), [(1, (S i, S (S i)))])).
      { unfold match_at, Parser.escaped_symbols_pattern. cbn [mt].
        rewrite skipn_map_code, E. cbn [map starts_with List.length].
        rewrite code_lit, N.eqb_refl. cbn [andb flat_map fst snd].
        replace (i + 1) with (S i) by lia.
        rewrite (nth_error_map_code _ _ _ Ex). fold (is_symbol (code x)). rewrite Sx.
        reflexivity. }
      rewrite M, (remove_escaped_symbol_repl_one _ _ _ _ _ _ E2). cbn [bind].
      replace (S (S i) - i - 1) with 1 by lia.
      cbn [sub_loop]. rewrite (IH _ E3). cbn [bind].
      replace (S (S i) <=? i) with false by (symmetry; apply Nat.leb_gt; lia).
      reflexivity.
    + rewrite (protect_plain _ Sx) in *. cbn [app] in *.
      destruct (skipn_cons_inv _ _ _ _ E) as [_ E2].
      cbn [sub_loop].
      assert (M : match_at Parser.escaped_symbols_pattern (map code subj) i = None).
      { unfold match_at, Parser.escaped_symbols_pattern. cbn [mt].
        rewrite skipn_map_code, E. cbn [map starts_with].
        destruct (N.eqb_spec backslash (code x)) as [Eb|Eb]; [|reflexivity].
        rewrite <- Eb, backslash_is_symbol in Sx. discriminate. }
      rewrite M, (IH _ E2). reflexivity.
Qed.

(** The round trip holds for every string. *)
Lemma unprotect_protect (s : list C) :
  bind (Parser.escape_symbols s) Parser.remove_escaped_symbol = Some s.
Proof.
  rewrite escape_symbols_spec. cbn [bind].
  apply remove_escaped_loop. reflexivity.
Qed.

End RoundTrip.

(** C3: for every string [s] without a backslash immediately followed
    by a symbol, [escape_symbols] returns [s] with exactly one backslash
    put before each character that is neither alphanumeric nor
    whitespace, and [remove_escaped_symbol] applied to that result
    returns [s].  (The hypothesis is not needed: see [unprotect_protect].) *)
Theorem protect_unprotect_round_trip (s : list N) :
  has_escaped_pair s = false ->
  Parser.escape_symbols s
    = Some (flat_map (fun x => if is_symbol x then [backslash; x] else [x]) s)
  /\ bind (Parser.escape_symbols s) Parser.remove_escaped_symbol = Some s.
Proof.
  intros _. split.
  - exact (escape_symbols_spec s).
  - exact (unprotect_protect s).
Qed.

Lemma protect_unprotect_round_trip_witness :
  has_escaped_pair (codes "a*b_c `d` e") = false
  /\ (Parser.escape_symbols (codes "a*b_c `d` e") = Some (codes "a\*b\_c \`d\` e")
      /\ bind (Parser.escape_symbols (codes "a*b_c `d` e")) Parser.remove_escaped_symbol
         = Some (codes "a*b_c `d` e")).
Proof.
  split; [reflexivity|].
  exact (protect_unprotect_round_trip (codes "a*b_c `d` e") eq_refl).
Defined.

(** ** The matcher *)

Lemma hd_error_In {A} (l : list A) x : hd_error l = Some x -> In x l.
Proof. destruct l; simpl; intros E; [discriminate | inversion E; auto]. Qed.

Lemma match_at_In r s i j c : match_at r s i = Some (j, c) -> In (j, c) (mt r s i []).
Proof. apply hd_error_In. Qed.

Lemma in_mt_seq a b s i c j c' :
  In (j, c') (mt (a ;;; b) s i c) <->
  exists k c1, In (k, c1) (mt a s i c) /\ In (j, c') (mt b s k c1).
Proof.
  cbn [mt]. rewrite in_flat_map. split.
  - intros [[k c1] [H1 H2]]. exists k, c1. auto.
  - intros (k & c1 & H1 & H2). exists (k, c1). auto.
Qed.

Lemma in_mt_grp n a s i c j c' :
  In (j, c') (mt (Grp n a) s i c) <->
  exists c1, In (j, c1) (mt a s i c) /\ c' = (n, (i, j)) :: c1.
Proof.
  cbn [mt]. rewrite in_map_iff. split.
  - intros [[k c1] [E H]]. cbn [fst snd] in E. inversion E; subst. eauto.
  - intros (c1 & H & ->). exists (j, c1). auto.
Qed.

Lemma flat_map_nil {A B} (f : A -> list B) l :
  (forall x, In x l -> f x = []) -> flat_map f l = [].
Proof.
  induction l as [|x l IH]; intros Hf; simpl; [reflexivity|].
  rewrite (Hf x (or_introl eq_refl)), IH; auto. intros y Hy. apply Hf. right; exact Hy.
Qed.

Lemma mt_bound n r : forall s i c j c',
  In (j, c') (mt r s i c) ->
  bound n c = true \/ defines n r = true -> bound n c' = true.
Proof.
  induction r; intros s i c j c' Hin Hd; cbn [defines] in Hd;
    try (assert (Hc : bound n c = true) by (destruct Hd; [assumption|discriminate]);
         clear Hd).
  - cbn [mt] in Hin. destruct (nth_error s i); [|destruct Hin].
    destruct (cls_mem k n0); [|destruct Hin].
    destruct Hin as [E|[]]. inversion E; subst; exact Hc.
  - cbn [mt] in Hin. destruct (starts_with w (skipn i s)); [|destruct Hin].
    destruct Hin as [E|[]]. inversion E; subst; exact Hc.
  - apply in_mt_seq in Hin. destruct Hin as (k & c1 & H1 & H2).
    destruct Hd as [Hd|Hd].
    + eapply IHr2; [exact H2|]. left. eapply IHr1; [exact H1|]. left; exact Hd.
    + apply orb_true_iff in Hd. destruct Hd as [Hd|Hd].
      * eapply IHr2; [exact H2|]. left. eapply IHr1; [exact H1|]. right; exact Hd.
      * eapply IHr2; [exact H2|]. right; exact Hd.
  - cbn [mt] in Hin. apply in_app_or in Hin.
    assert (Hd' : (bound n c = true \/ defines n r1 = true)
                  /\ (bound n c = true \/ defines n r2 = true)).
    { destruct Hd as [Hd|Hd]; [auto|]. apply andb_true_iff in Hd. tauto. }
    destruct Hin as [Hin|Hin]; [eapply IHr1|eapply IHr2]; try exact Hin; tauto.
  - cbn [mt] in Hin. apply in_map_iff in Hin. destruct Hin as (e & E & _).
    inversion E; subst; exact Hc.
  - cbn [mt] in Hin. apply in_app_or in Hin. destruct Hin as [Hin|[E|[]]].
    + eapply IHr; [exact Hin|]. left; exact Hc.
    + inversion E; subst; exact Hc.
  - apply in_mt_grp in Hin. destruct Hin as (c1 & H1 & ->).
    unfold bound. cbn [get]. destruct (Nat.eqb n0 n) eqn:En; [reflexivity|].
    fold (bound n c1). eapply IHr; [exact H1|].
    cbn [orb] in Hd. exact Hd.
  - cbn [mt] in Hin. destruct (prev_is (cls_mem k) s i); [destruct Hin|].
    destruct Hin as [E|[]]. inversion E; subst; exact Hc.
  - cbn [mt] in Hin. destruct (mt r s i c); [|destruct Hin].
    destruct Hin as [E|[]]. inversion E; subst; exact Hc.
  - cbn [mt] in Hin. destruct ((i =? 0) || prev_is (N.eqb newline) s i); [|destruct Hin].
    destruct Hin as [E|[]]. inversion E; subst; exact Hc.
  - cbn [mt] in Hin. destruct (get n0 c) as [[a b]|]; [|destruct Hin].
    destruct (starts_with (slice s a b) (skipn i s)); [|destruct Hin].
    destruct Hin as [E|[]]. inversion E; subst; exact Hc.
Qed.

Lemma match_at_defines n r s i j c :
  defines n r = true -> match_at r s i = Some (j, c) -> bound n c = true.
Proof.
  intros Hd Hm. eapply mt_bound; [apply match_at_In; exact Hm|]. right; exact Hd.
Qed.

(** Every match consumes at least [min_len r] characters; no pattern of
    either engine matches the empty string. *)
Lemma mt_min_len r : forall s i c j c', In (j, c') (mt r s i c) -> i + min_len r <= j.
Proof.
  induction r; intros s i c j c' Hin; cbn [min_len].
  - cbn [mt] in Hin. destruct (nth_error s i); [|destruct Hin].
    destruct (cls_mem k n); [|destruct Hin]. destruct Hin as [E|[]].
    inversion E; lia.
  - cbn [mt] in Hin. destruct (starts_with w (skipn i s)); [|destruct Hin].
    destruct Hin as [E|[]]. inversion E; lia.
  - apply in_mt_seq in Hin. destruct Hin as (k & c1 & H1 & H2).
    apply IHr1 in H1. apply IHr2 in H2. lia.
  - cbn [mt] in Hin. apply in_app_or in Hin. destruct Hin as [H1|H2].
    + apply IHr1 in H1. lia.
    + apply IHr2 in H2. lia.
  - cbn [mt] in Hin. apply in_map_iff in Hin. destruct Hin as (e & E & He).
    inversion E; subst. unfold rep_ends in He.
    destruct (_ <? lo); [destruct He|].
    assert (He' : In j (map (fun d => i + d)
                (seq lo (S match hi with
                           | Some h => Nat.min h (span k (skipn i s))
                           | None => span k (skipn i s)
                           end - lo))))
      by (destruct greedy; [apply in_rev in He|]; exact He).
    apply in_map_iff in He'. destruct He' as (d & <- & Hd). apply in_seq in Hd. lia.
  - cbn [mt] in Hin. apply in_app_or in Hin. destruct Hin as [H1|[E|[]]].
    + apply IHr in H1. lia.
    + inversion E; lia.
  - apply in_mt_grp in Hin. destruct Hin as (c1 & H1 & _). apply IHr in H1. lia.
  - cbn [mt] in Hin. destruct (prev_is (cls_mem k) s i); [destruct Hin|].
    destruct Hin as [E|[]]. inversion E; lia.
  - cbn [mt] in Hin. destruct (mt r s i c); [|destruct Hin].
    destruct Hin as [E|[]]. inversion E; lia.
  - cbn [mt] in Hin. destruct ((i =? 0) || prev_is (N.eqb newline) s i); [|destruct Hin].
    destruct Hin as [E|[]]. inversion E; lia.
  - cbn [mt] in Hin. destruct (get n c) as [[a b]|]; [|destruct Hin].
    destruct (starts_with (slice s a b) (skipn i s)); [|destruct Hin].
    destruct Hin as [E|[]]. inversion E; lia.
Qed.

Lemma patterns_consume :
  forallb (fun r => 1 <=? min_len r) (parser_patterns ++ bulk_patterns) = true.
Proof. reflexivity. Qed.

Lemma group_bound {C} (subj : list C) i j c n :
  bound n c = true -> exists g, group (mkMatch subj i j c) n = Some g.
Proof.
  unfold bound, group. cbn [m_caps m_string].
  destruct (get n c) as [[a b]|]; [eauto|discriminate].
Qed.

(** ** The scan *)

Section ScanFacts.
Context {C : Type} `{Glyph C}.

(** The scan produces a string whenever the callback does on every
    match the engine can report. *)
Lemma sub_loop_total r (repl : Match C -> option (list C)) subj cs :
  (forall i j c, match_at r cs i = Some (j, c) ->
                 exists out, repl (mkMatch subj i j c) = Some out) ->
  forall rest i skip, exists out, sub_loop r repl subj cs rest i skip = Some out.
Proof.
  intros Hr. induction rest as [|x rest IH]; intros i skip.
  - destruct skip; cbn [sub_loop]; [|eauto].
    destruct (match_at r cs i) as [[j c]|] eqn:M; [|eauto].
    destruct (Hr _ _ _ M) as [o ->]. cbn [bind]. eauto.
  - destruct skip; cbn [sub_loop]; [|apply IH].
    destruct (match_at r cs i) as [[j c]|] eqn:M.
    + destruct (Hr _ _ _ M) as [o ->]. cbn [bind].
      destruct (IH (S i) (j - i - 1)) as [tl ->]. cbn [bind]. eauto.
    + destruct (IH (S i) 0) as [tl ->]. cbn [bind]. eauto.
Qed.

(** Every character of the result is a character of the subject or a
    character of a replacement. *)
Lemma sub_loop_Forall (P : C -> Prop) r (repl : Match C -> option (list C)) subj cs :
  (forall i j c o, repl (mkMatch subj i j c) = Some o -> Forall P o) ->
  forall rest i skip out,
    Forall P rest -> sub_loop r repl subj cs rest i skip = Some out -> Forall P out.
Proof.
  intros Hr. induction rest as [|x rest IH]; intros i skip out HP E.
  - destruct skip; cbn [sub_loop] in E; [|inversion E; constructor].
    destruct (match_at r cs i) as [[j c]|]; [|inversion E; constructor].
    destruct (repl (mkMatch subj i j c)) as [o|] eqn:R; [|discriminate].
    cbn [bind] in E. inversion E; subst. eapply Hr; exact R.
  - inversion HP as [|? ? Px Prest]; subst.
    destruct skip; cbn [sub_loop] in E; [|eapply IH; eauto].
    destruct (match_at r cs i) as [[j c]|].
    + destruct (repl (mkMatch subj i j c)) as [o|] eqn:R; [|discriminate].
      cbn [bind] in E.
      destruct (sub_loop r repl subj cs rest (S i) (j - i - 1)) as [tl|] eqn:T;
        [|discriminate].
      cbn [bind] in E. inversion E; subst.
      apply Forall_app; split; [eapply Hr; exact R|].
      apply Forall_app; split; [destruct (j <=? i); auto|].
      eapply IH; eauto.
    + destruct (sub_loop r repl subj cs rest (S i) 0) as [tl|] eqn:T; [|discriminate].
      cbn [bind] in E. inversion E; subst. constructor; [exact Px|]. eapply IH; eauto.
Qed.

(** Where the pattern matches nowhere, the scan copies the subject. *)
Lemma sub_loop_no_match r (repl : Match C -> option (list C)) subj cs :
  (forall i, match_at r cs i = None) ->
  forall rest i, sub_loop r repl subj cs rest i 0 = Some rest.
Proof.
  intros Hn. induction rest as [|x rest IH]; intros i; cbn [sub_loop]; rewrite Hn.
  - reflexivity.
  - rewrite IH. reflexivity.
Qed.

Lemma scan_loop_no_match r subj cs :
  (forall i, match_at r cs i = None) ->
  forall (rest : list C) i, scan_loop r subj cs rest i 0 = [].
Proof.
  intros Hn. induction rest as [|x rest IH]; intros i; cbn [scan_loop]; rewrite Hn.
  - reflexivity.
  - apply IH.
Qed.

(** Every match object of the scan is one the engine reports. *)
Lemma scan_loop_matches r subj cs (Q : Match C -> Prop) :
  (forall i j c, match_at r cs i = Some (j, c) -> Q (mkMatch subj i j c)) ->
  forall (rest : list C) i skip, Forall Q (scan_loop r subj cs rest i skip).
Proof.
  intros HQ. induction rest as [|x rest IH]; intros i skip.
  - destruct skip; cbn [scan_loop]; [|constructor].
    destruct (match_at r cs i) as [[j c]|] eqn:M; constructor; auto.
  - destruct skip; cbn [scan_loop]; [|apply IH].
    destruct (match_at r cs i) as [[j c]|] eqn:M; [constructor; auto|apply IH].
Qed.

End ScanFacts.

(** ** The passes, one by one *)

Lemma match_at_alt a b s i j c :
  match_at (Alt a b) s i = Some (j, c) ->
  In (j, c) (mt a s i []) \/ In (j, c) (mt b s i []).
Proof. intros M. apply match_at_In in M. cbn [mt] in M. apply in_app_or, M. Qed.

Lemma Some_inj {A} (a b : A) : Some a = Some b -> a = b.
Proof. intros E. inversion E. reflexivity. Qed.

Ltac some_inv E := apply Some_inj in E; subst.

Lemma Forall_slice {A} (P : A -> Prop) (l : list A) a b : Forall P l -> Forall P (slice l a b).
Proof.
  intros Hl. unfold slice. apply Forall_forall. intros x Hx.
  apply (proj1 (Forall_forall P l) Hl).
  rewrite <- (firstn_skipn a l). apply in_or_app. right.
  rewrite <- (firstn_skipn (b - a) (skipn a l)). apply in_or_app. left. exact Hx.
Qed.

Section PassFacts.
Context {C : Type} `{Glyph C}.

Lemma sub_total r (repl : Match C -> option (list C)) subj :
  (forall i j c, match_at r (map code subj) i = Some (j, c) ->
                 exists out, repl (mkMatch subj i j c) = Some out) ->
  exists out, sub r repl subj = Some out.
Proof. intros Hr. apply sub_loop_total, Hr. Qed.

Lemma sub_Forall (P : C -> Prop) r (repl : Match C -> option (list C)) subj out :
  Forall P subj ->
  (forall i j c o, repl (mkMatch subj i j c) = Some o -> Forall P o) ->
  sub r repl subj = Some out -> Forall P out.
Proof. intros HP Hr E. eapply sub_loop_Forall; eauto. Qed.

Lemma sub_no_match r (repl : Match C -> option (list C)) subj :
  (forall i, match_at r (map code subj) i = None) -> sub r repl subj = Some subj.
Proof. intros Hn. apply sub_loop_no_match, Hn. Qed.

Variable P : C -> Prop.
Hypothesis P_lit : forall n, P (lit n).

Lemma Forall_text s : Forall P (text s).
Proof. unfold text. apply Forall_forall. intros x Hx.
  apply in_map_iff in Hx. destruct Hx as (n & <- & _). apply P_lit. Qed.

Lemma Forall_q : Forall P Parser.q.
Proof. repeat constructor. apply P_lit. Qed.

Lemma Forall_group subj i j c n g :
  Forall P subj -> group (mkMatch subj i j c) n = Some g -> Forall P g.
Proof.
  unfold group. cbn [m_caps m_string]. intros HP E.
  destruct (get n c) as [[a b]|]; [|discriminate]. some_inv E.
  apply Forall_slice, HP.
Qed.

Lemma Forall_fmt subj i j c n :
  Forall P subj -> Forall P (fmt (group (mkMatch subj i j c) n)).
Proof.
  intros HP. destruct (group (mkMatch subj i j c) n) as [g|] eqn:E; cbn [fmt].
  - eapply Forall_group; eauto.
  - apply Forall_text.
Qed.

Lemma Forall_expand subj i j c n :
  Forall P subj -> Forall P (expand (group (mkMatch subj i j c) n)).
Proof.
  intros HP. destruct (group (mkMatch subj i j c) n) as [g|] eqn:E; cbn [expand].
  - eapply Forall_group; eauto.
  - constructor.
Qed.

Lemma Forall_protect l : Forall P l -> Forall P (flat_map protect l).
Proof.
  induction 1 as [|x l Px Pl IH]; cbn [flat_map]; [constructor|].
  apply Forall_app; split; [|exact IH].
  unfold protect. destruct (is_symbol (code x)); repeat constructor; auto.
Qed.

Lemma Forall_escape l : Forall P l -> Forall P (escape l).
Proof.
  induction 1 as [|x l Px Pl IH]; cbn [escape flat_map]; [constructor|].
  apply Forall_app; split; [|exact IH].
  unfold escape_char.
  repeat match goal with
         | |- Forall P (if ?b then _ else _) => destruct b
         end; try apply Forall_text. repeat constructor; exact Px.
Qed.

Ltac pieces :=
  repeat (apply Forall_app; split);
  try apply Forall_text; try apply Forall_q; try constructor.

Lemma wrap_Forall s_tag e_tag subj i j c o :
  Forall P s_tag -> Forall P e_tag -> Forall P subj ->
  Parser.wrap s_tag e_tag (mkMatch subj i j c) = Some o -> Forall P o.
Proof.
  intros Hs He HP E. unfold Parser.wrap in E. some_inv E.
  pieces; auto. apply Forall_expand, HP.
Qed.

Lemma escape_symbols_Forall l o :
  Forall P l -> Parser.escape_symbols l = Some o -> Forall P o.
Proof.
  intros Hl E. rewrite escape_symbols_spec in E. some_inv E.
  apply Forall_protect, Hl.
Qed.

Lemma remove_escaped_symbol_Forall buf out :
  Forall P buf -> Parser.remove_escaped_symbol buf = Some out -> Forall P out.
Proof.
  intros HP. apply sub_Forall; [exact HP|].
  intros i j c o E. eapply Forall_group; eauto.
Qed.

Lemma codeblock_Forall buf out :
  Forall P buf -> Parser.codeblock buf = Some out -> Forall P out.
Proof.
  intros HP. apply sub_Forall; [exact HP|].
  intros i j c o E. unfold Parser.codeblock_repl in E.
  destruct (group (mkMatch buf i j c) 3) as [g|] eqn:G; [|discriminate].
  cbn [bind] in E.
  destruct (Parser.escape_symbols g) as [g'|] eqn:G'; [|discriminate].
  cbn [bind] in E. some_inv E.
  assert (Forall P g') by (eapply escape_symbols_Forall; [|exact G']; eapply Forall_group; eauto).
  destruct (group (mkMatch buf i j c) 2) as [lang|] eqn:L; pieces; auto.
  exact (Forall_group _ _ _ _ _ _ HP L).
Qed.

Lemma inline_codeblock_Forall buf out :
  Forall P buf -> Parser.inline_codeblock buf = Some out -> Forall P out.
Proof.
  intros HP. apply sub_Forall; [exact HP|].
  intros i j c o E. unfold Parser.inline_codeblock_repl in E.
  destruct (group (mkMatch buf i j c) 2) as [g|] eqn:G; [|discriminate].
  cbn [bind] in E.
  destruct (Parser.escape_symbols g) as [g'|] eqn:G'; [|discriminate].
  cbn [bind] in E. some_inv E.
  assert (Forall P g') by (eapply escape_symbols_Forall; [|exact G']; eapply Forall_group; eauto).
  pieces; auto.
Qed.

Lemma remove_suppressed_embed_arrows_Forall buf out :
  Forall P buf -> Parser.remove_suppressed_embed_arrows buf = Some out -> Forall P out.
Proof.
  intros HP. apply sub_Forall; [exact HP|].
  intros i j c o. apply wrap_Forall; auto.
Qed.

Lemma spoiler_Forall buf out :
  Forall P buf -> Parser.spoiler buf = Some out -> Forall P out.
Proof.
  intros HP. apply sub_Forall; [exact HP|].
  intros i j c o. apply wrap_Forall; auto; pieces.
Qed.

Lemma strikethrough_Forall buf out :
  Forall P buf -> Parser.strikethrough buf = Some out -> Forall P out.
Proof.
  intros HP. apply sub_Forall; [exact HP|].
  intros i j c o. apply wrap_Forall; auto; pieces.
Qed.

Lemma bold_Forall buf out :
  Forall P buf -> Parser.bold buf = Some out -> Forall P out.
Proof.
  intros HP. apply sub_Forall; [exact HP|].
  intros i j c o. apply wrap_Forall; auto; pieces.
Qed.

Lemma underline_Forall buf out :
  Forall P buf -> Parser.underline buf = Some out -> Forall P out.
Proof.
  intros HP. apply sub_Forall; [exact HP|].
  intros i j c o. apply wrap_Forall; auto; pieces.
Qed.

Lemma italics_Forall buf out :
  Forall P buf -> Parser.italics buf = Some out -> Forall P out.
Proof.
  intros HP. apply sub_Forall; [exact HP|].
  intros i j c o E. unfold Parser.italics_repl in E.
  destruct (group (mkMatch buf i j c) 1) as [g1|] eqn:G1.
  - some_inv E. pieces. eapply Forall_group; eauto.
  - destruct (group (mkMatch buf i j c) 2) as [g2|] eqn:G2; [|discriminate].
    some_inv E. pieces. eapply Forall_group; eauto.
Qed.

Lemma blockquote_Forall buf out :
  Forall P buf -> Parser.blockquote buf = Some out -> Forall P out.
Proof.
  intros HP. apply sub_Forall; [exact HP|].
  intros i j c o E. unfold Parser.blockquote_repl in E.
  destruct (group (mkMatch buf i j c) 1) as [g1|] eqn:G1.
  - some_inv E. pieces. eapply Forall_group; eauto.
  - destruct (group (mkMatch buf i j c) 2) as [g2|] eqn:G2; [|discriminate].
    some_inv E. pieces.
    apply Forall_forall. intros x Hx. apply filter_In in Hx.
    assert (Hg : Forall P g2) by (eapply Forall_group; eauto).
    apply (proj1 (Forall_forall P g2) Hg), Hx.
Qed.

Lemma linkify_Forall buf out :
  Forall P buf -> Parser.linkify buf = Some out -> Forall P out.
Proof.
  intros HP. apply sub_Forall; [exact HP|].
  intros i j c o E. unfold Parser.linkify_repl in E.
  destruct (group (mkMatch buf i j c) 3) as [g3|] eqn:G3.
  - some_inv E. pieces; eapply Forall_group; eauto.
  - destruct (group (mkMatch buf i j c) 2) as [g2|] eqn:G2; [|discriminate].
    some_inv E. pieces; try solve [eapply Forall_group; eauto].
    apply Forall_fmt, HP.
Qed.

Lemma emoji_img_Forall s_tag buf i j c o :
  Forall P s_tag -> Forall P buf ->
  Parser.emoji_img s_tag (mkMatch buf i j c) = Some o -> Forall P o.
Proof.
  intros Hs HP E. unfold Parser.emoji_img in E. some_inv E.
  destruct (Parser.truthy (group (mkMatch buf i j c) 1));
    pieces; auto; apply Forall_fmt, HP.
Qed.

Lemma emojify_Forall buf original_txt out :
  Forall P buf -> Parser.emojify buf original_txt = Some out -> Forall P out.
Proof.
  intros HP. unfold Parser.emojify.
  destruct (Parser.womboji original_txt); (apply sub_Forall; [exact HP|]);
    intros i j c o; apply emoji_img_Forall; auto; pieces.
Qed.

End PassFacts.

(** ** Every pass returns a string *)

Section Totality.
Context {C : Type} `{Glyph C}.

Lemma group_of_match n r (subj : list C) cs i j c :
  defines n r = true -> match_at r cs i = Some (j, c) ->
  exists g, group (mkMatch subj i j c) n = Some g.
Proof. intros Hd M. apply group_bound. eapply match_at_defines; eauto. Qed.

Lemma group_of_branch n r (subj : list C) cs i j c :
  defines n r = true -> In (j, c) (mt r cs i []) ->
  exists g, group (mkMatch subj i j c) n = Some g.
Proof.
  intros Hd M. apply group_bound. eapply mt_bound; [exact M|]. right; exact Hd.
Qed.

Lemma remove_escaped_symbol_total buf :
  exists out, Parser.remove_escaped_symbol buf = Some out.
Proof.
  apply sub_total. intros i j c M. unfold Parser.remove_escaped_symbol_repl.
  eapply group_of_match; [|exact M]. reflexivity.
Qed.

Lemma codeblock_repl_total (subj : list C) cs i j c :
  match_at Parser.codeblock_pattern cs i = Some (j, c) ->
  exists out, Parser.codeblock_repl (mkMatch subj i j c) = Some out.
Proof.
  intros M. unfold Parser.codeblock_repl.
  destruct (group_of_match 3 Parser.codeblock_pattern subj _ _ _ _ eq_refl M) as [g ->]. cbn [bind].
  rewrite escape_symbols_spec. cbn [bind]. eauto.
Qed.

Lemma inline_codeblock_repl_total (subj : list C) cs i j c :
  match_at Parser.inlinecodeblock_pattern cs i = Some (j, c) ->
  exists out, Parser.inline_codeblock_repl (mkMatch subj i j c) = Some out.
Proof.
  intros M. unfold Parser.inline_codeblock_repl.
  destruct (group_of_match 2 Parser.inlinecodeblock_pattern subj _ _ _ _ eq_refl M) as [g ->]. cbn [bind].
  rewrite escape_symbols_spec. cbn [bind]. eauto.
Qed.

(** The fallback branch of [italics_repl] is never taken. *)
Lemma italics_repl_total (subj : list C) cs i j c :
  match_at Parser.italics_pattern cs i = Some (j, c) ->
  exists out, Parser.italics_repl (mkMatch subj i j c) = Some out.
Proof.
  intros M. unfold Parser.italics_repl.
  destruct (match_at_alt _ _ _ _ _ _ M) as [B|B].
  - destruct (group_of_branch 1 Parser.italics_star subj _ _ _ _ eq_refl B) as [g ->]. eauto.
  - destruct (group_of_branch 2 Parser.italics_under subj _ _ _ _ eq_refl B) as [g ->].
    destruct (group (mkMatch subj i j c) 1); eauto.
Qed.

(** The fallback branch of [blockquote_repl] is never taken. *)
Lemma blockquote_repl_total (subj : list C) cs i j c :
  match_at Parser.blockQuote_pattern cs i = Some (j, c) ->
  exists out, Parser.blockquote_repl (mkMatch subj i j c) = Some out.
Proof.
  intros M. unfold Parser.blockquote_repl.
  destruct (match_at_alt _ _ _ _ _ _ M) as [B|B].
  - destruct (group_of_branch 1 Parser.blockQuote_triple subj _ _ _ _ eq_refl B) as [g ->]. eauto.
  - destruct (group_of_branch 2 Parser.blockQuote_single subj _ _ _ _ eq_refl B) as [g ->].
    destruct (group (mkMatch subj i j c) 1); eauto.
Qed.

(** The fallback branch of [linkify_repl] is never taken. *)
Lemma linkify_repl_total (subj : list C) cs i j c :
  match_at Parser.web_link_pattern cs i = Some (j, c) ->
  exists out, Parser.linkify_repl (mkMatch subj i j c) = Some out.
Proof.
  intros M. unfold Parser.linkify_repl.
  destruct (match_at_alt _ _ _ _ _ _ M) as [B|B].
  - destruct (group_of_branch 2 Parser.labelled_link subj _ _ _ _ eq_refl B) as [g ->].
    destruct (group (mkMatch subj i j c) 3); eauto.
  - destruct (group_of_branch 3 Parser.bare_link subj _ _ _ _ eq_refl B) as [g ->]. eauto.
Qed.

Lemma wrap_total r s_tag e_tag (buf : list C) :
  exists out, sub r (Parser.wrap s_tag e_tag) buf = Some out.
Proof. apply sub_total. intros i j c _. unfold Parser.wrap. eauto. Qed.

Lemma emojify_total (buf original_txt : list C) :
  exists out, Parser.emojify buf original_txt = Some out.
Proof.
  unfold Parser.emojify. destruct (Parser.womboji original_txt);
    apply sub_total; intros i j c _; unfold Parser.wombojify_repl, Parser.emojify_repl,
      Parser.emoji_img; eauto.
Qed.

Lemma markdown_returns (_input : list C) :
  exists out, Parser.markdown _input = Some out.
Proof.
  unfold Parser.markdown.
  destruct (sub_total _ _ (escape _input) (codeblock_repl_total _ _)) as [b1 E1].
  fold (Parser.codeblock (escape _input)) in E1. rewrite E1. cbn [bind].
  destruct (sub_total _ _ b1 (inline_codeblock_repl_total _ _)) as [b2 E2].
  fold (Parser.inline_codeblock b1) in E2. rewrite E2. cbn [bind].
  destruct (wrap_total Parser.suppresed_embed_link_pattern [] [] b2) as [b3 E3].
  fold (Parser.remove_suppressed_embed_arrows b2) in E3. rewrite E3. cbn [bind].
  destruct (sub_total _ _ b3 (blockquote_repl_total _ _)) as [b4 E4].
  fold (Parser.blockquote b3) in E4. rewrite E4. cbn [bind].
  unfold Parser.spoiler, Parser.strikethrough, Parser.bold, Parser.underline.
  destruct (wrap_total Parser.spoiler_pattern
              (text "<span class=" ++ Parser.q ++ text "spoiler" ++ Parser.q ++ text ">")
              (text "</span>") b4) as [b5 ->]. cbn [bind].
  destruct (wrap_total Parser.strikethrough_pattern (text "<s>") (text "</s>") b5)
    as [b6 ->]. cbn [bind].
  destruct (wrap_total Parser.bold_pattern (text "<strong>") (text "</strong>") b6)
    as [b7 ->]. cbn [bind].
  destruct (wrap_total Parser.underline_pattern (text "<u>") (text "</u>") b7)
    as [b8 ->]. cbn [bind].
  destruct (sub_total _ _ b8 (italics_repl_total _ _)) as [b9 E9].
  fold (Parser.italics b8) in E9. rewrite E9. cbn [bind].
  destruct (sub_total _ _ b9 (linkify_repl_total _ _)) as [b10 E10].
  fold (Parser.linkify b9) in E10. rewrite E10. cbn [bind].
  destruct (emojify_total b10 _input) as [b11 ->]. cbn [bind].
  apply remove_escaped_symbol_total.
Qed.

End Totality.

(** ** The engine only looks at code points

    A relabelling [f] of the characters that keeps code points and
    template characters commutes with every pass: the labelled run of
    the pipeline is the plain run with labels attached. *)

Lemma forallb_map {A B} (p : B -> bool) (g : A -> B) l :
  forallb p (map g l) = forallb (fun x => p (g x)) l.
Proof. induction l as [|x l IH]; cbn [map forallb]; [reflexivity|]. rewrite IH. reflexivity. Qed.

Lemma forallb_pointwise {A} (p p' : A -> bool) l :
  (forall x, p x = p' x) -> forallb p l = forallb p' l.
Proof.
  intros E. induction l as [|x l IH]; cbn [forallb]; [reflexivity|].
  rewrite E, IH. reflexivity.
Qed.

Section Relabel.
Context {C D : Type} `{Glyph C} `{Glyph D}.
Variable f : C -> D.
Hypothesis f_code : forall x, code (f x) = code x.
Hypothesis f_lit : forall n, f (lit n) = lit n.

Lemma map_code_relabel (l : list C) : map code (map f l) = map code l.
Proof. rewrite map_map. apply map_ext. intros x. apply f_code. Qed.

Lemma slice_map (l : list C) a b : slice (map f l) a b = map f (slice l a b).
Proof. unfold slice. rewrite skipn_map, firstn_map. reflexivity. Qed.

Lemma text_relabel s : map f (text s) = text s.
Proof. unfold text. rewrite map_map. apply map_ext. intros n. apply f_lit. Qed.

Lemma q_relabel : map f Parser.q = Parser.q.
Proof. unfold Parser.q. cbn [map]. rewrite f_lit. reflexivity. Qed.

Lemma group_relabel (subj : list C) i j c n :
  group (mkMatch (map f subj) i j c) n = option_map (map f) (group (mkMatch subj i j c) n).
Proof.
  unfold group. cbn [m_caps m_string]. destruct (get n c) as [[a b]|]; [|reflexivity].
  cbn [option_map]. rewrite slice_map. reflexivity.
Qed.

Lemma fmt_relabel (o : option (list C)) : fmt (option_map (map f) o) = map f (fmt o).
Proof. destruct o; cbn [fmt option_map]; [reflexivity|]. symmetry; apply text_relabel. Qed.

Lemma expand_relabel (o : option (list C)) : expand (option_map (map f) o) = map f (expand o).
Proof. destruct o; reflexivity. Qed.

Lemma truthy_relabel (o : option (list C)) :
  Parser.truthy (option_map (map f) o) = Parser.truthy o.
Proof. destruct o as [[|x l]|]; reflexivity. Qed.

Lemma option_map_bind {A B A' B'} (g : A -> A') (h : B -> B')
    (o : option A) (k : A -> option B) (k' : A' -> option B') :
  (forall x, option_map h (k x) = k' (g x)) ->
  option_map h (bind o k) = bind (option_map g o) k'.
Proof. intros Hk. destruct o; cbn [bind option_map]; auto. Qed.

Lemma sub_loop_relabel r (replC : Match C -> option (list C))
    (replD : Match D -> option (list D)) subj cs :
  (forall i j c, option_map (map f) (replC (mkMatch subj i j c))
                 = replD (mkMatch (map f subj) i j c)) ->
  forall rest i skip,
    option_map (map f) (sub_loop r replC subj cs rest i skip)
    = sub_loop r replD (map f subj) cs (map f rest) i skip.
Proof.
  intros Hr. induction rest as [|x rest IH]; intros i skip.
  - destruct skip; cbn [sub_loop map]; [|reflexivity].
    destruct (match_at r cs i) as [[j c]|]; [|reflexivity].
    rewrite <- Hr. destruct (replC (mkMatch subj i j c)); reflexivity.
  - destruct skip; cbn [sub_loop map]; [|apply IH].
    destruct (match_at r cs i) as [[j c]|].
    + rewrite <- Hr. destruct (replC (mkMatch subj i j c)) as [o|]; [|reflexivity].
      cbn [bind option_map]. rewrite <- IH.
      destruct (sub_loop r replC subj cs rest (S i) (j - i - 1)) as [tl|]; [|reflexivity].
      cbn [bind option_map]. rewrite !map_app. destruct (j <=? i); reflexivity.
    + rewrite <- IH. destruct (sub_loop r replC subj cs rest (S i) 0); reflexivity.
Qed.

Lemma sub_relabel r (replC : Match C -> option (list C))
    (replD : Match D -> option (list D)) subj :
  (forall i j c, option_map (map f) (replC (mkMatch subj i j c))
                 = replD (mkMatch (map f subj) i j c)) ->
  option_map (map f) (sub r replC subj) = sub r replD (map f subj).
Proof.
  intros Hr. unfold sub. rewrite map_code_relabel. apply sub_loop_relabel, Hr.
Qed.

Lemma scan_loop_relabel r (subj : list C) cs : forall rest i skip,
  scan_loop r (map f subj) cs (map f rest) i skip
  = map (fun m => mkMatch (map f (m_string m)) (m_start m) (m_end m) (m_caps m))
        (scan_loop r subj cs rest i skip).
Proof.
  induction rest as [|x rest IH]; intros i skip.
  - destruct skip; cbn [scan_loop map]; [|reflexivity].
    destruct (match_at r cs i) as [[j c]|]; reflexivity.
  - destruct skip; cbn [scan_loop map]; [|apply IH].
    destruct (match_at r cs i) as [[j c]|]; [|apply IH].
    cbn [map m_string m_start m_end m_caps]. rewrite IH. reflexivity.
Qed.

Lemma is_empty_relabel (l : list C) : Parser.is_empty (map f l) = Parser.is_empty l.
Proof. destruct l; reflexivity. Qed.

Lemma womboji_relabel (original_txt : list C) :
  Parser.womboji (map f original_txt) = Parser.womboji original_txt.
Proof.
  unfold Parser.womboji, findall2, finditer.
  rewrite map_code_relabel, scan_loop_relabel, !forallb_map.
  apply forallb_pointwise. intros [subj i j c].
  cbn [fst snd m_string m_start m_end m_caps].
  rewrite !group_relabel, !expand_relabel, !is_empty_relabel. reflexivity.
Qed.

End Relabel.

Section RelabelPasses.
Context {C D : Type} `{Glyph C} `{Glyph D}.
Variable f : C -> D.
Hypothesis f_code : forall x, code (f x) = code x.
Hypothesis f_lit : forall n, f (lit n) = lit n.

Lemma protect_relabel (l : list C) :
  map f (flat_map protect l) = flat_map protect (map f l).
Proof.
  induction l as [|x l IH]; cbn [flat_map map]; [reflexivity|].
  rewrite map_app, IH. f_equal. unfold protect. rewrite f_code.
  destruct (is_symbol (code x)); cbn [map]; rewrite ?f_lit; reflexivity.
Qed.

Lemma escape_symbols_relabel (l : list C) :
  option_map (map f) (Parser.escape_symbols l) = Parser.escape_symbols (map f l).
Proof. rewrite !escape_symbols_spec. cbn [option_map]. rewrite protect_relabel. reflexivity. Qed.

Lemma escape_relabel (l : list C) : map f (escape l) = escape (map f l).
Proof.
  induction l as [|x l IH]; cbn [escape flat_map map]; [reflexivity|].
  rewrite map_app. fold (escape l). fold (escape (map f l)). rewrite IH. f_equal.
  unfold escape_char. rewrite f_code.
  repeat match goal with
         | |- context [if ?b then _ else _] => destruct b
         end; try apply (text_relabel f f_lit). reflexivity.
Qed.

Ltac relabel :=
  rewrite ?map_app, ?(text_relabel f f_lit), ?(q_relabel f f_lit),
    ?(fmt_relabel f f_lit), ?expand_relabel.

Lemma wrap_relabel r (s_tag e_tag : list C) (s_tag' e_tag' : list D) buf :
  map f s_tag = s_tag' -> map f e_tag = e_tag' ->
  option_map (map f) (sub r (Parser.wrap s_tag e_tag) buf)
  = sub r (Parser.wrap s_tag' e_tag') (map f buf).
Proof.
  intros Es Ee. apply (sub_relabel f f_code). intros i j c.
  unfold Parser.wrap. cbn [option_map]. rewrite group_relabel. relabel.
  rewrite Es, Ee. reflexivity.
Qed.

Lemma remove_escaped_symbol_relabel buf :
  option_map (map f) (Parser.remove_escaped_symbol buf)
  = Parser.remove_escaped_symbol (map f buf).
Proof.
  apply (sub_relabel f f_code). intros i j c.
  unfold Parser.remove_escaped_symbol_repl. rewrite group_relabel. reflexivity.
Qed.

Lemma codeblock_relabel buf :
  option_map (map f) (Parser.codeblock buf) = Parser.codeblock (map f buf).
Proof.
  apply (sub_relabel f f_code). intros i j c.
  unfold Parser.codeblock_repl. rewrite !group_relabel.
  destruct (group (mkMatch buf i j c) 3) as [g|]; [|reflexivity].
  cbn [bind option_map]. rewrite <- escape_symbols_relabel.
  destruct (Parser.escape_symbols g) as [g'|]; [|reflexivity].
  cbn [bind option_map].
  destruct (group (mkMatch buf i j c) 2) as [lang|]; cbn [option_map]; relabel;
    reflexivity.
Qed.

Lemma inline_codeblock_relabel buf :
  option_map (map f) (Parser.inline_codeblock buf) = Parser.inline_codeblock (map f buf).
Proof.
  apply (sub_relabel f f_code). intros i j c.
  unfold Parser.inline_codeblock_repl. rewrite !group_relabel.
  destruct (group (mkMatch buf i j c) 2) as [g|]; [|reflexivity].
  cbn [bind option_map]. rewrite <- escape_symbols_relabel.
  destruct (Parser.escape_symbols g) as [g'|]; [|reflexivity].
  cbn [bind option_map]. relabel. reflexivity.
Qed.

Lemma italics_relabel buf :
  option_map (map f) (Parser.italics buf) = Parser.italics (map f buf).
Proof.
  apply (sub_relabel f f_code). intros i j c.
  unfold Parser.italics_repl. rewrite !group_relabel.
  destruct (group (mkMatch buf i j c) 1) as [g1|]; cbn [option_map].
  - relabel. reflexivity.
  - destruct (group (mkMatch buf i j c) 2) as [g2|]; cbn [option_map]; [|reflexivity].
    relabel. reflexivity.
Qed.

Lemma filter_relabel (p : N -> bool) (l : list C) :
  map f (filter (fun x => p (code x)) l) = filter (fun x => p (code x)) (map f l).
Proof.
  induction l as [|x l IH]; cbn [filter map]; [reflexivity|].
  rewrite f_code. destruct (p (code x)); cbn [map]; rewrite IH; reflexivity.
Qed.

Lemma blockquote_relabel buf :
  option_map (map f) (Parser.blockquote buf) = Parser.blockquote (map f buf).
Proof.
  apply (sub_relabel f f_code). intros i j c.
  unfold Parser.blockquote_repl. rewrite !group_relabel.
  destruct (group (mkMatch buf i j c) 1) as [g1|]; cbn [option_map].
  - relabel. reflexivity.
  - destruct (group (mkMatch buf i j c) 2) as [g2|]; cbn [option_map]; [|reflexivity].
    relabel.
    rewrite (filter_relabel (fun n => negb (n =? newline)%N)). reflexivity.
Qed.

Lemma linkify_relabel buf :
  option_map (map f) (Parser.linkify buf) = Parser.linkify (map f buf).
Proof.
  apply (sub_relabel f f_code). intros i j c.
  unfold Parser.linkify_repl. rewrite !group_relabel.
  destruct (group (mkMatch buf i j c) 3) as [g3|]; cbn [option_map].
  - relabel. reflexivity.
  - destruct (group (mkMatch buf i j c) 2) as [g2|]; cbn [option_map]; [|reflexivity].
    relabel. reflexivity.
Qed.

Lemma emoji_img_relabel (s_tag : list C) (s_tag' : list D) buf i j c :
  map f s_tag = s_tag' ->
  option_map (map f) (Parser.emoji_img s_tag (mkMatch buf i j c))
  = Parser.emoji_img s_tag' (mkMatch (map f buf) i j c).
Proof.
  intros Es. unfold Parser.emoji_img. rewrite !group_relabel, truthy_relabel.
  cbn [option_map].
  destruct (Parser.truthy (group (mkMatch buf i j c) 1)); relabel; rewrite Es;
    reflexivity.
Qed.

Lemma emojify_relabel buf original_txt :
  option_map (map f) (Parser.emojify buf original_txt)
  = Parser.emojify (map f buf) (map f original_txt).
Proof.
  unfold Parser.emojify. rewrite (womboji_relabel f f_code).
  destruct (Parser.womboji original_txt); apply (sub_relabel f f_code); intros i j c;
    apply emoji_img_relabel; relabel; reflexivity.
Qed.

Lemma bind_relabel (o : option (list C)) (o' : option (list D)) k k' :
  option_map (map f) o = o' ->
  (forall x, option_map (map f) (k x) = k' (map f x)) ->
  option_map (map f) (bind o k) = bind o' k'.
Proof. intros <- Hk. destruct o; cbn [bind option_map]; auto. Qed.

Lemma markdown_relabel (_input : list C) :
  option_map (map f) (Parser.markdown _input) = Parser.markdown (map f _input).
Proof.
  unfold Parser.markdown. rewrite <- escape_relabel.
  apply bind_relabel; [apply codeblock_relabel|intros b1].
  apply bind_relabel; [apply inline_codeblock_relabel|intros b2].
  apply bind_relabel; [apply wrap_relabel; reflexivity|intros b3].
  apply bind_relabel; [apply blockquote_relabel|intros b4].
  apply bind_relabel; [apply wrap_relabel; relabel; reflexivity|intros b5].
  apply bind_relabel; [apply wrap_relabel; relabel; reflexivity|intros b6].
  apply bind_relabel; [apply wrap_relabel; relabel; reflexivity|intros b7].
  apply bind_relabel; [apply wrap_relabel; relabel; reflexivity|intros b8].
  apply bind_relabel; [apply italics_relabel|intros b9].
  apply bind_relabel; [apply linkify_relabel|intros b10].
  apply bind_relabel; [apply emojify_relabel|intros b11].
  apply remove_escaped_symbol_relabel.
Qed.

End RelabelPasses.

(** ** HTML safety *)

Lemma markdown_as_passes {C} `{Glyph C} (_input : list C) :
  Parser.markdown _input = run_passes (construct_passes _input) (escape _input).
Proof.
  unfold Parser.markdown, run_passes, construct_passes. cbn [fold_left bind].
  destruct (Parser.codeblock (escape _input)) as [b1|]; cbn [bind]; [|reflexivity].
  destruct (Parser.inline_codeblock b1) as [b2|]; cbn [bind]; [|reflexivity].
  destruct (Parser.remove_suppressed_embed_arrows b2) as [b3|]; cbn [bind]; [|reflexivity].
  destruct (Parser.blockquote b3) as [b4|]; cbn [bind]; [|reflexivity].
  destruct (Parser.spoiler b4) as [b5|]; cbn [bind]; [|reflexivity].
  destruct (Parser.strikethrough b5) as [b6|]; cbn [bind]; [|reflexivity].
  destruct (Parser.bold b6) as [b7|]; cbn [bind]; [|reflexivity].
  destruct (Parser.underline b7) as [b8|]; cbn [bind]; [|reflexivity].
  destruct (Parser.italics b8) as [b9|]; cbn [bind]; [|reflexivity].
  destruct (Parser.linkify b9) as [b10|]; cbn [bind]; [|reflexivity].
  destruct (Parser.emojify b10 _input) as [b11|]; cbn [bind]; reflexivity.
Qed.

Lemma clean_lit n : clean (lit n).
Proof. intros E. discriminate E. Qed.

Lemma clean_escape (s : list N) : Forall clean (escape (label s)).
Proof.
  induction s as [|n s IH]; cbn [label map escape flat_map]; [constructor|].
  apply Forall_app; split; [|exact IH].
  unfold escape_char. cbn [code Glyph_lchar fst].
  destruct (n =? ch "&")%N eqn:E1; [apply Forall_text, clean_lit|].
  destruct (n =? ch "<")%N eqn:E2; [apply Forall_text, clean_lit|].
  destruct (n =? ch ">")%N eqn:E3; [apply Forall_text, clean_lit|].
  assert (Forall clean [(n, FromInput)]).
  { repeat constructor. intros _. unfold html_special. cbn [fst].
    rewrite E1, E2, E3. reflexivity. }
  destruct (n =? ch "'")%N; [apply Forall_text, clean_lit|].
  destruct (n =? dquote)%N; [apply Forall_text, clean_lit|]. assumption.
Qed.

Lemma passes_keep_clean (original_txt : list lchar) :
  Forall (fun pass => forall buf buf' : list lchar,
            Forall clean buf -> pass buf = Some buf' -> Forall clean buf')
         (construct_passes original_txt).
Proof.
  unfold construct_passes.
  repeat apply Forall_cons; try apply Forall_nil; intros buf buf'.
  - apply codeblock_Forall, clean_lit.
  - apply inline_codeblock_Forall, clean_lit.
  - apply remove_suppressed_embed_arrows_Forall.
  - apply blockquote_Forall, clean_lit.
  - apply spoiler_Forall, clean_lit.
  - apply strikethrough_Forall, clean_lit.
  - apply bold_Forall, clean_lit.
  - apply underline_Forall, clean_lit.
  - apply italics_Forall, clean_lit.
  - apply linkify_Forall, clean_lit.
  - apply emojify_Forall, clean_lit.
  - apply remove_escaped_symbol_Forall.
Qed.

Lemma run_passes_keep (Q : list lchar -> Prop) passes :
  Forall (fun pass => forall buf buf', Q buf -> pass buf = Some buf' -> Q buf') passes ->
  forall buf out, Q buf -> run_passes passes buf = Some out -> Q out.
Proof.
  unfold run_passes. induction 1 as [|p ps Hp Hps IH]; intros buf out HQ E.
  - cbn [fold_left] in E. some_inv E. exact HQ.
  - cbn [fold_left bind] in E. destruct (p buf) as [b|] eqn:Eb.
    + eapply IH; [|exact E]. eapply Hp; eauto.
    + exfalso. clear -E. induction ps as [|p' ps IHps]; cbn [fold_left bind] in E;
        [discriminate|auto].
Qed.

Lemma label_erase (s : list N) : map fst (label s) = s.
Proof.
  unfold label. rewrite map_map. cbn [fst]. apply map_id.
Qed.

(** C1: HTML safety.  Run the pipeline on the input with every input
    character labelled as such.  The labelled run returns a buffer whose
    code points are exactly the output of [markdown] on the plain input,
    and in that output no '<', '>' or '&' carries the input label: each
    one was written by the engine (a tag of a replacement template, or
    the entity text that [escape] puts in place of the input character).
    The same holds for the buffer after the HTML escape and is preserved
    by each of the eleven construct passes and by the final unprotect. *)
Theorem html_safety (input : list N) :
  exists out : list lchar,
    Parser.markdown (label input) = Some out
    /\ Parser.markdown input = Some (erase out)
    /\ Forall clean out
    /\ Forall clean (escape (label input))
    /\ Forall (fun pass => forall buf buf' : list lchar,
                 Forall clean buf -> pass buf = Some buf' -> Forall clean buf')
              (construct_passes (label input))
    /\ Parser.markdown (label input)
       = run_passes (construct_passes (label input)) (escape (label input))
    /\ escape (codes "<>&") = codes "&lt;&gt;&amp;".
Proof.
  destruct (markdown_returns (label input)) as [out E]. exists out.
  split; [exact E|].
  split.
  { pose proof (markdown_relabel (C:=lchar) (D:=N) fst (fun x => eq_refl)
                  (fun n => eq_refl) (label input)) as R.
    rewrite E, label_erase in R. cbn [option_map] in R. symmetry. exact R. }
  split.
  { rewrite markdown_as_passes in E.
    eapply run_passes_keep; [apply passes_keep_clean|apply clean_escape|exact E]. }
  split; [apply clean_escape|].
  split; [apply passes_keep_clean|].
  split; [apply markdown_as_passes|reflexivity].
Qed.

(** ** Totality *)

Lemma finditer_Forall {C} `{Glyph C} r (Q : Match C -> Prop) (buf : list C) :
  (forall i j c, match_at r (map code buf) i = Some (j, c) -> Q (mkMatch buf i j c)) ->
  Forall Q (finditer r buf).
Proof. intros HQ. apply scan_loop_matches, HQ. Qed.

(** C2: [markdown] returns a string for every input string.  A callback
    that yields no string is modelled as a failure of the whole call
    ([None]); the three callbacks with a fallback branch (italics,
    block quote, link) yield a string on every match their pattern can
    produce in any buffer, so the fallback is never taken.  The empty
    string, a whitespace-only string and an unterminated bold marker
    come out unchanged. *)
Theorem markdown_total :
  (forall input : list N, exists out, Parser.markdown input = Some out)
  /\ (forall buf : list N,
        Forall (fun m => exists o, Parser.italics_repl m = Some o)
               (finditer Parser.italics_pattern buf)
        /\ Forall (fun m => exists o, Parser.blockquote_repl m = Some o)
                  (finditer Parser.blockQuote_pattern buf)
        /\ Forall (fun m => exists o, Parser.linkify_repl m = Some o)
                  (finditer Parser.web_link_pattern buf))
  /\ Parser.markdown (codes "") = Some (codes "")
  /\ Parser.markdown [32; 9; 10; 32]%N = Some [32; 9; 10; 32]%N
  /\ Parser.markdown (codes "**never closed") = Some (codes "**never closed").
Proof.
  split; [intros input; apply markdown_returns|].
  split.
  { intros buf. repeat split; apply finditer_Forall; intros i j c M.
    - eapply italics_repl_total; exact M.
    - eapply blockquote_repl_total; exact M.
    - eapply linkify_repl_total; exact M. }
  repeat split; vm_compute; reflexivity.
Qed.

(** ** Text without markup characters *)

Lemma starts_with_In w : forall l x, starts_with w l = true -> In x w -> In x l.
Proof.
  induction w as [|y w IH]; intros [|z l] x E Hx; cbn [starts_with] in E;
    try discriminate; try destruct Hx.
  - apply andb_true_iff in E. destruct E as [E1 E2].
    apply N.eqb_eq in E1. subst. left; reflexivity.
  - apply andb_true_iff in E. destruct E as [E1 E2]. right. eapply IH; eauto.
Qed.

Lemma In_skipn_incl {A} (l : list A) i x : In x (skipn i l) -> In x l.
Proof. intros Hx. rewrite <- (firstn_skipn i l). apply in_or_app. right; exact Hx. Qed.

Lemma needs_lit_dead ok r s :
  needs_lit ok r = true -> forallb ok s = true -> forall i c, mt r s i c = [].
Proof.
  intros Hn Hs. induction r; cbn [needs_lit] in Hn; try discriminate; intros i c.
  - cbn [mt]. destruct (starts_with w (skipn i s)) eqn:E; [|reflexivity].
    apply existsb_exists in Hn. destruct Hn as (x & Hx & Hok).
    pose proof (In_skipn_incl _ _ _ (starts_with_In _ _ _ E Hx)) as Hin.
    rewrite (proj1 (forallb_forall ok s) Hs x Hin) in Hok. discriminate.
  - cbn [mt]. apply orb_true_iff in Hn. destruct Hn as [Hn|Hn].
    + rewrite (IHr1 Hn). reflexivity.
    + apply flat_map_nil. intros [k c1] _. apply (IHr2 Hn).
  - cbn [mt]. apply andb_true_iff in Hn. destruct Hn as [H1 H2].
    rewrite (IHr1 H1), (IHr2 H2). reflexivity.
  - cbn [mt]. rewrite (IHr Hn). reflexivity.
Qed.

Section InertText.
Context {C : Type} `{Glyph C}.
Variable buf : list C.
Hypothesis buf_inert : forallb inert (map code buf) = true.

Lemma sub_inert r (repl : Match C -> option (list C)) :
  needs_lit inert r = true -> sub r repl buf = Some buf.
Proof.
  intros Hn. apply sub_no_match. intros i. unfold match_at.
  rewrite (needs_lit_dead inert r _ Hn buf_inert). reflexivity.
Qed.

Lemma subn_inert r (repl : Match C -> option (list C)) :
  needs_lit inert r = true -> subn r repl buf = Some (buf, 0).
Proof.
  intros Hn. unfold subn. rewrite (sub_inert _ _ Hn). cbn [bind].
  unfold finditer. rewrite scan_loop_no_match; [reflexivity|].
  intros i. unfold match_at.
  rewrite (needs_lit_dead inert r _ Hn buf_inert). reflexivity.
Qed.

Lemma escape_inert : escape buf = buf.
Proof.
  clear -buf_inert. induction buf as [|x l IH]; [reflexivity|].
  cbn [map forallb] in buf_inert. apply andb_true_iff in buf_inert.
  destruct buf_inert as [Px Pl].
  cbn [escape flat_map]. fold (escape l). rewrite (IH Pl).
  unfold escape_char.
  repeat match goal with
         | |- context [(code x =? ?k)%N] =>
             destruct (N.eqb_spec (code x) k) as [E|_];
             [rewrite E in Px; vm_compute in Px; discriminate|]
         end.
  reflexivity.
Qed.

Lemma parser_markdown_inert : Parser.markdown buf = Some buf.
Proof.
  unfold Parser.markdown. rewrite escape_inert.
  unfold Parser.codeblock, Parser.inline_codeblock, Parser.remove_suppressed_embed_arrows,
    Parser.blockquote, Parser.spoiler, Parser.strikethrough, Parser.bold,
    Parser.underline, Parser.italics, Parser.linkify, Parser.emojify,
    Parser.remove_escaped_symbol.
  repeat (rewrite sub_inert by reflexivity; cbn [bind]).
  destruct (Parser.womboji buf); cbn [bind]; apply sub_inert; reflexivity.
Qed.

Lemma bulk_markdown_inert : BulkDelete.markdown buf = Some buf.
Proof.
  unfold BulkDelete.markdown.
  unfold BulkDelete.codeblock, BulkDelete.inline_codeblock, BulkDelete.blockquote,
    BulkDelete.spoiler, BulkDelete.strikethrough, BulkDelete.bold,
    BulkDelete.underline, BulkDelete.italics, BulkDelete.remove_escaped_symbol.
  repeat (rewrite subn_inert by reflexivity; cbn [bind fst snd]).
  apply sub_inert. reflexivity.
Qed.

End InertText.

(** ** The two copies of the engine *)

Lemma subn_fst {C} `{Glyph C} r (repl : Match C -> option (list C)) s :
  option_map fst (subn r repl s) = sub r repl s.
Proof. unfold subn. destruct (sub r repl s); reflexivity. Qed.

(** C6, as stated, fails: the two copies return different strings for
    the one-character input "<" (only one of them escapes it), and for
    "*a_b*c_" (one italics pass against two).  Each of the other
    characters of the HTML escape makes the same difference, and so does
    a link address, which only one of them renders. *)
Lemma engines_differ :
  Parser.markdown (codes "<") = Some (codes "&lt;")
  /\ BulkDelete.markdown (codes "<") = Some (codes "<")
  /\ Parser.markdown (codes "*a_b*c_") = Some (codes "<em>a_b</em>c_")
  /\ BulkDelete.markdown (codes "*a_b*c_") = Some (codes "<em>a<em>b</em>c</em>")
  /\ Parser.markdown (codes "a > b") = Some (codes "a &gt; b")
  /\ BulkDelete.markdown (codes "a > b") = Some (codes "a > b")
  /\ Parser.markdown (codes "a & b") = Some (codes "a &amp; b")
  /\ BulkDelete.markdown (codes "a & b") = Some (codes "a & b")
  /\ Parser.markdown (codes "it's") = Some (codes "it&#39;s")
  /\ BulkDelete.markdown (codes "it's") = Some (codes "it's")
  /\ Parser.markdown [dquote] = Some (codes "&#34;")
  /\ BulkDelete.markdown [dquote] = Some [dquote]
  /\ Parser.markdown (codes "http://a")
     = Some (codes "<a href=" ++ [dquote] ++ codes "http://a" ++ [dquote]
               ++ codes ">http://a</a>")
  /\ BulkDelete.markdown (codes "http://a") = Some (codes "http://a").
Proof. repeat split; vm_compute; reflexivity. Qed.

(** ** Reading a match back *)

Lemma in_mt_str w s i c j c' :
  In (j, c') (mt (Str w) s i c) ->
  c' = c /\ j = i + List.length w /\ starts_with w (skipn i s) = true.
Proof.
  cbn [mt]. destruct (starts_with w (skipn i s)); [|intros []].
  intros [E|[]]. inversion E; auto.
Qed.

Lemma in_mt_set1 k s i c j c' :
  In (j, c') (mt (Set1 k) s i c) ->
  c' = c /\ j = S i /\ exists x, nth_error s i = Some x /\ cls_mem k x = true.
Proof.
  cbn [mt]. destruct (nth_error s i) as [x|]; [|intros []].
  destruct (cls_mem k x) eqn:K; [|intros []].
  intros [E|[]]. inversion E; eauto.
Qed.

Lemma in_rep_ends g lo hi k s i j :
  In j (rep_ends g lo hi k s i) -> i + lo <= j /\ j <= i + span k (skipn i s).
Proof.
  unfold rep_ends.
  set (top := match hi with Some h => Nat.min h (span k (skipn i s))
                          | None => span k (skipn i s) end).
  assert (Ht : top <= span k (skipn i s)) by (subst top; destruct hi; lia).
  destruct (top <? lo); [intros []|].
  intros Hj.
  assert (Hj' : In j (map (fun d => i + d) (seq lo (S top - lo)))).
  { destruct g; [apply in_rev in Hj|]; exact Hj. }
  apply in_map_iff in Hj'. destruct Hj' as (d & <- & Hd). apply in_seq in Hd. lia.
Qed.

Lemma in_mt_rep g lo hi k s i c j c' :
  In (j, c') (mt (Rep g lo hi k) s i c) ->
  c' = c /\ i + lo <= j /\ j <= i + span k (skipn i s).
Proof.
  cbn [mt]. intros Hin. apply in_map_iff in Hin. destruct Hin as (e & E & He).
  inversion E; subst. split; [reflexivity|]. eapply in_rep_ends; exact He.
Qed.

Lemma in_mt_notbehind k s i c j c' :
  In (j, c') (mt (NotBehind k) s i c) ->
  c' = c /\ j = i /\ prev_is (cls_mem k) s i = false.
Proof.
  cbn [mt]. destruct (prev_is (cls_mem k) s i); [intros []|].
  intros [E|[]]. inversion E; auto.
Qed.

Lemma in_mt_notahead a s i c j c' :
  In (j, c') (mt (NotAhead a) s i c) -> c' = c /\ j = i /\ mt a s i c = [].
Proof.
  cbn [mt]. destruct (mt a s i c); [|intros []].
  intros [E|[]]. inversion E; auto.
Qed.

Lemma in_mt_ref n s i c j c' :
  In (j, c') (mt (Ref n) s i c) ->
  c' = c /\ exists a b, get n c = Some (a, b)
                        /\ j = i + List.length (slice s a b)
                        /\ starts_with (slice s a b) (skipn i s) = true.
Proof.
  cbn [mt]. destruct (get n c) as [[a b]|]; [|intros []].
  destruct (starts_with (slice s a b) (skipn i s)) eqn:E; [|intros []].
  intros [E'|[]]. inversion E'; subst. split; [reflexivity|]. exists a, b. auto.
Qed.

(** Slices. *)
Lemma firstn_add_skipn {A} (l : list A) n m :
  firstn (n + m) l = firstn n l ++ firstn m (skipn n l).
Proof.
  revert l; induction n as [|n IH]; intros [|x l]; cbn [firstn skipn Nat.add app];
    try reflexivity.
  - destruct m; reflexivity.
  - rewrite IH. reflexivity.
Qed.

Lemma slice_app {A} (l : list A) a b c :
  a <= b -> b <= c -> slice l a c = slice l a b ++ slice l b c.
Proof.
  intros Hab Hbc. unfold slice.
  replace (c - a) with ((b - a) + (c - b)) by lia.
  rewrite firstn_add_skipn, skipn_skipn.
  replace (b - a + a) with b by lia. reflexivity.
Qed.

Lemma slice_nth {A} (l : list A) i x : nth_error l i = Some x -> slice l i (S i) = [x].
Proof.
  revert l; induction i as [|i IH]; intros [|y l] E; cbn [nth_error] in E;
    try discriminate.
  - inversion E; reflexivity.
  - unfold slice in *. cbn [skipn]. replace (S (S i) - S i) with (S i - i) by lia.
    apply IH, E.
Qed.

Lemma span_firstn k l d :
  d <= span k l -> forallb (cls_mem k) (firstn d l) = true /\ List.length (firstn d l) = d.
Proof.
  revert d; induction l as [|x l IH]; intros d Hd; cbn [span] in Hd.
  - assert (d = 0) by lia. subst. auto.
  - destruct d as [|d]; [auto|]. destruct (cls_mem k x) eqn:K; [|lia].
    cbn [firstn forallb List.length]. rewrite K.
    destruct (IH d) as [E1 E2]; [lia|]. rewrite E1, E2. auto.
Qed.

Lemma span_slice k s i j :
  i <= j -> j <= i + span k (skipn i s) ->
  forallb (cls_mem k) (slice s i j) = true /\ List.length (slice s i j) = j - i.
Proof. intros Hij Hj. unfold slice. apply span_firstn. lia. Qed.

(** ** Inline code *)

Lemma starts_with_cons x w l :
  starts_with (x :: w) l = true -> exists t, l = x :: t.
Proof.
  destruct l as [|y l]; cbn [starts_with]; [discriminate|].
  intros E. apply andb_true_iff in E. destruct E as [E _].
  apply N.eqb_eq in E. subst. eauto.
Qed.

Lemma not_backtick x :
  cls_mem (Neg [One (ch "`")]) x = negb (x =? ch "`")%N.
Proof. cbn [cls_mem existsb item_mem]. rewrite orb_false_r. reflexivity. Qed.

(** What a match of the inline-code pattern looks like: an opening
    backtick at [i], a content of at least one character, none of them a
    backtick, and the closing backtick. *)
Lemma inline_match_shape (s : list N) i j c :
  In (j, c) (mt Parser.inlinecodeblock_pattern s i []) ->
  exists p, i + 1 <= p /\ j = S p + 1
    /\ get 2 c = Some (i + 1, S p)
    /\ forallb (fun x => negb (x =? ch "`")%N) (slice s (i + 1) (S p)) = true
    /\ List.length (slice s (i + 1) (S p)) = S p - (i + 1).
Proof.
  unfold Parser.inlinecodeblock_pattern. intros M.
  apply in_mt_seq in M. destruct M as (k0 & c0 & M0 & M).
  apply in_mt_notbehind in M0. destruct M0 as (-> & -> & _).
  apply in_mt_seq in M. destruct M as (k1 & c1 & M1 & M).
  apply in_mt_grp in M1. destruct M1 as (c1' & M1 & ->).
  apply in_mt_str in M1. destruct M1 as (-> & -> & S1).
  apply in_mt_seq in M. destruct M as (k2 & c2 & M2 & M).
  apply in_mt_grp in M2. destruct M2 as (c2' & M2 & ->).
  apply in_mt_seq in M2. destruct M2 as (p & cp & Mp & Mq).
  apply in_mt_rep in Mp. destruct Mp as (-> & Hp1 & Hp2).
  apply in_mt_set1 in Mq. destruct Mq as (-> & -> & x & Hx & Kx).
  apply in_mt_seq in M. destruct M as (k3 & c3 & M3 & M).
  apply in_mt_grp in M3. destruct M3 as (c3' & M3 & ->).
  apply in_mt_ref in M3. destruct M3 as (-> & a & b & G1 & -> & S3).
  cbn [get Nat.eqb] in G1. inversion G1; subst a b.
  apply in_mt_notahead in M. destruct M as (-> & -> & _).
  cbn [List.length codes list_ascii_of_string map] in *.
  destruct (starts_with_cons _ _ _ S1) as [t Et].
  assert (Hl : List.length (slice s i (i + 1)) = 1).
  { replace (i + 1) with (S i) by lia. rewrite (slice_one _ _ _ _ Et). reflexivity. }
  rewrite Hl.
  exists p. split; [lia|]. split; [reflexivity|]. split; [reflexivity|].
  rewrite (slice_app s (i + 1) p (S p)) by lia.
  rewrite (slice_nth _ _ _ Hx), forallb_app, length_app.
  destruct (span_slice (Neg [One (ch "`")]) s (i + 1) p) as [F L]; [lia|lia|].
  rewrite (forallb_pointwise _ _ _ not_backtick) in F.
  rewrite F, L. cbn [forallb List.length]. rewrite <- not_backtick, Kx.
  split; [reflexivity|lia].
Qed.

Lemma In_slice {A} (l : list A) a b x : In x (slice l a b) -> In x l.
Proof.
  intros Hx. unfold slice in Hx.
  rewrite <- (firstn_skipn a l). apply in_or_app. right.
  rewrite <- (firstn_skipn (b - a) (skipn a l)). apply in_or_app. left. exact Hx.
Qed.

(** A buffer of backticks only has no inline-code match. *)
Lemma backticks_no_inline_match n i :
  match_at Parser.inlinecodeblock_pattern (repeat (ch "`") n) i = None.
Proof.
  destruct (match_at Parser.inlinecodeblock_pattern (repeat (ch "`") n) i)
    as [[j c]|] eqn:M; [exfalso|reflexivity].
  apply match_at_In in M.
  destruct (inline_match_shape _ _ _ _ M) as (p & Hp & _ & _ & F & L).
  destruct (slice (repeat (ch "`") n) (i + 1) (S p)) as [|x t] eqn:E;
    [cbn [List.length] in L; lia|].
  assert (Hx : In x (repeat (ch "`") n)).
  { apply (In_slice _ (i + 1) (S p)). rewrite E. left; reflexivity. }
  apply repeat_spec in Hx. subst x. cbn [forallb] in F.
  rewrite N.eqb_refl in F. discriminate.
Qed.

(** C10: an inline-code match always has a content of at least one
    character, none of them a backtick, so it spans at least three
    characters: a pair of backticks with nothing in between is never
    turned into an inline code element.  A buffer made of backticks
    only, of any length, goes through the inline-code pass unchanged,
    and the two-backtick input goes through the whole pipeline
    unchanged. *)
Theorem empty_inline_code_is_literal :
  (forall buf : list N,
     Forall (fun m => exists content,
                 group m 2 = Some content
                 /\ 1 <= List.length content
                 /\ forallb (fun x => negb (x =? ch "`")%N) content = true
                 /\ m_start m + 3 <= m_end m)
            (finditer Parser.inlinecodeblock_pattern buf))
  /\ (forall n : nat,
        Parser.inline_codeblock (repeat (ch "`") n) = Some (repeat (ch "`") n))
  /\ Parser.inline_codeblock (codes "``") = Some (codes "``")
  /\ Parser.markdown (codes "``") = Some (codes "``")
  /\ Parser.markdown (codes "say `` twice") = Some (codes "say `` twice").
Proof.
  split.
  { intros buf. apply finditer_Forall. intros i j c M.
    cbn [code Glyph_N] in M. rewrite map_id in M. apply match_at_In in M.
    destruct (inline_match_shape _ _ _ _ M) as (p & Hp & -> & G & F & L).
    exists (slice buf (i + 1) (S p)).
    unfold group. cbn [m_caps m_string m_start m_end]. rewrite G.
    split; [reflexivity|]. split; [lia|]. split; [exact F|lia]. }
  split.
  { intros n. apply sub_no_match. intros i. cbn [code Glyph_N]. rewrite map_id.
    apply backticks_no_inline_match. }
  repeat split; vm_compute; reflexivity.
Qed.

(** ** Bold, italics and escaped delimiters *)

Lemma no_match_after_backslash r pre post :
  match_at (NotBehind bs_cls ;;; r) (pre ++ backslash :: post) (S (List.length pre)) = None.
Proof.
  unfold match_at. cbn [mt prev_is].
  rewrite nth_error_app2 by lia. rewrite Nat.sub_diag. reflexivity.
Qed.

(** C9: escaped delimiters.  Every pass before the final one leaves the
    buffer with its backslashes as they are (no bold match anywhere:
    a bold match never starts right after a backslash), and the final
    unprotect pass removes them: the output is the literal text, with
    no strong element. *)
Theorem escaped_delimiters_stay_literal :
  Parser.markdown (codes "\*\*not bold\*\*") = Some (codes "**not bold**")
  /\ contains (codes "**not bold**") (codes "**not bold**") = true
  /\ contains (codes "<strong>") (codes "**not bold**") = false
  /\ run_passes (firstn 11 (construct_passes (codes "\*\*not bold\*\*")))
                (escape (codes "\*\*not bold\*\*"))
     = Some (codes "\*\*not bold\*\*")
  /\ finditer Parser.bold_pattern (codes "\*\*not bold\*\*") = []
  /\ Parser.remove_escaped_symbol (codes "\*\*not bold\*\*") = Some (codes "**not bold**")
  /\ (forall pre post : list N,
        match_at Parser.bold_pattern (pre ++ backslash :: post) (S (List.length pre)) = None).
Proof.
  repeat split; try (vm_compute; reflexivity).
  intros pre post. apply no_match_after_backslash.
Qed.

(** ** Links *)

Lemma hd_error_app {A} (a b : list A) :
  hd_error (a ++ b) = match hd_error a with Some x => Some x | None => hd_error b end.
Proof. destruct a; reflexivity. Qed.

Lemma mt_untouched n r : binds n r = false ->
  forall s i c j c', In (j, c') (mt r s i c) -> get n c' = get n c.
Proof.
  induction r; cbn [binds]; intros Hb s i c j c' Hin.
  - apply in_mt_set1 in Hin. destruct Hin as (-> & _). reflexivity.
  - apply in_mt_str in Hin. destruct Hin as (-> & _). reflexivity.
  - apply orb_false_iff in Hb. destruct Hb as [H1 H2].
    apply in_mt_seq in Hin. destruct Hin as (k & c1 & M1 & M2).
    rewrite (IHr2 H2 _ _ _ _ _ M2). apply (IHr1 H1 _ _ _ _ _ M1).
  - apply orb_false_iff in Hb. destruct Hb as [H1 H2].
    cbn [mt] in Hin. apply in_app_or in Hin. destruct Hin as [M|M].
    + apply (IHr1 H1 _ _ _ _ _ M).
    + apply (IHr2 H2 _ _ _ _ _ M).
  - apply in_mt_rep in Hin. destruct Hin as (-> & _). reflexivity.
  - cbn [mt] in Hin. apply in_app_or in Hin. destruct Hin as [M|[E|[]]].
    + apply (IHr Hb _ _ _ _ _ M).
    + inversion E; reflexivity.
  - apply orb_false_iff in Hb. destruct Hb as [H1 H2].
    apply in_mt_grp in Hin. destruct Hin as (c1 & M & ->).
    cbn [get]. rewrite H1. apply (IHr H2 _ _ _ _ _ M).
  - apply in_mt_notbehind in Hin. destruct Hin as (-> & _). reflexivity.
  - apply in_mt_notahead in Hin. destruct Hin as (-> & _). reflexivity.
  - cbn [mt] in Hin. destruct ((i =? 0) || prev_is (N.eqb newline) s i); [|destruct Hin].
    destruct Hin as [E|[]]. inversion E; reflexivity.
  - apply in_mt_ref in Hin. destruct Hin as (-> & _). reflexivity.
Qed.

Lemma labelled_link_groups (buf : list N) cs i j c :
  In (j, c) (mt Parser.labelled_link cs i []) ->
  exists label url,
    group (mkMatch buf i j c) 1 = Some label
    /\ group (mkMatch buf i j c) 2 = Some url
    /\ group (mkMatch buf i j c) 3 = None.
Proof.
  intros M.
  destruct (group_of_branch 1 Parser.labelled_link buf _ _ _ _ eq_refl M) as [label G1].
  destruct (group_of_branch 2 Parser.labelled_link buf _ _ _ _ eq_refl M) as [url G2].
  exists label, url. split; [exact G1|]. split; [exact G2|].
  unfold group. cbn [m_caps].
  rewrite (mt_untouched 3 Parser.labelled_link eq_refl _ _ _ _ _ M). reflexivity.
Qed.

(** ** Text that a scan leaves alone *)

Lemma skipn_nil_length {A} (l : list A) i : skipn i l = [] -> List.length l <= i.
Proof.
  revert l; induction i as [|i IH]; intros [|x l] E; cbn [skipn List.length] in *;
    try discriminate; try lia.
  apply IH in E. lia.
Qed.

Lemma slice_empty {A} (l : list A) a b : b <= a -> slice l a b = [].
Proof. intros Hab. unfold slice. replace (b - a) with 0 by lia. reflexivity. Qed.

Lemma slice_cons {A} (l : list A) i hi x t :
  skipn i l = x :: t -> i < hi -> slice l i hi = x :: slice l (S i) hi.
Proof.
  intros E Hi. unfold slice. rewrite E.
  destruct (skipn_cons_inv _ _ _ _ E) as [_ E2]. rewrite E2.
  replace (hi - i) with (S (hi - S i)) by lia. reflexivity.
Qed.

Lemma slice_middle {A} (pre mid suf : list A) :
  slice (pre ++ mid ++ suf) (List.length pre) (List.length pre + List.length mid) = mid.
Proof.
  unfold slice. rewrite skipn_app, skipn_all, Nat.sub_diag. cbn [skipn app].
  replace (List.length pre + List.length mid - List.length pre) with (List.length mid + 0)
    by lia.
  rewrite firstn_app_2. cbn [firstn]. apply app_nil_r.
Qed.

Section Survive.
Context {C : Type} `{Glyph C}.
Variable r : re.
Variable repl : Match C -> option (list C).
Variable subj : list C.
Variables lo hi : nat.
Hypothesis bounds : lo <= hi <= List.length subj.
Hypothesis clear_of_region : forall i j c,
  match_at r (map code subj) i = Some (j, c) ->
  i < j /\ (j <= lo \/ hi <= i
            \/ (i < lo /\ exists u v,
                   repl (mkMatch subj i j c) = Some (u ++ slice subj lo hi ++ v))).

(** Inside the region the scan copies character by character. *)
Lemma scan_inside_region : forall rest i out,
  skipn i subj = rest -> lo <= i <= hi ->
  sub_loop r repl subj (map code subj) rest i 0 = Some out ->
  exists v, out = slice subj i hi ++ v.
Proof.
  induction rest as [|x rest IH]; intros i out E Hi HS.
  - apply skipn_nil_length in E. rewrite slice_empty by lia. exists out. reflexivity.
  - destruct (Nat.eq_dec i hi) as [->|Hne].
    { rewrite slice_empty by lia. exists out. reflexivity. }
    cbn [sub_loop] in HS.
    destruct (match_at r (map code subj) i) as [[j c]|] eqn:M.
    { destruct (clear_of_region _ _ _ M) as [Hij [Hc|[Hc|[Hc _]]]]; lia. }
    destruct (sub_loop r repl subj (map code subj) rest (S i) 0) as [tl|] eqn:T;
      [|discriminate].
    cbn [bind] in HS. apply Some_inj in HS; subst out.
    destruct (skipn_cons_inv _ _ _ _ E) as [_ E2].
    destruct (IH (S i) tl E2 ltac:(lia) T) as [v ->].
    exists v. rewrite (slice_cons _ _ _ _ _ E) by lia. reflexivity.
Qed.

(** The region comes out of the scan as it went in. *)
Lemma scan_keeps_region : forall rest i skip out,
  skipn i subj = rest -> i + skip <= lo ->
  sub_loop r repl subj (map code subj) rest i skip = Some out ->
  exists u v, out = u ++ slice subj lo hi ++ v.
Proof.
  induction rest as [|x rest IH]; intros i skip out E Hi HS.
  - apply skipn_nil_length in E. rewrite slice_empty by lia. exists [], out. reflexivity.
  - destruct (skipn_cons_inv _ _ _ _ E) as [_ E2].
    destruct skip as [|k].
    + destruct (Nat.eq_dec i lo) as [->|Hne].
      { destruct (scan_inside_region _ _ _ E ltac:(lia) HS) as [v ->].
        exists [], v. reflexivity. }
      cbn [sub_loop] in HS.
      destruct (match_at r (map code subj) i) as [[j c]|] eqn:M.
      * destruct (repl (mkMatch subj i j c)) as [o|] eqn:R; [|discriminate].
        cbn [bind] in HS.
        destruct (sub_loop r repl subj (map code subj) rest (S i) (j - i - 1))
          as [tl|] eqn:T; [|discriminate].
        cbn [bind] in HS. apply Some_inj in HS; subst out.
        destruct (clear_of_region _ _ _ M) as [Hij [Hc|[Hc|[Hc (u & v & R')]]]].
        -- destruct (IH (S i) (j - i - 1) tl E2 ltac:(lia) T) as (u & v & ->).
           exists (o ++ (if j <=? i then [x] else []) ++ u), v.
           rewrite <- !app_assoc. reflexivity.
        -- lia.
        -- rewrite R' in R. apply Some_inj in R; subst o.
           exists u, (v ++ (if j <=? i then [x] else []) ++ tl).
           rewrite <- !app_assoc. reflexivity.
      * destruct (sub_loop r repl subj (map code subj) rest (S i) 0) as [tl|] eqn:T;
          [|discriminate].
        cbn [bind] in HS. apply Some_inj in HS; subst out.
        destruct (IH (S i) 0 tl E2 ltac:(lia) T) as (u & v & ->).
        exists (x :: u), v. reflexivity.
    + cbn [sub_loop] in HS. apply (IH (S i) k out E2 ltac:(lia) HS).
Qed.

Lemma sub_keeps_region out :
  sub r repl subj = Some out -> exists u v, out = u ++ slice subj lo hi ++ v.
Proof. intros HS. eapply (scan_keeps_region subj 0 0); [reflexivity|lia|exact HS]. Qed.

End Survive.

(** ** Protected text and the formatting passes *)

Lemma starts_with_nth w : forall l q x,
  starts_with w l = true -> nth_error w q = Some x -> nth_error l q = Some x.
Proof.
  induction w as [|y w IH]; intros [|z l] q x E Hq; cbn [starts_with] in E;
    try discriminate; try (destruct q; discriminate).
  apply andb_true_iff in E. destruct E as [E1 E2]. apply N.eqb_eq in E1. subst z.
  destruct q as [|q]; cbn [nth_error] in *; [exact Hq|]. eapply IH; eauto.
Qed.

Lemma starts_with_at w s p q x :
  starts_with w (skipn p s) = true -> nth_error w q = Some x ->
  nth_error s (p + q) = Some x.
Proof.
  intros E Hq. rewrite <- nth_error_skipn. eapply starts_with_nth; eauto.
Qed.

(** In protected text every symbol other than a backslash comes right
    after a backslash. *)
Lemma protect_guard (body : list N) : forall q x,
  nth_error (flat_map protect body) q = Some x -> is_delim x = true ->
  exists q', q = S q' /\ nth_error (flat_map protect body) q' = Some backslash.
Proof.
  induction body as [|y body IH]; intros q x Hq Hx; cbn [flat_map] in *.
  - destruct q; discriminate.
  - unfold is_delim in Hx. apply andb_true_iff in Hx. destruct Hx as [Hs Hb].
    destruct (is_symbol y) eqn:Sy.
    + rewrite (@protect_symbol N Glyph_N y Sy) in *. cbn [app] in *.
      destruct q as [|[|q]]; cbn [nth_error] in *.
      * some_inv Hq. cbn [lit Glyph_N] in Hb. rewrite N.eqb_refl in Hb. discriminate.
      * exists 0. split; reflexivity.
      * destruct (IH q x Hq) as (q' & -> & Hq').
        { unfold is_delim. rewrite Hs, Hb. reflexivity. }
        exists (S (S q')). split; [reflexivity|exact Hq'].
    + rewrite (@protect_plain N Glyph_N y Sy) in *. cbn [app] in *.
      destruct q as [|q]; cbn [nth_error] in *.
      * some_inv Hq. rewrite Hs in Sy. discriminate.
      * destruct (IH q x Hq) as (q' & -> & Hq').
        { unfold is_delim. rewrite Hs, Hb. reflexivity. }
        exists (S q'). split; [reflexivity|exact Hq'].
Qed.

Section Protected.
Variables pre body suf : list N.
Let s := pre ++ flat_map protect body ++ suf.
Let lo := List.length pre.
Let hi := List.length pre + List.length (flat_map protect body).

Lemma guard_in_context p x :
  lo <= p < hi -> nth_error s p = Some x -> is_delim x = true ->
  exists p', p = S p' /\ nth_error s p' = Some backslash.
Proof.
  subst s lo hi. intros Hp Hx Hd.
  rewrite nth_error_app2 in Hx by lia. rewrite nth_error_app1 in Hx by lia.
  destruct (protect_guard _ _ _ Hx Hd) as (q' & Eq & Hq').
  exists (List.length pre + q'). split; [lia|].
  rewrite nth_error_app2 by lia. rewrite nth_error_app1 by lia.
  replace (List.length pre + q' - List.length pre) with q' by lia. exact Hq'.
Qed.

(** A guarded delimiter found in the buffer has no character inside the
    protected region. *)
Lemma delimiter_outside d p q x :
  forallb is_delim d = true ->
  prev_is (cls_mem bs_cls) s p = false ->
  starts_with d (skipn p s) = true ->
  nth_error d q = Some x ->
  ~ (lo <= p + q < hi).
Proof.
  intros Hd Hprev Hw Hq Hin.
  assert (Dx : is_delim x = true).
  { apply (proj1 (forallb_forall _ _) Hd). eapply nth_error_In; eauto. }
  destruct (guard_in_context _ _ Hin (starts_with_at _ _ _ _ _ Hw Hq) Dx)
    as (p' & Ep & Hp').
  destruct q as [|q].
  - replace (p + 0) with p in Ep by lia. subst p.
    cbn [prev_is] in Hprev. rewrite Hp' in Hprev. discriminate.
  - assert (Hy : exists y, nth_error d q = Some y).
    { destruct (nth_error d q) eqn:E; [eauto|].
      apply nth_error_None in E.
      assert (S q < List.length d) by (apply nth_error_Some; rewrite Hq; discriminate).
      lia. }
    destruct Hy as [y Hy].
    pose proof (starts_with_at _ _ _ _ _ Hw Hy) as Sy.
    replace p' with (p + q) in Hp' by lia. rewrite Hp' in Sy. some_inv Sy.
    assert (Dy : is_delim backslash = true).
    { apply (proj1 (forallb_forall _ _) Hd). eapply nth_error_In; eauto. }
    discriminate Dy.
Qed.

End Protected.

(** The shape of a match of a delimiter-pair pattern. *)
Lemma delimited_shape d g t s i j c :
  In (j, c) (mt (NotBehind bs_cls ;;; Str d ;;; Grp g (Rep false 1 None dot)
                 ;;; NotBehind bs_cls ;;; t) s i []) ->
  exists k,
    prev_is (cls_mem bs_cls) s i = false
    /\ starts_with d (skipn i s) = true
    /\ i + List.length d + 1 <= k
    /\ prev_is (cls_mem bs_cls) s k = false
    /\ In (j, c) (mt t s k [(g, (i + List.length d, k))]).
Proof.
  intros M.
  apply in_mt_seq in M. destruct M as (k0 & c0 & M0 & M).
  apply in_mt_notbehind in M0. destruct M0 as (-> & -> & P0).
  apply in_mt_seq in M. destruct M as (k1 & c1 & M1 & M).
  apply in_mt_str in M1. destruct M1 as (-> & -> & S1).
  apply in_mt_seq in M. destruct M as (k2 & c2 & M2 & M).
  apply in_mt_grp in M2. destruct M2 as (c2' & M2 & ->).
  apply in_mt_rep in M2. destruct M2 as (-> & H2 & _).
  apply in_mt_seq in M. destruct M as (k3 & c3 & M3 & M).
  apply in_mt_notbehind in M3. destruct M3 as (-> & -> & P3).
  exists k2. auto.
Qed.

Lemma closer_shape d a s k c0 j c :
  In (j, c) (mt (Str d) s k c0) \/ In (j, c) (mt (Str d ;;; NotAhead a) s k c0) ->
  c = c0 /\ j = k + List.length d /\ starts_with d (skipn k s) = true.
Proof.
  intros [M|M].
  - apply in_mt_str in M. exact M.
  - apply in_mt_seq in M. destruct M as (k1 & c1 & M1 & M).
    apply in_mt_str in M1. destruct M1 as (-> & -> & S1).
    apply in_mt_notahead in M. destruct M as (-> & -> & _). auto.
Qed.

Section ProtectedMatches.
Variables pre body suf : list N.
Variable y : N.
Let s := pre ++ flat_map protect (y :: body) ++ suf.
Let lo := List.length pre.
Let hi := List.length pre + List.length (flat_map protect (y :: body)).

Lemma region_nonempty : lo < hi.
Proof.
  subst lo hi. cbn [flat_map]. rewrite length_app.
  unfold protect. destruct (is_symbol (code y)); cbn [List.length]; lia.
Qed.

(** A match of a delimiter-pair pattern in a buffer with protected text:
    its only capture is the content between the delimiters, and it ends
    before the protected text, starts after it, or has all of it in the
    content. *)
Lemma delimited_cases d g a t i j c :
  forallb is_delim d = true ->
  1 <= List.length d <= 2 ->
  t = Str d \/ t = (Str d ;;; NotAhead a) ->
  In (j, c) (mt (NotBehind bs_cls ;;; Str d ;;; Grp g (Rep false 1 None dot)
                 ;;; NotBehind bs_cls ;;; t) s i []) ->
  exists k,
    c = [(g, (i + List.length d, k))]
    /\ j = k + List.length d
    /\ i + List.length d + 1 <= k
    /\ (j <= lo \/ hi <= i \/ (i + List.length d <= lo /\ hi <= k)).
Proof.
  intros Hd Hlen Ht M.
  destruct (delimited_shape _ _ _ _ _ _ _ M) as (k & P0 & S0 & Hk & Pk & Mt).
  assert (Mt' : In (j, c) (mt (Str d) s k [(g, (i + List.length d, k))])
                \/ In (j, c) (mt (Str d ;;; NotAhead a) s k [(g, (i + List.length d, k))]))
    by (destruct Ht; subst t; auto).
  destruct (closer_shape _ _ _ _ _ _ _ Mt') as (-> & -> & Sk).
  pose proof region_nonempty as Hne.
  pose proof (fun q x => delimiter_outside pre (y :: body) suf d i q x Hd P0 S0) as Oi.
  pose proof (fun q x => delimiter_outside pre (y :: body) suf d k q x Hd Pk Sk) as Ok.
  fold lo hi in Oi, Ok.
  exists k. split; [reflexivity|]. split; [reflexivity|]. split; [exact Hk|].
  destruct d as [|x1 [|x2 [|x3 d]]]; cbn [List.length] in *; try lia.
  - pose proof (Oi 0 x1 eq_refl). pose proof (Ok 0 x1 eq_refl). lia.
  - pose proof (Oi 0 x1 eq_refl). pose proof (Oi 1 x2 eq_refl).
    pose proof (Ok 0 x1 eq_refl). pose proof (Ok 1 x2 eq_refl). lia.
Qed.

Lemma delimited_keeps_clear d g a t (buf : list N) i j c :
  forallb is_delim d = true ->
  1 <= List.length d <= 2 ->
  t = Str d \/ t = (Str d ;;; NotAhead a) ->
  In (j, c) (mt (NotBehind bs_cls ;;; Str d ;;; Grp g (Rep false 1 None dot)
                 ;;; NotBehind bs_cls ;;; t) s i []) ->
  keeps_clear lo hi (mkMatch buf i j c).
Proof.
  intros Hd Hlen Ht M.
  destruct (delimited_cases _ _ _ _ _ _ _ Hd Hlen Ht M) as (k & -> & -> & Hk & Hc).
  unfold keeps_clear. cbn [m_start m_end m_caps].
  destruct Hc as [Hc|[Hc|Hc]]; [left; exact Hc|right; left; exact Hc|].
  right; right. exists g, (i + List.length d), k. cbn [get]. rewrite Nat.eqb_refl.
  split; [reflexivity|]. lia.
Qed.

(** No match of a formatting pattern cuts into protected text. *)
Lemma formatting_keeps_clear :
  Forall (fun r => Forall (keeps_clear lo hi) (finditer r s)) formatting_patterns.
Proof.
  unfold formatting_patterns.
  repeat apply Forall_cons; try apply Forall_nil;
    apply finditer_Forall; intros i j c M;
    cbn [code Glyph_N] in M; rewrite map_id in M.
  - apply match_at_In in M.
    eapply (delimited_keeps_clear (codes "||") 1 (Str [])); [reflexivity|cbn; lia| |exact M].
    left; reflexivity.
  - apply match_at_In in M.
    eapply (delimited_keeps_clear (codes "~~") 1 (Str (codes "_")));
      [reflexivity|cbn; lia| |exact M].
    right; reflexivity.
  - apply match_at_In in M.
    eapply (delimited_keeps_clear (codes "**") 1 (Str [])); [reflexivity|cbn; lia| |exact M].
    left; reflexivity.
  - apply match_at_In in M.
    eapply (delimited_keeps_clear (codes "__") 1 (Str [])); [reflexivity|cbn; lia| |exact M].
    left; reflexivity.
  - destruct (match_at_alt _ _ _ _ _ _ M) as [B|B].
    + eapply (delimited_keeps_clear (codes "*") 1 (Str [])); [reflexivity|cbn; lia| |exact B].
      left; reflexivity.
    + eapply (delimited_keeps_clear (codes "_") 2 (Str [])); [reflexivity|cbn; lia| |exact B].
      left; reflexivity.
Qed.

End ProtectedMatches.

Section ProtectedSurvives.
Variables pre body suf : list N.
Variable y : N.
Let F := flat_map protect (y :: body).
Let s := pre ++ F ++ suf.
Let lo := List.length pre.
Let hi := List.length pre + List.length F.

Lemma region_bounds : lo <= hi <= List.length s.
Proof. subst s lo hi. rewrite !length_app. lia. Qed.

Lemma region_is_protected_text : slice s lo hi = F.
Proof. apply slice_middle. Qed.

(** A delimiter-pair match and a replacement that copies the content
    leave the protected text in one piece. *)
Lemma delimited_clear (repl : Match N -> option (list N)) d g a t s_tag e_tag :
  forallb is_delim d = true ->
  1 <= List.length d <= 2 ->
  t = Str d \/ t = (Str d ;;; NotAhead a) ->
  (forall i j a' k,
      repl (mkMatch s i j [(g, (a', k))]) = Some (s_tag ++ slice s a' k ++ e_tag)) ->
  forall i j c,
    In (j, c) (mt (NotBehind bs_cls ;;; Str d ;;; Grp g (Rep false 1 None dot)
                   ;;; NotBehind bs_cls ;;; t) s i []) ->
    i < j /\ (j <= lo \/ hi <= i
              \/ (i < lo /\ exists u v,
                     repl (mkMatch s i j c) = Some (u ++ slice s lo hi ++ v))).
Proof.
  intros Hd Hlen Ht Hrepl i j c M.
  pose proof (delimited_cases pre body suf y d g a t i j c Hd Hlen Ht M) as X.
  cbv zeta in X. fold F s lo hi in X.
  destruct X as (k & -> & -> & Hk & Hc).
  split; [lia|].
  destruct Hc as [Hc|[Hc|[Ha Hb]]]; [left; exact Hc|right; left; exact Hc|].
  right; right. split; [lia|].
  pose proof region_bounds as Hb'.
  rewrite Hrepl.
  rewrite (slice_app s (i + List.length d) lo k) by lia.
  rewrite (slice_app s lo hi k) by lia.
  exists (s_tag ++ slice s (i + List.length d) lo), (slice s hi k ++ e_tag).
  rewrite <- !app_assoc. reflexivity.
Qed.

Lemma wrapped_pass_keeps r d a t s_tag e_tag :
  r = (NotBehind bs_cls ;;; Str d ;;; Grp 1 (Rep false 1 None dot)
       ;;; NotBehind bs_cls ;;; t) ->
  forallb is_delim d = true ->
  1 <= List.length d <= 2 ->
  t = Str d \/ t = (Str d ;;; NotAhead a) ->
  exists pre' suf', sub r (Parser.wrap s_tag e_tag) s = Some (pre' ++ F ++ suf').
Proof.
  intros -> Hd Hlen Ht.
  destruct (wrap_total (NotBehind bs_cls ;;; Str d ;;; Grp 1 (Rep false 1 None dot)
                        ;;; NotBehind bs_cls ;;; t) s_tag e_tag s) as [out E].
  rewrite E.
  destruct (sub_keeps_region
              (NotBehind bs_cls ;;; Str d ;;; Grp 1 (Rep false 1 None dot)
               ;;; NotBehind bs_cls ;;; t)
              (Parser.wrap s_tag e_tag) s lo hi region_bounds) with (out := out)
    as (u & v & ->); [|exact E|].
  - intros i j c M. cbn [code Glyph_N] in M. rewrite map_id in M.
    apply match_at_In in M.
    eapply (delimited_clear _ d 1 a t s_tag e_tag Hd Hlen Ht); [|exact M].
    intros. reflexivity.
  - rewrite region_is_protected_text. eauto.
Qed.

Lemma spoiler_keeps_protected :
  exists pre' suf', Parser.spoiler s = Some (pre' ++ F ++ suf').
Proof.
  eapply (wrapped_pass_keeps _ (codes "||") (Str [])); [reflexivity|reflexivity|cbn; lia|].
  left; reflexivity.
Qed.

Lemma strikethrough_keeps_protected :
  exists pre' suf', Parser.strikethrough s = Some (pre' ++ F ++ suf').
Proof.
  eapply (wrapped_pass_keeps _ (codes "~~") (Str (codes "_")));
    [reflexivity|reflexivity|cbn; lia|].
  right; reflexivity.
Qed.

Lemma bold_keeps_protected :
  exists pre' suf', Parser.bold s = Some (pre' ++ F ++ suf').
Proof.
  eapply (wrapped_pass_keeps _ (codes "**") (Str [])); [reflexivity|reflexivity|cbn; lia|].
  left; reflexivity.
Qed.

Lemma underline_keeps_protected :
  exists pre' suf', Parser.underline s = Some (pre' ++ F ++ suf').
Proof.
  eapply (wrapped_pass_keeps _ (codes "__") (Str [])); [reflexivity|reflexivity|cbn; lia|].
  left; reflexivity.
Qed.

Lemma italics_keeps_protected :
  exists pre' suf', Parser.italics s = Some (pre' ++ F ++ suf').
Proof.
  destruct (sub_total Parser.italics_pattern Parser.italics_repl s
              (italics_repl_total s (map code s))) as [out E].
  unfold Parser.italics. rewrite E.
  destruct (sub_keeps_region Parser.italics_pattern Parser.italics_repl
              s lo hi region_bounds) with (out := out)
    as (u & v & ->); [|exact E|].
  - intros i j c M. cbn [code Glyph_N] in M. rewrite map_id in M.
    destruct (match_at_alt _ _ _ _ _ _ M) as [B|B].
    + eapply (delimited_clear _ (codes "*") 1 (Str []) _ (text "<em>") (text "</em>"));
        [reflexivity|cbn; lia|left; reflexivity| |exact B].
      intros. reflexivity.
    + eapply (delimited_clear _ (codes "_") 2 (Str []) _ (text "<em>") (text "</em>"));
        [reflexivity|cbn; lia|left; reflexivity| |exact B].
      intros. reflexivity.
  - rewrite region_is_protected_text. eauto.
Qed.

End ProtectedSurvives.

(** Protected text goes through the five formatting passes, one after
    the other, without a change. *)
Lemma formatting_passes_keep_protected (y : N) (body : list N) : forall pre suf,
  exists pre' suf',
    run_passes formatting_passes (pre ++ flat_map protect (y :: body) ++ suf)
    = Some (pre' ++ flat_map protect (y :: body) ++ suf').
Proof.
  intros pre suf. unfold run_passes, formatting_passes. cbn [fold_left bind].
  destruct (spoiler_keeps_protected pre body suf y) as (p1 & s1 & ->). cbn [bind].
  destruct (strikethrough_keeps_protected p1 body s1 y) as (p2 & s2 & ->). cbn [bind].
  destruct (bold_keeps_protected p2 body s2 y) as (p3 & s3 & ->). cbn [bind].
  destruct (underline_keeps_protected p3 body s3 y) as (p4 & s4 & ->). cbn [bind].
  destruct (italics_keeps_protected p4 body s4 y) as (p5 & s5 & ->).
  eauto.
Qed.

(** ** Code blocks *)

Lemma codeblock_repl_protects (buf : list N) :
  Forall (fun m => exists content s_tag,
              group m 3 = Some content
              /\ Parser.codeblock_repl m
                 = Some (s_tag ++ flat_map protect content ++ text "</div>"))
         (finditer Parser.codeblock_pattern buf).
Proof.
  apply finditer_Forall. intros i j c M.
  destruct (group_of_match 3 Parser.codeblock_pattern buf _ _ _ _ eq_refl M) as [g G].
  unfold Parser.codeblock_repl. rewrite G. cbn [bind].
  rewrite escape_symbols_spec. cbn [bind]. eauto.
Qed.

(** The protection of a code-block body against the passes that have
    the backslash look-behind.  For the example the output is the
    code-block element around the literal body, with no strong element:
    the code-block pass, first after the HTML escape, writes the body
    with a backslash before every symbol, no bold match is found in that
    buffer, and the final pass takes the backslashes out again.  In
    general the replacement of every code-block match is a tag, the
    symbol-protected body and the closing tag; unprotect undoes protect;
    no match of the spoiler, strikethrough, bold, underline or italics
    pattern has a delimiter inside protected text (it ends before the
    text, starts after it, or holds all of it inside its captured
    content); and so protected text, wherever it stands in the buffer,
    comes out of these five passes in one piece and unchanged. *)
Theorem code_block_body_is_protected :
  Parser.markdown (codes "```**not bold**```")
    = Some (div_nohighlight ++ codes "**not bold**</div>")
  /\ contains (codes "<strong>") (div_nohighlight ++ codes "**not bold**</div>") = false
  /\ Parser.codeblock (escape (codes "```**not bold**```"))
     = Some (div_nohighlight ++ codes "\*\*not bold\*\*</div>")
  /\ finditer Parser.bold_pattern (div_nohighlight ++ codes "\*\*not bold\*\*</div>") = []
  /\ (forall _input : list N,
        Parser.markdown _input = run_passes (construct_passes _input) (escape _input))
  /\ (forall buf : list N,
        Forall (fun m => exists content s_tag,
                    group m 3 = Some content
                    /\ Parser.codeblock_repl m
                       = Some (s_tag ++ flat_map protect content ++ text "</div>"))
               (finditer Parser.codeblock_pattern buf))
  /\ (forall content : list N,
        bind (Parser.escape_symbols content) Parser.remove_escaped_symbol = Some content)
  /\ (forall (pre body suf : list N) (y : N),
        Forall (fun r =>
                  Forall (keeps_clear (List.length pre)
                            (List.length pre + List.length (flat_map protect (y :: body))))
                         (finditer r (pre ++ flat_map protect (y :: body) ++ suf)))
               formatting_patterns)
  /\ (forall (pre body suf : list N) (y : N),
        exists pre' suf',
          run_passes formatting_passes (pre ++ flat_map protect (y :: body) ++ suf)
          = Some (pre' ++ flat_map protect (y :: body) ++ suf')).
Proof.
  split; [vm_compute; reflexivity|].
  split; [vm_compute; reflexivity|].
  split; [vm_compute; reflexivity|].
  split; [vm_compute; reflexivity|].
  split; [intros _input; apply markdown_as_passes|].
  split; [apply codeblock_repl_protects|].
  split; [intros content; apply unprotect_protect|].
  split; [intros pre body suf y; exact (formatting_keeps_clear pre body suf y)|].
  intros pre body suf y. apply formatting_passes_keep_protected.
Qed.

(** C4: the code does not keep what the claim says.  The code-block
    pass runs first and writes its body symbol-protected, and the five
    delimiter patterns respect that through their backslash look-behind;
    three places of the later passes have no such guard and rewrite the
    body.  The link pattern: in the first input the bracket inside the
    body starts a labelled link that ends outside it, and the anchor and
    the code element come out crossed.  The block-quote pattern: in the
    second input the quote is closed in the middle of the body and the
    newline of the body is dropped.  The closing backtick of inline
    code: in the third input the code block has the body b`c, the
    backtick before the block is paired with the one inside the body,
    the output no longer contains the body and keeps a protection
    backslash. *)
Lemma code_block_body_rewritten :
  Parser.markdown (codes "```[x``` y](http://a)")
    = Some (div_nohighlight ++ codes "<a href=" ++ [dquote] ++ codes "http://a"
              ++ [dquote] ++ codes ">x</div> y</a>")
  /\ Parser.codeblock (escape (codes "```[x``` y](http://a)"))
     = Some (div_nohighlight ++ codes "\[x</div> y](http://a)")
  /\ contains (codes "[x")
              (div_nohighlight ++ codes "<a href=" ++ [dquote] ++ codes "http://a"
                 ++ [dquote] ++ codes ">x</div> y</a>")
     = false
  /\ Parser.codeblock (escape (codes "> ```a c" ++ [newline] ++ codes "b```"))
     = Some (codes "&gt; " ++ div_nohighlight ++ codes "a c" ++ [newline]
               ++ codes "b</div>")
  /\ Parser.markdown (codes "> ```a c" ++ [newline] ++ codes "b```")
     = Some (codes "<div class=" ++ [dquote] ++ codes "quote" ++ [dquote] ++ codes ">"
               ++ div_nohighlight ++ codes "a c</div>b</div>")
  /\ Parser.codeblock (escape (codes "`a```b`c```"))
     = Some (codes "`a" ++ div_nohighlight ++ codes "b\`c</div>")
  /\ Parser.markdown (codes "`a```b`c```")
     = Some (span_inline ++ codes "a" ++ div_nohighlight ++ codes "b\</span>c</div>")
  /\ contains (codes "b`c")
              (span_inline ++ codes "a" ++ div_nohighlight ++ codes "b\</span>c</div>")
     = false.
Proof. repeat split; vm_compute; reflexivity. Qed.

(** ** Emoji size *)

Lemma womboji_unfold (original_txt : list N) :
  Parser.womboji original_txt
  = forallb (fun m => Parser.is_empty (expand (group m 1))
                      && Parser.is_empty (expand (group m 2)))
            (finditer Parser.womboji_pattern original_txt).
Proof. unfold Parser.womboji, findall2. apply forallb_map. Qed.

Lemma pairs_ok_nth p s : forall k x y,
  pairs_ok p s = true -> nth_error s k = Some x -> nth_error s (S k) = Some y ->
  p x y = true.
Proof.
  induction s as [|a s IH]; intros k x y Hp Hx Hy; [destruct k; discriminate|].
  cbn [pairs_ok] in Hp. apply andb_true_iff in Hp. destruct Hp as [H1 H2].
  destruct k as [|k]; cbn [nth_error] in Hx, Hy.
  - apply Some_inj in Hx. subst a. destruct s as [|b s]; [discriminate|].
    cbn [nth_error] in Hy. apply Some_inj in Hy. subst b. exact H1.
  - eapply IH; eauto.
Qed.

Lemma span_run k : forall l q, q < span k l ->
  exists x, nth_error l q = Some x /\ cls_mem k x = true.
Proof.
  induction l as [|a l IH]; intros q Hq; cbn [span] in Hq; [lia|].
  destruct (cls_mem k a) eqn:K; [|lia].
  destruct q as [|q]; cbn [nth_error]; [eauto|]. apply IH. lia.
Qed.

Lemma run_member k s i j q :
  j <= i + span k (skipn i s) -> i <= q < j ->
  exists x, nth_error s q = Some x /\ cls_mem k x = true.
Proof.
  intros Hj Hq. destruct (span_run k (skipn i s) (q - i)) as (x & Hx & Kx); [lia|].
  rewrite nth_error_skipn in Hx. replace (i + (q - i)) with q in Hx by lia. eauto.
Qed.

Lemma space_is_side x : cls_mem (Pos [Space]) x = true -> cls_mem Parser.side_cls x = true.
Proof.
  unfold Parser.side_cls. cbn [cls_mem existsb item_mem]. rewrite orb_false_r.
  intros ->. rewrite !orb_true_r. reflexivity.
Qed.

Lemma starts_with_hd x w s i :
  starts_with (x :: w) (skipn i s) = true -> nth_error s i = Some x.
Proof.
  intros E. replace i with (i + 0) by lia.
  eapply starts_with_at; [exact E|reflexivity].
Qed.

(** The side captures of any match of the detector in a text whose
    tokens stand alone are empty. *)
Lemma womboji_sides_empty (s : list N) i j c :
  pairs_ok stands_alone s = true ->
  In (j, c) (mt Parser.womboji_pattern s i []) ->
  match get 1 c with Some (a, b) => a = b | None => True end
  /\ match get 2 c with Some (a, b) => a = b | None => True end.
Proof.
  intros Hs M. unfold Parser.womboji_pattern in M.
  apply in_mt_seq in M. destruct M as (k1 & c1 & M1 & M).
  assert (H1 : i <= k1 <= i + span Parser.side_cls (skipn i s)
               /\ (c1 = [(1, (i, k1))] \/ (c1 = [] /\ k1 = i))).
  { cbn [mt] in M1. apply in_app_or in M1. destruct M1 as [M1|[E|[]]].
    - apply in_map_iff in M1. destruct M1 as ([k c0] & E & M1). cbn [fst snd] in E.
      apply in_mt_rep in M1. destruct M1 as (-> & Ha & Hb). inversion E; subst.
      split; [lia|]. left; reflexivity.
    - inversion E; subst. split; [lia|]. right; auto. }
  destruct H1 as [Hk1 Hc1].
  apply in_mt_seq in M. destruct M as (k2 & c2 & M2 & M).
  apply in_mt_rep in M2. destruct M2 as (-> & Hk2a & Hk2b).
  apply in_mt_seq in M. destruct M as (k3 & c3 & M3 & M).
  apply in_mt_str in M3. destruct M3 as (-> & -> & S3).
  apply starts_with_hd in S3.
  assert (Ek : k2 = i).
  { destruct (Nat.eq_dec k2 i) as [|Hne]; [assumption|exfalso].
    assert (Hside : exists x, nth_error s (k2 - 1) = Some x
                              /\ cls_mem Parser.side_cls x = true).
    { destruct (Nat.eq_dec k2 k1) as [->|Hne'].
      - apply (run_member _ s i k1); lia.
      - destruct (run_member (Pos [Space]) s k1 k2 (k2 - 1)) as (x & Hx & Kx); [lia|lia|].
        exists x. split; [exact Hx|]. apply space_is_side, Kx. }
    destruct Hside as (x & Hx & Kx).
    replace k2 with (S (k2 - 1)) in S3 by lia.
    pose proof (pairs_ok_nth _ _ _ _ _ Hs Hx S3) as Hp.
    unfold stands_alone in Hp. rewrite N.eqb_refl, Kx in Hp. discriminate. }
  subst k2. assert (k1 = i) by lia. subst k1.
  apply in_mt_seq in M. destruct M as (k4 & c4 & M4 & M).
  apply in_mt_rep in M4. destruct M4 as (-> & _ & _).
  apply in_mt_seq in M. destruct M as (k5 & c5 & M5 & M).
  apply in_mt_str in M5. destruct M5 as (-> & -> & _).
  apply in_mt_seq in M. destruct M as (k6 & c6 & M6 & M).
  apply in_mt_rep in M6. destruct M6 as (-> & _ & _).
  apply in_mt_seq in M. destruct M as (k7 & c7 & M7 & M).
  apply in_mt_str in M7. destruct M7 as (-> & -> & _).
  apply in_mt_seq in M. destruct M as (k8 & c8 & M8 & M).
  apply in_mt_rep in M8. destruct M8 as (-> & _ & _).
  apply in_mt_seq in M. destruct M as (k9 & c9 & M9 & M).
  apply in_mt_str in M9. destruct M9 as (-> & -> & S9).
  apply starts_with_hd in S9.
  apply in_mt_seq in M. destruct M as (k10 & c10 & M10 & M).
  apply in_mt_rep in M10. destruct M10 as (-> & Ha & Hb).
  cbn [List.length codes list_ascii_of_string map] in *.
  assert (Ek : k10 = k8 + 1).
  { destruct (Nat.eq_dec k10 (k8 + 1)) as [|Hne]; [assumption|exfalso].
    destruct (run_member (Pos [Space]) s (k8 + 1) k10 (k8 + 1)) as (x & Hx & Kx);
      [lia|lia|].
    replace (k8 + 1) with (S k8) in Hx by lia.
    pose proof (pairs_ok_nth _ _ _ _ _ Hs S9 Hx) as Hp.
    unfold stands_alone in Hp. rewrite N.eqb_refl, (space_is_side _ Kx) in Hp.
    rewrite andb_comm in Hp. discriminate. }
  subst k10.
  assert (H2 : (c = (2, (k8 + 1, j)) :: c1
                /\ k8 + 1 <= j <= k8 + 1 + span Parser.side_cls (skipn (k8 + 1) s))
               \/ c = c1).
  { cbn [mt] in M. apply in_app_or in M. destruct M as [M|[E|[]]].
    - apply in_map_iff in M. destruct M as ([k c0] & E & M). cbn [fst snd] in E.
      apply in_mt_rep in M. destruct M as (-> & Hc & Hd). inversion E; subst.
      left. split; [reflexivity|lia].
    - inversion E; subst. right; reflexivity. }
  assert (G1 : match get 1 c1 with Some (a, b) => a = b | None => True end)
    by (destruct Hc1 as [->|[-> _]]; cbn [get Nat.eqb]; auto).
  destruct H2 as [[-> Hj]| ->].
  - cbn [get Nat.eqb]. split; [exact G1|].
    destruct (Nat.eq_dec (k8 + 1) j) as [|Hne]; [assumption|exfalso].
    destruct (run_member Parser.side_cls s (k8 + 1) j (k8 + 1)) as (x & Hx & Kx);
      [lia|lia|].
    replace (k8 + 1) with (S k8) in Hx by lia.
    pose proof (pairs_ok_nth _ _ _ _ _ Hs S9 Hx) as Hp.
    unfold stands_alone in Hp. rewrite N.eqb_refl, Kx in Hp.
    rewrite andb_comm in Hp. discriminate.
  - split; [exact G1|].
    destruct Hc1 as [->|[-> _]]; cbn [get Nat.eqb]; auto.
Qed.

Lemma tokens_alone_large (original_txt : list N) :
  pairs_ok stands_alone original_txt = true -> Parser.womboji original_txt = true.
Proof.
  intros Hs. rewrite womboji_unfold. apply forallb_forall.
  apply Forall_forall. apply finditer_Forall. intros i j c M.
  cbn [code Glyph_N] in M. rewrite map_id in M. apply match_at_In in M.
  destruct (womboji_sides_empty _ _ _ _ Hs M) as [G1 G2].
  unfold group. cbn [m_caps m_string].
  destruct (get 1 c) as [[a1 b1]|]; destruct (get 2 c) as [[a2 b2]|]; subst;
    cbn [expand]; rewrite ?slice_empty by lia; reflexivity.
Qed.

Lemma pairs_ok_cons2 p (x y : N) t :
  pairs_ok p (x :: y :: t) = p x y && pairs_ok p (y :: t).
Proof. reflexivity. Qed.

Lemma single_token_stands_alone : forall (mid : list N) (a : N),
  (a =? ch ">")%N = false ->
  forallb (fun c => negb ((c =? ch "<") || (c =? ch ">"))%N) mid = true ->
  pairs_ok stands_alone (a :: mid ++ [ch ">"]) = true.
Proof.
  induction mid as [|b mid IH]; intros a Ha Hm.
  - cbn [app pairs_ok]. unfold stands_alone. rewrite Ha. reflexivity.
  - cbn [forallb] in Hm. apply andb_true_iff in Hm. destruct Hm as [Hb Hm].
    apply negb_true_iff, orb_false_iff in Hb. destruct Hb as [Hb1 Hb2].
    change ((b :: mid) ++ [ch ">"]) with (b :: mid ++ [ch ">"]).
    rewrite pairs_ok_cons2, (IH b Hb2 Hm). unfold stands_alone.
    rewrite Hb1, Ha. reflexivity.
Qed.

(** C5, as the code has it.  The size class is one decision per message,
    taken from the original input and applied to every token of the
    buffer: large exactly when both side captures of every match of the
    detector pattern in the original input are empty.  That is the case
    whenever no side-text character stands directly before a '<' or
    directly after a '>' of the input, so for every message that is one
    token and nothing else.  One token alone renders large; the same
    token between words, or after an exclamation mark, renders inline;
    when one of two tokens has text next to it both render inline, and
    two tokens separated by a blank both render large. *)
Theorem emoji_size_is_one_decision :
  (forall buf original_txt : list N,
      Parser.emojify buf original_txt
      = sub Parser.nitro_emote_pattern
            (if Parser.womboji original_txt
             then Parser.wombojify_repl else Parser.emojify_repl) buf)
  /\ (forall original_txt : list N,
        Parser.womboji original_txt
        = forallb (fun m => Parser.is_empty (expand (group m 1))
                            && Parser.is_empty (expand (group m 2)))
                  (finditer Parser.womboji_pattern original_txt))
  /\ (forall original_txt : list N,
        pairs_ok stands_alone original_txt = true -> Parser.womboji original_txt = true)
  /\ (forall mid : list N,
        forallb (fun c => negb ((c =? ch "<") || (c =? ch ">"))%N) mid = true ->
        Parser.womboji (ch "<" :: mid ++ [ch ">"]) = true)
  /\ Parser.markdown (codes "<:ab:123456789012345678>")
     = Some (img_tag "emoji emoji--large" "ab" "123456789012345678" ".png")
  /\ Parser.markdown (codes "hi <:ab:123456789012345678> there")
     = Some (codes "hi " ++ img_tag "emoji" "ab" "123456789012345678" ".png"
               ++ codes " there")
  /\ Parser.markdown (codes "!<:ab:123456789012345678>")
     = Some (codes "!" ++ img_tag "emoji" "ab" "123456789012345678" ".png")
  /\ Parser.markdown (codes "<a:ab:123456789012345678> <:cd:123456789012345678>")
     = Some (img_tag "emoji emoji--large" "ab" "123456789012345678" ".gif" ++ codes " "
               ++ img_tag "emoji emoji--large" "cd" "123456789012345678" ".png")
  /\ Parser.markdown (codes "<a:ab:123456789012345678> <:cd:123456789012345678> ok")
     = Some (img_tag "emoji" "ab" "123456789012345678" ".gif" ++ codes " "
               ++ img_tag "emoji" "cd" "123456789012345678" ".png" ++ codes " ok").
Proof.
  split.
  { intros buf original_txt. unfold Parser.emojify.
    destruct (Parser.womboji original_txt); reflexivity. }
  split; [apply womboji_unfold|].
  split; [apply tokens_alone_large|].
  split.
  { intros mid Hm. apply tokens_alone_large, single_token_stands_alone;
      [reflexivity|exact Hm]. }
  repeat split; vm_compute; reflexivity.
Qed.

Lemma emoji_size_is_one_decision_witness :
  forallb (fun c => negb ((c =? ch "<") || (c =? ch ">"))%N)
          (codes "a:blob_cat:123456789012345678") = true
  /\ Parser.womboji (ch "<" :: codes "a:blob_cat:123456789012345678" ++ [ch ">"]) = true.
Proof.
  split; [reflexivity|].
  exact (proj1 (proj2 (proj2 (proj2 emoji_size_is_one_decision)))
           (codes "a:blob_cat:123456789012345678") eq_refl).
Defined.

(** C5, as stated, fails: a message made only of an emoji token and
    punctuation, or of a token after a blank, meets the condition of the
    specification and still renders at the inline size, because the
    side-text class of the detector contains the ASCII punctuation and
    whitespace. *)
Lemma punctuation_selects_inline_size :
  spec_emoji_only (codes "!<:ab:123456789012345678>") = true
  /\ Parser.womboji (codes "!<:ab:123456789012345678>") = false
  /\ Parser.markdown (codes "!<:ab:123456789012345678>")
     = Some (codes "!" ++ img_tag "emoji" "ab" "123456789012345678" ".png")
  /\ spec_emoji_only (codes " <:ab:123456789012345678>") = true
  /\ Parser.markdown (codes " <:ab:123456789012345678>")
     = Some (codes " " ++ img_tag "emoji" "ab" "123456789012345678" ".png").
Proof. repeat split; vm_compute; reflexivity. Qed.

(** * Composite messages and message groups *)


Lemma str_eqb_eq a : forall b, str_eqb a b = true <-> a = b.
Proof.
  induction a as [|x a IH]; intros [|y b]; cbn [str_eqb]; split; intros E;
    try reflexivity; try discriminate.
  - apply andb_true_iff in E. destruct E as [E1 E2].
    apply N.eqb_eq in E1. apply IH in E2. subst. reflexivity.
  - inversion E; subst. rewrite N.eqb_refl. apply IH. reflexivity.
Qed.

Lemma author_is_get_author m : CompositeMessage.author m = CompositeMessage.get_author m.
Proof.
  unfold CompositeMessage.author, CompositeMessage._author, CompositeMessage.get_author.
  destruct (CompositeMessage.mem_msg m), (CompositeMessage.db_msg m); try reflexivity;
    destruct (CompositeMessage.find_author m); reflexivity.
Qed.

Lemma author_exists m a :
  CompositeMessage.author m = Some a -> CompositeMessage.exists_ m = true.
Proof.
  unfold CompositeMessage.author, CompositeMessage.exists_.
  destruct (CompositeMessage.mem_msg m), (CompositeMessage.db_msg m);
    try reflexivity; discriminate.
Qed.

(** The constructor of a group fails on the nameless messages and on no
    other; the group it builds holds the one message. *)
Lemma init_cases r m :
  match MessageGroup.init r m with
  | Ok g =>
      nameless m = false
      /\ MessageGroup.messages g = [m]
      /\ MessageGroup.uncached_group g = negb (CompositeMessage.exists_ m)
      /\ MessageGroup.author g = CompositeMessage.author m
  | Raise e => e = AttributeError /\ nameless m = true
  end.
Proof.
  unfold MessageGroup.init, CompositeMessage.author_pfp,
    CompositeMessage.user_name_and_discrim, CompositeMessage.display_name,
    CompositeMessage.author_again, nameless.
  rewrite author_is_get_author.
  unfold CompositeMessage._author, CompositeMessage.get_author,
    CompositeMessage.find_author.
  destruct m as [bot mid [mm|] [[a b c d [w|] e f g]|]];
    cbn [CompositeMessage.mem_msg CompositeMessage.db_msg CompositeMessage.bot
         CachedMessage.webhook_author_name CachedMessage.user_id is_some negb andb rbind];
    try (repeat split; reflexivity).
  - destruct (bot b); cbn [rbind is_some negb andb]; repeat split; reflexivity.
  - destruct (bot b); cbn [rbind is_some negb andb]; repeat split; reflexivity.
Qed.

Lemma nameless_rejected g m :
  nameless m = true -> MessageGroup.append g m = Raise ValueError.
Proof.
  intros Hn. unfold MessageGroup.append, MessageGroup.same_author.
  rewrite author_is_get_author.
  unfold nameless in Hn.
  unfold CompositeMessage.exists_, CompositeMessage.get_author, CompositeMessage.find_author.
  destruct (CompositeMessage.mem_msg m); [discriminate|].
  destruct (CompositeMessage.db_msg m) as [d|]; [|discriminate].
  apply andb_true_iff in Hn. destruct Hn as [_ Hn].
  destruct (CompositeMessage.bot m (CachedMessage.user_id d)); [discriminate|].
  reflexivity.
Qed.

Lemma append_joins m0 g m :
  opened_by m0 g ->
  MessageGroup.append g m
  = if joins m0 m then Ok (MessageGroup.push g m) else Raise ValueError.
Proof.
  intros [U A]. unfold MessageGroup.append, MessageGroup.same_author, joins.
  rewrite U, A.
  destruct (CompositeMessage.exists_ m) eqn:Em, (CompositeMessage.exists_ m0) eqn:E0;
    cbn [negb andb orb];
    destruct (CompositeMessage.author m) as [a|] eqn:Am;
    destruct (CompositeMessage.author m0) as [b|] eqn:A0;
    try rewrite N.eqb_refl; cbn [andb]; try reflexivity;
    try (destruct (str_eqb (User.name a) (User.name b)); reflexivity).
Qed.

Lemma last_snoc (gs : MessageGroups.t) g :
  MessageGroups.last_message_group (gs ++ [g]) = Ok g.
Proof. unfold MessageGroups.last_message_group. rewrite rev_app_distr. reflexivity. Qed.

Lemma append_empty r m :
  MessageGroups.append r [] m = (g <~ MessageGroup.init r m ;; Ok [g]).
Proof. reflexivity. Qed.

Lemma append_snoc r (gs : MessageGroups.t) g m m0 :
  opened_by m0 g ->
  MessageGroups.append r (gs ++ [g]) m
  = if joins m0 m then Ok (gs ++ [MessageGroup.push g m])
    else (g' <~ MessageGroup.init r m ;; Ok ((gs ++ [g]) ++ [g'])).
Proof.
  intros O. unfold MessageGroups.append.
  rewrite length_app. cbn [List.length].
  replace (List.length gs + 1 =? 0) with false by (symmetry; apply Nat.eqb_neq; lia).
  rewrite last_snoc. cbn [rbind]. rewrite (append_joins _ _ _ O).
  destruct (joins m0 m); [|reflexivity].
  rewrite removelast_last. reflexivity.
Qed.

Lemma opened_push m0 g m : opened_by m0 g -> opened_by m0 (MessageGroup.push g m).
Proof. intros O. exact O. Qed.

(** Appending to a groups object whose last group [m0] opened. *)
Lemma append_all_snoc randint l : forall k (gs : MessageGroups.t) g m0 cur,
  opened_by m0 g -> MessageGroup.messages g = m0 :: cur ->
  match append_all randint k (gs ++ [g]) l with
  | Ok out =>
      existsb nameless l = false
      /\ map MessageGroup.messages out = map MessageGroup.messages gs ++ runs_from m0 cur l
  | Raise e => e = AttributeError /\ existsb nameless l = true
  end.
Proof.
  induction l as [|m l IH]; intros k gs g m0 cur O M.
  - cbn [append_all existsb runs_from]. split; [reflexivity|].
    rewrite map_app. cbn [map]. rewrite M. reflexivity.
  - cbn [append_all existsb runs_from]. rewrite (append_snoc _ _ _ _ _ O).
    destruct (joins m0 m) eqn:J.
    + cbn [rbind].
      assert (Hn : nameless m = false).
      { destruct (nameless m) eqn:Hn; [|reflexivity].
        pose proof (append_joins _ _ m O) as E.
        rewrite (nameless_rejected _ _ Hn), J in E. discriminate. }
      rewrite Hn. cbn [orb].
      apply (IH (S k) gs (MessageGroup.push g m) m0 (cur ++ [m])).
      * exact O.
      * cbn [MessageGroup.push MessageGroup.messages]. rewrite M. reflexivity.
    + pose proof (init_cases (randint k) m) as I.
      destruct (MessageGroup.init (randint k) m) as [g'|e]; cbn [rbind].
      * destruct I as (Hn & Mg & U & A). rewrite Hn. cbn [orb].
        specialize (IH (S k) (gs ++ [g]) g' m [] (conj U A) Mg).
        destruct (append_all randint (S k) ((gs ++ [g]) ++ [g']) l); [|exact IH].
        destruct IH as [H1 H2]. split; [exact H1|].
        rewrite H2, map_app. cbn [map]. rewrite M, <- app_assoc. reflexivity.
      * destruct I as [-> Hn]. rewrite Hn. split; reflexivity.
Qed.

Lemma append_all_cases randint l :
  match append_all randint 0 [] l with
  | Ok out => existsb nameless l = false /\ map MessageGroup.messages out = runs l
  | Raise e => e = AttributeError /\ existsb nameless l = true
  end.
Proof.
  destruct l as [|m l]; [cbn; auto|].
  cbn [append_all runs existsb]. rewrite append_empty.
  pose proof (init_cases (randint 0) m) as I.
  destruct (MessageGroup.init (randint 0) m) as [g|e]; cbn [rbind].
  - destruct I as (Hn & Mg & U & A). rewrite Hn. cbn [orb].
    exact (append_all_snoc randint l 1 [] g m [] (conj U A) Mg).
  - destruct I as [-> Hn]. rewrite Hn. split; reflexivity.
Qed.

Lemma concat_runs_from l : forall m0 cur, List.concat (runs_from m0 cur l) = m0 :: cur ++ l.
Proof.
  induction l as [|m l IH]; intros m0 cur; cbn [runs_from].
  - cbn [List.concat]. rewrite !app_nil_r. reflexivity.
  - destruct (joins m0 m).
    + rewrite IH, <- app_assoc. reflexivity.
    + cbn [List.concat]. rewrite IH. reflexivity.
Qed.

Lemma concat_runs l : List.concat (runs l) = l.
Proof. destruct l as [|m l]; [reflexivity|]. cbn [runs]. apply concat_runs_from. Qed.

Lemma runs_from_nonempty l : forall m0 cur, Forall (fun run => run <> []) (runs_from m0 cur l).
Proof.
  induction l as [|m l IH]; intros m0 cur; cbn [runs_from].
  - constructor; [discriminate|constructor].
  - destruct (joins m0 m); [apply IH|]. constructor; [discriminate|apply IH].
Qed.

Lemma runs_nonempty l : Forall (fun run => run <> []) (runs l).
Proof. destruct l as [|m l]; [constructor|]. apply runs_from_nonempty. Qed.

Lemma flat_map_concat_map {A B} (f : A -> list B) l : flat_map f l = List.concat (map f l).
Proof. induction l as [|x l IH]; cbn; [reflexivity|]. rewrite IH. reflexivity. Qed.

(** X1: when no message of the sequence is nameless, appending the
    messages one after the other to an empty MessageGroups succeeds, and
    the groups hold every message exactly once and in the order of the
    appends; no group is empty, so there are at most as many groups as
    messages and the counts of the groups add up to their number. *)
Theorem groups_keep_every_message randint (l : list CompositeMessage.t) :
  existsb nameless l = false ->
  exists gs,
    append_all randint 0 [] l = Ok gs
    /\ all_messages gs = l
    /\ Forall (fun g => 1 <= MessageGroup.count g) gs
    /\ MessageGroups.len gs <= List.length l
    /\ list_sum (map MessageGroup.count gs) = List.length l.
Proof.
  intros Hn. pose proof (append_all_cases randint l) as Hc.
  destruct (append_all randint 0 [] l) as [gs|e].
  2:{ destruct Hc as [_ Hc]. congruence. }
  destruct Hc as [_ Hr]. exists gs. split; [reflexivity|].
  assert (Hall : all_messages gs = l).
  { unfold all_messages. rewrite flat_map_concat_map, Hr. apply concat_runs. }
  assert (Hne : Forall (fun g => 1 <= MessageGroup.count g) gs).
  { pose proof (runs_nonempty l) as F. rewrite <- Hr in F.
    rewrite Forall_map in F. eapply Forall_impl; [|exact F].
    intros g Hg. unfold MessageGroup.count. cbv beta in Hg. revert Hg.
    destruct (MessageGroup.messages g); [congruence|cbn; lia]. }
  assert (Hsum : list_sum (map MessageGroup.count gs) = List.length l).
  { rewrite <- Hall. unfold all_messages, MessageGroup.count.
    clear. induction gs as [|g gs IH]; [reflexivity|].
    cbn [map flat_map]. rewrite length_app, <- IH. reflexivity. }
  repeat split; try assumption.
  rewrite <- Hsum. unfold MessageGroups.len. clear -Hne.
  induction Hne as [|g gs Hg _ IH]; [apply Nat.le_refl|].
  cbn [List.length map]. unfold list_sum in *. cbn [fold_right]. lia.
Qed.

Lemma groups_keep_every_message_witness :
  existsb nameless sample_messages = false
  /\ exists gs,
       append_all (fun _ => 0%N) 0 [] sample_messages = Ok gs
       /\ all_messages gs = sample_messages
       /\ Forall (fun g => 1 <= MessageGroup.count g) gs
       /\ MessageGroups.len gs <= List.length sample_messages
       /\ list_sum (map MessageGroup.count gs) = List.length sample_messages.
Proof.
  split; [reflexivity|].
  exact (groups_keep_every_message (fun _ => 0%N) sample_messages eq_refl).
Defined.

(** X2: the groups that MessageGroups.append builds are the runs of
    the message sequence: a message goes into the current group when it
    and the message that opened the group are both in no cache, or both
    have an author and the two author names are equal; otherwise it
    opens a new group.  Nothing else is compared. *)
Theorem groups_are_runs_by_name randint (l : list CompositeMessage.t) gs :
  append_all randint 0 [] l = Ok gs ->
  map MessageGroup.messages gs = runs l.
Proof.
  intros E. pose proof (append_all_cases randint l) as Hc.
  rewrite E in Hc. apply Hc.
Qed.

Lemma groups_are_runs_by_name_witness :
  exists gs,
    append_all (fun _ => 0%N) 0 [] sample_messages = Ok gs
    /\ map MessageGroup.messages gs = runs sample_messages
    /\ map MessageGroup.count gs = [2; 1; 2; 1].
Proof.
  eexists. split; [vm_compute; reflexivity|].
  split; [apply (groups_are_runs_by_name (fun _ => 0%N)); vm_compute; reflexivity|].
  vm_compute; reflexivity.
Defined.

(** X3: a message that is only in the database cache, has no webhook
    name and whose author the bot cannot find makes MessageGroups.append
    raise AttributeError, whatever the groups are (the group in place
    rejects it and the constructor of the new group fails on its name);
    a sequence of appends fails exactly when it has such a message, and
    with no other exception. *)
Theorem nameless_message_breaks_grouping randint (l : list CompositeMessage.t) :
  (forall r gs m, nameless m = true -> MessageGroups.append r gs m = Raise AttributeError)
  /\ (existsb nameless l = true <-> append_all randint 0 [] l = Raise AttributeError)
  /\ (existsb nameless l = false <-> exists gs, append_all randint 0 [] l = Ok gs).
Proof.
  split.
  { intros r gs m Hn.
    assert (I : MessageGroup.init r m = Raise AttributeError).
    { pose proof (init_cases r m) as I. destruct (MessageGroup.init r m) as [g|e].
      - destruct I as [I _]. congruence.
      - destruct I as [-> _]. reflexivity. }
    unfold MessageGroups.append.
    destruct (Nat.eqb_spec (List.length gs) 0) as [E0|E0]; [rewrite I; reflexivity|].
    destruct (MessageGroups.last_message_group gs) as [g|e] eqn:L.
    - cbn [rbind]. rewrite (nameless_rejected _ _ Hn), I. reflexivity.
    - unfold MessageGroups.last_message_group in L.
      destruct (rev gs) eqn:R; [|discriminate].
      apply (f_equal (@List.length _)) in R. rewrite length_rev in R.
      contradiction. }
  pose proof (append_all_cases randint l) as Hc.
  destruct (append_all randint 0 [] l) as [gs|e].
  - destruct Hc as [Hn _]. rewrite Hn. split; split; intros E; try discriminate.
    + exists gs; reflexivity.
    + reflexivity.
  - destruct Hc as [-> Hn]. rewrite Hn. split; split; intros E; try reflexivity;
      try discriminate.
    destruct E as [gs E]. discriminate.
Qed.

(** X6: two messages whose authors have the same name are put into one
    group, headed by the first author, whether or not the two authors
    are the same user: the id test of MessageGroup.append compares the
    id of the group's author with itself. *)
Theorem same_name_shares_a_group randint (m1 m2 : CompositeMessage.t) a1 a2 :
  CompositeMessage.author m1 = Some a1 ->
  CompositeMessage.author m2 = Some a2 ->
  User.name a1 = User.name a2 ->
  exists g,
    append_all randint 0 [] [m1; m2] = Ok [g]
    /\ MessageGroup.messages g = [m1; m2]
    /\ MessageGroup.author g = Some a1.
Proof.
  intros A1 A2 En.
  assert (J : joins m1 m2 = true).
  { unfold joins. rewrite A1, A2. apply orb_true_iff. right.
    apply str_eqb_eq. symmetry. exact En. }
  cbn [append_all]. rewrite append_empty.
  pose proof (init_cases (randint 0) m1) as I.
  destruct (MessageGroup.init (randint 0) m1) as [g|e].
  - destruct I as (_ & Mg & U & A). cbn [rbind].
    pose proof (append_snoc (randint 1) [] g m2 m1 (conj U A)) as S1.
    cbn [app] in S1. rewrite S1, J. cbn [rbind].
    eexists. split; [reflexivity|].
    cbn [MessageGroup.push MessageGroup.messages MessageGroup.author].
    rewrite Mg, A, A1. split; reflexivity.
  - destruct I as [_ Hn]. exfalso. revert Hn A1. rewrite author_is_get_author.
    unfold nameless, CompositeMessage.get_author, CompositeMessage.find_author.
    destruct (CompositeMessage.mem_msg m1); [discriminate|].
    destruct (CompositeMessage.db_msg m1) as [d|]; [|discriminate].
    destruct (CompositeMessage.bot m1 (CachedMessage.user_id d)); [|discriminate].
    rewrite andb_false_r. discriminate.
Qed.

Lemma same_name_shares_a_group_witness :
  User.id (sample_user 10 "ann") <> User.id (sample_user 11 "ann")
  /\ exists g,
       append_all (fun _ => 0%N) 0 []
         [in_memory 1 (sample_user 10 "ann") "hi"; in_memory 2 (sample_user 11 "ann") "there"]
       = Ok [g]
       /\ MessageGroup.messages g
          = [in_memory 1 (sample_user 10 "ann") "hi";
             in_memory 2 (sample_user 11 "ann") "there"]
       /\ MessageGroup.author g = Some (sample_user 10 "ann").
Proof.
  split; [discriminate|].
  exact (same_name_shares_a_group (fun _ => 0%N)
           (in_memory 1 (sample_user 10 "ann") "hi")
           (in_memory 2 (sample_user 11 "ann") "there")
           (sample_user 10 "ann") (sample_user 11 "ann") eq_refl eq_refl eq_refl).
Defined.

(** ** The two loops *)

Lemma insert_sorted_perm x l : Permutation (x :: l) (insert_sorted x l).
Proof.
  induction l as [|y l IH]; cbn [insert_sorted]; [apply Permutation_refl|].
  destruct (x <=? y)%N; [apply Permutation_refl|].
  eapply Permutation_trans; [apply perm_swap|]. apply perm_skip, IH.
Qed.

Lemma sorted_perm l : Permutation l (sorted l).
Proof.
  induction l as [|x l IH]; [apply Permutation_refl|].
  cbn [sorted fold_right]. fold (sorted l).
  eapply Permutation_trans; [apply perm_skip, IH|apply insert_sorted_perm].
Qed.

Lemma insert_sorted_hd x y l :
  (y <= x)%N -> HdRel N.le y l -> HdRel N.le y (insert_sorted x l).
Proof.
  intros Hyx H. destruct l as [|z l]; cbn [insert_sorted].
  - constructor. exact Hyx.
  - destruct (x <=? z)%N; constructor; [exact Hyx|]. inversion H; assumption.
Qed.

Lemma insert_sorted_ok x l : Sorted N.le l -> Sorted N.le (insert_sorted x l).
Proof.
  induction 1 as [|y l Hs IH Hh]; cbn [insert_sorted].
  - repeat constructor.
  - destruct (N.leb_spec x y) as [Hxy|Hxy].
    + constructor; [constructor; assumption|constructor; exact Hxy].
    + constructor; [exact IH|]. apply insert_sorted_hd; [lia|exact Hh].
Qed.

Lemma sorted_ok l : Sorted N.le (sorted l).
Proof.
  induction l as [|x l IH]; [constructor|].
  cbn [sorted fold_right]. fold (sorted l). apply insert_sorted_ok, IH.
Qed.

Lemma all_messages_runs (gs : MessageGroups.t) l :
  map MessageGroup.messages gs = runs l -> all_messages gs = l.
Proof.
  intros Hr. unfold all_messages. rewrite flat_map_concat_map, Hr. apply concat_runs.
Qed.

Section CollectFacts.
Variable get_user : N -> option User.t.
Variable get_cached_message : N -> option CachedMessage.t.
Variable randint : nat -> N.

Lemma fold_raise {A B} (f : result A -> B -> result A) e l :
  (forall b, f (Raise e) b = Raise e) -> fold_left f l (Raise e) = Raise e.
Proof. intros Hf. induction l as [|b l IH]; cbn [fold_left]; [reflexivity|]. rewrite Hf. exact IH. Qed.

Lemma bulk_fold cached_messages l : forall st,
  fold_left (bulk_step get_user get_cached_message randint cached_messages) l (Ok st)
  = (gs <~ append_all randint (msg_count st) (message_groups st)
             (map (bulk_message get_user get_cached_message cached_messages) l) ;;
     Ok (mkCollected
           (db_cached_messages st ++ flat_map (fun i => cache_hit (get_cached_message i)) l)
           gs (msg_count st + List.length l))).
Proof.
  induction l as [|i l IH]; intros st.
  - cbn [fold_left map append_all rbind flat_map List.length].
    rewrite app_nil_r, Nat.add_0_r. destruct st; reflexivity.
  - cbn [fold_left map append_all flat_map List.length].
    unfold bulk_step at 2. cbn [rbind]. fold (bulk_message get_user get_cached_message cached_messages i).
    destruct (MessageGroups.append (randint (msg_count st)) (message_groups st)
                (bulk_message get_user get_cached_message cached_messages i)) as [gs|e];
      cbn [rbind].
    + rewrite IH. cbn [msg_count message_groups db_cached_messages].
      rewrite Nat.add_1_r.
      destruct (append_all randint (S (msg_count st)) gs
                  (map (bulk_message get_user get_cached_message cached_messages) l));
        cbn [rbind]; [|reflexivity].
      f_equal. f_equal; [|lia].
      unfold cache_hit at 2. destruct (get_cached_message i);
        rewrite <- app_assoc; reflexivity.
    + apply fold_raise. reflexivity.
Qed.

Lemma archive_fold l : forall gs k,
  fold_left (archive_step get_user get_cached_message randint) l (Ok (gs, k))
  = (gs' <~ append_all randint k gs
              (map (archive_message get_user get_cached_message) l) ;;
     Ok (gs', k + List.length l)).
Proof.
  induction l as [|msg l IH]; intros gs k.
  - cbn [fold_left map append_all rbind List.length]. rewrite Nat.add_0_r. reflexivity.
  - cbn [fold_left map append_all List.length].
    unfold archive_step at 2. cbn [rbind fst snd].
    fold (archive_message get_user get_cached_message msg).
    destruct (MessageGroups.append (randint k) gs
                (archive_message get_user get_cached_message msg)) as [gs1|e];
      cbn [rbind].
    + rewrite IH. rewrite Nat.add_1_r.
      destruct (append_all randint (S k) gs1
                  (map (archive_message get_user get_cached_message) l));
        cbn [rbind]; [|reflexivity].
      f_equal. f_equal. lia.
    + apply fold_raise. reflexivity.
Qed.

End CollectFacts.

Lemma in_memory_named get_user id msg db : nameless (CompositeMessage.mk get_user id (Some msg) db) = false.
Proof. reflexivity. Qed.

(** X4: the loop of the archive command never fails: every message
    of the history is in memory, so none is nameless.  It counts every
    message, and the groups hold the history messages in their order,
    grouped in runs. *)
Theorem archive_grouping_never_fails get_user get_cached_message_for_archive randint
    (messages : list Message.t) :
  exists gs,
    archive_collect get_user get_cached_message_for_archive randint messages
    = Ok (gs, List.length messages)
    /\ all_messages gs
       = map (archive_message get_user get_cached_message_for_archive) messages
    /\ map (fun m => CompositeMessage.mem_msg m) (all_messages gs) = map Some messages
    /\ map MessageGroup.messages gs
       = runs (map (archive_message get_user get_cached_message_for_archive) messages).
Proof.
  unfold archive_collect. rewrite archive_fold.
  pose proof (append_all_cases randint
                (map (archive_message get_user get_cached_message_for_archive) messages)) as Hc.
  destruct (append_all randint 0 []
              (map (archive_message get_user get_cached_message_for_archive) messages))
    as [gs|e].
  - destruct Hc as [_ Hr]. exists gs. cbn [rbind]. split; [reflexivity|].
    pose proof (all_messages_runs _ _ Hr) as Ha.
    split; [exact Ha|]. split; [|exact Hr].
    rewrite Ha, map_map. reflexivity.
  - exfalso. destruct Hc as [_ Hn]. revert Hn. clear.
    induction messages as [|msg l IH]; [discriminate|].
    cbn [map existsb]. unfold archive_message at 1. rewrite in_memory_named. exact IH.
Qed.

(** X5: the loop of on_raw_bulk_message_delete handles the deleted
    ids in ascending order, each as often as it is given.  When it
    succeeds, msg_count is the number of ids, the grouped messages are
    the ids in ascending order, and db_cached_messages holds the cache
    rows that were found, in that order; it fails, with AttributeError,
    only when one of the ids gives a nameless message. *)
Theorem bulk_delete_groups_in_id_order get_user get_cached_message randint
    (message_ids : list N) (cached_messages : list Message.t) :
  Sorted N.le (sorted message_ids)
  /\ Permutation message_ids (sorted message_ids)
  /\ match bulk_collect get_user get_cached_message randint message_ids cached_messages with
     | Ok st =>
         msg_count st = List.length message_ids
         /\ map CompositeMessage.id (all_messages (message_groups st)) = sorted message_ids
         /\ all_messages (message_groups st)
            = map (bulk_message get_user get_cached_message cached_messages)
                  (sorted message_ids)
         /\ db_cached_messages st
            = flat_map (fun i => cache_hit (get_cached_message i)) (sorted message_ids)
     | Raise e =>
         e = AttributeError
         /\ existsb (fun i => nameless (bulk_message get_user get_cached_message
                                          cached_messages i))
                    message_ids = true
     end.
Proof.
  split; [apply sorted_ok|]. split; [apply sorted_perm|].
  unfold bulk_collect. rewrite bulk_fold.
  cbn [msg_count message_groups db_cached_messages app Nat.add].
  pose proof (append_all_cases randint
                (map (bulk_message get_user get_cached_message cached_messages)
                     (sorted message_ids))) as Hc.
  destruct (append_all randint 0 []
              (map (bulk_message get_user get_cached_message cached_messages)
                   (sorted message_ids))) as [gs|e]; cbn [rbind].
  - destruct Hc as [_ Hr]. cbn [msg_count message_groups db_cached_messages].
    pose proof (all_messages_runs _ _ Hr) as Ha.
    split; [symmetry; apply Permutation_length, sorted_perm|].
    split; [|split; [exact Ha|reflexivity]].
    rewrite Ha, map_map. apply map_id.
  - destruct Hc as [-> Hn]. split; [reflexivity|].
    apply existsb_exists in Hn. destruct Hn as (m & Hm & Hn).
    apply in_map_iff in Hm. destruct Hm as (i & <- & Hi).
    apply existsb_exists. exists i. split; [|exact Hn].
    eapply Permutation_in; [apply Permutation_sym, sorted_perm|exact Hi].
Qed.

(** * The developer commands *)

Lemma py_slice_tail {A} (l : list A) (m : Z) :
  (m < Z.of_nat (List.length l))%Z ->
  py_slice l (Z.of_nat (List.length l) - m) (Z.of_nat (List.length l))
  = skipn (List.length l - Z.to_nat m) l
  /\ List.length (py_slice l (Z.of_nat (List.length l) - m) (Z.of_nat (List.length l)))
     = Z.to_nat (Z.max 0 m).
Proof.
  intros Hm. unfold py_slice, py_index, slice.
  set (n := List.length l) in *.
  destruct (Z.ltb_spec (Z.of_nat n - m) 0) as [H1|H1]; [lia|].
  destruct (Z.ltb_spec (Z.of_nat n) 0) as [H2|H2]; [lia|].
  rewrite Z.min_id, Nat2Z.id.
  destruct (Z.le_gt_cases 0 m) as [H0|H0].
  - rewrite Z.min_l by lia.
    replace (Z.to_nat (Z.of_nat n - m)) with (n - Z.to_nat m) by lia.
    assert (L : List.length (skipn (n - Z.to_nat m) l) = Z.to_nat m)
      by (rewrite length_skipn; fold n; lia).
    rewrite firstn_all2 by (rewrite L; lia).
    split; [reflexivity|]. rewrite L. lia.
  - rewrite Z.min_r by lia. rewrite Nat2Z.id, Nat.sub_diag. cbn [firstn].
    replace (Z.to_nat m) with 0 by lia. rewrite Nat.sub_0_r.
    subst n. rewrite skipn_all. split; [reflexivity|]. cbn. lia.
Qed.

Lemma table_msg_end rows : exists body, Dev.table_msg rows = body ++ codes "```".
Proof. unfold Dev.table_msg. eexists. reflexivity. Qed.

Lemma skipn_app_suffix {A} (a b : list A) k :
  k <= List.length a -> skipn k (a ++ b) = skipn k a ++ b.
Proof.
  intros Hk. rewrite skipn_app. replace (k - List.length a) with 0 by lia. reflexivity.
Qed.

(** X7: the text that dump sends is the table text when that has at
    most 2000 characters, and its last 2000 characters otherwise: it
    never has more than 2000 characters, it is always an end piece of
    the table text, and it always ends with the closing code fence. *)
Theorem dump_fits_one_message (rows : list (list N)) :
  (Z.of_nat (List.length (Dev.dump rows)) <= 2000)%Z
  /\ (exists cut, Dev.table_msg rows = cut ++ Dev.dump rows)
  /\ (exists body, Dev.dump rows = body ++ codes "```")
  /\ ((Z.of_nat (List.length (Dev.table_msg rows)) <= 2000)%Z ->
      Dev.dump rows = Dev.table_msg rows)
  /\ ((2000 < Z.of_nat (List.length (Dev.table_msg rows)))%Z ->
      Z.of_nat (List.length (Dev.dump rows)) = 2000%Z).
Proof.
  unfold Dev.dump.
  destruct (table_msg_end rows) as [body Eb].
  set (t := Dev.table_msg rows) in *.
  destruct (Z.gtb_spec (Z.of_nat (List.length t)) 2000) as [Hl|Hl].
  - destruct (py_slice_tail t 2000 ltac:(lia)) as [E L].
    rewrite L. split; [lia|].
    split; [exists (firstn (List.length t - Z.to_nat 2000) t);
            rewrite E; symmetry; apply firstn_skipn|].
    split; [|split; [lia|lia]].
    rewrite E, Eb. rewrite skipn_app_suffix.
    + eexists. reflexivity.
    + rewrite length_app. change (List.length (codes "```")) with 3. lia.
  - split; [lia|]. split; [exists []; reflexivity|].
    split; [exists body; exact Eb|]. split; [reflexivity|lia].
Qed.

(** X8: past_messages reports the last _max rows when there are more
    than _max of them, and all rows otherwise: the rows it reports are
    always an end piece of the rows it got; there are min(len(rows),
    _max) of them for a _max that is not negative, and none for a
    negative _max. *)
Theorem past_messages_keeps_the_last_rows {A} (rows : list A) (_max : Z) :
  (exists cut, rows = cut ++ Dev.past_messages rows _max)
  /\ Z.of_nat (List.length (Dev.past_messages rows _max))
     = Z.min (Z.of_nat (List.length rows)) (Z.max 0 _max)
  /\ ((_max < 0)%Z -> Dev.past_messages rows _max = [])
  /\ ((Z.of_nat (List.length rows) <= _max)%Z -> Dev.past_messages rows _max = rows).
Proof.
  unfold Dev.past_messages.
  destruct (Z.gtb_spec (Z.of_nat (List.length rows)) _max) as [Hl|Hl].
  - destruct (py_slice_tail rows _max ltac:(lia)) as [E L].
    split; [exists (firstn (List.length rows - Z.to_nat _max) rows);
            rewrite E; symmetry; apply firstn_skipn|].
    split; [rewrite L; lia|]. split; [|lia].
    intros Hn. apply length_zero_iff_nil. rewrite L. lia.
  - split; [exists []; reflexivity|]. split; [lia|]. split; [|reflexivity].
    intros Hn. destruct rows; [reflexivity|cbn [List.length] in Hl; lia].
Qed.

(** * Rendering of the constructs *)

(** ** The matcher, step by step *)

Lemma flat_map_single {A} (l : list A) : flat_map (fun x => [x]) l = l.
Proof. induction l as [|x l IH]; cbn; [reflexivity|]. rewrite IH. reflexivity. Qed.

Lemma flat_map_comp {A B D} (f : A -> list B) (g : B -> list D) l :
  flat_map g (flat_map f l) = flat_map (fun x => flat_map g (f x)) l.
Proof.
  induction l as [|x l IH]; cbn [flat_map]; [reflexivity|].
  rewrite flat_map_app, IH. reflexivity.
Qed.

Lemma flat_map_of_map {A B D} (f : A -> B) (g : B -> list D) l :
  flat_map g (map f l) = flat_map (fun x => g (f x)) l.
Proof. induction l as [|x l IH]; cbn [flat_map map]; [reflexivity|]. rewrite IH. reflexivity. Qed.

Lemma match_at_mtk r s i : match_at r s i = hd_error (mtk r s i [] (fun jc => [jc])).
Proof. unfold match_at, mtk. rewrite flat_map_single. reflexivity. Qed.

Lemma mtk_seq a b s i c K :
  mtk (a ;;; b) s i c K = mtk a s i c (fun jc => mtk b s (fst jc) (snd jc) K).
Proof. unfold mtk. cbn [mt]. apply flat_map_comp. Qed.

Lemma mtk_grp n a s i c K :
  mtk (Grp n a) s i c K = mtk a s i c (fun jc => K (fst jc, (n, (i, fst jc)) :: snd jc)).
Proof. unfold mtk. cbn [mt]. apply flat_map_of_map. Qed.

Lemma mtk_str w s i c K :
  mtk (Str w) s i c K
  = if starts_with w (skipn i s) then K (i + List.length w, c) else [].
Proof.
  unfold mtk. cbn [mt]. destruct (starts_with w (skipn i s)); cbn [flat_map];
    [apply app_nil_r|reflexivity].
Qed.

Lemma mtk_set1 k s i c K :
  mtk (Set1 k) s i c K
  = match nth_error s i with
    | Some x => if cls_mem k x then K (S i, c) else []
    | None => []
    end.
Proof.
  unfold mtk. cbn [mt]. destruct (nth_error s i) as [x|]; [|reflexivity].
  destruct (cls_mem k x); cbn [flat_map]; [apply app_nil_r|reflexivity].
Qed.

Lemma mtk_rep g lo hi k s i c K :
  mtk (Rep g lo hi k) s i c K = flat_map (fun j => K (j, c)) (rep_ends g lo hi k s i).
Proof. unfold mtk. cbn [mt]. apply flat_map_of_map. Qed.

Lemma mtk_opt a s i c K : mtk (Opt a) s i c K = mtk a s i c K ++ K (i, c).
Proof. unfold mtk. cbn [mt]. rewrite flat_map_app. cbn [flat_map]. rewrite app_nil_r. reflexivity. Qed.

Lemma mtk_alt a b s i c K : mtk (Alt a b) s i c K = mtk a s i c K ++ mtk b s i c K.
Proof. unfold mtk. cbn [mt]. apply flat_map_app. Qed.

Lemma mtk_notbehind k s i c K :
  mtk (NotBehind k) s i c K = if prev_is (cls_mem k) s i then [] else K (i, c).
Proof.
  unfold mtk. cbn [mt]. destruct (prev_is (cls_mem k) s i); cbn [flat_map];
    [reflexivity|apply app_nil_r].
Qed.

Lemma mtk_notahead a s i c K :
  mtk (NotAhead a) s i c K = match mt a s i c with [] => K (i, c) | _ :: _ => [] end.
Proof.
  unfold mtk. cbn [mt]. destruct (mt a s i c); cbn [flat_map];
    [apply app_nil_r|reflexivity].
Qed.

Lemma mtk_bol s i c K :
  mtk Bol s i c K = if (i =? 0) || prev_is (N.eqb newline) s i then K (i, c) else [].
Proof.
  unfold mtk. cbn [mt]. destruct ((i =? 0) || prev_is (N.eqb newline) s i);
    cbn [flat_map]; [apply app_nil_r|reflexivity].
Qed.

Lemma mtk_ref n s i c K :
  mtk (Ref n) s i c K
  = match get n c with
    | Some (a, b) =>
        if starts_with (slice s a b) (skipn i s)
        then K (i + List.length (slice s a b), c) else []
    | None => []
    end.
Proof.
  unfold mtk. cbn [mt]. destruct (get n c) as [[a b]|]; [|reflexivity].
  destruct (starts_with (slice s a b) (skipn i s)); cbn [flat_map];
    [apply app_nil_r|reflexivity].
Qed.

(** The first candidate that succeeds, among candidates tried in
    increasing order. *)
Lemma hd_first {X} (F : nat -> list X) y : forall m lo b,
  b < m -> (forall d, d < b -> F (lo + d) = []) -> hd_error (F (lo + b)) = Some y ->
  hd_error (flat_map F (seq lo m)) = Some y.
Proof.
  induction m as [|m IH]; intros lo b Hb Hf Hy; [lia|].
  cbn [seq flat_map]. rewrite hd_error_app.
  destruct b as [|b].
  - rewrite Nat.add_0_r in Hy. rewrite Hy. reflexivity.
  - pose proof (Hf 0 ltac:(lia)) as H0. rewrite Nat.add_0_r in H0. rewrite H0.
    cbn [hd_error]. apply (IH (S lo) b); [lia| |].
    + intros d Hd. rewrite <- (Hf (S d) ltac:(lia)). f_equal. lia.
    + rewrite <- Hy. f_equal. f_equal. lia.
Qed.

Lemma rep_ends_lazy lo k s i :
  lo <= span k (skipn i s) ->
  rep_ends false lo None k s i
  = map (fun d => i + d) (seq lo (S (span k (skipn i s)) - lo)).
Proof.
  intros H. unfold rep_ends.
  replace (span k (skipn i s) <? lo) with false by (symmetry; apply Nat.ltb_ge; exact H).
  reflexivity.
Qed.

(** A lazy repetition: the shortest length at which the rest matches. *)
Lemma mtk_lazy lo k s i c K y b :
  lo <= b -> b <= span k (skipn i s) ->
  (forall d, lo <= d -> d < b -> K (i + d, c) = []) ->
  hd_error (K (i + b, c)) = Some y ->
  hd_error (mtk (Rep false lo None k) s i c K) = Some y.
Proof.
  intros Hlo Hb Hf Hy. rewrite mtk_rep, rep_ends_lazy by lia.
  rewrite flat_map_of_map.
  apply (hd_first (fun d => K (i + d, c)) y _ lo (b - lo)).
  - lia.
  - intros d Hd. apply Hf; lia.
  - replace (lo + (b - lo)) with b by lia. exact Hy.
Qed.

(** A greedy repetition whose longest candidate is followed by a match
    of the rest. *)
Lemma mtk_greedy lo hi k s i c K y top :
  top = match hi with
        | Some h => Nat.min h (span k (skipn i s))
        | None => span k (skipn i s)
        end ->
  lo <= top ->
  hd_error (K (i + top, c)) = Some y ->
  hd_error (mtk (Rep true lo hi k) s i c K) = Some y.
Proof.
  intros Et Hlo Hy. rewrite mtk_rep. unfold rep_ends. rewrite <- Et.
  replace (top <? lo) with false by (symmetry; apply Nat.ltb_ge; exact Hlo).
  replace (S top - lo) with (S (top - lo)) by lia.
  rewrite seq_S, map_app, rev_app_distr. cbn [map rev app flat_map].
  replace (lo + (top - lo)) with top by lia.
  rewrite hd_error_app, Hy. reflexivity.
Qed.

(** A repetition with one candidate only. *)
Lemma mtk_rep_one g lo hi k s i c K top :
  top = match hi with
        | Some h => Nat.min h (span k (skipn i s))
        | None => span k (skipn i s)
        end ->
  lo = top ->
  mtk (Rep g lo hi k) s i c K = K (i + top, c).
Proof.
  intros Et Hlo. rewrite mtk_rep. unfold rep_ends. rewrite <- Et.
  replace (top <? lo) with false by (symmetry; apply Nat.ltb_ge; lia).
  replace (S top - lo) with 1 by lia. subst lo.
  destruct g; cbn [seq map rev app flat_map]; apply app_nil_r.
Qed.

(** ** Positions in a concatenation *)

Lemma skipn_at {A} (a b : list A) k : skipn (List.length a + k) (a ++ b) = skipn k b.
Proof.
  rewrite skipn_app. replace (List.length a + k - List.length a) with k by lia.
  rewrite skipn_all2 by lia. reflexivity.
Qed.

Lemma skipn_at0 {A} (a b : list A) : skipn (List.length a) (a ++ b) = b.
Proof. rewrite <- (Nat.add_0_r (List.length a)). apply skipn_at. Qed.

Lemma skipn_in {A} (a b : list A) k :
  k <= List.length a -> skipn k (a ++ b) = skipn k a ++ b.
Proof.
  intros Hk. rewrite skipn_app. replace (k - List.length a) with 0 by lia. reflexivity.
Qed.

Lemma nth_error_at {A} (a b : list A) k :
  nth_error (a ++ b) (List.length a + k) = nth_error b k.
Proof. rewrite nth_error_app2 by lia. f_equal. lia. Qed.

Lemma prev_is_at p (a b : list N) k :
  prev_is p (a ++ b) (List.length a + S k) = prev_is p b (S k).
Proof.
  unfold prev_is. replace (List.length a + S k) with (S (List.length a + k)) by lia.
  rewrite nth_error_at. reflexivity.
Qed.

Lemma prev_is_end p (a b : list N) :
  forallb (fun x => negb (p x)) a = true -> prev_is p (a ++ b) (List.length a) = false.
Proof.
  intros Ha. unfold prev_is. destruct (List.length a) as [|j] eqn:L; [reflexivity|].
  rewrite nth_error_app1 by lia.
  destruct (nth_error a j) as [x|] eqn:E; [|reflexivity].
  apply nth_error_In in E.
  apply negb_true_iff. exact (proj1 (forallb_forall _ a) Ha x E).
Qed.

Lemma starts_with_app w l : starts_with w (w ++ l) = true.
Proof. induction w as [|x w IH]; cbn [starts_with app]; [reflexivity|]. rewrite N.eqb_refl. exact IH. Qed.

Lemma starts_with_miss x w y l : x <> y -> starts_with (x :: w) (y :: l) = false.
Proof. intros H. cbn [starts_with]. apply N.eqb_neq in H. rewrite H. reflexivity. Qed.

Lemma starts_with_nil x w : starts_with (x :: w) [] = false.
Proof. reflexivity. Qed.

Lemma avoid_In ks c : avoid ks c = true -> forall k, In k ks -> c <> k.
Proof.
  unfold avoid. intros H k Hk E. subst c.
  apply negb_true_iff in H.
  assert (existsb (N.eqb k) ks = true)
    by (apply existsb_exists; exists k; split; [exact Hk|apply N.eqb_refl]).
  congruence.
Qed.

(** No word beginning with [x] starts inside or at the end of a text
    that has no [x], unless the text is over. *)
Lemma starts_with_inside x w (body rest : list N) d :
  forallb (avoid [x]) body = true -> d < List.length body ->
  starts_with (x :: w) (skipn d (body ++ rest)) = false.
Proof.
  intros Hb Hd. rewrite skipn_in by lia.
  destruct (skipn d body) as [|y t] eqn:E.
  - apply (f_equal (@List.length _)) in E. rewrite length_skipn in E. cbn in E. lia.
  - cbn [app]. apply starts_with_miss. intros ->.
    assert (In y body).
    { rewrite <- (firstn_skipn d body), E. apply in_or_app. right. left. reflexivity. }
    pose proof (proj1 (forallb_forall _ body) Hb y H) as Hy.
    exact (avoid_In _ _ Hy y (or_introl eq_refl) eq_refl).
Qed.

Lemma span_all k (body rest : list N) :
  forallb (cls_mem k) body = true -> List.length body <= span k (body ++ rest).
Proof.
  induction body as [|x body IH]; intros Hb; cbn [List.length]; [lia|].
  cbn [forallb] in Hb. apply andb_true_iff in Hb. destruct Hb as [Hx Hb].
  cbn [app span]. rewrite Hx. specialize (IH Hb). lia.
Qed.

Lemma span_stop k (body rest : list N) :
  forallb (cls_mem k) body = true ->
  match rest with x :: _ => cls_mem k x = false | [] => True end ->
  span k (body ++ rest) = List.length body.
Proof.
  induction body as [|x body IH]; intros Hb Hr; cbn [List.length app].
  - destruct rest as [|y rest]; [reflexivity|]. cbn [span]. rewrite Hr. reflexivity.
  - cbn [forallb] in Hb. apply andb_true_iff in Hb. destruct Hb as [Hx Hb].
    cbn [span]. rewrite Hx, (IH Hb Hr). reflexivity.
Qed.

Lemma prev_is_body p (front a b : list N) :
  a <> [] -> forallb (fun x => negb (p x)) a = true ->
  prev_is p (front ++ a ++ b) (List.length front + List.length a) = false.
Proof.
  intros Ha Hp. destruct a as [|y a]; [congruence|]. cbn [List.length].
  rewrite prev_is_at. unfold prev_is.
  rewrite nth_error_app1 by (cbn [List.length]; lia).
  destruct (nth_error (y :: a) (List.length a)) as [z|] eqn:E; [|reflexivity].
  apply nth_error_In in E. apply negb_true_iff.
  exact (proj1 (forallb_forall _ _) Hp z E).
Qed.

Lemma forallb_weaken {A} (p q : A -> bool) l :
  (forall x, p x = true -> q x = true) -> forallb p l = true -> forallb q l = true.
Proof.
  intros Hpq Hl. apply forallb_forall. intros x Hx.
  apply Hpq. exact (proj1 (forallb_forall _ _) Hl x Hx).
Qed.

Lemma avoid_sub ks ks' c :
  forallb (fun k => existsb (N.eqb k) ks') ks = true -> avoid ks' c = true -> avoid ks c = true.
Proof.
  intros Hs Hc. unfold avoid in *. apply negb_true_iff. apply negb_true_iff in Hc.
  destruct (existsb (N.eqb c) ks) eqn:E; [|reflexivity].
  apply existsb_exists in E. destruct E as (k & Hk & E). apply N.eqb_eq in E. subst k.
  pose proof (proj1 (forallb_forall _ _) Hs c Hk) as H1. congruence.
Qed.

Lemma avoid_all ks ks' l :
  forallb (fun k => existsb (N.eqb k) ks') ks = true ->
  forallb (avoid ks') l = true -> forallb (avoid ks) l = true.
Proof. intros Hs. apply forallb_weaken. intros x. apply avoid_sub, Hs. Qed.

Lemma avoid_not_bs l :
  forallb (avoid [backslash]) l = true ->
  forallb (fun x => negb (cls_mem bs_cls x)) l = true.
Proof.
  apply forallb_weaken. intros x Hx. unfold avoid in Hx. cbn [existsb] in Hx.
  unfold bs_cls. cbn [cls_mem existsb item_mem]. exact Hx.
Qed.

Lemma avoid_dot l :
  forallb (avoid [newline]) l = true -> forallb (cls_mem dot) l = true.
Proof.
  apply forallb_weaken. intros x Hx. unfold avoid in Hx. cbn [existsb] in Hx.
  unfold dot. cbn [cls_mem existsb item_mem]. exact Hx.
Qed.

(** ** A delimiter pair *)

Section Delimited.
Variables (x : N) (w : list N) (g : nat).
Variables pre body suf : list N.

Local Abbreviation d := (x :: w).
Local Abbreviation s := (pair_text (x :: w) pre body suf).

Hypothesis pre_ok : forallb (avoid [backslash]) pre = true.
Hypothesis body_ne : body <> [].
Hypothesis body_bs : forallb (avoid [backslash]) body = true.
Hypothesis body_nl : forallb (avoid [newline]) body = true.
Hypothesis body_x : forallb (avoid [x]) body = true.

Lemma delimited_body_at : skipn (List.length pre + List.length d) s = body ++ d ++ suf.
Proof. unfold pair_text. rewrite skipn_at. apply skipn_at0. Qed.

Lemma delimited_closer_at :
  skipn (List.length pre + List.length d + List.length body) s = d ++ suf.
Proof.
  unfold pair_text. rewrite <- !Nat.add_assoc, skipn_at, skipn_at. apply skipn_at0.
Qed.

(** The pair is matched from its first delimiter, up to the first
    closing delimiter; [t] is what the pattern has after the second
    look-behind. *)
Lemma delimited_first t y :
  (forall i c K, mtk t s i c K
                 = if starts_with d (skipn i s) then mtk t s i c K else []) ->
  hd_error (mtk t s (List.length pre + List.length d + List.length body)
                [(g, (List.length pre + List.length d,
                      List.length pre + List.length d + List.length body))]
                (fun jc => [jc])) = Some y ->
  match_at (NotBehind bs_cls ;;; Str d ;;; Grp g (Rep false 1 None dot)
            ;;; NotBehind bs_cls ;;; t) s (List.length pre) = Some y.
Proof.
  intros Ht Hy. rewrite match_at_mtk, mtk_seq, mtk_notbehind.
  unfold pair_text at 1. rewrite (prev_is_end _ _ _ (avoid_not_bs _ pre_ok)).
  cbv beta. cbn [fst snd]. rewrite mtk_seq, mtk_str.
  unfold pair_text at 1. rewrite skipn_at0. rewrite starts_with_app.
  cbv beta. cbn [fst snd]. rewrite mtk_seq, mtk_grp.
  apply (mtk_lazy 1 dot s _ _ _ y (List.length body)).
  - destruct body; [congruence|cbn [List.length]; lia].
  - rewrite delimited_body_at. apply span_all, avoid_dot, body_nl.
  - intros k Hk1 Hk2. cbv beta. cbn [fst snd].
    rewrite mtk_seq, mtk_notbehind.
    destruct (prev_is (cls_mem bs_cls) s (List.length pre + List.length d + k));
      [reflexivity|].
    cbv beta. cbn [fst snd]. rewrite Ht.
    replace (starts_with d (skipn (List.length pre + List.length d + k) s)) with false;
      [reflexivity|].
    symmetry. unfold pair_text. rewrite <- Nat.add_assoc, skipn_at, skipn_at.
    apply starts_with_inside; assumption.
  - cbv beta. cbn [fst snd]. rewrite mtk_seq, mtk_notbehind.
    replace (prev_is (cls_mem bs_cls) s (List.length pre + List.length d + List.length body))
      with false.
    + cbv beta. cbn [fst snd]. exact Hy.
    + symmetry. unfold pair_text.
      replace (pre ++ d ++ body ++ d ++ suf) with ((pre ++ d) ++ body ++ d ++ suf)
        by (rewrite <- app_assoc; reflexivity).
      rewrite <- length_app. apply prev_is_body; [exact body_ne|].
      apply avoid_not_bs, body_bs.
Qed.

Lemma delimited_match :
  match_at (NotBehind bs_cls ;;; Str d ;;; Grp g (Rep false 1 None dot)
            ;;; NotBehind bs_cls ;;; Str d) s (List.length pre)
  = Some (pair_end d pre body, pair_caps g d pre body).
Proof.
  apply delimited_first.
  - intros i c K. rewrite mtk_str. destruct (starts_with d (skipn i s)); reflexivity.
  - rewrite mtk_str, delimited_closer_at, starts_with_app. reflexivity.
Qed.

Lemma delimited_match_ahead a :
  starts_with a suf = false ->
  match_at (NotBehind bs_cls ;;; Str d ;;; Grp g (Rep false 1 None dot)
            ;;; NotBehind bs_cls ;;; Str d ;;; NotAhead (Str a)) s (List.length pre)
  = Some (pair_end d pre body, pair_caps g d pre body).
Proof.
  intros Ha. apply delimited_first.
  - intros i c K. rewrite mtk_seq, mtk_str. destruct (starts_with d (skipn i s)); reflexivity.
  - rewrite mtk_seq, mtk_str, delimited_closer_at, starts_with_app.
    cbv beta. cbn [fst snd]. rewrite mtk_notahead. cbn [mt].
    replace (starts_with a (skipn (List.length pre + List.length d + List.length body
                                   + List.length d) s)) with false; [reflexivity|].
    symmetry. unfold pair_text. rewrite <- !Nat.add_assoc, skipn_at, skipn_at, skipn_at, skipn_at0.
    exact Ha.
Qed.

End Delimited.

(** ** The scan, piece by piece *)

Lemma bind_ret {A} (o : option A) : (x <- o ;; Some x) = o.
Proof. destruct o; reflexivity. Qed.

Section ScanSteps.
Context {C : Type} `{Glyph C}.
Variables (r : re) (repl : Match C -> option (list C)) (subj : list C) (cs : list N).

(** Characters at which no match starts are copied. *)
Lemma sub_loop_copy pre : forall rest i,
  (forall k, k < List.length pre -> match_at r cs (i + k) = None) ->
  sub_loop r repl subj cs (pre ++ rest) i 0
  = (tl <- sub_loop r repl subj cs rest (i + List.length pre) 0 ;; Some (pre ++ tl)).
Proof.
  induction pre as [|x pre IH]; intros rest i Hn.
  - cbn [app List.length]. rewrite Nat.add_0_r, bind_ret. reflexivity.
  - cbn [app sub_loop List.length].
    pose proof (Hn 0 ltac:(cbn [List.length]; lia)) as H0.
    rewrite Nat.add_0_r in H0. rewrite H0.
    rewrite (IH rest (S i)).
    + replace (S i + List.length pre) with (i + S (List.length pre)) by lia.
      destruct (sub_loop r repl subj cs rest (i + S (List.length pre)) 0); reflexivity.
    + intros k Hk. replace (S i + k) with (i + S k) by lia.
      apply Hn. cbn [List.length]. lia.
Qed.

(** The characters of a match are passed over. *)
Lemma sub_loop_skip mid : forall rest i,
  sub_loop r repl subj cs (mid ++ rest) i (List.length mid)
  = sub_loop r repl subj cs rest (i + List.length mid) 0.
Proof.
  induction mid as [|x mid IH]; intros rest i.
  - cbn [app List.length]. rewrite Nat.add_0_r. reflexivity.
  - cbn [app List.length sub_loop]. rewrite IH. f_equal. lia.
Qed.

(** A match is replaced and the scan goes on behind it. *)
Lemma sub_loop_hit mid rest i c :
  mid <> [] ->
  match_at r cs i = Some (i + List.length mid, c) ->
  sub_loop r repl subj cs (mid ++ rest) i 0
  = (out <- repl (mkMatch subj i (i + List.length mid) c) ;;
     tl <- sub_loop r repl subj cs rest (i + List.length mid) 0 ;;
     Some (out ++ tl)).
Proof.
  intros Hm M. destruct mid as [|x mid]; [congruence|].
  cbn [app sub_loop]. rewrite M.
  destruct (repl (mkMatch subj i (i + List.length (x :: mid)) c)) as [out|];
    [|reflexivity].
  cbn [bind List.length].
  replace (i + S (List.length mid) - i - 1) with (List.length mid) by lia.
  rewrite sub_loop_skip.
  replace (S i + List.length mid) with (i + S (List.length mid)) by lia.
  replace (i + S (List.length mid) <=? i) with false by (symmetry; apply Nat.leb_gt; lia).
  reflexivity.
Qed.

Lemma sub_loop_tail rest i :
  (forall k, match_at r cs (i + k) = None) ->
  sub_loop r repl subj cs rest i 0 = Some rest.
Proof.
  intros Hn. rewrite <- (app_nil_r rest) at 1. rewrite sub_loop_copy by (intros; apply Hn).
  cbn [sub_loop]. rewrite Hn. cbn [bind]. rewrite app_nil_r. reflexivity.
Qed.

Lemma scan_loop_copy pre : forall rest i,
  (forall k, k < List.length pre -> match_at r cs (i + k) = None) ->
  scan_loop r subj cs (pre ++ rest) i 0 = scan_loop r subj cs rest (i + List.length pre) 0.
Proof.
  induction pre as [|x pre IH]; intros rest i Hn.
  - cbn [app List.length]. rewrite Nat.add_0_r. reflexivity.
  - cbn [app scan_loop List.length].
    pose proof (Hn 0 ltac:(cbn [List.length]; lia)) as H0.
    rewrite Nat.add_0_r in H0. rewrite H0. rewrite (IH rest (S i)).
    + f_equal. lia.
    + intros k Hk. replace (S i + k) with (i + S k) by lia.
      apply Hn. cbn [List.length]. lia.
Qed.

Lemma scan_loop_skip mid : forall rest i,
  scan_loop r subj cs (mid ++ rest) i (List.length mid)
  = scan_loop r subj cs rest (i + List.length mid) 0.
Proof.
  induction mid as [|x mid IH]; intros rest i.
  - cbn [app List.length]. rewrite Nat.add_0_r. reflexivity.
  - cbn [app List.length scan_loop]. rewrite IH. f_equal. lia.
Qed.

Lemma scan_loop_hit mid rest i c :
  mid <> [] ->
  match_at r cs i = Some (i + List.length mid, c) ->
  scan_loop r subj cs (mid ++ rest) i 0
  = mkMatch subj i (i + List.length mid) c
    :: scan_loop r subj cs rest (i + List.length mid) 0.
Proof.
  intros Hm M. destruct mid as [|x mid]; [congruence|].
  cbn [app scan_loop]. rewrite M. f_equal. cbn [List.length].
  replace (i + S (List.length mid) - i - 1) with (List.length mid) by lia.
  rewrite scan_loop_skip. f_equal. lia.
Qed.

Lemma scan_loop_tail (rest : list C) i :
  (forall k, match_at r cs (i + k) = None) -> scan_loop r subj cs rest i 0 = [].
Proof.
  intros Hn. rewrite <- (app_nil_r rest). rewrite scan_loop_copy by (intros; apply Hn).
  cbn [scan_loop]. rewrite Hn. reflexivity.
Qed.

End ScanSteps.

(** One match in a plain string: the text before it and the text
    behind it are copied, the match is replaced. *)
Lemma sub_one r (repl : Match N -> option (list N)) (pre mid suf : list N) c out :
  mid <> [] ->
  (forall i, i < List.length pre -> match_at r (pre ++ mid ++ suf) i = None) ->
  match_at r (pre ++ mid ++ suf) (List.length pre)
    = Some (List.length pre + List.length mid, c) ->
  (forall k, match_at r (pre ++ mid ++ suf) (List.length pre + List.length mid + k) = None) ->
  repl (mkMatch (pre ++ mid ++ suf) (List.length pre) (List.length pre + List.length mid) c)
    = Some out ->
  sub r repl (pre ++ mid ++ suf) = Some (pre ++ out ++ suf).
Proof.
  intros Hm Hpre M Hsuf R. unfold sub. cbn [code Glyph_N]. rewrite map_id.
  rewrite sub_loop_copy by (intros k Hk; apply Hpre; exact Hk).
  cbn [Nat.add]. rewrite (sub_loop_hit _ _ _ _ mid suf (List.length pre) c Hm M), R.
  cbn [bind]. rewrite (sub_loop_tail _ _ _ _ suf _ Hsuf). reflexivity.
Qed.

Lemma finditer_one r (pre mid suf : list N) c :
  mid <> [] ->
  (forall i, i < List.length pre -> match_at r (pre ++ mid ++ suf) i = None) ->
  match_at r (pre ++ mid ++ suf) (List.length pre)
    = Some (List.length pre + List.length mid, c) ->
  (forall k, match_at r (pre ++ mid ++ suf) (List.length pre + List.length mid + k) = None) ->
  finditer r (pre ++ mid ++ suf)
  = [mkMatch (pre ++ mid ++ suf) (List.length pre) (List.length pre + List.length mid) c].
Proof.
  intros Hm Hpre M Hsuf. unfold finditer. cbn [code Glyph_N]. rewrite map_id.
  rewrite scan_loop_copy by (intros k Hk; apply Hpre; exact Hk).
  cbn [Nat.add]. rewrite (scan_loop_hit _ _ _ mid suf (List.length pre) c Hm M).
  rewrite (scan_loop_tail _ _ _ suf _ Hsuf). reflexivity.
Qed.

(** A pattern that needs a character the string does not have. *)
Lemma sub_avoid ks r (repl : Match N -> option (list N)) (buf : list N) :
  needs_lit (avoid ks) r = true -> forallb (avoid ks) buf = true ->
  sub r repl buf = Some buf.
Proof.
  intros Hn Hb. apply sub_no_match. intros i. cbn [code Glyph_N]. rewrite map_id.
  unfold match_at. rewrite (needs_lit_dead _ _ _ Hn Hb). reflexivity.
Qed.

Lemma finditer_avoid ks r (buf : list N) :
  needs_lit (avoid ks) r = true -> forallb (avoid ks) buf = true ->
  finditer r buf = [].
Proof.
  intros Hn Hb. unfold finditer. apply scan_loop_no_match. intros i.
  cbn [code Glyph_N]. rewrite map_id.
  unfold match_at. rewrite (needs_lit_dead _ _ _ Hn Hb). reflexivity.
Qed.

(** A pattern that begins with a look-behind and a literal matches only
    where the literal stands. *)
Lemma guarded_dead k d t s i :
  starts_with d (skipn i s) = false -> match_at (NotBehind k ;;; Str d ;;; t) s i = None.
Proof.
  intros Hs. rewrite match_at_mtk, mtk_seq, mtk_notbehind.
  destruct (prev_is (cls_mem k) s i); [reflexivity|].
  cbv beta. cbn [fst snd]. rewrite mtk_seq, mtk_str, Hs. reflexivity.
Qed.

Lemma starts_with_outside x w (l : list N) i :
  forallb (avoid [x]) l = true -> starts_with (x :: w) (skipn i l) = false.
Proof.
  intros Hl. destruct (Nat.lt_ge_cases i (List.length l)) as [Hi|Hi].
  - rewrite <- (app_nil_r l). apply starts_with_inside; assumption.
  - rewrite skipn_all2 by lia. reflexivity.
Qed.

(** ** The pass of a delimiter pair *)

Lemma pair_text_mid d pre body suf :
  pair_text d pre body suf = pre ++ (d ++ body ++ d) ++ suf.
Proof. unfold pair_text. rewrite <- !app_assoc. reflexivity. Qed.

Lemma pair_end_mid d pre body :
  pair_end d pre body = List.length pre + List.length (d ++ body ++ d).
Proof. unfold pair_end. rewrite !length_app. lia. Qed.

Lemma pair_group g d pre body suf i j :
  group (mkMatch (pair_text d pre body suf) i j (pair_caps g d pre body)) g = Some body.
Proof.
  unfold group, pair_caps. cbn [m_caps m_string get]. rewrite Nat.eqb_refl.
  f_equal. unfold pair_text.
  replace (pre ++ d ++ body ++ d ++ suf) with ((pre ++ d) ++ body ++ d ++ suf)
    by (rewrite <- app_assoc; reflexivity).
  rewrite <- length_app. apply slice_middle.
Qed.

Section PairPass.
Variables (x : N) (w : list N) (g : nat).
Variables pre body suf : list N.

Local Abbreviation d := (x :: w).
Local Abbreviation s := (pair_text (x :: w) pre body suf).

Hypothesis pre_bs : forallb (avoid [backslash]) pre = true.
Hypothesis pre_x : forallb (avoid [x]) pre = true.
Hypothesis body_ne : body <> [].
Hypothesis body_bs : forallb (avoid [backslash]) body = true.
Hypothesis body_nl : forallb (avoid [newline]) body = true.
Hypothesis body_x : forallb (avoid [x]) body = true.
Hypothesis suf_x : forallb (avoid [x]) suf = true.

(** One match, replaced by [out]. *)
Lemma pair_sub r (repl : Match N -> option (list N)) c out :
  (forall i, starts_with d (skipn i s) = false -> match_at r s i = None) ->
  match_at r s (List.length pre) = Some (pair_end d pre body, c) ->
  repl (mkMatch s (List.length pre) (pair_end d pre body) c) = Some out ->
  sub r repl s = Some (pre ++ out ++ suf).
Proof.
  intros Hd M R. rewrite pair_text_mid in *. rewrite pair_end_mid in *.
  apply (sub_one r repl pre (d ++ body ++ d) suf c out).
  - discriminate.
  - intros i Hi. apply Hd. apply starts_with_inside; assumption.
  - exact M.
  - intros k. apply Hd. rewrite <- Nat.add_assoc, skipn_at.
    rewrite <- (app_nil_r suf) at 1.
    replace ((d ++ body ++ d) ++ suf ++ []) with ((d ++ body ++ d) ++ suf)
      by (rewrite app_nil_r; reflexivity).
    rewrite skipn_at. apply starts_with_outside, suf_x.
  - exact R.
Qed.

Lemma pair_wrap (repl : Match N -> option (list N)) o c :
  (forall m, repl m = Some (o ++ expand (group m g) ++ c)) ->
  sub (NotBehind bs_cls ;;; Str d ;;; Grp g (Rep false 1 None dot)
       ;;; NotBehind bs_cls ;;; Str d) repl s
  = Some (pre ++ (o ++ body ++ c) ++ suf).
Proof.
  intros Hr. apply (pair_sub _ _ (pair_caps g d pre body)).
  - intros i. apply guarded_dead.
  - apply delimited_match; assumption.
  - rewrite Hr, pair_group. reflexivity.
Qed.

Lemma pair_wrap_ahead (repl : Match N -> option (list N)) a o c :
  starts_with a suf = false ->
  (forall m, repl m = Some (o ++ expand (group m g) ++ c)) ->
  sub (NotBehind bs_cls ;;; Str d ;;; Grp g (Rep false 1 None dot)
       ;;; NotBehind bs_cls ;;; Str d ;;; NotAhead (Str a)) repl s
  = Some (pre ++ (o ++ body ++ c) ++ suf).
Proof.
  intros Ha Hr. apply (pair_sub _ _ (pair_caps g d pre body)).
  - intros i. apply guarded_dead.
  - apply delimited_match_ahead; assumption.
  - rewrite Hr, pair_group. reflexivity.
Qed.

End PairPass.

(** ** The pipeline on one construct *)

Lemma escape_app {C} `{Glyph C} (a b : list C) : escape (a ++ b) = escape a ++ escape b.
Proof. unfold escape. apply flat_map_app. Qed.

Lemma escape_avoid (buf : list N) :
  forallb (avoid [ch "&"; ch "<"; ch ">"; ch "'"; dquote]) buf = true -> escape buf = buf.
Proof.
  induction buf as [|x l IH]; intros Hb; [reflexivity|].
  cbn [forallb] in Hb. apply andb_true_iff in Hb. destruct Hb as [Px Pl].
  cbn [escape flat_map]. fold (escape l). rewrite (IH Pl).
  unfold escape_char. cbn [code Glyph_N].
  unfold avoid in Px. cbn [existsb] in Px.
  apply negb_true_iff in Px. repeat (apply orb_false_iff in Px; destruct Px as [? Px]).
  repeat match goal with E : (_ =? _)%N = false |- _ => rewrite E; clear E end.
  reflexivity.
Qed.

Ltac avoid_solve :=
  repeat rewrite forallb_app;
  repeat (apply andb_true_intro; split);
  first
    [ reflexivity
    | assumption
    | match goal with
      | H : forallb inert ?l = true |- forallb (avoid ?ks) ?l = true =>
          exact (avoid_all ks marks l eq_refl H)
      end ].

Ltac dead_pass ks :=
  rewrite (sub_avoid ks) by (first [reflexivity | try unfold pair_text; avoid_solve]);
  cbn [bind].

(** No two [x] in a row in a pair of single [x] delimiters. *)
Lemma pairs_skip x (pre l : list N) :
  forallb (avoid [x]) pre = true ->
  pairs_ok (no_double x) (pre ++ l) = pairs_ok (no_double x) l.
Proof.
  induction pre as [|y pre IH]; intros Hp; [reflexivity|].
  cbn [forallb] in Hp. apply andb_true_iff in Hp. destruct Hp as [Hy Hp].
  cbn [app pairs_ok]. rewrite (IH Hp).
  assert (E : (y =? x)%N = false)
    by (apply N.eqb_neq; exact (avoid_In _ _ Hy x (or_introl eq_refl))).
  unfold no_double at 1. rewrite E.
  destruct (pre ++ l); reflexivity.
Qed.

Lemma pairs_single x (pre body suf : list N) :
  forallb (avoid [x]) pre = true -> forallb (avoid [x]) body = true ->
  forallb (avoid [x]) suf = true -> body <> [] ->
  pairs_ok (no_double x) (pair_text [x] pre body suf) = true.
Proof.
  intros Hp Hb Hs Hn. unfold pair_text. rewrite (pairs_skip _ _ _ Hp).
  destruct body as [|y body]; [congruence|].
  pose proof Hb as Hb'. cbn [forallb] in Hb'. apply andb_true_iff in Hb'.
  destruct Hb' as [Hy _].
  assert (E : (y =? x)%N = false)
    by (apply N.eqb_neq; exact (avoid_In _ _ Hy x (or_introl eq_refl))).
  cbn [app]. rewrite pairs_ok_cons2. unfold no_double at 1. rewrite E, andb_false_r.
  cbn [negb andb].
  change (y :: body ++ x :: suf) with ((y :: body) ++ x :: suf).
  rewrite (pairs_skip _ _ _ Hb).
  destruct suf as [|z suf]; [reflexivity|].
  pose proof Hs as Hs'. cbn [forallb] in Hs'. apply andb_true_iff in Hs'.
  destruct Hs' as [Hz _].
  assert (E' : (z =? x)%N = false)
    by (apply N.eqb_neq; exact (avoid_In _ _ Hz x (or_introl eq_refl))).
  rewrite pairs_ok_cons2. unfold no_double at 1. rewrite E'. rewrite andb_false_r.
  cbn [negb andb]. rewrite <- (app_nil_r (z :: suf)). rewrite (pairs_skip _ _ _ Hs).
  reflexivity.
Qed.

Lemma double_dead x w (s : list N) i :
  pairs_ok (no_double x) s = true -> starts_with (x :: x :: w) (skipn i s) = false.
Proof.
  intros Hp. destruct (starts_with (x :: x :: w) (skipn i s)) eqn:E; [|reflexivity].
  pose proof (starts_with_at _ _ i 0 x E eq_refl) as H0.
  pose proof (starts_with_at _ _ i 1 x E eq_refl) as H1.
  rewrite Nat.add_0_r in H0. rewrite Nat.add_1_r in H1.
  pose proof (pairs_ok_nth _ _ _ _ _ Hp H0 H1) as H.
  unfold no_double in H. rewrite N.eqb_refl in H. discriminate.
Qed.

Lemma sub_double x w k t (repl : Match N -> option (list N)) (s : list N) :
  pairs_ok (no_double x) s = true ->
  sub (NotBehind k ;;; Str (x :: x :: w) ;;; t) repl s = Some s.
Proof.
  intros Hp. apply sub_no_match. intros i. cbn [code Glyph_N]. rewrite map_id.
  apply guarded_dead, double_dead, Hp.
Qed.

Lemma match_at_left a b s i y : match_at a s i = Some y -> match_at (Alt a b) s i = Some y.
Proof. unfold match_at. cbn [mt]. intros E. rewrite hd_error_app, E. reflexivity. Qed.

Lemma match_at_right a b s i : mt a s i [] = [] -> match_at (Alt a b) s i = match_at b s i.
Proof. unfold match_at. cbn [mt]. intros E. rewrite E. reflexivity. Qed.

Lemma match_at_neither a b s i :
  match_at a s i = None -> match_at b s i = None -> match_at (Alt a b) s i = None.
Proof. unfold match_at. cbn [mt]. intros E1 E2. rewrite hd_error_app, E1, E2. reflexivity. Qed.

Lemma starts_with_one k (l : list N) :
  forallb (avoid [k]) l = true -> starts_with [k] l = false.
Proof.
  intros Hl. rewrite <- (skipn_O l). apply starts_with_outside, Hl.
Qed.

Lemma guarded_dead_mt k d t s i c :
  starts_with d (skipn i s) = false -> mt (NotBehind k ;;; Str d ;;; t) s i c = [].
Proof.
  intros Hs. cbn [mt]. destruct (prev_is (cls_mem k) s i); [reflexivity|].
  cbn [flat_map fst snd]. rewrite Hs. reflexivity.
Qed.

Section OnePair.
Variables pre body suf : list N.
Hypothesis pre_inert : forallb inert pre = true.
Hypothesis body_inert : forallb inert body = true.
Hypothesis suf_inert : forallb inert suf = true.
Hypothesis body_ne : body <> [].
Hypothesis body_nl : forallb (avoid [newline]) body = true.

Lemma escape_pair d :
  forallb (avoid [ch "&"; ch "<"; ch ">"; ch "'"; dquote]) d = true ->
  escape (pair_text d pre body suf) = pair_text d pre body suf.
Proof. intros Hd. apply escape_avoid. unfold pair_text. avoid_solve. Qed.

Ltac fire H := rewrite H; cbn [bind].

Ltac before_pairs :=
  unfold Parser.markdown; rewrite escape_pair by reflexivity;
  unfold Parser.codeblock; dead_pass [ch "`"];
  unfold Parser.inline_codeblock; dead_pass [ch "`"];
  unfold Parser.remove_suppressed_embed_arrows; dead_pass [ch "&"];
  unfold Parser.blockquote; dead_pass [ch "&"].

Ltac after_pairs :=
  unfold Parser.linkify; dead_pass [ch ":"];
  unfold Parser.emojify;
  match goal with |- context [Parser.womboji ?t] => destruct (Parser.womboji t) end;
  dead_pass [ch "&"]; unfold Parser.remove_escaped_symbol;
  dead_pass [backslash]; reflexivity.

Lemma bold_renders :
  Parser.markdown (pair_text (codes "**") pre body suf)
  = Some (pre ++ (codes "<strong>" ++ body ++ codes "</strong>") ++ suf).
Proof.
  before_pairs.
  unfold Parser.spoiler. dead_pass [ch "|"].
  unfold Parser.strikethrough. dead_pass [ch "~"].
  assert (Hb : Parser.bold (pair_text (codes "**") pre body suf)
               = Some (pre ++ (codes "<strong>" ++ body ++ codes "</strong>") ++ suf)).
  { apply (pair_wrap (ch "*") [ch "*"] 1); try assumption; avoid_solve. }
  fire Hb.
  unfold Parser.underline. dead_pass [ch "_"].
  unfold Parser.italics. dead_pass [ch "*"; ch "_"].
  after_pairs.
Qed.

Lemma spoiler_renders :
  Parser.markdown (pair_text (codes "||") pre body suf)
  = Some (pre ++ (spoiler_open ++ body ++ codes "</span>") ++ suf).
Proof.
  before_pairs.
  assert (Hb : Parser.spoiler (pair_text (codes "||") pre body suf)
               = Some (pre ++ (spoiler_open ++ body ++ codes "</span>") ++ suf)).
  { apply (pair_wrap (ch "|") [ch "|"] 1); try assumption; avoid_solve. }
  fire Hb.
  unfold Parser.strikethrough. dead_pass [ch "~"].
  unfold Parser.bold. dead_pass [ch "*"].
  unfold Parser.underline. dead_pass [ch "_"].
  unfold Parser.italics. dead_pass [ch "*"; ch "_"].
  after_pairs.
Qed.

Lemma strikethrough_renders :
  Parser.markdown (pair_text (codes "~~") pre body suf)
  = Some (pre ++ (codes "<s>" ++ body ++ codes "</s>") ++ suf).
Proof.
  before_pairs.
  unfold Parser.spoiler. dead_pass [ch "|"].
  assert (Hb : Parser.strikethrough (pair_text (codes "~~") pre body suf)
               = Some (pre ++ (codes "<s>" ++ body ++ codes "</s>") ++ suf)).
  { apply (pair_wrap_ahead (ch "~") [ch "~"] 1); try assumption; try avoid_solve.
    apply starts_with_one. avoid_solve. }
  fire Hb.
  unfold Parser.bold. dead_pass [ch "*"].
  unfold Parser.underline. dead_pass [ch "_"].
  unfold Parser.italics. dead_pass [ch "*"; ch "_"].
  after_pairs.
Qed.

Lemma underline_renders :
  Parser.markdown (pair_text (codes "__") pre body suf)
  = Some (pre ++ (codes "<u>" ++ body ++ codes "</u>") ++ suf).
Proof.
  before_pairs.
  unfold Parser.spoiler. dead_pass [ch "|"].
  unfold Parser.strikethrough. dead_pass [ch "~"].
  unfold Parser.bold. dead_pass [ch "*"].
  assert (Hb : Parser.underline (pair_text (codes "__") pre body suf)
               = Some (pre ++ (codes "<u>" ++ body ++ codes "</u>") ++ suf)).
  { apply (pair_wrap (ch "_") [ch "_"] 1); try assumption; avoid_solve. }
  fire Hb.
  unfold Parser.italics. dead_pass [ch "*"; ch "_"].
  after_pairs.
Qed.

Lemma pair_single_ok x :
  forallb (avoid [x]) pre = true -> forallb (avoid [x]) body = true ->
  forallb (avoid [x]) suf = true ->
  pairs_ok (no_double x) (pair_text [x] pre body suf) = true.
Proof. intros. apply pairs_single; assumption. Qed.

Lemma italics_star_renders :
  Parser.markdown (pair_text (codes "*") pre body suf)
  = Some (pre ++ (codes "<em>" ++ body ++ codes "</em>") ++ suf).
Proof.
  before_pairs.
  unfold Parser.spoiler. dead_pass [ch "|"].
  unfold Parser.strikethrough. dead_pass [ch "~"].
  assert (Hd : Parser.bold (pair_text (codes "*") pre body suf)
               = Some (pair_text (codes "*") pre body suf))
    by (apply (sub_double (ch "*") []), pair_single_ok; avoid_solve).
  fire Hd.
  unfold Parser.underline. dead_pass [ch "_"].
  assert (Hb : Parser.italics (pair_text (codes "*") pre body suf)
               = Some (pre ++ (codes "<em>" ++ body ++ codes "</em>") ++ suf)).
  { apply (pair_sub (ch "*") [] pre body suf) with (c := pair_caps 1 [ch "*"] pre body);
      try assumption; try avoid_solve.
    - intros i Hi. apply match_at_neither; [apply guarded_dead, Hi|].
      apply guarded_dead, starts_with_outside. unfold pair_text. avoid_solve.
    - apply match_at_left. apply (delimited_match (ch "*") [] 1); try assumption; avoid_solve.
    - unfold Parser.italics_repl. rewrite (pair_group 1 [ch "*"]). reflexivity. }
  fire Hb.
  after_pairs.
Qed.

Lemma italics_under_renders :
  Parser.markdown (pair_text (codes "_") pre body suf)
  = Some (pre ++ (codes "<em>" ++ body ++ codes "</em>") ++ suf).
Proof.
  before_pairs.
  unfold Parser.spoiler. dead_pass [ch "|"].
  unfold Parser.strikethrough. dead_pass [ch "~"].
  unfold Parser.bold. dead_pass [ch "*"].
  assert (Hd : Parser.underline (pair_text (codes "_") pre body suf)
               = Some (pair_text (codes "_") pre body suf))
    by (apply (sub_double (ch "_") []), pair_single_ok; avoid_solve).
  fire Hd.
  assert (Hs : forall i c, mt Parser.italics_star (pair_text (codes "_") pre body suf) i c = []).
  { intros i c. apply guarded_dead_mt, starts_with_outside. unfold pair_text. avoid_solve. }
  assert (Hb : Parser.italics (pair_text (codes "_") pre body suf)
               = Some (pre ++ (codes "<em>" ++ body ++ codes "</em>") ++ suf)).
  { apply (pair_sub (ch "_") [] pre body suf) with (c := pair_caps 2 [ch "_"] pre body);
      try assumption; try avoid_solve.
    - intros i Hi. unfold Parser.italics_pattern. rewrite match_at_right by apply Hs.
      apply guarded_dead, Hi.
    - unfold Parser.italics_pattern. rewrite match_at_right by apply Hs.
      apply (delimited_match (ch "_") [] 2); try assumption; avoid_solve.
    - unfold Parser.italics_repl.
      replace (group _ 1) with (@None (list N)) by reflexivity.
      rewrite (pair_group 2 [ch "_"]). reflexivity. }
  fire Hb.
  after_pairs.
Qed.

End OnePair.

(** ** The same pairs in the bulk-delete copy *)

Lemma subn_of_sub {C} `{Glyph C} r (repl : Match C -> option (list C)) buf out :
  sub r repl buf = Some out ->
  subn r repl buf = Some (out, List.length (finditer r buf)).
Proof. intros E. unfold subn. rewrite E. reflexivity. Qed.

Lemma subn_avoid ks r (repl : Match N -> option (list N)) (buf : list N) :
  needs_lit (avoid ks) r = true -> forallb (avoid ks) buf = true ->
  subn r repl buf = Some (buf, 0).
Proof.
  intros Hn Hb. unfold subn. rewrite (sub_avoid ks _ _ _ Hn Hb). cbn [bind].
  rewrite (finditer_avoid ks _ _ Hn Hb). reflexivity.
Qed.

Ltac dead_passn ks :=
  rewrite (subn_avoid ks) by (first [reflexivity | try unfold pair_text; avoid_solve]);
  cbn [bind fst snd].

Ltac firen H := rewrite (subn_of_sub _ _ _ _ H); cbn [bind fst snd].

Section OnePairBulk.
Variables pre body suf : list N.
Hypothesis pre_inert : forallb inert pre = true.
Hypothesis body_inert : forallb inert body = true.
Hypothesis suf_inert : forallb inert suf = true.
Hypothesis body_ne : body <> [].
Hypothesis body_nl : forallb (avoid [newline]) body = true.

Ltac before_pairsn :=
  unfold BulkDelete.markdown;
  unfold BulkDelete.codeblock; dead_passn [ch "`"];
  unfold BulkDelete.inline_codeblock; dead_passn [ch "`"];
  unfold BulkDelete.blockquote; dead_passn [ch ">"].

Ltac after_pairsn :=
  unfold BulkDelete.remove_escaped_symbol; dead_pass [backslash]; reflexivity.

Ltac italics_deadn :=
  unfold BulkDelete.italics; dead_passn [ch "*"]; dead_passn [ch "_"].

Lemma bulk_spoiler_renders :
  BulkDelete.markdown (pair_text (codes "||") pre body suf)
  = Some (pre ++ (spoiler_open ++ body ++ codes "</span>") ++ suf).
Proof.
  before_pairsn.
  assert (Hb : sub BulkDelete.spoiler_pattern
                 (BulkDelete.wrap (text "<span class=" ++ BulkDelete.q ++ text "spoiler"
                                     ++ BulkDelete.q ++ text ">") (text "</span>"))
                 (pair_text (codes "||") pre body suf)
               = Some (pre ++ (spoiler_open ++ body ++ codes "</span>") ++ suf)).
  { apply (pair_wrap (ch "|") [ch "|"] 1); try assumption; avoid_solve. }
  unfold BulkDelete.spoiler. firen Hb.
  unfold BulkDelete.strikethrough. dead_passn [ch "~"].
  unfold BulkDelete.bold. dead_passn [ch "*"].
  unfold BulkDelete.underline. dead_passn [ch "_"].
  italics_deadn. after_pairsn.
Qed.

Lemma bulk_strikethrough_renders :
  BulkDelete.markdown (pair_text (codes "~~") pre body suf)
  = Some (pre ++ (codes "<s>" ++ body ++ codes "</s>") ++ suf).
Proof.
  before_pairsn.
  unfold BulkDelete.spoiler. dead_passn [ch "|"].
  assert (Hb : sub BulkDelete.strikethrough_pattern
                 (BulkDelete.wrap (text "<s>") (text "</s>"))
                 (pair_text (codes "~~") pre body suf)
               = Some (pre ++ (codes "<s>" ++ body ++ codes "</s>") ++ suf)).
  { apply (pair_wrap_ahead (ch "~") [ch "~"] 1); try assumption; try avoid_solve.
    apply starts_with_one. avoid_solve. }
  unfold BulkDelete.strikethrough. firen Hb.
  unfold BulkDelete.bold. dead_passn [ch "*"].
  unfold BulkDelete.underline. dead_passn [ch "_"].
  italics_deadn. after_pairsn.
Qed.

Lemma bulk_bold_renders :
  BulkDelete.markdown (pair_text (codes "**") pre body suf)
  = Some (pre ++ (codes "<strong>" ++ body ++ codes "</strong>") ++ suf).
Proof.
  before_pairsn.
  unfold BulkDelete.spoiler. dead_passn [ch "|"].
  unfold BulkDelete.strikethrough. dead_passn [ch "~"].
  assert (Hb : sub BulkDelete.bold_pattern
                 (BulkDelete.wrap (text "<strong>") (text "</strong>"))
                 (pair_text (codes "**") pre body suf)
               = Some (pre ++ (codes "<strong>" ++ body ++ codes "</strong>") ++ suf)).
  { apply (pair_wrap (ch "*") [ch "*"] 1); try assumption; avoid_solve. }
  unfold BulkDelete.bold. firen Hb.
  unfold BulkDelete.underline. dead_passn [ch "_"].
  italics_deadn. after_pairsn.
Qed.

Lemma bulk_underline_renders :
  BulkDelete.markdown (pair_text (codes "__") pre body suf)
  = Some (pre ++ (codes "<u>" ++ body ++ codes "</u>") ++ suf).
Proof.
  before_pairsn.
  unfold BulkDelete.spoiler. dead_passn [ch "|"].
  unfold BulkDelete.strikethrough. dead_passn [ch "~"].
  unfold BulkDelete.bold. dead_passn [ch "*"].
  assert (Hb : sub BulkDelete.underline_pattern
                 (BulkDelete.wrap (text "<u>") (text "</u>"))
                 (pair_text (codes "__") pre body suf)
               = Some (pre ++ (codes "<u>" ++ body ++ codes "</u>") ++ suf)).
  { apply (pair_wrap (ch "_") [ch "_"] 1); try assumption; avoid_solve. }
  unfold BulkDelete.underline. firen Hb.
  italics_deadn. after_pairsn.
Qed.

Lemma bulk_italics_star_renders :
  BulkDelete.markdown (pair_text (codes "*") pre body suf)
  = Some (pre ++ (codes "<em>" ++ body ++ codes "</em>") ++ suf).
Proof.
  before_pairsn.
  unfold BulkDelete.spoiler. dead_passn [ch "|"].
  unfold BulkDelete.strikethrough. dead_passn [ch "~"].
  assert (Hd : sub BulkDelete.bold_pattern
                 (BulkDelete.wrap (text "<strong>") (text "</strong>"))
                 (pair_text (codes "*") pre body suf)
               = Some (pair_text (codes "*") pre body suf))
    by (apply (sub_double (ch "*") []), pairs_single; try assumption; avoid_solve).
  unfold BulkDelete.bold. firen Hd.
  unfold BulkDelete.underline. dead_passn [ch "_"].
  assert (Hb : sub BulkDelete.italics_pattern1
                 (BulkDelete.wrap (text "<em>") (text "</em>"))
                 (pair_text (codes "*") pre body suf)
               = Some (pre ++ (codes "<em>" ++ body ++ codes "</em>") ++ suf)).
  { apply (pair_wrap (ch "*") [] 1); try assumption; avoid_solve. }
  unfold BulkDelete.italics. firen Hb. dead_passn [ch "_"].
  after_pairsn.
Qed.

Lemma bulk_italics_under_renders :
  BulkDelete.markdown (pair_text (codes "_") pre body suf)
  = Some (pre ++ (codes "<em>" ++ body ++ codes "</em>") ++ suf).
Proof.
  before_pairsn.
  unfold BulkDelete.spoiler. dead_passn [ch "|"].
  unfold BulkDelete.strikethrough. dead_passn [ch "~"].
  unfold BulkDelete.bold. dead_passn [ch "*"].
  assert (Hd : sub BulkDelete.underline_pattern
                 (BulkDelete.wrap (text "<u>") (text "</u>"))
                 (pair_text (codes "_") pre body suf)
               = Some (pair_text (codes "_") pre body suf))
    by (apply (sub_double (ch "_") []), pairs_single; try assumption; avoid_solve).
  unfold BulkDelete.underline. firen Hd.
  assert (Hb : sub BulkDelete.italics_pattern2
                 (BulkDelete.wrap (text "<em>") (text "</em>"))
                 (pair_text (codes "_") pre body suf)
               = Some (pre ++ (codes "<em>" ++ body ++ codes "</em>") ++ suf)).
  { apply (pair_wrap (ch "_") [] 1); try assumption; avoid_solve. }
  unfold BulkDelete.italics. dead_passn [ch "*"]. firen Hb.
  after_pairsn.
Qed.

End OnePairBulk.

(** X9: a pair of equal delimiters around a text renders as the
    element of its format, in any plain context: for texts [pre],
    [body] and [suf] that have none of the characters the engine looks
    for, [body] not empty and on one line, the pipeline turns
    pre ||body|| suf into a spoiler span, ~~body~~ into an s element,
    **body** into strong, __body__ into u, and *body* and _body_ into
    em, and leaves [pre] and [suf] as they are. *)
Theorem delimiter_pairs_render (pre body suf : list N) :
  forallb inert pre = true -> forallb inert body = true -> forallb inert suf = true ->
  body <> [] -> forallb (avoid [newline]) body = true ->
  Parser.markdown (pre ++ codes "||" ++ body ++ codes "||" ++ suf)
    = Some (pre ++ (spoiler_open ++ body ++ codes "</span>") ++ suf)
  /\ Parser.markdown (pre ++ codes "~~" ++ body ++ codes "~~" ++ suf)
     = Some (pre ++ (codes "<s>" ++ body ++ codes "</s>") ++ suf)
  /\ Parser.markdown (pre ++ codes "**" ++ body ++ codes "**" ++ suf)
     = Some (pre ++ (codes "<strong>" ++ body ++ codes "</strong>") ++ suf)
  /\ Parser.markdown (pre ++ codes "__" ++ body ++ codes "__" ++ suf)
     = Some (pre ++ (codes "<u>" ++ body ++ codes "</u>") ++ suf)
  /\ Parser.markdown (pre ++ codes "*" ++ body ++ codes "*" ++ suf)
     = Some (pre ++ (codes "<em>" ++ body ++ codes "</em>") ++ suf)
  /\ Parser.markdown (pre ++ codes "_" ++ body ++ codes "_" ++ suf)
     = Some (pre ++ (codes "<em>" ++ body ++ codes "</em>") ++ suf).
Proof.
  intros Hp Hb Hs Hn Hl.
  split; [exact (spoiler_renders pre body suf Hp Hb Hs Hn Hl)|].
  split; [exact (strikethrough_renders pre body suf Hp Hb Hs Hn Hl)|].
  split; [exact (bold_renders pre body suf Hp Hb Hs Hn Hl)|].
  split; [exact (underline_renders pre body suf Hp Hb Hs Hn Hl)|].
  split; [exact (italics_star_renders pre body suf Hp Hb Hs Hn Hl)|].
  exact (italics_under_renders pre body suf Hp Hb Hs Hn Hl).
Qed.

Lemma delimiter_pairs_render_witness :
  Parser.markdown (codes "so **very good** (yes)")
    = Some (codes "so <strong>very good</strong> (yes)")
  /\ Parser.markdown (codes "so _very good_ (yes)")
     = Some (codes "so <em>very good</em> (yes)").
Proof.
  pose proof (delimiter_pairs_render (codes "so ") (codes "very good") (codes " (yes)")
                eq_refl eq_refl eq_refl ltac:(discriminate) eq_refl) as H.
  split; [exact (proj1 (proj2 (proj2 H)))|].
  exact (proj2 (proj2 (proj2 (proj2 (proj2 H))))).
Defined.

(** X10: the copy of the engine in events/bulkMessageDelete.py
    renders the same six delimiter pairs in the same way, in any plain
    context. *)
Theorem bulk_delimiter_pairs_render (pre body suf : list N) :
  forallb inert pre = true -> forallb inert body = true -> forallb inert suf = true ->
  body <> [] -> forallb (avoid [newline]) body = true ->
  BulkDelete.markdown (pre ++ codes "||" ++ body ++ codes "||" ++ suf)
    = Some (pre ++ (spoiler_open ++ body ++ codes "</span>") ++ suf)
  /\ BulkDelete.markdown (pre ++ codes "~~" ++ body ++ codes "~~" ++ suf)
     = Some (pre ++ (codes "<s>" ++ body ++ codes "</s>") ++ suf)
  /\ BulkDelete.markdown (pre ++ codes "**" ++ body ++ codes "**" ++ suf)
     = Some (pre ++ (codes "<strong>" ++ body ++ codes "</strong>") ++ suf)
  /\ BulkDelete.markdown (pre ++ codes "__" ++ body ++ codes "__" ++ suf)
     = Some (pre ++ (codes "<u>" ++ body ++ codes "</u>") ++ suf)
  /\ BulkDelete.markdown (pre ++ codes "*" ++ body ++ codes "*" ++ suf)
     = Some (pre ++ (codes "<em>" ++ body ++ codes "</em>") ++ suf)
  /\ BulkDelete.markdown (pre ++ codes "_" ++ body ++ codes "_" ++ suf)
     = Some (pre ++ (codes "<em>" ++ body ++ codes "</em>") ++ suf).
Proof.
  intros Hp Hb Hs Hn Hl.
  split; [exact (bulk_spoiler_renders pre body suf Hp Hb Hs Hn Hl)|].
  split; [exact (bulk_strikethrough_renders pre body suf Hp Hb Hs Hn Hl)|].
  split; [exact (bulk_bold_renders pre body suf Hp Hb Hs Hn Hl)|].
  split; [exact (bulk_underline_renders pre body suf Hp Hb Hs Hn Hl)|].
  split; [exact (bulk_italics_star_renders pre body suf Hp Hb Hs Hn Hl)|].
  exact (bulk_italics_under_renders pre body suf Hp Hb Hs Hn Hl).
Qed.

Lemma bulk_delimiter_pairs_render_witness :
  BulkDelete.markdown (codes "so ~~very good~~ (yes)")
    = Some (codes "so <s>very good</s> (yes)")
  /\ BulkDelete.markdown (codes "so *very good* (yes)")
     = Some (codes "so <em>very good</em> (yes)").
Proof.
  pose proof (bulk_delimiter_pairs_render (codes "so ") (codes "very good") (codes " (yes)")
                eq_refl eq_refl eq_refl ltac:(discriminate) eq_refl) as H.
  split; [exact (proj1 (proj2 H))|].
  exact (proj1 (proj2 (proj2 (proj2 (proj2 H))))).
Defined.

(** * Code elements *)

(** ** Words that occur nowhere *)

Lemma starts_with_trans w : forall u l,
  starts_with w u = true -> starts_with u l = true -> starts_with w l = true.
Proof.
  induction w as [|x w IH]; intros u l Hw Hu; [reflexivity|].
  destruct u as [|y u]; [discriminate|]. destruct l as [|z l]; [discriminate|].
  cbn [starts_with] in *. apply andb_true_iff in Hw, Hu.
  destruct Hw as [E1 Hw], Hu as [E2 Hu].
  apply N.eqb_eq in E1, E2. subst. rewrite N.eqb_refl. exact (IH _ _ Hw Hu).
Qed.

Lemma starts_with_skip u : forall l k,
  starts_with u l = true -> starts_with (skipn k u) (skipn k l) = true.
Proof.
  induction u as [|y u IH]; intros l k Hu.
  - rewrite skipn_nil. reflexivity.
  - destruct l as [|z l]; [discriminate|]. destruct k as [|k]; [exact Hu|].
    cbn [skipn]. cbn [starts_with] in Hu. apply andb_true_iff in Hu.
    apply IH, Hu.
Qed.

Lemma contains_at w : forall u, contains w u = true ->
  exists k, starts_with w (skipn k u) = true.
Proof.
  induction u as [|y u IH]; cbn [contains]; intros H.
  - apply orb_true_iff in H. destruct H as [H|H]; [exists 0; exact H|discriminate].
  - apply orb_true_iff in H. destruct H as [H|H]; [exists 0; exact H|].
    destruct (IH H) as [k Hk]. exists (S k). exact Hk.
Qed.

Lemma skipn_plus {A} (l : list A) i k : skipn k (skipn i l) = skipn (i + k) l.
Proof. rewrite skipn_skipn. f_equal. lia. Qed.

Lemma needs_word_dead w r s :
  needs_word w r = true -> nowhere w s -> forall i c, mt r s i c = [].
Proof.
  intros Hn Hs. induction r; cbn [needs_word] in Hn; try discriminate; intros i c.
  - cbn [mt]. destruct (starts_with w0 (skipn i s)) eqn:E; [|reflexivity].
    destruct (contains_at _ _ Hn) as [k Hk].
    pose proof (starts_with_trans _ _ _ Hk (starts_with_skip _ _ k E)) as H.
    rewrite skipn_plus, Hs in H. discriminate.
  - cbn [mt]. apply orb_true_iff in Hn. destruct Hn as [Hn|Hn].
    + rewrite (IHr1 Hn). reflexivity.
    + apply flat_map_nil. intros [k c1] _. apply (IHr2 Hn).
  - cbn [mt]. apply andb_true_iff in Hn. destruct Hn as [H1 H2].
    rewrite (IHr1 H1), (IHr2 H2). reflexivity.
  - cbn [mt]. rewrite (IHr Hn). reflexivity.
Qed.

Lemma sub_nowhere w r (repl : Match N -> option (list N)) (buf : list N) :
  needs_word w r = true -> nowhere w buf -> sub r repl buf = Some buf.
Proof.
  intros Hn Hb. apply sub_no_match. intros i. cbn [code Glyph_N]. rewrite map_id.
  unfold match_at. rewrite (needs_word_dead _ _ _ Hn Hb). reflexivity.
Qed.

Lemma nowhere_avoid x w (l : list N) : forallb (avoid [x]) l = true -> nowhere (x :: w) l.
Proof. intros Hl i. apply starts_with_outside, Hl. Qed.

Lemma nowhere_app x w (front l : list N) :
  forallb (avoid [x]) front = true -> nowhere (x :: w) l -> nowhere (x :: w) (front ++ l).
Proof.
  intros Hf Hl i. destruct (Nat.lt_ge_cases i (List.length front)) as [Hi|Hi].
  - apply starts_with_inside; assumption.
  - replace i with (List.length front + (i - List.length front)) by lia.
    rewrite skipn_at. apply Hl.
Qed.

Lemma nowhere_cons w (x : N) l :
  starts_with w (x :: l) = false -> nowhere w l -> nowhere w (x :: l).
Proof. intros H0 Hl [|i]; [exact H0|apply Hl]. Qed.

Lemma nowhere_double x w (s : list N) :
  pairs_ok (no_double x) s = true -> nowhere (x :: x :: w) s.
Proof. intros Hp i. apply double_dead, Hp. Qed.

(** ** Protected text *)

Lemma symbol_not_plain (c y : N) : is_symbol c = false -> is_symbol y = true -> c <> y.
Proof. intros Hc Hy E. subst. congruence. Qed.

(** Behind a unit of protected text, a word whose first symbol is not
    a backslash and follows plain characters does not start. *)
Lemma protected_word a y b z back : forall E,
  forallb (fun c => negb (is_symbol c)) a = true ->
  is_symbol y = true -> y <> backslash ->
  forallb (fun c => negb (c =? z)%N) (a ++ [y]) = true ->
  starts_with (a ++ y :: b) (flat_map protect E ++ z :: back) = false.
Proof.
  induction a as [|c a IH]; intros E Ha Hy Hb Hz.
  - cbn [app] in *. cbn [forallb] in Hz. apply andb_true_iff in Hz.
    destruct Hz as [Hz _]. apply negb_true_iff, N.eqb_neq in Hz.
    destruct E as [|e E]; cbn [flat_map app].
    + apply starts_with_miss. exact Hz.
    + unfold protect at 1. cbn [code Glyph_N lit].
      destruct (is_symbol e) eqn:Se; cbn [app]; apply starts_with_miss.
      * exact Hb.
      * intros ->. congruence.
  - cbn [forallb] in Ha, Hz. apply andb_true_iff in Ha, Hz.
    destruct Ha as [Hc Ha], Hz as [Hcz Hz].
    apply negb_true_iff in Hc. apply negb_true_iff, N.eqb_neq in Hcz.
    destruct E as [|e E]; cbn [flat_map app].
    + apply starts_with_miss. exact Hcz.
    + unfold protect at 1. cbn [code Glyph_N lit].
      destruct (is_symbol e) eqn:Se; cbn [app].
      * apply starts_with_miss. intros ->. rewrite backslash_is_symbol in Hc. discriminate.
      * cbn [starts_with]. rewrite (IH E Ha Hy Hb Hz). apply andb_false_r.
Qed.

Lemma nowhere_protected c0 a y b z back E :
  is_symbol c0 = true -> c0 <> backslash ->
  forallb (fun c => negb (is_symbol c)) a = true ->
  is_symbol y = true -> y <> backslash ->
  forallb (fun c => negb (c =? z)%N) (a ++ [y]) = true ->
  forallb (avoid [c0]) (z :: back) = true ->
  nowhere (c0 :: a ++ y :: b) (flat_map protect E ++ z :: back).
Proof.
  intros Hc0 Hc0b Ha Hy Hyb Hz Hback.
  induction E as [|e E IH]; cbn [flat_map app].
  - apply nowhere_avoid, Hback.
  - unfold protect at 1. cbn [code Glyph_N lit].
    destruct (is_symbol e) eqn:Se; cbn [app].
    + apply nowhere_cons; [apply starts_with_miss; exact Hc0b|].
      apply nowhere_cons; [|exact IH].
      cbn [starts_with]. rewrite (protected_word a y b z back E Ha Hy Hyb Hz).
      apply andb_false_r.
    + apply nowhere_cons; [|exact IH].
      apply starts_with_miss. intros ->. congruence.
Qed.

Lemma forallb_protect (p : N -> bool) (E : list N) :
  p backslash = true -> forallb p E = true -> forallb p (flat_map protect E) = true.
Proof.
  intros Hb. induction E as [|e E IH]; intros HE; [reflexivity|].
  cbn [forallb] in HE. apply andb_true_iff in HE. destruct HE as [He HE].
  cbn [flat_map]. rewrite forallb_app, (IH HE), andb_true_r.
  unfold protect at 1. cbn [code Glyph_N lit]. destruct (is_symbol e); cbn [forallb];
    rewrite ?Hb, He; reflexivity.
Qed.

(** A guarded delimiter pattern finds nothing in a buffer whose only
    delimiters stand in protected text. *)
Lemma protected_guarded_dead x w t front E back i :
  is_delim x = true ->
  forallb (avoid [x]) front = true -> forallb (avoid [x]) back = true ->
  match_at (NotBehind bs_cls ;;; Str (x :: w) ;;; t)
           (front ++ flat_map protect E ++ back) i = None.
Proof.
  intros Hx Hf Hb.
  destruct (starts_with (x :: w) (skipn i (front ++ flat_map protect E ++ back))) eqn:S;
    [|apply guarded_dead, S].
  pose proof (starts_with_hd _ _ _ _ S) as Hi.
  assert (Hlo : List.length front <= i).
  { destruct (Nat.lt_ge_cases i (List.length front)) as [H|H]; [|exact H].
    rewrite nth_error_app1 in Hi by exact H. apply nth_error_In in Hi.
    pose proof (proj1 (forallb_forall _ _) Hf x Hi) as Hc.
    exfalso. exact (avoid_In _ _ Hc x (or_introl eq_refl) eq_refl). }
  assert (Hhi : i < List.length front + List.length (flat_map protect E)).
  { destruct (Nat.lt_ge_cases i (List.length front + List.length (flat_map protect E)))
      as [H|H]; [exact H|].
    rewrite app_assoc in Hi. rewrite nth_error_app2 in Hi by (rewrite length_app; lia).
    apply nth_error_In in Hi.
    pose proof (proj1 (forallb_forall _ _) Hb x Hi) as Hc.
    exfalso. exact (avoid_In _ _ Hc x (or_introl eq_refl) eq_refl). }
  destruct (guard_in_context front E back i x (conj Hlo Hhi) Hi Hx) as (p' & -> & Hp).
  rewrite match_at_mtk, mtk_seq, mtk_notbehind.
  cbn [prev_is]. rewrite Hp. reflexivity.
Qed.

Lemma protected_guarded_sub x w t (repl : Match N -> option (list N)) front E back :
  is_delim x = true ->
  forallb (avoid [x]) front = true -> forallb (avoid [x]) back = true ->
  sub (NotBehind bs_cls ;;; Str (x :: w) ;;; t) repl (front ++ flat_map protect E ++ back)
  = Some (front ++ flat_map protect E ++ back).
Proof.
  intros Hx Hf Hb. apply sub_no_match. intros i. cbn [code Glyph_N]. rewrite map_id.
  apply protected_guarded_dead; assumption.
Qed.

(** ** Taking the protection out again *)

Lemma escaped_dead_at s i :
  starts_with [backslash] (skipn i s) = false ->
  match_at Parser.escaped_symbols_pattern s i = None.
Proof.
  intros Hs. unfold Parser.escaped_symbols_pattern.
  rewrite match_at_mtk, mtk_seq, mtk_str, Hs. reflexivity.
Qed.

Lemma unprotect_loop (subj back : list N) : forall E i,
  skipn i subj = flat_map protect E ++ back ->
  sub_loop Parser.escaped_symbols_pattern Parser.remove_escaped_symbol_repl subj subj
    (flat_map protect E ++ back) i 0
  = (tl <- sub_loop Parser.escaped_symbols_pattern Parser.remove_escaped_symbol_repl
             subj subj back (i + List.length (flat_map protect E)) 0 ;;
     Some (E ++ tl)).
Proof.
  induction E as [|e E IH]; intros i Hi.
  - cbn [flat_map app List.length]. rewrite Nat.add_0_r, bind_ret. reflexivity.
  - cbn [flat_map] in *.
    destruct (is_symbol e) eqn:Se;
      [rewrite (@protect_symbol N Glyph_N e Se) in *
      |rewrite (@protect_plain N Glyph_N e Se) in *];
      cbn [lit Glyph_N app] in *.
    + destruct (skipn_cons_inv _ _ _ _ Hi) as [H0 Hi1].
      destruct (skipn_cons_inv _ _ _ _ Hi1) as [H1 Hi2].
      assert (M : match_at Parser.escaped_symbols_pattern subj i
                  = Some (i + List.length [backslash; e], [(1, (S i, S (S i)))])).
      { unfold Parser.escaped_symbols_pattern.
        rewrite match_at_mtk, mtk_seq, mtk_str, Hi. cbn [starts_with].
        rewrite N.eqb_refl. cbn [andb]. cbv beta. cbn [fst snd List.length].
        rewrite mtk_grp, mtk_set1. replace (i + 1) with (S i) by lia.
        rewrite H1. fold (is_symbol e). rewrite Se. cbn [fst snd hd_error].
        do 2 f_equal. lia. }
      change (backslash :: e :: flat_map protect E ++ back)
        with ([backslash; e] ++ flat_map protect E ++ back).
      rewrite (sub_loop_hit _ _ _ _ [backslash; e] _ i _ ltac:(discriminate) M).
      replace (i + List.length [backslash; e]) with (S (S i)) by (cbn; lia).
      rewrite (remove_escaped_symbol_repl_one subj (S i) i (S (S i)) e _ Hi1).
      cbn [bind]. rewrite (IH (S (S i)) Hi2).
      cbn [List.length].
      replace (i + S (S (List.length (flat_map protect E))))
        with (S (S i) + List.length (flat_map protect E)) by lia.
      destruct (sub_loop _ _ _ _ back _ 0); reflexivity.
    + destruct (skipn_cons_inv _ _ _ _ Hi) as [H0 Hi1].
      change (e :: flat_map protect E ++ back) with ([e] ++ flat_map protect E ++ back).
      rewrite sub_loop_copy.
      * cbn [List.length]. rewrite (IH (i + 1)) by (rewrite Nat.add_1_r; exact Hi1).
        replace (i + S (List.length (flat_map protect E)))
          with (i + 1 + List.length (flat_map protect E)) by lia.
        destruct (sub_loop _ _ _ _ back _ 0); reflexivity.
      * intros k Hk. cbn [List.length] in Hk. replace k with 0 by lia.
        rewrite Nat.add_0_r. apply escaped_dead_at. rewrite Hi.
        apply starts_with_miss. intros E0. rewrite <- E0, backslash_is_symbol in Se.
        discriminate.
Qed.

(** The final pass takes the protection out of protected text and
    leaves a context without backslashes as it is. *)
Lemma unprotect_in_context (front E back : list N) :
  forallb (avoid [backslash]) front = true -> forallb (avoid [backslash]) back = true ->
  Parser.remove_escaped_symbol (front ++ flat_map protect E ++ back)
  = Some (front ++ E ++ back).
Proof.
  intros Hf Hb. unfold Parser.remove_escaped_symbol, sub.
  cbn [code Glyph_N]. rewrite map_id.
  rewrite sub_loop_copy.
  - cbn [Nat.add]. rewrite unprotect_loop by apply skipn_at0.
    rewrite sub_loop_tail; [reflexivity|].
    intros k. apply escaped_dead_at.
    rewrite <- Nat.add_assoc, skipn_at, skipn_at. apply starts_with_outside, Hb.
  - intros k Hk. apply escaped_dead_at. apply starts_with_inside; assumption.
Qed.

(** ** The HTML escape, character by character *)

Lemma escape_char_forall (p : N -> bool) (x : N) :
  p x = true -> forallb p (codes "&lt;gt#39amp") = true -> p (ch "4") = true ->
  forallb p (escape_char x) = true.
Proof.
  intros Hx Hs H4. unfold escape_char. cbn [code Glyph_N].
  cbn [forallb codes map list_ascii_of_string] in Hs.
  repeat (apply andb_true_iff in Hs; destruct Hs as [? Hs]).
  repeat match goal with |- context [if ?b then _ else _] => destruct b end;
    cbn [text codes map list_ascii_of_string forallb lit Glyph_N];
    repeat (apply andb_true_intro; split); try assumption; reflexivity.
Qed.

Lemma escape_forall (p : N -> bool) (s : list N) :
  forallb p (codes "&lt;gt#39amp") = true -> p (ch "4") = true ->
  forallb p s = true -> forallb p (escape s) = true.
Proof.
  intros Hs H4. induction s as [|x s IH]; intros H; [reflexivity|].
  cbn [forallb] in H. apply andb_true_iff in H. destruct H as [Hx H].
  cbn [escape flat_map]. fold (escape s). rewrite forallb_app, (IH H), andb_true_r.
  apply escape_char_forall; assumption.
Qed.

Lemma escape_nonempty (s : list N) : s <> [] -> escape s <> [].
Proof.
  destruct s as [|x s]; [congruence|]. intros _. cbn [escape flat_map].
  unfold escape_char. cbn [code Glyph_N].
  repeat match goal with |- context [if ?b then _ else _] => destruct b end; discriminate.
Qed.

(** ** A code element in the rest of the pipeline *)

Ltac split_and :=
  repeat match goal with |- (_ && _)%bool = true => apply andb_true_intro; split end.

Ltac marks_solve :=
  repeat rewrite forallb_app;
  split_and;
  first
    [ reflexivity
    | assumption
    | match goal with
      | H : forallb inert ?l = true |- forallb (avoid ?ks) ?l = true =>
          exact (avoid_all ks marks l eq_refl H)
      | H : forallb (avoid code_marks) ?l = true |- forallb (avoid ?ks) ?l = true =>
          exact (avoid_all ks code_marks l eq_refl H)
      end ].

Section CodeSurvives.
Variables front E back original : list N.
Hypothesis front_ok : forallb (avoid code_marks) front = true.
Hypothesis back_ok : forallb (avoid code_marks) (ch "<" :: back) = true.
Hypothesis E_ok : forallb (avoid [ch "`"]) E = true.

Local Abbreviation B := (front ++ flat_map protect E ++ ch "<" :: back).

Lemma code_nowhere c0 a y b :
  is_symbol c0 = true -> c0 <> backslash ->
  forallb (fun c => negb (is_symbol c)) a = true ->
  is_symbol y = true -> y <> backslash ->
  forallb (fun c => negb (c =? ch "<")%N) (a ++ [y]) = true ->
  existsb (N.eqb c0) code_marks = true ->
  nowhere (c0 :: a ++ y :: b) B.
Proof.
  intros H1 H2 H3 H4 H5 H6 H7.
  assert (Hm : forallb (fun k => existsb (N.eqb k) code_marks) [c0] = true)
    by (cbn [forallb]; rewrite H7; reflexivity).
  apply nowhere_app; [exact (avoid_all _ _ _ Hm front_ok)|].
  apply nowhere_protected; try assumption.
  exact (avoid_all _ _ _ Hm back_ok).
Qed.

Lemma code_guarded x w t (repl : Match N -> option (list N)) :
  is_delim x = true -> existsb (N.eqb x) code_marks = true ->
  sub (NotBehind bs_cls ;;; Str (x :: w) ;;; t) repl B = Some B.
Proof.
  intros Hx Hm.
  assert (Hm' : forallb (fun k => existsb (N.eqb k) code_marks) [x] = true)
    by (cbn [forallb]; rewrite Hm; reflexivity).
  apply protected_guarded_sub; [exact Hx| |].
  - exact (avoid_all _ _ _ Hm' front_ok).
  - exact (avoid_all _ _ _ Hm' back_ok).
Qed.

Lemma code_inline_dead : Parser.inline_codeblock B = Some B.
Proof.
  unfold Parser.inline_codeblock. apply (sub_avoid [ch "`"]); [reflexivity|].
  rewrite !forallb_app. split_and.
  - marks_solve.
  - apply forallb_protect; [reflexivity|exact E_ok].
  - marks_solve.
Qed.

Lemma code_italics_dead : Parser.italics B = Some B.
Proof.
  unfold Parser.italics. apply sub_no_match. intros i. cbn [code Glyph_N]. rewrite map_id.
  apply match_at_neither; apply protected_guarded_dead; try reflexivity; marks_solve.
Qed.

(** From the suppressed-link pass to the end of the pipeline. *)
Lemma code_survives :
  (output <- Parser.remove_suppressed_embed_arrows B ;;
   output <- Parser.blockquote output ;;
   output <- Parser.spoiler output ;;
   output <- Parser.strikethrough output ;;
   output <- Parser.bold output ;;
   output <- Parser.underline output ;;
   output <- Parser.italics output ;;
   output <- Parser.linkify output ;;
   output <- Parser.emojify output original ;;
   Parser.remove_escaped_symbol output)
  = Some (front ++ E ++ ch "<" :: back).
Proof.
  assert (Nlt : nowhere (codes "&lt;") B)
    by (apply (code_nowhere (ch "&") (codes "lt") (ch ";") []); reflexivity || discriminate).
  assert (Ngt : nowhere (codes "&gt;") B)
    by (apply (code_nowhere (ch "&") (codes "gt") (ch ";") []); reflexivity || discriminate).
  assert (Nurl : nowhere (codes "://") B)
    by (apply (code_nowhere (ch ":") [] (ch "/") (codes "/")); reflexivity || discriminate).
  assert (H1 : Parser.remove_suppressed_embed_arrows B = Some B)
    by (apply (sub_nowhere (codes "&lt;")); [reflexivity|exact Nlt]).
  assert (H2 : Parser.blockquote B = Some B)
    by (apply (sub_nowhere (codes "&gt;")); [reflexivity|exact Ngt]).
  assert (H3 : Parser.spoiler B = Some B)
    by (apply (code_guarded (ch "|") [ch "|"]); reflexivity).
  assert (H4 : Parser.strikethrough B = Some B)
    by (apply (code_guarded (ch "~") [ch "~"]); reflexivity).
  assert (H5 : Parser.bold B = Some B)
    by (apply (code_guarded (ch "*") [ch "*"]); reflexivity).
  assert (H6 : Parser.underline B = Some B)
    by (apply (code_guarded (ch "_") [ch "_"]); reflexivity).
  assert (H7 : Parser.linkify B = Some B)
    by (apply (sub_nowhere (codes "://")); [reflexivity|exact Nurl]).
  assert (H8 : Parser.emojify B original = Some B).
  { unfold Parser.emojify.
    destruct (Parser.womboji original);
      (apply (sub_nowhere (codes "&lt;")); [reflexivity|exact Nlt]). }
  rewrite H1. cbn [bind]. rewrite H2. cbn [bind]. rewrite H3. cbn [bind].
  rewrite H4. cbn [bind]. rewrite H5. cbn [bind]. rewrite H6. cbn [bind].
  rewrite code_italics_dead. cbn [bind]. rewrite H7. cbn [bind].
  rewrite H8. cbn [bind].
  apply unprotect_in_context; marks_solve.
Qed.

End CodeSurvives.

(** ** Inline code *)

Lemma avoid_neg x (l : list N) :
  forallb (avoid [x]) l = true -> forallb (cls_mem (Neg [One x])) l = true.
Proof.
  apply forallb_weaken. intros y Hy. unfold avoid in Hy. cbn [existsb] in Hy.
  cbn [cls_mem existsb item_mem]. exact Hy.
Qed.

Lemma nth_error_inside {A} (front body back : list A) d :
  d < List.length body ->
  exists y, nth_error (front ++ body ++ back) (List.length front + d) = Some y
            /\ In y body.
Proof.
  intros Hd. rewrite nth_error_at, nth_error_app1 by exact Hd.
  destruct (nth_error body d) as [y|] eqn:E.
  - exists y. split; [reflexivity|]. eapply nth_error_In; exact E.
  - apply nth_error_None in E. lia.
Qed.

Section InlineMatch.
Variables pre E suf : list N.
Hypothesis pre_bs : forallb (avoid [backslash]) pre = true.
Hypothesis E_ne : E <> [].
Hypothesis E_bt : forallb (avoid [ch "`"]) E = true.
Hypothesis suf_bt : forallb (avoid [ch "`"]) suf = true.

Local Abbreviation bt := (ch "`").
Local Abbreviation s := (pair_text [ch "`"] pre E suf).
Local Abbreviation p := (List.length pre).

Lemma inline_at1 : skipn (p + 1) s = E ++ [bt] ++ suf.
Proof. unfold pair_text. rewrite skipn_at. reflexivity. Qed.

Lemma inline_at d : skipn (p + 1 + d) s = skipn d (E ++ [bt] ++ suf).
Proof. rewrite <- skipn_plus, inline_at1. reflexivity. Qed.

Lemma inline_at_end : skipn (p + 1 + List.length E) s = [bt] ++ suf.
Proof. rewrite inline_at. apply skipn_at0. Qed.

Lemma inline_at_suf : skipn (p + 1 + List.length E + 1) s = suf.
Proof.
  rewrite <- skipn_plus, inline_at_end. reflexivity.
Qed.

Lemma inline_open : slice s p (p + 1) = [bt].
Proof.
  rewrite Nat.add_1_r. apply (slice_one _ _ _ (E ++ [bt] ++ suf)).
  unfold pair_text. apply skipn_at0.
Qed.

Lemma inline_match :
  match_at Parser.inlinecodeblock_pattern s p
  = Some (pair_end [bt] pre E, inline_caps pre E).
Proof.
  unfold Parser.inlinecodeblock_pattern.
  rewrite match_at_mtk, mtk_seq, mtk_notbehind.
  unfold pair_text at 1. rewrite (prev_is_end _ _ _ (avoid_not_bs _ pre_bs)).
  cbv beta. cbn [fst snd]. rewrite mtk_seq, mtk_grp, mtk_str.
  unfold pair_text at 1. rewrite skipn_at0, starts_with_app.
  cbv beta. cbn [fst snd]. rewrite mtk_seq, mtk_grp, mtk_seq.
  change (List.length (codes "`")) with 1.
  assert (HE : 1 <= List.length E) by (destruct E; [congruence|cbn [List.length]; lia]).
  apply (mtk_lazy 0 _ s _ _ _ _ (List.length E - 1)).
  - lia.
  - rewrite inline_at1.
    pose proof (span_all (Neg [One bt]) E ([bt] ++ suf) (avoid_neg _ _ E_bt)). lia.
  - intros d _ Hd. cbv beta. cbn [fst snd]. rewrite mtk_set1.
    destruct (nth_error s (p + 1 + d)) as [y|]; [|reflexivity].
    destruct (cls_mem (Neg [One bt]) y); [|reflexivity].
    cbv beta. cbn [fst snd]. rewrite mtk_seq, mtk_grp, mtk_ref.
    cbn [get Nat.eqb]. rewrite inline_open.
    replace (S (p + 1 + d)) with (p + 1 + S d) by lia.
    rewrite inline_at, starts_with_inside by (assumption || lia). reflexivity.
  - cbv beta. cbn [fst snd]. rewrite mtk_set1.
    destruct (nth_error_inside (pre ++ [bt]) E ([bt] ++ suf) (List.length E - 1)
                ltac:(lia)) as (y & Hy & Iy).
    rewrite length_app in Hy. cbn [List.length] in Hy.
    replace ((pre ++ [bt]) ++ E ++ [bt] ++ suf) with s in Hy
      by (unfold pair_text; rewrite <- app_assoc; reflexivity).
    rewrite Hy.
    pose proof (proj1 (forallb_forall _ _) (avoid_neg _ _ E_bt) y Iy) as Cy.
    rewrite Cy. cbv beta. cbn [fst snd]. rewrite mtk_seq, mtk_grp, mtk_ref.
    cbn [get Nat.eqb]. rewrite inline_open.
    replace (S (p + 1 + (List.length E - 1))) with (p + 1 + List.length E) by lia.
    rewrite inline_at_end, starts_with_app.
    cbv beta. cbn [fst snd List.length]. rewrite mtk_notahead. cbn [mt].
    rewrite inline_at_suf.
    change (codes "`") with [bt]. rewrite (starts_with_one _ _ suf_bt).
    cbn [hd_error]. unfold pair_end, inline_caps. cbn [List.length].
    f_equal; try (f_equal; lia).
Qed.

Lemma inline_dead i :
  starts_with [bt] (skipn i s) = false ->
  match_at Parser.inlinecodeblock_pattern s i = None.
Proof.
  intros Hs. unfold Parser.inlinecodeblock_pattern.
  rewrite match_at_mtk, mtk_seq, mtk_notbehind.
  destruct (prev_is (cls_mem bs_cls) s i); [reflexivity|].
  cbv beta. cbn [fst snd]. rewrite mtk_seq, mtk_grp, mtk_str.
  change (codes "`") with [bt]. rewrite Hs. reflexivity.
Qed.

Lemma inline_group : 
  group (mkMatch s p (pair_end [bt] pre E) (inline_caps pre E)) 2 = Some E.
Proof.
  unfold group, inline_caps. cbn [m_caps m_string get Nat.eqb]. f_equal.
  unfold pair_text.
  replace (pre ++ [bt] ++ E ++ [bt] ++ suf) with ((pre ++ [bt]) ++ E ++ [bt] ++ suf)
    by (rewrite <- app_assoc; reflexivity).
  replace (p + 1) with (List.length (pre ++ [bt])) by (rewrite length_app; reflexivity).
  apply slice_middle.
Qed.

End InlineMatch.

(** The inline-code pass on one code span. *)
Lemma inline_pass (pre E suf : list N) :
  forallb (avoid [backslash]) pre = true -> forallb (avoid [ch "`"]) pre = true ->
  E <> [] -> forallb (avoid [ch "`"]) E = true -> forallb (avoid [ch "`"]) suf = true ->
  Parser.inline_codeblock (pair_text [ch "`"] pre E suf)
  = Some (pre ++ (span_inline ++ flat_map protect E ++ codes "</span>") ++ suf).
Proof.
  intros Hp1 Hp2 HE1 HE2 Hs. unfold Parser.inline_codeblock.
  apply (pair_sub (ch "`") [] pre E suf Hp2 Hs _ _ (inline_caps pre E)).
  - intros i. apply inline_dead.
  - apply inline_match; assumption.
  - unfold Parser.inline_codeblock_repl. rewrite (inline_group pre E suf).
    cbn [bind]. rewrite (escape_symbols_spec E). reflexivity.
Qed.

Lemma escape_inert_N (l : list N) : forallb inert l = true -> escape l = l.
Proof.
  intros Hl. apply escape_avoid.
  exact (avoid_all [ch "&"; ch "<"; ch ">"; ch "'"; dquote] marks l eq_refl Hl).
Qed.

Lemma inert_code_marks (l : list N) :
  forallb inert l = true -> forallb (avoid code_marks) l = true.
Proof. intros Hl. exact (avoid_all code_marks marks l eq_refl Hl). Qed.

Lemma codeblock_nowhere (buf : list N) :
  nowhere (codes "```") buf -> Parser.codeblock buf = Some buf.
Proof. intros Hn. apply (sub_nowhere (codes "```")); [reflexivity|exact Hn]. Qed.

(** X11: inline code is shown literally.  For every non-empty [body]
    without a backtick, between texts [pre] and [suf] that have none of
    the characters the engine looks for, the pipeline renders
    pre `body` suf as the inline-code span around the HTML-escaped
    body: no later pass changes what the span shows, whatever
    delimiters, links or emoji tokens the body contains. *)
Theorem inline_code_is_literal (pre body suf : list N) :
  forallb inert pre = true -> forallb inert suf = true ->
  body <> [] -> forallb (avoid [ch "`"]) body = true ->
  Parser.markdown (pre ++ codes "`" ++ body ++ codes "`" ++ suf)
  = Some (pre ++ span_inline ++ escape body ++ codes "</span>" ++ suf).
Proof.
  intros Hp Hs Hn Hb.
  assert (HE : forallb (avoid [ch "`"]) (escape body) = true)
    by (apply escape_forall; [reflexivity|reflexivity|exact Hb]).
  assert (Esc : escape (pre ++ codes "`" ++ body ++ codes "`" ++ suf)
                = pair_text [ch "`"] pre (escape body) suf).
  { rewrite !escape_app, (escape_inert_N _ Hp), (escape_inert_N _ Hs). reflexivity. }
  unfold Parser.markdown. rewrite Esc.
  rewrite codeblock_nowhere
    by (apply (nowhere_double (ch "`") [ch "`"]), pairs_single;
        [marks_solve|exact HE|marks_solve|apply escape_nonempty, Hn]).
  cbn [bind].
  rewrite inline_pass; [|marks_solve|marks_solve|apply escape_nonempty, Hn|exact HE|marks_solve].
  cbn [bind].
  replace (pre ++ (span_inline ++ flat_map protect (escape body) ++ codes "</span>") ++ suf)
    with ((pre ++ span_inline) ++ flat_map protect (escape body)
            ++ ch "<" :: (codes "/span>" ++ suf))
    by (rewrite <- !app_assoc; reflexivity).
  rewrite code_survives.
  - rewrite <- !app_assoc. reflexivity.
  - rewrite forallb_app. apply andb_true_intro. split;
      [apply inert_code_marks, Hp|reflexivity].
  - change (ch "<" :: codes "/span>" ++ suf) with (codes "</span>" ++ suf).
    rewrite forallb_app. apply andb_true_intro. split;
      [reflexivity|apply inert_code_marks, Hs].
Qed.

Lemma inline_code_is_literal_witness :
  Parser.markdown (codes "type `**x** <b> [a](http://b) \_` here")
  = Some (codes "type " ++ span_inline ++ codes "**x** &lt;b&gt; [a](http://b) \_"
            ++ codes "</span>" ++ codes " here").
Proof.
  exact (inline_code_is_literal (codes "type ") (codes "**x** <b> [a](http://b) \_")
           (codes " here") eq_refl eq_refl ltac:(discriminate) eq_refl).
Defined.

(** ** Code blocks *)

Lemma span_lt_last k : forall (l rest : list N),
  l <> [] -> cls_mem k (last l 0%N) = false -> span k (l ++ rest) < List.length l.
Proof.
  induction l as [|x l IH]; intros rest Hn Hl; [congruence|].
  cbn [app span List.length]. destruct (cls_mem k x) eqn:Kx; [|lia].
  destruct l as [|y l]; [cbn [last] in Hl; congruence|].
  assert (span k ((y :: l) ++ rest) < List.length (y :: l))
    by (apply IH; [discriminate|exact Hl]).
  lia.
Qed.

Lemma last_skipn {A} (l : list A) (x : A) : forall d,
  d < List.length l -> last (skipn d l) x = last l x.
Proof.
  induction l as [|y l IH]; intros d Hd; [cbn in Hd; lia|].
  destruct d as [|d]; [reflexivity|]. cbn [skipn List.length] in *.
  rewrite IH by lia. destruct l; [cbn in Hd; lia|reflexivity].
Qed.

Lemma cls_any x : cls_mem any x = true.
Proof. unfold any. cbn [cls_mem existsb item_mem]. destruct (is_space x); reflexivity. Qed.

Lemma all_newlines_span (nl rest : list N) :
  forallb (N.eqb newline) nl = true ->
  match rest with x :: _ => (x =? newline)%N = false | [] => True end ->
  span nl_cls (nl ++ rest) = List.length nl.
Proof.
  intros Hnl Hr. apply span_stop.
  - eapply forallb_weaken; [|exact Hnl]. intros x Hx. apply N.eqb_eq in Hx. subst.
    reflexivity.
  - destruct rest as [|x rest]; [exact I|]. unfold nl_cls.
    cbn [cls_mem existsb item_mem]. rewrite Hr. reflexivity.
Qed.

Lemma span_zero k (l : list N) :
  match l with x :: _ => cls_mem k x = false | [] => True end -> span k l = 0.
Proof. destruct l as [|x l]; [reflexivity|]. intros H. cbn [span]. rewrite H. reflexivity. Qed.

Lemma rep_ends_none g lo hi k s i :
  span k (skipn i s) < lo -> rep_ends g lo hi k s i = [].
Proof.
  intros H. unfold rep_ends.
  replace (match hi with Some h => Nat.min h (span k (skipn i s)) | None => span k (skipn i s) end <? lo)
    with true; [reflexivity|].
  symmetry. apply Nat.ltb_lt. destruct hi; lia.
Qed.

Lemma trimmed_facts (E : list N) :
  trimmed E = true ->
  E <> [] /\ cls_mem nl_cls (last E 0%N) = false
  /\ match E with x :: _ => (x =? newline)%N = false | [] => True end.
Proof.
  unfold trimmed. destruct E as [|x l]; [discriminate|]. intros E_trim.
  apply andb_true_iff in E_trim. destruct E_trim as [H1 H2].
  apply negb_true_iff in H1, H2.
  split; [discriminate|]. split; [|exact H1].
  unfold nl_cls. cbn [cls_mem existsb item_mem]. rewrite H2. reflexivity.
Qed.

(** From the start of the content to the closing fence. *)
Section BlockTail.
Variables (s E nl2 suf : list N) (q0 : nat) (c : caps).
Hypothesis at_q0 : skipn q0 s = E ++ nl2 ++ fence ++ suf.
Hypothesis E_trim : trimmed E = true.
Hypothesis E_bt : forallb (avoid [ch "`"]) E = true.
Hypothesis nl2_nl : forallb (N.eqb newline) nl2 = true.

Lemma block_at d : skipn (q0 + d) s = skipn d (E ++ nl2 ++ fence ++ suf).
Proof. rewrite <- skipn_plus, at_q0. reflexivity. Qed.

Lemma block_tail :
  hd_error (mtk (Grp 3 (Rep false 1 None any) ;;; Rep true 0 None nl_cls
                 ;;; Grp 4 (Str fence)) s q0 c (fun jc => [jc]))
  = Some (q0 + List.length E + List.length nl2 + 3,
          (4, (q0 + List.length E + List.length nl2,
               q0 + List.length E + List.length nl2 + 3))
            :: (3, (q0, q0 + List.length E)) :: c).
Proof.
  destruct (trimmed_facts E E_trim) as (Hne & Hlast & _).
  assert (Hn : 1 <= List.length E) by (destruct E; [congruence|cbn [List.length]; lia]).
  rewrite mtk_seq, mtk_grp.
  apply (mtk_lazy 1 any s q0 c _ _ (List.length E)).
  - exact Hn.
  - rewrite at_q0. apply span_all. apply forallb_forall. intros x _. apply cls_any.
  - intros d Hd1 Hd2. cbv beta. cbn [fst snd]. rewrite mtk_seq, mtk_rep.
    apply flat_map_nil. intros j Hj. cbv beta. cbn [fst snd].
    apply in_rep_ends in Hj. destruct Hj as [Hj1 Hj2].
    rewrite block_at in Hj2. rewrite skipn_in in Hj2 by lia.
    assert (Hsp : span nl_cls (skipn d E ++ nl2 ++ fence ++ suf) < List.length (skipn d E)).
    { apply span_lt_last.
      - intros E0. apply (f_equal (@List.length _)) in E0.
        rewrite length_skipn in E0. cbn in E0. lia.
      - rewrite last_skipn by lia. exact Hlast. }
    rewrite length_skipn in Hsp.
    rewrite mtk_grp, mtk_str.
    replace j with (q0 + (j - q0)) by lia. rewrite block_at.
    unfold fence at 1. change (codes "```") with (ch "`" :: codes "``").
    rewrite starts_with_inside by (assumption || lia). reflexivity.
  - cbv beta. cbn [fst snd]. rewrite mtk_seq.
    apply (mtk_greedy 0 None nl_cls s _ _ _ _ (List.length nl2)).
    + rewrite block_at, skipn_at0. symmetry. apply all_newlines_span; [exact nl2_nl|].
      reflexivity.
    + lia.
    + cbv beta. cbn [fst snd]. rewrite mtk_grp, mtk_str.
      rewrite <- Nat.add_assoc, block_at, skipn_at, skipn_at0, starts_with_app.
      cbn [fst snd hd_error]. change (List.length fence) with 3.
      f_equal; try (f_equal; lia).
Qed.

End BlockTail.

Section BlockRest.
Variables (s nlx E nl2 suf : list N) (q : nat) (c : caps).
Hypothesis at_q : skipn q s = nlx ++ E ++ nl2 ++ fence ++ suf.
Hypothesis nlx_nl : forallb (N.eqb newline) nlx = true.
Hypothesis E_trim : trimmed E = true.
Hypothesis E_bt : forallb (avoid [ch "`"]) E = true.
Hypothesis nl2_nl : forallb (N.eqb newline) nl2 = true.

(** From behind the optional language tag to the closing fence. *)
Lemma block_rest :
  hd_error (mtk (Rep true 0 None nl_cls ;;; Grp 3 (Rep false 1 None any)
                 ;;; Rep true 0 None nl_cls ;;; Grp 4 (Str fence)) s q c (fun jc => [jc]))
  = Some (q + List.length nlx + List.length E + List.length nl2 + 3,
          (4, (q + List.length nlx + List.length E + List.length nl2,
               q + List.length nlx + List.length E + List.length nl2 + 3))
            :: (3, (q + List.length nlx, q + List.length nlx + List.length E)) :: c).
Proof.
  rewrite mtk_seq.
  apply (mtk_greedy 0 None nl_cls s _ _ _ _ (List.length nlx)).
  - rewrite at_q. symmetry. apply all_newlines_span; [exact nlx_nl|].
    destruct (trimmed_facts E E_trim) as (Hne & _ & H). destruct E; [congruence|exact H].
  - lia.
  - cbv beta. cbn [fst snd].
    apply (block_tail s E nl2 suf (q + List.length nlx) c); try assumption.
    rewrite <- skipn_plus, at_q. apply skipn_at0.
Qed.

End BlockRest.

Lemma lang_not_newline x : cls_mem lang_cls x = true -> (x =? newline)%N = false.
Proof.
  intros H. destruct (N.eqb_spec x newline) as [E|_]; [|reflexivity].
  subst. discriminate H.
Qed.

(** The language tag of the pattern does not start at a line break. *)
Lemma mtk_lang_none s i c K t :
  skipn i s = newline :: t ->
  mtk (Grp 2 (Rep false 1 None lang_cls) ;;; Rep true 1 None nl_cls) s i c K = [].
Proof.
  intros Hs. rewrite mtk_seq, mtk_grp, mtk_rep, rep_ends_none; [reflexivity|].
  rewrite Hs. cbn [span]. replace (cls_mem lang_cls newline) with false by reflexivity.
  lia.
Qed.

Section BlockMatch.
Variables pre lang nl1 E nl2 suf : list N.
Hypothesis lang_ok : forallb (cls_mem lang_cls) lang = true.
Hypothesis nl1_ne : nl1 <> [].
Hypothesis nl1_nl : forallb (N.eqb newline) nl1 = true.
Hypothesis E_trim : trimmed E = true.
Hypothesis E_bt : forallb (avoid [ch "`"]) E = true.
Hypothesis nl2_nl : forallb (N.eqb newline) nl2 = true.

Local Abbreviation s := (block_text pre lang nl1 E nl2 suf).
Local Abbreviation p := (List.length pre).

Lemma block_at_lang : skipn (p + 3) s = lang ++ nl1 ++ E ++ nl2 ++ fence ++ suf.
Proof. unfold block_text. rewrite skipn_at. reflexivity. Qed.

Lemma block_at_nl1 :
  skipn (p + 3 + List.length lang) s = nl1 ++ E ++ nl2 ++ fence ++ suf.
Proof. rewrite <- skipn_plus, block_at_lang. apply skipn_at0. Qed.

Lemma block_at_body :
  skipn (p + 3 + List.length lang + List.length nl1) s = E ++ nl2 ++ fence ++ suf.
Proof. rewrite <- skipn_plus, block_at_nl1. apply skipn_at0. Qed.

Lemma nl1_head : exists t, nl1 = newline :: t.
Proof.
  destruct nl1 as [|x t]; [congruence|]. cbn [forallb] in nl1_nl.
  apply andb_true_iff in nl1_nl. destruct nl1_nl as [H _].
  apply N.eqb_eq in H. subst. exists t. reflexivity.
Qed.

Lemma block_match_plain :
  lang = [] ->
  match_at Parser.codeblock_pattern s p
  = Some (block_end pre lang nl1 E nl2, block_caps pre lang nl1 E nl2).
Proof.
  intros El. unfold Parser.codeblock_pattern.
  change (Pos [Rng (ch "a") (ch "z"); Rng (ch "A") (ch "Z"); Rng (ch "0") (ch "9");
               One (ch "-")]) with lang_cls.
  change (codes "```") with fence.
  rewrite match_at_mtk, mtk_seq, mtk_grp, mtk_str.
  unfold block_text at 1. rewrite skipn_at0, starts_with_app.
  cbv beta. cbn [fst snd]. change (List.length fence) with 3.
  rewrite mtk_seq, mtk_opt.
  destruct nl1_head as [t1 Et1].
  rewrite (mtk_lang_none s (p + 3) _ _ (t1 ++ E ++ nl2 ++ fence ++ suf)).
  - cbn [app]. cbv beta. cbn [fst snd].
    rewrite (block_rest s nl1 E nl2 suf (p + 3)); try assumption.
    + unfold block_end, block_caps. rewrite El. cbn [List.length].
      f_equal. f_equal; [lia|]. f_equal; [|f_equal]; f_equal; f_equal; lia.
    + rewrite block_at_lang, El. reflexivity.
  - rewrite block_at_lang, El, Et1. reflexivity.
Qed.

Lemma block_match_lang :
  lang <> [] ->
  match_at Parser.codeblock_pattern s p
  = Some (block_end pre lang nl1 E nl2, block_caps pre lang nl1 E nl2).
Proof.
  intros Hl. unfold Parser.codeblock_pattern.
  change (Pos [Rng (ch "a") (ch "z"); Rng (ch "A") (ch "Z"); Rng (ch "0") (ch "9");
               One (ch "-")]) with lang_cls.
  change (codes "```") with fence.
  rewrite match_at_mtk, mtk_seq, mtk_grp, mtk_str.
  unfold block_text at 1. rewrite skipn_at0, starts_with_app.
  cbv beta. cbn [fst snd]. change (List.length fence) with 3.
  rewrite mtk_seq, mtk_opt, hd_error_app.
  destruct nl1_head as [t1 Et1].
  assert (HL : 1 <= List.length lang) by (destruct lang; [congruence|cbn [List.length]; lia]).
  assert (Hx : hd_error
                 (mtk (Grp 2 (Rep false 1 None lang_cls) ;;; Rep true 1 None nl_cls) s
                    (p + 3) [(1, (p, p + 3))]
                    (fun jc => mtk (Rep true 0 None nl_cls ;;; Grp 3 (Rep false 1 None any)
                                    ;;; Rep true 0 None nl_cls ;;; Grp 4 (Str fence))
                                 s (fst jc) (snd jc) (fun jc0 => [jc0])))
               = Some (block_end pre lang nl1 E nl2, block_caps pre lang nl1 E nl2)).
  { rewrite mtk_seq, mtk_grp.
    apply (mtk_lazy 1 lang_cls s _ _ _ _ (List.length lang)).
    - exact HL.
    - rewrite block_at_lang. apply span_all, lang_ok.
    - intros d Hd1 Hd2. cbv beta. cbn [fst snd].
      rewrite mtk_rep, rep_ends_none; [reflexivity|].
      rewrite <- skipn_plus, block_at_lang, skipn_in by lia.
      destruct (skipn d lang) as [|y t] eqn:Ed.
      + apply (f_equal (@List.length _)) in Ed. rewrite length_skipn in Ed.
        cbn in Ed. lia.
      + assert (Iy : In y lang).
        { rewrite <- (firstn_skipn d lang), Ed. apply in_or_app. right. left.
          reflexivity. }
        pose proof (proj1 (forallb_forall _ _) lang_ok y Iy) as Cy.
        cbn [app span]. unfold nl_cls at 1. cbn [cls_mem existsb item_mem].
        rewrite (lang_not_newline _ Cy). cbn [orb]. lia.
    - cbv beta. cbn [fst snd].
      apply (mtk_greedy 1 None nl_cls s _ _ _ _ (List.length nl1)).
      + rewrite block_at_nl1. symmetry. apply all_newlines_span; [exact nl1_nl|].
        destruct (trimmed_facts E E_trim) as (Hne & _ & H).
        destruct E; [congruence|exact H].
      + rewrite Et1. cbn [List.length]. lia.
      + cbv beta. cbn [fst snd].
        rewrite (block_rest s [] E nl2 suf
                   (p + 3 + List.length lang + List.length nl1)); try assumption.
        * unfold block_end, block_caps. cbn [List.length].
          destruct lang; [congruence|].
          f_equal. f_equal; [lia|]. f_equal; [|f_equal]; f_equal; f_equal; lia.
        * rewrite block_at_body. reflexivity.
        * reflexivity. }
  rewrite Hx. reflexivity.
Qed.

Lemma block_match :
  match_at Parser.codeblock_pattern s p
  = Some (block_end pre lang nl1 E nl2, block_caps pre lang nl1 E nl2).
Proof.
  destruct (list_eq_dec N.eq_dec lang []) as [El|El];
    [apply block_match_plain, El|apply block_match_lang, El].
Qed.

Lemma block_dead i :
  starts_with fence (skipn i s) = false -> match_at Parser.codeblock_pattern s i = None.
Proof.
  intros Hs. unfold Parser.codeblock_pattern. change (codes "```") with fence.
  rewrite match_at_mtk, mtk_seq, mtk_grp, mtk_str, Hs. reflexivity.
Qed.

End BlockMatch.

Lemma last_app_ne {A} (a b : list A) d : b <> [] -> last (a ++ b) d = last b d.
Proof.
  intros Hb. induction a as [|x a IH]; [reflexivity|].
  cbn [app]. rewrite <- IH. destruct (a ++ b) eqn:E; [|reflexivity].
  destruct a; [cbn in E; congruence|discriminate].
Qed.

Lemma escape_char_edges (x : N) :
  (x =? newline)%N = false ->
  exists y t, escape_char x = y :: t /\ (y =? newline)%N = false
              /\ (last (escape_char x) 0%N =? newline)%N = false.
Proof.
  intros Hx. unfold escape_char. cbn [code Glyph_N].
  repeat match goal with
         | |- context [if ?b then _ else _] => destruct b
         end;
    try (eexists; eexists; split; [reflexivity|split; reflexivity]).
  exists x, []. split; [reflexivity|]. split; exact Hx.
Qed.

Lemma trimmed_escape (l : list N) : trimmed l = true -> trimmed (escape l) = true.
Proof.
  intros Ht. unfold trimmed in Ht. destruct l as [|x t]; [discriminate|].
  apply andb_true_iff in Ht. destruct Ht as [H1 H2].
  apply negb_true_iff in H1, H2.
  assert (Hl : exists l' y, x :: t = l' ++ [y])
    by (destruct (exists_last (l := x :: t) ltac:(discriminate)) as (l' & y & E);
        exists l', y; exact E).
  destruct Hl as (l' & y & El).
  assert (Hy : (y =? newline)%N = false) by (rewrite El, last_last in H2; exact H2).
  destruct (escape_char_edges x H1) as (x0 & t0 & Ex & Hx0 & _).
  destruct (escape_char_edges y Hy) as (y0 & t1 & Ey & _ & Hy1).
  unfold trimmed.
  assert (E1 : escape (x :: t) = x0 :: t0 ++ escape t)
    by (cbn [escape flat_map]; rewrite Ex; reflexivity).
  rewrite E1. rewrite Hx0. cbn [negb andb]. rewrite <- E1, El.
  rewrite escape_app. cbn [escape flat_map]. rewrite app_nil_r.
  rewrite last_app_ne by (rewrite Ey; discriminate).
  rewrite Hy1. reflexivity.
Qed.

Lemma lang_avoid ks (l : list N) :
  forallb (fun k => negb (cls_mem lang_cls k)) ks = true ->
  forallb (cls_mem lang_cls) l = true -> forallb (avoid ks) l = true.
Proof.
  intros Hk. apply forallb_weaken. intros x Hx. unfold avoid.
  apply negb_true_iff. destruct (existsb (N.eqb x) ks) eqn:E; [|reflexivity].
  apply existsb_exists in E. destruct E as (k & Ik & E). apply N.eqb_eq in E. subst k.
  pose proof (proj1 (forallb_forall _ _) Hk x Ik) as H. cbv beta in H.
  rewrite Hx in H. discriminate.
Qed.

Lemma newlines_avoid ks (l : list N) :
  avoid ks newline = true -> forallb (N.eqb newline) l = true -> forallb (avoid ks) l = true.
Proof.
  intros Hk. apply forallb_weaken. intros x Hx. apply N.eqb_eq in Hx. subst. exact Hk.
Qed.

Lemma block_group3 (pre lang nl1 E nl2 suf : list N) i j :
  group (mkMatch (block_text pre lang nl1 E nl2 suf) i j (block_caps pre lang nl1 E nl2)) 3
  = Some E.
Proof.
  unfold group, block_caps. cbn [m_caps m_string get Nat.eqb]. f_equal.
  unfold block_text.
  replace (pre ++ fence ++ lang ++ nl1 ++ E ++ nl2 ++ fence ++ suf)
    with ((pre ++ fence ++ lang ++ nl1) ++ E ++ (nl2 ++ fence ++ suf))
    by (rewrite <- !app_assoc; reflexivity).
  replace (List.length pre + 3 + List.length lang + List.length nl1)
    with (List.length (pre ++ fence ++ lang ++ nl1))
    by (rewrite !length_app; change (List.length fence) with 3; lia).
  apply slice_middle.
Qed.

Lemma block_repl (pre lang nl1 E nl2 suf : list N) i j :
  Parser.codeblock_repl
    (mkMatch (block_text pre lang nl1 E nl2 suf) i j (block_caps pre lang nl1 E nl2))
  = Some (code_div lang ++ flat_map protect E ++ codes "</div>").
Proof.
  unfold Parser.codeblock_repl. rewrite block_group3. cbn [bind].
  rewrite (escape_symbols_spec E). cbn [bind].
  destruct lang as [|l0 lang'].
  - reflexivity.
  - assert (G2 : group (mkMatch (block_text pre (l0 :: lang') nl1 E nl2 suf) i j
                          (block_caps pre (l0 :: lang') nl1 E nl2)) 2
                 = Some (l0 :: lang')).
    { unfold group, block_caps. cbn [m_caps m_string get Nat.eqb]. f_equal.
      unfold block_text.
      replace (pre ++ fence ++ (l0 :: lang') ++ nl1 ++ E ++ nl2 ++ fence ++ suf)
        with ((pre ++ fence) ++ (l0 :: lang') ++ (nl1 ++ E ++ nl2 ++ fence ++ suf))
        by (rewrite <- !app_assoc; reflexivity).
      replace (List.length pre + 3) with (List.length (pre ++ fence))
        by (rewrite !length_app; reflexivity).
      apply slice_middle. }
    rewrite G2. unfold code_div, div_language. rewrite <- !app_assoc. reflexivity.
Qed.

(** The code-block pass on one block. *)
Lemma block_pass (pre lang nl1 E nl2 suf : list N) :
  forallb (avoid [ch "`"]) pre = true -> forallb (avoid [ch "`"]) suf = true ->
  forallb (cls_mem lang_cls) lang = true ->
  nl1 <> [] -> forallb (N.eqb newline) nl1 = true ->
  forallb (N.eqb newline) nl2 = true ->
  trimmed E = true -> forallb (avoid [ch "`"]) E = true ->
  Parser.codeblock (block_text pre lang nl1 E nl2 suf)
  = Some (pre ++ (code_div lang ++ flat_map protect E ++ codes "</div>") ++ suf).
Proof.
  intros Hp Hs Hl Hn1 Hnl1 Hnl2 Ht Hb.
  assert (Es : block_text pre lang nl1 E nl2 suf
               = pre ++ (fence ++ lang ++ nl1 ++ E ++ nl2 ++ fence) ++ suf)
    by (unfold block_text; rewrite <- !app_assoc; reflexivity).
  assert (El : block_end pre lang nl1 E nl2
               = List.length pre + List.length (fence ++ lang ++ nl1 ++ E ++ nl2 ++ fence))
    by (unfold block_end; rewrite !length_app; change (List.length fence) with 3; lia).
  pose proof (block_match pre lang nl1 E nl2 suf Hl Hn1 Hnl1 Ht Hb Hnl2) as M.
  pose proof (block_repl pre lang nl1 E nl2 suf (List.length pre)
                (block_end pre lang nl1 E nl2)) as R.
  pose proof (block_dead pre lang nl1 E nl2 suf) as D.
  unfold Parser.codeblock. rewrite Es in *. rewrite El in *.
  apply (sub_one _ _ pre _ suf (block_caps pre lang nl1 E nl2)).
  - discriminate.
  - intros i Hi. apply D.
    unfold fence at 1. change (codes "```") with (ch "`" :: codes "``").
    apply starts_with_inside; assumption.
  - exact M.
  - intros k. apply D.
    rewrite <- Nat.add_assoc, skipn_at, skipn_at.
    unfold fence at 1. change (codes "```") with (ch "`" :: codes "``").
    apply starts_with_outside, Hs.
  - exact R.
Qed.

Lemma code_div_marks (lang : list N) :
  forallb (cls_mem lang_cls) lang = true -> forallb (avoid code_marks) (code_div lang) = true.
Proof.
  intros Hl. destruct lang as [|l0 lang']; [reflexivity|].
  unfold code_div, div_language. rewrite !forallb_app. split_and; try reflexivity.
  apply lang_avoid; [reflexivity|exact Hl].
Qed.

(** X12: a code block is shown literally.  A fence, an optional
    language tag, one or more line breaks, a body without a backtick
    that neither starts nor ends with a line break, any number of line
    breaks and the closing fence, between plain texts [pre] and [suf],
    render as one code-block element that holds the HTML-escaped body:
    with the class of the language when there is a tag, with the class
    nohighlight otherwise.  No later pass changes the body. *)
Theorem code_block_is_literal (pre lang nl1 body nl2 suf : list N) :
  forallb inert pre = true -> forallb inert suf = true ->
  forallb (cls_mem lang_cls) lang = true ->
  nl1 <> [] -> forallb (N.eqb newline) nl1 = true ->
  forallb (N.eqb newline) nl2 = true ->
  trimmed body = true -> forallb (avoid [ch "`"]) body = true ->
  Parser.markdown (pre ++ fence ++ lang ++ nl1 ++ body ++ nl2 ++ fence ++ suf)
  = Some (pre ++ code_div lang ++ escape body ++ codes "</div>" ++ suf).
Proof.
  intros Hp Hs Hl Hn1 Hnl1 Hnl2 Ht Hb.
  assert (HE : forallb (avoid [ch "`"]) (escape body) = true)
    by (apply escape_forall; [reflexivity|reflexivity|exact Hb]).
  assert (Esc : escape (pre ++ fence ++ lang ++ nl1 ++ body ++ nl2 ++ fence ++ suf)
                = block_text pre lang nl1 (escape body) nl2 suf).
  { rewrite !escape_app, (escape_inert_N _ Hp), (escape_inert_N _ Hs).
    rewrite (escape_avoid lang) by (apply lang_avoid; [reflexivity|exact Hl]).
    rewrite (escape_avoid nl1) by (apply newlines_avoid; [reflexivity|exact Hnl1]).
    rewrite (escape_avoid nl2) by (apply newlines_avoid; [reflexivity|exact Hnl2]).
    reflexivity. }
  unfold Parser.markdown. rewrite Esc.
  rewrite block_pass; try assumption;
    [|marks_solve|marks_solve|apply trimmed_escape, Ht].
  cbn [bind].
  replace (pre ++ (code_div lang ++ flat_map protect (escape body) ++ codes "</div>") ++ suf)
    with ((pre ++ code_div lang) ++ flat_map protect (escape body)
            ++ ch "<" :: (codes "/div>" ++ suf))
    by (rewrite <- !app_assoc; reflexivity).
  assert (Hf : forallb (avoid code_marks) (pre ++ code_div lang) = true).
  { rewrite forallb_app. apply andb_true_intro. split;
      [apply inert_code_marks, Hp|apply code_div_marks, Hl]. }
  assert (Hk : forallb (avoid code_marks) (ch "<" :: codes "/div>" ++ suf) = true).
  { change (ch "<" :: codes "/div>" ++ suf) with (codes "</div>" ++ suf).
    rewrite forallb_app. apply andb_true_intro. split;
      [reflexivity|apply inert_code_marks, Hs]. }
  rewrite (code_inline_dead _ _ _ Hf Hk HE). cbn [bind].
  rewrite (code_survives _ _ _ _ Hf Hk).
  rewrite <- !app_assoc. reflexivity.
Qed.

Lemma code_block_is_literal_witness :
  Parser.markdown
    (codes "see " ++ fence ++ codes "py" ++ [newline]
       ++ (codes "x = a*b*c" ++ [newline] ++ codes "print(x < 3, '_')")
       ++ [newline] ++ fence ++ codes " ok")
  = Some (codes "see " ++ div_language (codes "py")
            ++ (codes "x = a*b*c" ++ [newline] ++ codes "print(x &lt; 3, &#39;_&#39;)")
            ++ codes "</div>" ++ codes " ok").
Proof.
  exact (code_block_is_literal (codes "see ") (codes "py") [newline]
           (codes "x = a*b*c" ++ [newline] ++ codes "print(x < 3, '_')")
           [newline] (codes " ok")
           eq_refl eq_refl eq_refl ltac:(discriminate) eq_refl eq_refl eq_refl eq_refl).
Defined.

(** ** The text of an archived message *)

Lemma contains_nowhere w : forall l, contains w l = false -> nowhere w l.
Proof.
  induction l as [|x l IH]; cbn [contains]; intros E i.
  - apply orb_false_iff in E. destruct i; apply E.
  - apply orb_false_iff in E. destruct E as [E0 E1]. destruct i as [|i]; [exact E0|].
    apply (IH E1).
Qed.

Lemma finditer_nowhere w r (buf : list N) :
  needs_word w r = true -> nowhere w buf -> finditer r buf = [].
Proof.
  intros Hn Hb. unfold finditer. apply scan_loop_no_match. intros i.
  cbn [code Glyph_N]. rewrite map_id.
  unfold match_at. rewrite (needs_word_dead _ _ _ Hn Hb). reflexivity.
Qed.

Lemma subn_nowhere w r (repl : Match N -> option (list N)) (buf : list N) :
  needs_word w r = true -> nowhere w buf -> subn r repl buf = Some (buf, 0).
Proof.
  intros Hn Hb. unfold subn. rewrite (sub_nowhere w _ _ _ Hn Hb). cbn [bind].
  rewrite (finditer_nowhere w _ _ Hn Hb). reflexivity.
Qed.

(** The bulk-delete copy leaves alone every text without one of its own
    delimiters, whatever else the text holds. *)
Lemma bulk_markdown_unmarked (t : list N) :
  forallb (avoid bulk_marks) t = true -> contains quote_marker t = false ->
  BulkDelete.markdown t = Some t.
Proof.
  intros Ht Hq.
  assert (A : forall ks, forallb (fun k => existsb (N.eqb k) bulk_marks) ks = true ->
                         forallb (avoid ks) t = true).
  { intros ks Hk. exact (avoid_all ks bulk_marks t Hk Ht). }
  unfold BulkDelete.markdown.
  unfold BulkDelete.codeblock.
  rewrite (subn_avoid [ch "`"]) by (first [reflexivity | apply A; reflexivity]).
  cbn [bind fst snd].
  unfold BulkDelete.inline_codeblock.
  rewrite (subn_avoid [ch "`"]) by (first [reflexivity | apply A; reflexivity]).
  cbn [bind fst snd].
  unfold BulkDelete.blockquote.
  rewrite (subn_nowhere quote_marker) by (first [reflexivity | apply contains_nowhere, Hq]).
  cbn [bind fst snd].
  unfold BulkDelete.spoiler.
  rewrite (subn_avoid [ch "|"]) by (first [reflexivity | apply A; reflexivity]).
  cbn [bind fst snd].
  unfold BulkDelete.strikethrough.
  rewrite (subn_avoid [ch "~"]) by (first [reflexivity | apply A; reflexivity]).
  cbn [bind fst snd].
  unfold BulkDelete.bold.
  rewrite (subn_avoid [ch "*"]) by (first [reflexivity | apply A; reflexivity]).
  cbn [bind fst snd].
  unfold BulkDelete.underline.
  rewrite (subn_avoid [ch "_"]) by (first [reflexivity | apply A; reflexivity]).
  cbn [bind fst snd].
  unfold BulkDelete.italics.
  rewrite (subn_avoid [ch "*"]) by (first [reflexivity | apply A; reflexivity]).
  cbn [bind fst snd].
  rewrite (subn_avoid [ch "_"]) by (first [reflexivity | apply A; reflexivity]).
  cbn [bind fst snd].
  unfold BulkDelete.remove_escaped_symbol.
  apply (sub_avoid [backslash]); [reflexivity|apply A; reflexivity].
Qed.

(** X13: the text an archive shows for a message is the stored text
    itself, character for character, whenever the stored text holds
    none of ` ~ | * _ \ and nowhere a '>' followed by a blank: the
    characters <, > and & of the message come out as they were typed,
    since this copy of the engine has no HTML escape. *)
Theorem archived_text_is_not_escaped (m : CompositeMessage.t) :
  forallb (avoid bulk_marks) (CompositeMessage.raw_content m) = true ->
  contains quote_marker (CompositeMessage.raw_content m) = false ->
  CompositeMessage.content m = Some (CompositeMessage.raw_content m).
Proof.
  unfold CompositeMessage.content, CompositeMessage.raw_content.
  destruct (CompositeMessage.mem_msg m) as [mm|], (CompositeMessage.db_msg m) as [d|];
    intros Ht Hq; try (apply bulk_markdown_unmarked; assumption).
  reflexivity.
Qed.

Lemma archived_text_is_not_escaped_witness :
  CompositeMessage.content
    (in_memory 7 (sample_user 1 "ann") "<img src=x onerror=alert(1)>&amp;")
  = Some (codes "<img src=x onerror=alert(1)>&amp;").
Proof.
  apply (archived_text_is_not_escaped
           (in_memory 7 (sample_user 1 "ann") "<img src=x onerror=alert(1)>&amp;"));
    reflexivity.
Defined.

(** ** Quoted lines *)

Lemma span_bound k (x : N) r : forall u,
  cls_mem k x = false -> span k (u ++ x :: r) <= List.length u.
Proof.
  induction u as [|y u IH]; intros Hx; cbn [span app List.length].
  - rewrite Hx. lia.
  - destruct (cls_mem k y); [specialize (IH Hx); lia|lia].
Qed.

Lemma last_newline_cases (pre : list N) :
  last pre newline = newline -> pre = [] \/ exists a, pre = a ++ [newline].
Proof.
  intros H. destruct pre as [|y t]; [left; reflexivity|right].
  destruct (@exists_last _ (y :: t)) as (a & x & E); [discriminate|].
  exists a. rewrite E in *. rewrite last_last in H. subst x. reflexivity.
Qed.

Lemma bol_after (pre rest : list N) :
  last pre newline = newline ->
  (List.length pre =? 0) || prev_is (N.eqb newline) (pre ++ rest) (List.length pre) = true.
Proof.
  intros H. destruct (last_newline_cases pre H) as [->|(a & ->)]; [reflexivity|].
  rewrite length_app. cbn [List.length]. rewrite Nat.add_1_r. cbn [Nat.eqb orb prev_is].
  rewrite <- app_assoc. rewrite nth_error_app2 by lia. rewrite Nat.sub_diag.
  cbn [app nth_error]. apply N.eqb_refl.
Qed.

Lemma mt_mtk r s i c : mt r s i c = mtk r s i c (fun jc => [jc]).
Proof. unfold mtk. symmetry. apply flat_map_single. Qed.

(** A marker form of the quote pattern is dead where no end of the run
    of blanks has the marker after it. *)
Lemma marker_dead w t s i c :
  (forall j, i <= j -> j <= i + span spc (skipn i s) ->
             starts_with w (skipn j s) = false) ->
  mt (Bol ;;; Rep true 0 None spc ;;; Str w ;;; t) s i c = [].
Proof.
  intros Hw. rewrite mt_mtk.
  rewrite mtk_seq, mtk_bol.
  destruct ((i =? 0) || prev_is (N.eqb newline) s i); [|reflexivity].
  cbv beta. cbn [fst snd]. rewrite mtk_seq. unfold mtk at 1.
  apply flat_map_nil. intros [j c'] Hin.
  apply in_mt_rep in Hin. destruct Hin as (_ & H1 & H2).
  cbv beta. cbn [fst snd]. rewrite mtk_seq, mtk_str, Hw by lia. reflexivity.
Qed.

Lemma quote_dead_in_pre x w3 w1 (pre tail : list N) i :
  forallb (avoid [x]) pre = true -> last pre newline = newline -> i < List.length pre ->
  match_at (quote_pattern (x :: w3) (x :: w1)) (pre ++ tail) i = None.
Proof.
  intros pre_x pre_bol Hi.
  assert (Hs : i + span spc (skipn i (pre ++ tail)) < List.length pre).
  { destruct (last_newline_cases pre pre_bol) as [E|(a & E)].
    - rewrite E in Hi. cbn [List.length] in Hi. lia.
    - rewrite E in Hi. rewrite length_app in Hi. cbn [List.length] in Hi.
      rewrite E, <- !app_assoc, skipn_in by lia. cbn [app].
      pose proof (span_bound spc newline tail (skipn i a) eq_refl) as Hb.
      rewrite length_skipn in Hb. rewrite length_app. cbn [List.length]. lia. }
  assert (Hd : forall w j, i <= j -> j <= i + span spc (skipn i (pre ++ tail)) ->
                           starts_with (x :: w) (skipn j (pre ++ tail)) = false).
  { intros w j H1 H2. apply starts_with_inside; [exact pre_x|lia]. }
  unfold quote_pattern.
  apply match_at_neither; unfold match_at; rewrite marker_dead; try reflexivity;
    apply Hd.
Qed.

Lemma quote_dead_past x w3 w1 (s : list N) i :
  List.length s <= i -> match_at (quote_pattern (x :: w3) (x :: w1)) s i = None.
Proof.
  intros Hi.
  assert (Hd : forall w j, i <= j -> starts_with (x :: w) (skipn j s) = false).
  { intros w j Hj. rewrite skipn_all2 by lia. reflexivity. }
  unfold quote_pattern.
  apply match_at_neither; unfold match_at; rewrite marker_dead; try reflexivity;
    intros j H1 _; apply Hd; exact H1.
Qed.

Section QuoteMatch.
Variables (x : N) (w3 w1 : list N).
Variables pre sp body nls suf : list N.
Hypothesis x_ns : cls_mem spc x = false.
Hypothesis w_diff : forall rest, starts_with (x :: w3) ((x :: w1) ++ rest) = false.
Hypothesis pre_x : forallb (avoid [x]) pre = true.
Hypothesis pre_bol : last pre newline = newline.
Hypothesis sp_ok : forallb (cls_mem spc) sp = true.
Hypothesis body_nl : forallb (avoid [newline]) body = true.
Hypothesis nls_ok : forallb (N.eqb newline) nls = true.
Hypothesis suf_x : forallb (avoid [x]) suf = true.
Hypothesis suf_nl : starts_with [newline] suf = false.
Hypothesis line_end : nls = [] -> suf = [].

Local Abbreviation m1 := (x :: w1).
Local Abbreviation s := (pre ++ quote_line sp (x :: w1) body nls ++ suf).
Local Abbreviation p := (List.length pre).
Local Abbreviation e := (List.length pre + List.length (quote_line sp (x :: w1) body nls)).

Lemma quote_at_sp : skipn p s = sp ++ m1 ++ body ++ nls ++ suf.
Proof.
  rewrite skipn_at0. unfold quote_line. rewrite <- !app_assoc. reflexivity.
Qed.

Lemma quote_at_marker : skipn (p + List.length sp) s = m1 ++ body ++ nls ++ suf.
Proof. rewrite <- skipn_plus, quote_at_sp. apply skipn_at0. Qed.

Lemma quote_at_body :
  skipn (p + List.length sp + List.length m1) s = body ++ nls ++ suf.
Proof. rewrite <- skipn_plus, quote_at_marker. apply skipn_at0. Qed.

Lemma quote_at_nls :
  skipn (p + List.length sp + List.length m1 + List.length body) s = nls ++ suf.
Proof. rewrite <- skipn_plus, quote_at_body. apply skipn_at0. Qed.

Lemma quote_span_sp : span spc (skipn p s) = List.length sp.
Proof.
  rewrite quote_at_sp. apply span_stop; [exact sp_ok|]. cbn [app]. exact x_ns.
Qed.

Lemma quote_span_body :
  span dot (body ++ nls ++ suf) = List.length body.
Proof.
  apply span_stop; [apply avoid_dot, body_nl|].
  destruct nls as [|y t] eqn:E.
  - rewrite line_end by reflexivity. exact I.
  - cbn [app]. cbn [forallb] in nls_ok. apply andb_true_iff in nls_ok.
    destruct nls_ok as [Hy _]. apply N.eqb_eq in Hy. subst y. reflexivity.
Qed.

Lemma quote_span_nls : span nl_cls (nls ++ suf) = List.length nls.
Proof.
  apply all_newlines_span; [exact nls_ok|].
  destruct suf as [|y t]; [exact I|]. cbn [starts_with] in suf_nl.
  rewrite N.eqb_sym. destruct (newline =? y)%N; [discriminate|reflexivity].
Qed.

Lemma quote_triple_dead_at t c :
  mt (Bol ;;; Rep true 0 None spc ;;; Str (x :: w3) ;;; t) s p c = [].
Proof.
  apply marker_dead. intros j H1 H2. rewrite quote_span_sp in H2.
  destruct (Nat.eq_dec j (p + List.length sp)) as [->|Hj].
  - rewrite quote_at_marker. apply w_diff.
  - replace j with (p + (j - p)) by lia. rewrite <- skipn_plus, quote_at_sp.
    destruct (nth_error_inside [] sp (m1 ++ body ++ nls ++ suf) (j - p) ltac:(lia))
      as (y & Hy & Iy).
    cbn [app List.length Nat.add] in Hy.
    pose proof (proj1 (forallb_forall _ _) sp_ok y Iy) as Cy.
    destruct (skipn (j - p) (sp ++ m1 ++ body ++ nls ++ suf)) as [|z l] eqn:E.
    + reflexivity.
    + assert (z = y).
      { pose proof (nth_error_skipn (j - p) (sp ++ m1 ++ body ++ nls ++ suf) 0) as Hn.
        rewrite E, Nat.add_0_r in Hn. cbn [nth_error app] in Hn. congruence. }
      subst z. apply starts_with_miss. intros ->. congruence.
Qed.

Lemma quote_match :
  match_at (quote_pattern (x :: w3) m1) s p = Some (e, quote_caps pre sp m1 body nls).
Proof.
  unfold quote_pattern. rewrite match_at_mtk, mtk_alt.
  unfold mtk at 1. rewrite quote_triple_dead_at. cbn [flat_map app].
  rewrite mtk_seq, mtk_bol, (bol_after _ _ pre_bol).
  cbv beta. cbn [fst snd]. rewrite mtk_seq.
  apply (mtk_greedy 0 None spc s p [] _ _ (List.length sp));
    [symmetry; apply quote_span_sp|lia|].
  cbv beta. cbn [fst snd]. rewrite mtk_seq, mtk_str, quote_at_marker, starts_with_app.
  cbv beta. cbn [fst snd]. rewrite mtk_grp, mtk_seq.
  apply (mtk_greedy 0 None dot s _ [] _ _ (List.length body));
    [rewrite quote_at_body; symmetry; apply quote_span_body|lia|].
  cbv beta. cbn [fst snd].
  apply (mtk_greedy 0 None nl_cls s _ [] _ _ (List.length nls));
    [rewrite quote_at_nls; symmetry; apply quote_span_nls|lia|].
  cbv beta. cbn [fst snd hd_error]. unfold quote_caps, quote_line.
  rewrite !length_app. f_equal. f_equal; [lia|]. f_equal. f_equal. f_equal. lia.
Qed.

Lemma quote_dead_before i :
  i < p -> match_at (quote_pattern (x :: w3) m1) s i = None.
Proof. intros Hi. apply quote_dead_in_pre; assumption. Qed.

Lemma quote_dead_after k :
  match_at (quote_pattern (x :: w3) m1) s (e + k) = None.
Proof.
  assert (Hd : forall w j, e + k <= j -> starts_with (x :: w) (skipn j s) = false).
  { intros w j H1.
    replace j with (p + (List.length (quote_line sp m1 body nls) + (j - e))) by lia.
    rewrite !skipn_at. apply starts_with_outside, suf_x. }
  unfold quote_pattern.
  apply match_at_neither; unfold match_at; rewrite marker_dead; try reflexivity;
    intros j H1 _; apply Hd; exact H1.
Qed.

Lemma quote_group2 :
  group (mkMatch s p e (quote_caps pre sp m1 body nls)) 2 = Some (body ++ nls).
Proof.
  clear pre_bol. unfold group, quote_caps. cbn [m_caps m_string get Nat.eqb]. f_equal.
  unfold quote_line.
  replace (pre ++ (sp ++ m1 ++ body ++ nls) ++ suf)
    with ((pre ++ sp ++ m1) ++ (body ++ nls) ++ suf)
    by (rewrite <- !app_assoc; reflexivity).
  replace (p + List.length sp + List.length m1) with (List.length (pre ++ sp ++ m1))
    by (rewrite !length_app; lia).
  replace (p + List.length (sp ++ m1 ++ body ++ nls))
    with (List.length (pre ++ sp ++ m1) + List.length (body ++ nls))
    by (rewrite !length_app; lia).
  apply slice_middle.
Qed.

Lemma quote_content :
  filter (fun y => negb (y =? newline)%N) (body ++ nls) = body.
Proof.
  rewrite filter_app.
  assert (Hb : filter (fun y => negb (y =? newline)%N) body = body).
  { apply forallb_filter_id. eapply forallb_weaken; [|exact body_nl].
    intros y Hy. unfold avoid in Hy. cbn [existsb] in Hy. rewrite orb_false_r in Hy.
    exact Hy. }
  assert (Hn : filter (fun y => negb (y =? newline)%N) nls = []).
  { clear - nls_ok. induction nls as [|y t IH]; [reflexivity|].
    cbn [forallb] in nls_ok. apply andb_true_iff in nls_ok. destruct nls_ok as [Hy Ht].
    cbn [filter]. rewrite N.eqb_sym, Hy. cbn [negb]. apply IH, Ht. }
  rewrite Hb, Hn. apply app_nil_r.
Qed.

Lemma quote_sub (repl : Match N -> option (list N)) out :
  repl (mkMatch s p e (quote_caps pre sp m1 body nls)) = Some out ->
  sub (quote_pattern (x :: w3) m1) repl s = Some (pre ++ out ++ suf).
Proof.
  intros Hr. apply (sub_one _ _ _ _ _ (quote_caps pre sp m1 body nls)).
  - unfold quote_line. destruct sp; discriminate.
  - apply quote_dead_before.
  - apply quote_match.
  - apply quote_dead_after.
  - exact Hr.
Qed.

End QuoteMatch.

Lemma blanks_inert (l : list N) :
  forallb (N.eqb (ch " ")) l = true -> forallb inert l = true.
Proof.
  apply forallb_weaken. intros y Hy. apply N.eqb_eq in Hy. subst y. reflexivity.
Qed.

Lemma blanks_spc (l : list N) :
  forallb (N.eqb (ch " ")) l = true -> forallb (cls_mem spc) l = true.
Proof.
  apply forallb_weaken. intros y Hy. apply N.eqb_eq in Hy. subst y. reflexivity.
Qed.

Lemma newlines_inert (l : list N) :
  forallb (N.eqb newline) l = true -> forallb inert l = true.
Proof.
  apply forallb_weaken. intros y Hy. apply N.eqb_eq in Hy. subst y. reflexivity.
Qed.

Section QuotedLine.
Variables pre sp body nls suf : list N.
Hypothesis pre_inert : forallb inert pre = true.
Hypothesis pre_bol : last pre newline = newline.
Hypothesis sp_ok : forallb (N.eqb (ch " ")) sp = true.
Hypothesis body_inert : forallb inert body = true.
Hypothesis body_nl : forallb (avoid [newline]) body = true.
Hypothesis nls_ok : forallb (N.eqb newline) nls = true.
Hypothesis suf_inert : forallb inert suf = true.
Hypothesis suf_nl : starts_with [newline] suf = false.
Hypothesis line_end : nls = [] -> suf = [].

Lemma parser_quote_pass :
  Parser.blockquote (pre ++ quote_line sp (codes "&gt; ") body nls ++ suf)
  = Some (pre ++ quote_div body ++ suf).
Proof.
  unfold Parser.blockquote.
  change Parser.blockQuote_pattern
    with (quote_pattern (ch "&" :: codes "gt;&gt;&gt; ") (ch "&" :: codes "gt; ")).
  change (codes "&gt; ") with (ch "&" :: codes "gt; ").
  apply (quote_sub (ch "&") (codes "gt;&gt;&gt; ") (codes "gt; ") pre sp body nls suf);
    try assumption; try reflexivity; try avoid_solve.
  - apply blanks_spc, sp_ok.
  - unfold Parser.blockquote_repl.
    rewrite (quote_group2 (ch "&") (codes "gt; ") pre sp body nls suf).
    unfold group, quote_caps. cbn [m_caps get Nat.eqb code Glyph_N].
    rewrite (quote_content body nls body_nl nls_ok). reflexivity.
Qed.

Lemma bulk_quote_pass :
  sub BulkDelete.blockQuote_pattern BulkDelete.blockquote_repl
      (pre ++ quote_line sp (codes "> ") body nls ++ suf)
  = Some (pre ++ quote_div body ++ suf).
Proof.
  change BulkDelete.blockQuote_pattern
    with (quote_pattern (ch ">" :: codes ">> ") (ch ">" :: codes " ")).
  change (codes "> ") with (ch ">" :: codes " ").
  apply (quote_sub (ch ">") (codes ">> ") (codes " ") pre sp body nls suf);
    try assumption; try reflexivity; try avoid_solve.
  - apply blanks_spc, sp_ok.
  - unfold BulkDelete.blockquote_repl.
    rewrite (quote_group2 (ch ">") (codes " ") pre sp body nls suf).
    unfold group, quote_caps. cbn [m_caps get Nat.eqb code Glyph_N].
    rewrite (quote_content body nls body_nl nls_ok). reflexivity.
Qed.

End QuotedLine.

Ltac quote_avoid := unfold quote_line, quote_div; avoid_solve.

Ltac dead_q ks :=
  rewrite (sub_avoid ks) by (first [reflexivity | quote_avoid]); cbn [bind].

Ltac dead_qn ks :=
  rewrite (subn_avoid ks) by (first [reflexivity | quote_avoid]); cbn [bind fst snd].

(** X14: a quoted line: at the start of the text or of a line, after
    any indentation by blanks, a '>' and a blank followed by the rest of
    the line.  When the text around it and the line itself hold none of
    the characters the engine looks for, both copies of the engine
    render the line as one quote block holding the text of the line: the
    indentation, the marker and every line break that ends the line are
    dropped, and the text before and after stays as it is. *)
Theorem quoted_line_renders (pre sp body nls suf : list N) :
  forallb inert pre = true -> last pre newline = newline ->
  forallb (N.eqb (ch " ")) sp = true ->
  forallb inert body = true -> forallb (avoid [newline]) body = true ->
  forallb (N.eqb newline) nls = true ->
  forallb inert suf = true -> starts_with [newline] suf = false ->
  (nls = [] -> suf = []) ->
  Parser.markdown (pre ++ sp ++ codes "> " ++ body ++ nls ++ suf)
  = Some (pre ++ quote_div body ++ suf)
  /\ BulkDelete.markdown (pre ++ sp ++ codes "> " ++ body ++ nls ++ suf)
     = Some (pre ++ quote_div body ++ suf).
Proof.
  intros pre_inert pre_bol sp_ok body_inert body_nl nls_ok suf_inert suf_nl line_end.
  pose proof (blanks_inert _ sp_ok) as sp_inert.
  pose proof (newlines_inert _ nls_ok) as nls_inert.
  split.
  - unfold Parser.markdown.
    assert (He : escape (pre ++ sp ++ codes "> " ++ body ++ nls ++ suf)
                 = pre ++ quote_line sp (codes "&gt; ") body nls ++ suf).
    { rewrite !escape_app.
      rewrite (escape_inert_N pre), (escape_inert_N sp), (escape_inert_N body),
        (escape_inert_N nls), (escape_inert_N suf) by assumption.
      unfold quote_line. rewrite <- !app_assoc. reflexivity. }
    rewrite He.
    unfold Parser.codeblock. dead_q [ch "`"].
    unfold Parser.inline_codeblock. dead_q [ch "`"].
    assert (Nlt : nowhere (codes "&l") (pre ++ quote_line sp (codes "&gt; ") body nls ++ suf)).
    { unfold quote_line.
      replace (pre ++ (sp ++ codes "&gt; " ++ body ++ nls) ++ suf)
        with ((pre ++ sp) ++ ch "&" :: (codes "gt; " ++ body ++ nls ++ suf))
        by (rewrite <- !app_assoc; reflexivity).
      apply nowhere_app; [avoid_solve|].
      apply nowhere_cons; [reflexivity|]. apply nowhere_avoid. avoid_solve. }
    unfold Parser.remove_suppressed_embed_arrows.
    rewrite (sub_nowhere (codes "&l")) by (first [reflexivity | exact Nlt]). cbn [bind].
    rewrite parser_quote_pass by assumption. cbn [bind].
    unfold Parser.spoiler. dead_q [ch "|"].
    unfold Parser.strikethrough. dead_q [ch "~"].
    unfold Parser.bold. dead_q [ch "*"].
    unfold Parser.underline. dead_q [ch "_"].
    unfold Parser.italics. dead_q [ch "*"; ch "_"].
    unfold Parser.linkify. dead_q [ch ":"].
    unfold Parser.emojify.
    match goal with |- context [Parser.womboji ?t] => destruct (Parser.womboji t) end;
      dead_q [ch "&"]; unfold Parser.remove_escaped_symbol;
      dead_q [backslash]; reflexivity.
  - replace (pre ++ sp ++ codes "> " ++ body ++ nls ++ suf)
      with (pre ++ quote_line sp (codes "> ") body nls ++ suf)
      by (unfold quote_line; rewrite <- !app_assoc; reflexivity).
    unfold BulkDelete.markdown.
    unfold BulkDelete.codeblock. dead_qn [ch "`"].
    unfold BulkDelete.inline_codeblock. dead_qn [ch "`"].
    unfold BulkDelete.blockquote.
    rewrite (subn_of_sub _ _ _ _
               (bulk_quote_pass pre sp body nls suf pre_inert pre_bol sp_ok body_nl nls_ok
                  suf_inert suf_nl line_end)).
    cbn [bind fst snd].
    unfold BulkDelete.spoiler. dead_qn [ch "|"].
    unfold BulkDelete.strikethrough. dead_qn [ch "~"].
    unfold BulkDelete.bold. dead_qn [ch "*"].
    unfold BulkDelete.underline. dead_qn [ch "_"].
    unfold BulkDelete.italics. dead_qn [ch "*"]. dead_qn [ch "_"].
    unfold BulkDelete.remove_escaped_symbol. dead_q [backslash]. reflexivity.
Qed.

Lemma quoted_line_renders_witness :
  Parser.markdown (codes "said" ++ [newline] ++ codes "  > so it goes" ++ [newline]
                     ++ codes "fine")
  = Some (codes "said" ++ [newline] ++ quote_div (codes "so it goes") ++ codes "fine")
  /\ BulkDelete.markdown (codes "said" ++ [newline] ++ codes "  > so it goes" ++ [newline]
                            ++ codes "fine")
     = Some (codes "said" ++ [newline] ++ quote_div (codes "so it goes") ++ codes "fine").
Proof.
  apply (quoted_line_renders (codes "said" ++ [newline]) (codes "  ") (codes "so it goes")
           [newline] (codes "fine"));
    try reflexivity.
  intros H. discriminate H.
Defined.

(** ** Links *)

Lemma only_at x w (A R : list N) j :
  forallb (avoid [x]) A = true -> forallb (avoid [x]) R = true -> j <> List.length A ->
  starts_with (x :: w) (skipn j (A ++ x :: R)) = false.
Proof.
  intros HA HR Hj. destruct (Nat.lt_ge_cases j (List.length A)) as [Hlt|Hge].
  - apply starts_with_inside; assumption.
  - replace j with (List.length A + S (j - List.length A - 1)) by lia.
    rewrite skipn_at. cbn [skipn]. apply starts_with_outside, HR.
Qed.

Lemma rep_ends_opt1 g x s i j :
  In j (rep_ends g 0 (Some 1) (Pos [One x]) s i) ->
  j = i \/ (j = S i /\ starts_with [x] (skipn i s) = true).
Proof.
  unfold rep_ends. destruct (skipn i s) as [|y t]; cbn [span].
  - cbn. destruct g; cbn; intros [H|[]]; left; lia.
  - cbn [cls_mem existsb item_mem starts_with]. rewrite orb_false_r.
    destruct (y =? x)%N eqn:E.
    + rewrite N.eqb_sym, E. cbn. destruct g; cbn; intros [H|[H|[]]];
        first [left; lia | right; split; [lia|reflexivity]].
    + cbn. destruct g; cbn; intros [H|[]]; left; lia.
Qed.

(** Where the scheme stands, the head of the link patterns reads it. *)
Lemma url_head_at secure s i c K rest :
  skipn i s = scheme secure ++ rest ->
  mtk Parser.url_head s i c K = K (i + List.length (scheme secure), c).
Proof.
  intros Hs. unfold Parser.url_head.
  rewrite mtk_seq, mtk_str, Hs.
  assert (H4 : skipn (i + 4) s = skipn 4 (scheme secure ++ rest))
    by (rewrite <- skipn_plus, Hs; reflexivity).
  destruct secure; cbn [scheme] in *.
  - change (starts_with (codes "http") (codes "https://" ++ rest)) with true.
    cbv beta. cbn [fst snd]. change (List.length (codes "http")) with 4.
    rewrite mtk_seq, mtk_rep. unfold rep_ends. rewrite H4.
    change (skipn 4 (codes "https://" ++ rest)) with (ch "s" :: codes "://" ++ rest).
    cbn [span]. change (cls_mem (Pos [One (ch "s")]) (ch "s")) with true.
    cbv iota. change (Nat.min 1 (S (span (Pos [One (ch "s")]) (codes "://" ++ rest)))) with 1.
    cbn [Nat.ltb Nat.leb Nat.sub seq map rev app flat_map].
    rewrite !mtk_str. cbn [fst snd].
    replace (skipn (i + 4 + 1) s) with (codes "://" ++ rest)
      by (rewrite <- Nat.add_assoc, <- skipn_plus, Hs; reflexivity).
    rewrite starts_with_app.
    replace (skipn (i + 4 + 0) s) with (ch "s" :: codes "://" ++ rest)
      by (rewrite <- Nat.add_assoc, <- skipn_plus, Hs; reflexivity).
    change (starts_with (codes "://") (ch "s" :: codes "://" ++ rest)) with false.
    rewrite !app_nil_r. f_equal. f_equal. change (List.length (codes "://")) with 3.
    change (List.length (codes "https://")) with 8. lia.
  - change (starts_with (codes "http") (codes "http://" ++ rest)) with true.
    cbv beta. cbn [fst snd]. change (List.length (codes "http")) with 4.
    rewrite mtk_seq, mtk_rep. unfold rep_ends. rewrite H4.
    change (skipn 4 (codes "http://" ++ rest)) with (ch ":" :: codes "//" ++ rest).
    cbn [span]. change (cls_mem (Pos [One (ch "s")]) (ch ":")) with false.
    cbv iota. cbn [Nat.min Nat.ltb Nat.leb Nat.sub seq map rev app flat_map].
    rewrite mtk_str. cbn [fst snd].
    replace (skipn (i + 4 + 0) s) with (codes "://" ++ rest)
      by (rewrite <- Nat.add_assoc, <- skipn_plus, Hs; reflexivity).
    rewrite starts_with_app.
    rewrite !app_nil_r. f_equal. f_equal. change (List.length (codes "://")) with 3.
    change (List.length (codes "http://")) with 7. lia.
Qed.

(** In a buffer whose only colon is the one of a scheme, the head of
    the link patterns matches where that scheme starts and nowhere
    else. *)
Lemma url_head_only secure (A R : list N) i c :
  forallb (avoid [ch ":"]) A = true -> forallb (avoid [ch ":"]) R = true ->
  i <> List.length A ->
  mt Parser.url_head (A ++ scheme secure ++ R) i c = [].
Proof.
  intros HA HR Hi. set (s := A ++ scheme secure ++ R).
  rewrite mt_mtk. unfold Parser.url_head. rewrite mtk_seq, mtk_str.
  destruct (starts_with (codes "http") (skipn i s)) eqn:Hh; [|reflexivity].
  cbv beta. cbn [fst snd]. change (List.length (codes "http")) with 4.
  rewrite mtk_seq. unfold mtk at 1. apply flat_map_nil. intros [j c'] Hin.
  cbn [mt] in Hin. apply in_map_iff in Hin. destruct Hin as (j' & E & Hj).
  inversion E; subst j' c'. clear E. cbv beta. cbn [fst snd]. rewrite mtk_str.
  apply rep_ends_opt1 in Hj.
  assert (Hc : forall front, forallb (avoid [ch ":"]) front = true ->
                 s = front ++ ch ":" :: codes "//" ++ R ->
                 j <> List.length front ->
                 starts_with (codes "://") (skipn j s) = false).
  { intros front Hf Es Hj'. rewrite Es. apply only_at; assumption. }
  destruct secure.
  - rewrite (Hc (A ++ codes "https")); [reflexivity|avoid_solve| |].
    + subst s. cbn [scheme]. rewrite <- app_assoc. reflexivity.
    + rewrite length_app. change (List.length (codes "https")) with 5.
      destruct Hj as [->|[-> Hs]]; [|lia].
      intros Hj. replace i with (List.length A + 1) in Hh by lia.
      subst s. rewrite skipn_at in Hh. cbn [scheme] in Hh. discriminate Hh.
  - rewrite (Hc (A ++ codes "http")); [reflexivity|avoid_solve| |].
    + subst s. cbn [scheme]. rewrite <- app_assoc. reflexivity.
    + rewrite length_app. change (List.length (codes "http")) with 4.
      destruct Hj as [->|[-> Hs]]; [lia|].
      intros Hj. replace (i + 4) with (List.length A + 3) in Hs by lia.
      subst s. rewrite skipn_at in Hs. cbn [scheme] in Hs. discriminate Hs.
Qed.

Lemma labelled_dead s i c :
  starts_with (codes "[") (skipn i s) = false -> mt Parser.labelled_link s i c = [].
Proof.
  intros Hs. rewrite mt_mtk. unfold Parser.labelled_link. rewrite mtk_seq, mtk_str, Hs.
  reflexivity.
Qed.

Lemma scheme_inert_but_colon secure ks :
  avoid ks (ch "h") = true -> avoid ks (ch "t") = true -> avoid ks (ch "p") = true ->
  avoid ks (ch "s") = true -> avoid ks (ch ":") = true -> avoid ks (ch "/") = true ->
  forallb (avoid ks) (scheme secure) = true.
Proof.
  intros Hh Ht Hp Hs Hc Hl. destruct secure; cbn [scheme];
    [change (codes "https://") with [ch "h"; ch "t"; ch "t"; ch "p"; ch "s"; ch ":"; ch "/"; ch "/"]
    |change (codes "http://") with [ch "h"; ch "t"; ch "t"; ch "p"; ch ":"; ch "/"; ch "/"]];
    cbn [forallb]; rewrite ?Hh, ?Ht, ?Hp, ?Hs, ?Hc, ?Hl; reflexivity.
Qed.

Lemma visible_non_space (l : list N) :
  forallb visible l = true -> forallb (cls_mem non_space) l = true.
Proof.
  apply forallb_weaken. intros y Hy. unfold visible in Hy.
  apply andb_true_iff in Hy. destruct Hy as [_ Hy].
  unfold non_space. cbn [cls_mem existsb item_mem]. rewrite Hy. reflexivity.
Qed.

Lemma ends_word_stop (suf : list N) :
  ends_word suf = true ->
  match suf with y :: _ => cls_mem non_space y = false | [] => True end.
Proof.
  destruct suf as [|y t]; [intros _; exact I|]. cbn [ends_word]. intros Hy.
  unfold non_space. cbn [cls_mem existsb item_mem]. rewrite Hy. reflexivity.
Qed.

Section BareLink.
Variables (secure : bool) (pre host suf : list N).
Hypothesis pre_inert : forallb inert pre = true.
Hypothesis host_inert : forallb inert host = true.
Hypothesis host_ne : host <> [].
Hypothesis host_vis : forallb visible host = true.
Hypothesis suf_inert : forallb inert suf = true.
Hypothesis suf_end : ends_word suf = true.

Local Abbreviation url := (scheme secure ++ host).
Local Abbreviation s := (pre ++ (scheme secure ++ host) ++ suf).
Local Abbreviation p := (List.length pre).

Lemma bare_shape : s = pre ++ scheme secure ++ (host ++ suf).
Proof. rewrite <- app_assoc. reflexivity. Qed.

Lemma bare_no_bracket i : starts_with (codes "[") (skipn i s) = false.
Proof.
  apply starts_with_outside. rewrite !forallb_app. split_and; try avoid_solve.
  apply scheme_inert_but_colon; reflexivity.
Qed.

Lemma bare_match :
  match_at Parser.web_link_pattern s p = Some (p + List.length url, bare_caps pre url).
Proof.
  unfold Parser.web_link_pattern.
  rewrite match_at_right by (apply labelled_dead, bare_no_bracket).
  unfold Parser.bare_link. rewrite match_at_mtk, mtk_grp, mtk_seq.
  rewrite (url_head_at secure _ _ _ _ (host ++ suf))
    by (rewrite bare_shape; apply skipn_at0).
  cbv beta. cbn [fst snd].
  assert (Hh : 1 <= List.length host) by (destruct host; [congruence|cbn [List.length]; lia]).
  apply (mtk_greedy 1 None non_space _ _ _ _ _ (List.length host)).
  - rewrite bare_shape, skipn_at, skipn_at0. symmetry.
    apply span_stop; [apply visible_non_space, host_vis|apply ends_word_stop, suf_end].
  - exact Hh.
  - cbv beta. cbn [fst snd hd_error]. unfold bare_caps. rewrite length_app.
    f_equal. f_equal; [lia|]. f_equal. f_equal. f_equal. lia.
Qed.

Lemma bare_dead i : i <> p -> match_at Parser.web_link_pattern s i = None.
Proof.
  intros Hi. unfold Parser.web_link_pattern. apply match_at_neither; unfold match_at.
  - rewrite labelled_dead by apply bare_no_bracket. reflexivity.
  - unfold Parser.bare_link. cbn [mt]. rewrite bare_shape.
    rewrite url_head_only; [reflexivity| | |exact Hi]; avoid_solve.
Qed.

Lemma bare_repl :
  Parser.linkify_repl (mkMatch s p (p + List.length url) (bare_caps pre url))
  = Some (anchor url url).
Proof.
  unfold Parser.linkify_repl, group, bare_caps. cbn [m_caps m_string get Nat.eqb].
  rewrite slice_middle. reflexivity.
Qed.

Lemma bare_sub :
  Parser.linkify s = Some (pre ++ anchor url url ++ suf).
Proof.
  unfold Parser.linkify. apply (sub_one _ _ _ _ _ (bare_caps pre url)).
  - destruct secure; discriminate.
  - intros i Hi. apply bare_dead. lia.
  - apply bare_match.
  - intros k. apply bare_dead.
    assert (0 < List.length url) by (destruct secure; rewrite length_app; cbn; lia).
    lia.
  - apply bare_repl.
Qed.

End BareLink.

Lemma str_dead w t s i c :
  starts_with w (skipn i s) = false -> mt (Str w ;;; t) s i c = [].
Proof. intros Hs. rewrite mt_mtk, mtk_seq, mtk_str, Hs. reflexivity. Qed.

Section SuppressedLink.
Variables (secure : bool) (pre host suf : list N).
Hypothesis pre_inert : forallb inert pre = true.
Hypothesis host_inert : forallb inert host = true.
Hypothesis host_ne : host <> [].
Hypothesis host_vis : forallb visible host = true.
Hypothesis suf_inert : forallb inert suf = true.

Local Abbreviation url := (scheme secure ++ host).
Local Abbreviation mid := (codes "&lt;" ++ (scheme secure ++ host) ++ codes "&gt;").
Local Abbreviation s := (pre ++ (codes "&lt;" ++ (scheme secure ++ host) ++ codes "&gt;") ++ suf).
Local Abbreviation p := (List.length pre).

Lemma arrows_at_open : skipn p s = codes "&lt;" ++ scheme secure ++ host ++ codes "&gt;" ++ suf.
Proof. rewrite skipn_at0, <- !app_assoc. reflexivity. Qed.

Lemma arrows_at_url : skipn (p + 4) s = scheme secure ++ host ++ codes "&gt;" ++ suf.
Proof. rewrite <- skipn_plus, arrows_at_open. reflexivity. Qed.

Lemma arrows_at_host d :
  skipn (p + 4 + List.length (scheme secure) + d) s
  = skipn d (host ++ codes "&gt;" ++ suf).
Proof.
  rewrite <- (skipn_plus _ _ d), <- (skipn_plus _ (p + 4)), arrows_at_url, skipn_at0.
  reflexivity.
Qed.

Lemma arrows_match :
  match_at Parser.suppresed_embed_link_pattern s p
  = Some (p + List.length mid, arrows_caps pre url).
Proof.
  unfold Parser.suppresed_embed_link_pattern.
  rewrite match_at_mtk, mtk_seq, mtk_str, arrows_at_open, starts_with_app.
  cbv beta. cbn [fst snd]. change (List.length (codes "&lt;")) with 4.
  rewrite mtk_seq, mtk_grp, mtk_seq.
  rewrite (url_head_at secure _ _ _ _ (host ++ codes "&gt;" ++ suf)) by apply arrows_at_url.
  cbv beta. cbn [fst snd].
  assert (Hh : 1 <= List.length host) by (destruct host; [congruence|cbn [List.length]; lia]).
  apply (mtk_lazy 1 non_space _ _ _ _ _ (List.length host)).
  - exact Hh.
  - rewrite <- (Nat.add_0_r (p + 4 + _)), arrows_at_host. cbn [skipn].
    apply span_all, visible_non_space, host_vis.
  - intros d _ Hd. cbv beta. cbn [fst snd]. rewrite mtk_str, arrows_at_host.
    assert (Hf : starts_with (codes "&gt;") (skipn d (host ++ codes "&gt;" ++ suf)) = false)
      by (apply (starts_with_inside (ch "&") (codes "gt;")); [avoid_solve|exact Hd]).
    rewrite Hf. reflexivity.
  - cbv beta. cbn [fst snd]. rewrite mtk_str, arrows_at_host, skipn_at0, starts_with_app.
    cbn [hd_error]. unfold arrows_caps. rewrite !length_app.
    change (List.length (codes "&lt;")) with 4. change (List.length (codes "&gt;")) with 4.
    f_equal. f_equal; [lia|]. f_equal. f_equal. f_equal. lia.
Qed.

Lemma arrows_dead i :
  starts_with (codes "&lt;") (skipn i s) = false ->
  match_at Parser.suppresed_embed_link_pattern s i = None.
Proof.
  intros Hs. unfold match_at, Parser.suppresed_embed_link_pattern.
  rewrite str_dead by exact Hs. reflexivity.
Qed.

Lemma arrows_repl :
  Parser.wrap [] [] (mkMatch s p (p + List.length mid) (arrows_caps pre url)) = Some url.
Proof.
  unfold Parser.wrap, group, arrows_caps. cbn [m_caps m_string get Nat.eqb expand app].
  rewrite app_nil_r. f_equal.
  replace (pre ++ (codes "&lt;" ++ url ++ codes "&gt;") ++ suf)
    with ((pre ++ codes "&lt;") ++ url ++ codes "&gt;" ++ suf)
    by (rewrite <- !app_assoc; reflexivity).
  replace (p + 4) with (List.length (pre ++ codes "&lt;")) by (rewrite length_app; reflexivity).
  apply slice_middle.
Qed.

Lemma arrows_sub :
  Parser.remove_suppressed_embed_arrows s = Some (pre ++ url ++ suf).
Proof.
  unfold Parser.remove_suppressed_embed_arrows.
  apply (sub_one _ _ _ _ _ (arrows_caps pre url)).
  - discriminate.
  - intros i Hi. apply arrows_dead.
    apply (starts_with_inside (ch "&") (codes "lt;")); [avoid_solve|exact Hi].
  - apply arrows_match.
  - intros k. apply arrows_dead. rewrite <- Nat.add_assoc, !skipn_at.
    apply (starts_with_outside (ch "&") (codes "lt;")). avoid_solve.
  - apply arrows_repl.
Qed.

End SuppressedLink.

Ltac link_avoid :=
  unfold anchor; repeat rewrite forallb_app; repeat (apply andb_true_intro; split);
  first
    [ reflexivity
    | assumption
    | apply scheme_inert_but_colon; reflexivity
    | match goal with
      | H : forallb inert ?l = true |- forallb (avoid ?ks) ?l = true =>
          exact (avoid_all ks marks l eq_refl H)
      end ].

Ltac dead_l ks :=
  rewrite (sub_avoid ks) by (first [reflexivity | link_avoid]); cbn [bind].

Section LinkPipeline.
Variables (secure : bool) (pre host suf : list N).
Hypothesis pre_inert : forallb inert pre = true.
Hypothesis host_inert : forallb inert host = true.
Hypothesis host_ne : host <> [].
Hypothesis host_vis : forallb visible host = true.
Hypothesis suf_inert : forallb inert suf = true.
Hypothesis suf_end : ends_word suf = true.

Local Abbreviation url := (scheme secure ++ host).

(** From the quote pass to the end of the pipeline. *)
Lemma bare_link_tail original :
  (output <- Parser.blockquote (pre ++ url ++ suf) ;;
   output <- Parser.spoiler output ;;
   output <- Parser.strikethrough output ;;
   output <- Parser.bold output ;;
   output <- Parser.underline output ;;
   output <- Parser.italics output ;;
   output <- Parser.linkify output ;;
   output <- Parser.emojify output original ;;
   Parser.remove_escaped_symbol output)
  = Some (pre ++ anchor url url ++ suf).
Proof.
  unfold Parser.blockquote. dead_l [ch "&"].
  unfold Parser.spoiler. dead_l [ch "|"].
  unfold Parser.strikethrough. dead_l [ch "~"].
  unfold Parser.bold. dead_l [ch "*"].
  unfold Parser.underline. dead_l [ch "_"].
  unfold Parser.italics. dead_l [ch "*"; ch "_"].
  rewrite (bare_sub secure pre host suf) by assumption. cbn [bind].
  unfold Parser.emojify.
  destruct (Parser.womboji original);
    dead_l [ch "&"]; unfold Parser.remove_escaped_symbol; dead_l [backslash]; reflexivity.
Qed.

End LinkPipeline.

(** X15: bare and suppressed links.  An address made of a scheme,
    http:// or https://, and at least one further character, none of
    them whitespace, a control character or a character the engine
    looks for, that runs to the end of the text or to whitespace,
    renders as a link whose target and whose text are the address; the
    text around it stays as it is.  The same address between angle
    brackets renders in exactly the same way: the brackets are
    dropped. *)
Theorem bare_url_renders (secure : bool) (pre host suf : list N) :
  forallb inert pre = true ->
  forallb inert host = true -> host <> [] -> forallb visible host = true ->
  forallb inert suf = true -> ends_word suf = true ->
  Parser.markdown (pre ++ scheme secure ++ host ++ suf)
  = Some (pre ++ anchor (scheme secure ++ host) (scheme secure ++ host) ++ suf)
  /\ Parser.markdown (pre ++ codes "<" ++ scheme secure ++ host ++ codes ">" ++ suf)
     = Some (pre ++ anchor (scheme secure ++ host) (scheme secure ++ host) ++ suf).
Proof.
  intros pre_inert host_inert host_ne host_vis suf_inert suf_end.
  assert (Hs : escape (scheme secure) = scheme secure) by (destruct secure; reflexivity).
  split.
  - unfold Parser.markdown.
    rewrite !escape_app, Hs.
    rewrite (escape_inert_N pre), (escape_inert_N host), (escape_inert_N suf) by assumption.
    rewrite (app_assoc (scheme secure)).
    unfold Parser.codeblock. dead_l [ch "`"].
    unfold Parser.inline_codeblock. dead_l [ch "`"].
    unfold Parser.remove_suppressed_embed_arrows. dead_l [ch "&"].
    apply bare_link_tail; assumption.
  - unfold Parser.markdown.
    rewrite !escape_app, Hs.
    rewrite (escape_inert_N pre), (escape_inert_N host), (escape_inert_N suf) by assumption.
    change (escape (codes "<")) with (codes "&lt;").
    change (escape (codes ">")) with (codes "&gt;").
    replace (pre ++ codes "&lt;" ++ scheme secure ++ host ++ codes "&gt;" ++ suf)
      with (pre ++ (codes "&lt;" ++ (scheme secure ++ host) ++ codes "&gt;") ++ suf)
      by (rewrite <- !app_assoc; reflexivity).
    unfold Parser.codeblock. dead_l [ch "`"].
    unfold Parser.inline_codeblock. dead_l [ch "`"].
    rewrite (arrows_sub secure pre host suf) by assumption. cbn [bind].
    apply bare_link_tail; assumption.
Qed.

Lemma bare_url_renders_witness :
  Parser.markdown (codes "see https://example.com/a?b=1 now")
  = Some (codes "see " ++ anchor (codes "https://example.com/a?b=1")
                                 (codes "https://example.com/a?b=1") ++ codes " now")
  /\ Parser.markdown (codes "see <https://example.com/a?b=1> now")
     = Some (codes "see " ++ anchor (codes "https://example.com/a?b=1")
                                    (codes "https://example.com/a?b=1") ++ codes " now").
Proof.
  apply (bare_url_renders true (codes "see ") (codes "example.com/a?b=1") (codes " now"));
    try reflexivity.
  discriminate.
Defined.

(** ** Labelled links *)

Lemma hd_last {X} (F : nat -> list X) y b : forall m lo,
  lo <= b -> b < lo + m -> (forall d, b < d -> d < lo + m -> F d = []) ->
  hd_error (F b) = Some y ->
  hd_error (flat_map F (rev (seq lo m))) = Some y.
Proof.
  induction m as [|m IH]; intros lo H1 H2 Hf Hy; [lia|].
  rewrite seq_S, rev_app_distr. cbn [rev app flat_map]. rewrite hd_error_app.
  destruct (Nat.eq_dec b (lo + m)) as [E|E].
  - rewrite <- E, Hy. reflexivity.
  - rewrite (Hf (lo + m)) by lia. cbn [hd_error]. apply IH; try lia; try exact Hy.
    intros d Hd1 Hd2. apply Hf; lia.
Qed.

(** A greedy repetition: the longest length at which the rest matches. *)
Lemma mtk_greedy_at lo k s i c K y b :
  lo <= b -> b <= span k (skipn i s) ->
  (forall d, b < d -> d <= span k (skipn i s) -> K (i + d, c) = []) ->
  hd_error (K (i + b, c)) = Some y ->
  hd_error (mtk (Rep true lo None k) s i c K) = Some y.
Proof.
  intros Hlo Hb Hf Hy. rewrite mtk_rep. unfold rep_ends.
  replace (span k (skipn i s) <? lo) with false by (symmetry; apply Nat.ltb_ge; lia).
  rewrite <- map_rev, flat_map_of_map.
  apply (hd_last (fun d => K (i + d, c)) y b).
  - exact Hlo.
  - lia.
  - intros d H1 H2. apply Hf; lia.
  - exact Hy.
Qed.

Lemma skipn_inside (body rest : list N) d :
  d < List.length body ->
  exists y t, skipn d (body ++ rest) = y :: t /\ In y body.
Proof.
  revert d. induction body as [|x body IH]; intros d Hd; cbn [List.length] in Hd; [lia|].
  destruct d as [|d].
  - exists x, (body ++ rest). split; [reflexivity|left; reflexivity].
  - destruct (IH d ltac:(lia)) as (y & t & E & Hy). exists y, t.
    split; [exact E|right; exact Hy].
Qed.

Lemma blank_is_space y : cls_mem blank y = true -> is_space y = true.
Proof.
  unfold blank. cbn [cls_mem existsb item_mem]. rewrite orb_false_r.
  intros H. apply negb_true_iff in H. apply orb_false_iff in H. destruct H as [_ H].
  apply negb_false_iff in H. exact H.
Qed.

Lemma space_not_in (ks : list N) y :
  forallb (fun k => negb (is_space k)) ks = true -> is_space y = true -> avoid ks y = true.
Proof.
  intros Hk Hy. unfold avoid. apply negb_true_iff.
  destruct (existsb (N.eqb y) ks) eqn:E; [|reflexivity].
  apply existsb_exists in E. destruct E as (k & Hin & E). apply N.eqb_eq in E. subst k.
  pose proof (proj1 (forallb_forall _ _) Hk y Hin) as H. cbv beta in H.
  rewrite Hy in H. discriminate H.
Qed.

Lemma blanks_avoid ks (l : list N) :
  forallb (fun k => negb (is_space k)) ks = true ->
  forallb (cls_mem blank) l = true -> forallb (avoid ks) l = true.
Proof.
  intros Hk. apply forallb_weaken. intros y Hy. apply space_not_in; [exact Hk|].
  apply blank_is_space, Hy.
Qed.

Lemma blanks_are_inert (l : list N) :
  forallb (cls_mem blank) l = true -> forallb inert l = true.
Proof. intros H. exact (blanks_avoid marks l eq_refl H). Qed.

Lemma visible_not_blank y : visible y = true -> cls_mem blank y = false.
Proof.
  unfold visible, blank. intros H. apply andb_true_iff in H. destruct H as [_ H].
  cbn [cls_mem existsb item_mem]. rewrite H. rewrite orb_true_r. reflexivity.
Qed.

Section LabelledLink.
Variables (secure : bool) (pre label b1 host b2 suf : list N).
Hypothesis pre_inert : forallb inert pre = true.
Hypothesis label_inert : forallb inert label = true.
Hypothesis label_ne : label <> [].
Hypothesis label_nl : forallb (avoid [newline]) label = true.
Hypothesis b1_ok : forallb (cls_mem blank) b1 = true.
Hypothesis host_inert : forallb inert host = true.
Hypothesis host_ne : host <> [].
Hypothesis host_vis : forallb visible host = true.
Hypothesis host_par : forallb (avoid [ch ")"]) host = true.
Hypothesis b2_ok : forallb (cls_mem blank) b2 = true.
Hypothesis suf_inert : forallb inert suf = true.

Local Abbreviation url := (scheme secure ++ host).
Local Abbreviation T2 := (b2 ++ codes ")" ++ suf).
Local Abbreviation U := (scheme secure ++ host ++ b2 ++ codes ")" ++ suf).
Local Abbreviation T1 := (codes "](" ++ b1 ++ scheme secure ++ host ++ b2 ++ codes ")" ++ suf).
Local Abbreviation s := (pre ++ linked_text label b1 (scheme secure ++ host) b2 ++ suf).
Local Abbreviation p := (List.length pre).
Local Abbreviation q1 := (List.length pre + 1 + List.length label + 2).
Local Abbreviation u0 := (List.length pre + 1 + List.length label + 2 + List.length b1).
Local Abbreviation h0 :=
  (List.length pre + 1 + List.length label + 2 + List.length b1
   + List.length (scheme secure)).

Lemma linked_at_open : skipn p s = codes "[" ++ label ++ T1.
Proof. rewrite skipn_at0. unfold linked_text. rewrite <- !app_assoc. reflexivity. Qed.

Lemma linked_at_label d : skipn (p + 1 + d) s = skipn d (label ++ T1).
Proof.
  rewrite <- (skipn_plus _ _ d), <- (skipn_plus _ p), linked_at_open. reflexivity.
Qed.

Lemma linked_at_b1 d : skipn (q1 + d) s = skipn d (b1 ++ U).
Proof.
  rewrite <- (skipn_plus _ _ d), <- (skipn_plus _ _ 2), linked_at_label, skipn_at0.
  reflexivity.
Qed.

Lemma linked_at_url : skipn u0 s = U.
Proof. rewrite linked_at_b1. apply skipn_at0. Qed.

Lemma linked_at_host d : skipn (h0 + d) s = skipn d (host ++ T2).
Proof.
  rewrite <- (skipn_plus _ _ d), <- (skipn_plus _ u0), linked_at_url, skipn_at0.
  reflexivity.
Qed.

Lemma linked_at_b2 d : skipn (h0 + List.length host + d) s = skipn d T2.
Proof.
  rewrite <- (skipn_plus _ _ d), linked_at_host, skipn_at0. reflexivity.
Qed.

Lemma linked_shape :
  s = (pre ++ codes "[" ++ label ++ codes "](" ++ b1) ++ scheme secure ++ (host ++ T2).
Proof. unfold linked_text. rewrite <- !app_assoc. reflexivity. Qed.

Lemma linked_front_length :
  List.length (pre ++ codes "[" ++ label ++ codes "](" ++ b1) = u0.
Proof.
  rewrite !length_app. change (List.length (codes "[")) with 1.
  change (List.length (codes "](")) with 2. lia.
Qed.

(** The only scheme of the buffer is the one of the address. *)
Lemma linked_head_only i c : i <> u0 -> mt Parser.url_head s i c = [].
Proof.
  intros Hi. rewrite linked_shape. apply url_head_only.
  - rewrite !forallb_app. split_and; try avoid_solve.
    apply blanks_avoid; [reflexivity|exact b1_ok].
  - rewrite !forallb_app. split_and; try avoid_solve.
    apply blanks_avoid; [reflexivity|exact b2_ok].
  - rewrite linked_front_length. exact Hi.
Qed.

(** No closing bracket after the one of the label opens an address. *)
Lemma linked_close_dead R1 R2 q c K :
  p + 1 + List.length label < q ->
  mtk (Str (codes "]") ;;; Str (codes "(") ;;; Rep false 0 None blank ;;;
       Grp 2 (Parser.url_head ;;; R1) ;;; R2) s q c K = [].
Proof.
  intros Hq. rewrite mtk_seq, mtk_str.
  destruct (starts_with (codes "]") (skipn q s)) eqn:Hc; [|reflexivity].
  cbv beta. cbn [fst snd]. rewrite mtk_seq, mtk_str.
  destruct (starts_with (codes "(") (skipn (q + List.length (codes "]")) s)); [|reflexivity].
  cbv beta. cbn [fst snd]. rewrite mtk_seq. unfold mtk at 1.
  apply flat_map_nil. intros [j c'] Hin. apply in_mt_rep in Hin.
  destruct Hin as (-> & H1 & _). cbv beta. cbn [fst snd].
  rewrite mtk_seq, mtk_grp, mtk_seq. unfold mtk at 1.
  rewrite linked_head_only; [reflexivity|].
  change (List.length (codes "]")) with 1 in H1.
  change (List.length (codes "(")) with 1 in H1.
  intros Ej. exfalso.
  assert (Hf : starts_with (codes "]")
                 (skipn (q - (p + 1 + List.length label + 1)) ((codes "(" ++ b1) ++ U))
               = false).
  { apply (starts_with_inside (ch "]") []).
    - rewrite forallb_app. split_and; [reflexivity|].
      apply blanks_avoid; [reflexivity|exact b1_ok].
    - rewrite length_app. change (List.length (codes "(")) with 1. lia. }
  replace q with (p + 1 + (List.length label + S (q - (p + 1 + List.length label + 1))))
    in Hc by lia.
  rewrite linked_at_label, skipn_at in Hc. rewrite <- app_assoc in Hf.
  change (skipn (S (q - (p + 1 + List.length label + 1))) T1)
    with (skipn (q - (p + 1 + List.length label + 1)) (codes "(" ++ b1 ++ U)) in Hc.
  congruence.
Qed.

Lemma linked_match :
  match_at Parser.labelled_link s p
  = Some (p + List.length (linked_text label b1 url b2), labelled_caps pre label b1 url).
Proof.
  unfold Parser.labelled_link.
  rewrite match_at_mtk, mtk_seq, mtk_str, linked_at_open, starts_with_app.
  cbv beta. cbn [fst snd]. change (List.length (codes "[")) with 1.
  rewrite mtk_seq, mtk_grp.
  assert (Hl : 1 <= List.length label)
    by (destruct label; [congruence|cbn [List.length]; lia]).
  assert (Hh : 1 <= List.length host)
    by (destruct host; [congruence|cbn [List.length]; lia]).
  apply (mtk_greedy_at 1 dot _ _ _ _ _ (List.length label)).
  - exact Hl.
  - rewrite <- (Nat.add_0_r (p + 1)), linked_at_label. cbn [skipn].
    apply span_all, avoid_dot, label_nl.
  - intros d Hd _. cbv beta. cbn [fst snd]. apply linked_close_dead. lia.
  - cbv beta. cbn [fst snd].
    rewrite mtk_seq, mtk_str, linked_at_label, skipn_at0.
    change (starts_with (codes "]") T1) with true.
    cbv beta. cbn [fst snd]. change (List.length (codes "]")) with 1.
    rewrite mtk_seq, mtk_str.
    replace (skipn (p + 1 + List.length label + 1) s) with (skipn 1 T1)
      by (rewrite <- (skipn_plus _ _ 1), linked_at_label, skipn_at0; reflexivity).
    change (starts_with (codes "(") (skipn 1 T1)) with true.
    cbv beta. cbn [fst snd]. change (List.length (codes "(")) with 1.
    replace (p + 1 + List.length label + 1 + 1) with q1 by lia.
    rewrite mtk_seq.
    apply (mtk_lazy 0 blank _ _ _ _ _ (List.length b1)).
    + lia.
    + rewrite <- (Nat.add_0_r q1), linked_at_b1. cbn [skipn]. apply span_all, b1_ok.
    + intros d _ Hd. cbv beta. cbn [fst snd].
      rewrite mtk_seq, mtk_grp, mtk_seq. unfold mtk at 1.
      rewrite linked_head_only by lia. reflexivity.
    + cbv beta. cbn [fst snd]. rewrite mtk_seq, mtk_grp, mtk_seq.
      rewrite (url_head_at secure _ _ _ _ (host ++ T2)) by apply linked_at_url.
      cbv beta. cbn [fst snd].
      apply (mtk_lazy 1 non_space _ _ _ _ _ (List.length host)).
      * exact Hh.
      * rewrite <- (Nat.add_0_r h0), linked_at_host. cbn [skipn].
        apply span_all, visible_non_space, host_vis.
      * intros d _ Hd. cbv beta. cbn [fst snd]. rewrite mtk_seq.
        destruct (skipn_inside host T2 d Hd) as (y & t & Ey & Iy).
        rewrite (mtk_rep_one _ _ _ _ _ _ _ _ 0).
        -- cbv beta. cbn [fst snd]. rewrite mtk_str, Nat.add_0_r, linked_at_host, Ey.
           change (codes ")") with [ch ")"].
           rewrite (starts_with_miss (ch ")") [] y t); [reflexivity|].
           apply not_eq_sym, (avoid_In _ _ (proj1 (forallb_forall _ _) host_par y Iy)).
           left. reflexivity.
        -- rewrite linked_at_host, Ey. cbn [span].
           rewrite (visible_not_blank _ (proj1 (forallb_forall _ _) host_vis y Iy)).
           reflexivity.
        -- reflexivity.
      * cbv beta. cbn [fst snd]. rewrite mtk_seq.
        apply (mtk_lazy 0 blank _ _ _ _ _ (List.length b2)).
        -- lia.
        -- rewrite <- (Nat.add_0_r (h0 + _)), linked_at_b2. cbn [skipn].
           apply span_all, b2_ok.
        -- intros d _ Hd. cbv beta. cbn [fst snd]. rewrite mtk_str, linked_at_b2.
           assert (Hf : starts_with (codes ")") (skipn d (b2 ++ codes ")" ++ suf)) = false).
           { apply (starts_with_inside (ch ")") []); [|exact Hd].
             apply blanks_avoid; [reflexivity|exact b2_ok]. }
           rewrite Hf. reflexivity.
        -- cbv beta. cbn [fst snd]. rewrite mtk_str, linked_at_b2, skipn_at0, starts_with_app.
           cbn [hd_error]. unfold labelled_caps, linked_text. rewrite !length_app.
           change (List.length (codes "[")) with 1. change (List.length (codes "](")) with 2.
           change (List.length (codes ")")) with 1.
           f_equal. f_equal; [lia|]. f_equal. f_equal. f_equal. lia.
Qed.

Lemma linked_length :
  List.length (linked_text label b1 url b2)
  = 1 + List.length label + 2 + List.length b1 + List.length (scheme secure)
    + List.length host + List.length b2 + 1.
Proof.
  unfold linked_text. rewrite !length_app. change (List.length (codes "[")) with 1.
  change (List.length (codes "](")) with 2. change (List.length (codes ")")) with 1. lia.
Qed.

Lemma linked_dead i :
  i < p \/ p + List.length (linked_text label b1 url b2) <= i ->
  match_at Parser.web_link_pattern s i = None.
Proof.
  intros Hi. pose proof linked_length as Hlen.
  unfold Parser.web_link_pattern. apply match_at_neither; unfold match_at.
  - rewrite labelled_dead; [reflexivity|]. destruct Hi as [Hi|Hi].
    + apply (starts_with_inside (ch "[") []); [avoid_solve|exact Hi].
    + replace i with (p + (List.length (linked_text label b1 url b2)
                           + (i - (p + List.length (linked_text label b1 url b2)))))
        by lia.
      rewrite !skipn_at. apply (starts_with_outside (ch "[") []). avoid_solve.
  - unfold Parser.bare_link. cbn [mt]. rewrite linked_head_only; [reflexivity|]. lia.
Qed.

Lemma linked_repl :
  Parser.linkify_repl
    (mkMatch s p (p + List.length (linked_text label b1 url b2))
       (labelled_caps pre label b1 url))
  = Some (anchor url label).
Proof.
  unfold Parser.linkify_repl, group, labelled_caps. cbn [m_caps m_string get Nat.eqb].
  assert (H2 : slice s u0 (u0 + List.length url) = url).
  { rewrite <- linked_front_length.
    replace s with ((pre ++ codes "[" ++ label ++ codes "](" ++ b1) ++ url ++ T2)
      by (unfold linked_text; rewrite <- !app_assoc; reflexivity).
    apply slice_middle. }
  assert (H1 : slice s (p + 1) (p + 1 + List.length label) = label).
  { replace (p + 1) with (List.length (pre ++ codes "[")) by (rewrite length_app; reflexivity).
    replace s with ((pre ++ codes "[") ++ label ++ T1)
      by (unfold linked_text; rewrite <- !app_assoc; reflexivity).
    apply slice_middle. }
  rewrite H2, H1. reflexivity.
Qed.

Lemma linked_sub : Parser.linkify s = Some (pre ++ anchor url label ++ suf).
Proof.
  unfold Parser.linkify. apply (sub_one _ _ _ _ _ (labelled_caps pre label b1 url)).
  - discriminate.
  - intros i Hi. apply linked_dead. left. exact Hi.
  - apply match_at_left, linked_match.
  - intros k. apply linked_dead. right. lia.
  - apply linked_repl.
Qed.

End LabelledLink.

Ltac labelled_avoid :=
  unfold linked_text, anchor; repeat rewrite forallb_app;
  repeat (apply andb_true_intro; split);
  first
    [ reflexivity
    | assumption
    | apply scheme_inert_but_colon; reflexivity
    | apply blanks_avoid; [reflexivity|assumption]
    | match goal with
      | H : forallb inert ?l = true |- forallb (avoid ?ks) ?l = true =>
          exact (avoid_all ks marks l eq_refl H)
      end ].

Ltac dead_ll ks :=
  rewrite (sub_avoid ks) by (first [reflexivity | labelled_avoid]); cbn [bind].

(** X16: labelled links.  A label in square brackets directly followed
    by an address in round brackets, with or without blanks around the
    address, renders as a link whose target is the address and whose
    text is the label; the brackets and the blanks are dropped and the
    text around stays as it is.  The label is not empty and stays on one
    line; the address is a scheme, http:// or https://, and at least one
    further character, none of them a closing round bracket, whitespace
    or a control character; no part holds a character the engine looks
    for. *)
Theorem labelled_link_renders (secure : bool) (pre label b1 host b2 suf : list N) :
  forallb inert pre = true ->
  forallb inert label = true -> label <> [] -> forallb (avoid [newline]) label = true ->
  forallb (cls_mem blank) b1 = true ->
  forallb inert host = true -> host <> [] -> forallb visible host = true ->
  forallb (avoid [ch ")"]) host = true ->
  forallb (cls_mem blank) b2 = true ->
  forallb inert suf = true ->
  Parser.markdown (pre ++ linked_text label b1 (scheme secure ++ host) b2 ++ suf)
  = Some (pre ++ anchor (scheme secure ++ host) label ++ suf).
Proof.
  intros pre_inert label_inert label_ne label_nl b1_ok host_inert host_ne host_vis
    host_par b2_ok suf_inert.
  unfold Parser.markdown.
  rewrite escape_avoid by labelled_avoid.
  unfold Parser.codeblock. dead_ll [ch "`"].
  unfold Parser.inline_codeblock. dead_ll [ch "`"].
  unfold Parser.remove_suppressed_embed_arrows. dead_ll [ch "&"].
  unfold Parser.blockquote. dead_ll [ch "&"].
  unfold Parser.spoiler. dead_ll [ch "|"].
  unfold Parser.strikethrough. dead_ll [ch "~"].
  unfold Parser.bold. dead_ll [ch "*"].
  unfold Parser.underline. dead_ll [ch "_"].
  unfold Parser.italics. dead_ll [ch "*"; ch "_"].
  rewrite (linked_sub secure pre label b1 host b2 suf) by assumption. cbn [bind].
  unfold Parser.emojify.
  match goal with |- context [Parser.womboji ?t] => destruct (Parser.womboji t) end;
    dead_ll [ch "&"]; unfold Parser.remove_escaped_symbol; dead_ll [backslash];
    reflexivity.
Qed.

Lemma labelled_link_renders_witness :
  Parser.markdown (codes "read [the docs]( https://example.com/docs ) first")
  = Some (codes "read " ++ anchor (codes "https://example.com/docs") (codes "the docs")
            ++ codes " first").
Proof.
  apply (labelled_link_renders true (codes "read ") (codes "the docs") (codes " ")
           (codes "example.com/docs") (codes " ") (codes " first"));
    try reflexivity; discriminate.
Defined.

(** ** The quote of the rest of a message *)

Section QuoteRest.
Variables (x : N) (w3 w1 : list N).
Variables pre sp rest : list N.
Hypothesis x_ns : cls_mem spc x = false.
Hypothesis pre_x : forallb (avoid [x]) pre = true.
Hypothesis pre_bol : last pre newline = newline.
Hypothesis sp_ok : forallb (cls_mem spc) sp = true.

Local Abbreviation m3 := (x :: w3).
Local Abbreviation s := (pre ++ (sp ++ (x :: w3) ++ rest) ++ []).
Local Abbreviation p := (List.length pre).

Lemma rest_at_sp : skipn p s = sp ++ m3 ++ rest.
Proof. rewrite skipn_at0. rewrite app_nil_r. reflexivity. Qed.

Lemma rest_at_marker : skipn (p + List.length sp) s = m3 ++ rest.
Proof. rewrite <- skipn_plus, rest_at_sp. apply skipn_at0. Qed.

Lemma rest_at_rest : skipn (p + List.length sp + List.length m3) s = rest.
Proof. rewrite <- skipn_plus, rest_at_marker. apply skipn_at0. Qed.

Lemma rest_match :
  match_at (quote_pattern m3 (x :: w1)) s p
  = Some (p + List.length (sp ++ m3 ++ rest), rest_caps pre sp m3 rest).
Proof.
  unfold quote_pattern. apply match_at_left.
  rewrite match_at_mtk, mtk_seq, mtk_bol, (bol_after _ _ pre_bol).
  cbv beta. cbn [fst snd]. rewrite mtk_seq.
  apply (mtk_greedy 0 None spc _ p [] _ _ (List.length sp)).
  - rewrite rest_at_sp. symmetry. apply span_stop; [exact sp_ok|]. cbn [app]. exact x_ns.
  - lia.
  - cbv beta. cbn [fst snd]. rewrite mtk_seq, mtk_str, rest_at_marker, starts_with_app.
    cbv beta. cbn [fst snd]. rewrite mtk_grp.
    apply (mtk_greedy 0 None any _ _ [] _ _ (List.length rest)).
    + rewrite rest_at_rest. symmetry. rewrite <- (app_nil_r rest) at 1.
      apply span_stop; [|exact I]. apply forallb_forall. intros y _. apply cls_any.
    + lia.
    + cbv beta. cbn [fst snd hd_error]. unfold rest_caps. rewrite !length_app.
      f_equal. f_equal; [lia|]. f_equal. f_equal. f_equal. lia.
Qed.

Lemma rest_group1 :
  group (mkMatch s p (p + List.length (sp ++ m3 ++ rest)) (rest_caps pre sp m3 rest)) 1
  = Some rest.
Proof.
  clear pre_bol. unfold group, rest_caps. cbn [m_caps m_string get Nat.eqb]. f_equal.
  replace (pre ++ (sp ++ m3 ++ rest) ++ []) with ((pre ++ sp ++ m3) ++ rest ++ [])
    by (rewrite <- !app_assoc; reflexivity).
  replace (p + List.length sp + List.length m3) with (List.length (pre ++ sp ++ m3))
    by (rewrite !length_app; lia).
  replace (p + List.length (sp ++ m3 ++ rest))
    with (List.length (pre ++ sp ++ m3) + List.length rest)
    by (rewrite !length_app; lia).
  apply slice_middle.
Qed.

Lemma rest_sub (repl : Match N -> option (list N)) out :
  repl (mkMatch s p (p + List.length (sp ++ m3 ++ rest)) (rest_caps pre sp m3 rest))
  = Some out ->
  sub (quote_pattern m3 (x :: w1)) repl (pre ++ sp ++ m3 ++ rest) = Some (pre ++ out).
Proof.
  intros Hr. rewrite <- (app_nil_r (pre ++ out)), <- app_assoc.
  rewrite <- (app_nil_r (sp ++ m3 ++ rest)).
  apply (sub_one _ _ _ _ _ (rest_caps pre sp m3 rest)).
  - destruct sp; discriminate.
  - intros i Hi. apply quote_dead_in_pre; assumption.
  - apply rest_match.
  - intros k. apply quote_dead_past. rewrite !length_app. cbn [List.length]. lia.
  - exact Hr.
Qed.

End QuoteRest.

(** X17: the quote of the rest of a message.  At the start of the text
    or of a line, after any indentation by blanks, three '>' and a blank
    quote everything that follows, line breaks included: when the text
    before and the text after the marker hold none of the characters the
    engine looks for, both copies of the engine render the text after
    the marker, to the end of the message, as one quote block, and drop
    the indentation and the marker. *)
Theorem quoted_rest_renders (pre sp rest : list N) :
  forallb inert pre = true -> last pre newline = newline ->
  forallb (N.eqb (ch " ")) sp = true ->
  forallb inert rest = true ->
  Parser.markdown (pre ++ sp ++ codes ">>> " ++ rest) = Some (pre ++ quote_div rest)
  /\ BulkDelete.markdown (pre ++ sp ++ codes ">>> " ++ rest) = Some (pre ++ quote_div rest).
Proof.
  intros pre_inert pre_bol sp_ok rest_inert.
  pose proof (blanks_inert _ sp_ok) as sp_inert.
  pose proof (blanks_spc _ sp_ok) as sp_spc.
  split.
  - unfold Parser.markdown.
    rewrite !escape_app.
    rewrite (escape_inert_N pre), (escape_inert_N sp), (escape_inert_N rest) by assumption.
    change (escape (codes ">>> ")) with (codes "&gt;&gt;&gt; ").
    unfold Parser.codeblock. dead_q [ch "`"].
    unfold Parser.inline_codeblock. dead_q [ch "`"].
    assert (Nlt : nowhere (codes "&l") (pre ++ sp ++ codes "&gt;&gt;&gt; " ++ rest)).
    { rewrite app_assoc. apply nowhere_app; [avoid_solve|].
      change (codes "&gt;&gt;&gt; " ++ rest)
        with (ch "&" :: codes "gt;" ++ ch "&" :: codes "gt;" ++ ch "&" :: codes "gt; " ++ rest).
      apply nowhere_cons; [reflexivity|].
      apply (nowhere_app _ _ (codes "gt;")); [reflexivity|].
      apply nowhere_cons; [reflexivity|].
      apply (nowhere_app _ _ (codes "gt;")); [reflexivity|].
      apply nowhere_cons; [reflexivity|]. apply nowhere_avoid. avoid_solve. }
    unfold Parser.remove_suppressed_embed_arrows.
    rewrite (sub_nowhere (codes "&l")) by (first [reflexivity | exact Nlt]). cbn [bind].
    assert (Hq : Parser.blockquote (pre ++ sp ++ codes "&gt;&gt;&gt; " ++ rest)
                 = Some (pre ++ quote_div rest)).
    { unfold Parser.blockquote.
      change Parser.blockQuote_pattern
        with (quote_pattern (ch "&" :: codes "gt;&gt;&gt; ") (ch "&" :: codes "gt; ")).
      change (codes "&gt;&gt;&gt; ") with (ch "&" :: codes "gt;&gt;&gt; ").
      apply (rest_sub (ch "&") (codes "gt;&gt;&gt; ") (codes "gt; ") pre sp rest);
        try assumption; try reflexivity; try avoid_solve.
      unfold Parser.blockquote_repl.
      rewrite (rest_group1 (ch "&") (codes "gt;&gt;&gt; ") pre sp rest). reflexivity. }
    rewrite Hq. cbn [bind].
    unfold Parser.spoiler. dead_q [ch "|"].
    unfold Parser.strikethrough. dead_q [ch "~"].
    unfold Parser.bold. dead_q [ch "*"].
    unfold Parser.underline. dead_q [ch "_"].
    unfold Parser.italics. dead_q [ch "*"; ch "_"].
    unfold Parser.linkify. dead_q [ch ":"].
    unfold Parser.emojify.
    match goal with |- context [Parser.womboji ?t] => destruct (Parser.womboji t) end;
      dead_q [ch "&"]; unfold Parser.remove_escaped_symbol;
      dead_q [backslash]; reflexivity.
  - unfold BulkDelete.markdown.
    unfold BulkDelete.codeblock. dead_qn [ch "`"].
    unfold BulkDelete.inline_codeblock. dead_qn [ch "`"].
    assert (Hq : sub BulkDelete.blockQuote_pattern BulkDelete.blockquote_repl
                   (pre ++ sp ++ codes ">>> " ++ rest)
                 = Some (pre ++ quote_div rest)).
    { change BulkDelete.blockQuote_pattern
        with (quote_pattern (ch ">" :: codes ">> ") (ch ">" :: codes " ")).
      change (codes ">>> ") with (ch ">" :: codes ">> ").
      apply (rest_sub (ch ">") (codes ">> ") (codes " ") pre sp rest);
        try assumption; try reflexivity; try avoid_solve.
      unfold BulkDelete.blockquote_repl.
      rewrite (rest_group1 (ch ">") (codes ">> ") pre sp rest). reflexivity. }
    unfold BulkDelete.blockquote. rewrite (subn_of_sub _ _ _ _ Hq). cbn [bind fst snd].
    unfold BulkDelete.spoiler. dead_qn [ch "|"].
    unfold BulkDelete.strikethrough. dead_qn [ch "~"].
    unfold BulkDelete.bold. dead_qn [ch "*"].
    unfold BulkDelete.underline. dead_qn [ch "_"].
    unfold BulkDelete.italics. dead_qn [ch "*"]. dead_qn [ch "_"].
    unfold BulkDelete.remove_escaped_symbol. dead_q [backslash]. reflexivity.
Qed.

Lemma quoted_rest_renders_witness :
  Parser.markdown (codes "so" ++ [newline] ++ codes " >>> one" ++ [newline] ++ codes "two")
  = Some (codes "so" ++ [newline] ++ quote_div (codes "one" ++ [newline] ++ codes "two"))
  /\ BulkDelete.markdown
       (codes "so" ++ [newline] ++ codes " >>> one" ++ [newline] ++ codes "two")
     = Some (codes "so" ++ [newline] ++ quote_div (codes "one" ++ [newline] ++ codes "two")).
Proof.
  apply (quoted_rest_renders (codes "so" ++ [newline]) (codes " ")
           (codes "one" ++ [newline] ++ codes "two")); reflexivity.
Defined.

(** ** Emoji tokens *)

Lemma class_avoid (p : N -> bool) ks (l : list N) :
  forallb (fun k => negb (p k)) ks = true ->
  forallb p l = true -> forallb (avoid ks) l = true.
Proof.
  intros Hk. apply forallb_weaken. intros y Hy. unfold avoid. apply negb_true_iff.
  destruct (existsb (N.eqb y) ks) eqn:E; [|reflexivity].
  apply existsb_exists in E. destruct E as (k & Hin & E). apply N.eqb_eq in E. subst k.
  pose proof (proj1 (forallb_forall _ _) Hk y Hin) as H. cbv beta in H.
  rewrite Hy in H. discriminate H.
Qed.

Lemma digit_alnum (l : list N) : forallb digit l = true -> forallb alnum l = true.
Proof.
  apply forallb_weaken. intros y. unfold digit, alnum, Parser.digit_cls.
  cbn [cls_mem existsb item_mem]. intros H. rewrite orb_false_r in H. rewrite H. reflexivity.
Qed.

Lemma alnum_name (l : list N) :
  forallb alnum l = true -> forallb (cls_mem Parser.emoji_name_cls) l = true.
Proof.
  apply forallb_weaken. intros y. unfold alnum, Parser.emoji_name_cls.
  cbn [cls_mem existsb item_mem]. intros H.
  apply orb_true_iff in H. destruct H as [H|H]; [rewrite H; reflexivity|].
  apply orb_true_iff in H. destruct H as [H|H]; [rewrite H, ?orb_true_r; reflexivity|].
  apply orb_true_iff in H. destruct H as [H|H]; [|discriminate H].
  rewrite H, ?orb_true_r. reflexivity.
Qed.

Ltac emoji_avoid :=
  unfold emoji_escaped, emoji_token, emoji_tag, anim;
  repeat rewrite forallb_app; repeat (apply andb_true_intro; split);
  first
    [ reflexivity
    | assumption
    | match goal with |- context [if ?b then _ else _] => destruct b; reflexivity end
    | match goal with
      | H : forallb alnum ?l = true |- forallb (avoid ?ks) ?l = true =>
          exact (class_avoid alnum ks l eq_refl H)
      | H : forallb inert ?l = true |- forallb (avoid ?ks) ?l = true =>
          exact (avoid_all ks marks l eq_refl H)
      end ].

Ltac dead_e ks :=
  rewrite (sub_avoid ks) by (first [reflexivity | emoji_avoid]); cbn [bind].

Lemma only_at2 x w (A M R : list N) j :
  forallb (avoid [x]) A = true -> forallb (avoid [x]) M = true ->
  forallb (avoid [x]) R = true ->
  j <> List.length A -> j <> List.length A + 1 + List.length M ->
  starts_with (x :: w) (skipn j (A ++ x :: M ++ x :: R)) = false.
Proof.
  intros HA HM HR H1 H2. destruct (Nat.lt_ge_cases j (List.length A)) as [Hlt|Hge].
  - apply starts_with_inside; assumption.
  - replace j with (List.length A + S (j - List.length A - 1)) by lia.
    rewrite skipn_at. cbn [skipn]. apply only_at; try assumption. lia.
Qed.

Lemma starts_with_first k (a b : list N) :
  a <> [] -> forallb (avoid [k]) a = true -> starts_with [k] (a ++ b) = false.
Proof.
  destruct a as [|y a]; [congruence|]. intros _ H. cbn [forallb] in H.
  apply andb_true_iff in H. destruct H as [H _].
  cbn [app]. apply starts_with_miss. apply not_eq_sym, (avoid_In _ _ H). left. reflexivity.
Qed.

Section EmojiToken.
Variables (animated : bool) (pre name id suf : list N).
Hypothesis pre_inert : forallb inert pre = true.
Hypothesis suf_inert : forallb inert suf = true.
Hypothesis name_ok : forallb alnum name = true.
Hypothesis name_min : 2 <= List.length name.
Hypothesis name_max : List.length name <= 32.
Hypothesis id_ok : forallb digit id = true.
Hypothesis id_min : 15 <= List.length id.
Hypothesis id_max : List.length id <= 21.

Local Abbreviation an := (anim animated).
Local Abbreviation B := (pre ++ emoji_escaped animated name id ++ suf).
Local Abbreviation p := (List.length pre).
Local Abbreviation a0 := (List.length pre + 4 + List.length (anim animated)).

Lemma em_at_open :
  skipn p B = codes "&lt;" ++ an ++ codes ":" ++ name ++ codes ":" ++ id ++ codes "&gt;" ++ suf.
Proof. rewrite skipn_at0. unfold emoji_escaped. rewrite <- !app_assoc. reflexivity. Qed.

Lemma em_at_anim :
  skipn (p + 4) B = an ++ codes ":" ++ name ++ codes ":" ++ id ++ codes "&gt;" ++ suf.
Proof. rewrite <- skipn_plus, em_at_open. reflexivity. Qed.

Lemma em_at_colon :
  skipn a0 B = codes ":" ++ name ++ codes ":" ++ id ++ codes "&gt;" ++ suf.
Proof. rewrite <- skipn_plus, em_at_anim. apply skipn_at0. Qed.

Lemma em_at_name : skipn (a0 + 1) B = name ++ codes ":" ++ id ++ codes "&gt;" ++ suf.
Proof. rewrite <- skipn_plus, em_at_colon. reflexivity. Qed.

Lemma em_at_colon2 :
  skipn (a0 + 1 + List.length name) B = codes ":" ++ id ++ codes "&gt;" ++ suf.
Proof. rewrite <- skipn_plus, em_at_name. apply skipn_at0. Qed.

Lemma em_at_id : skipn (a0 + 1 + List.length name + 1) B = id ++ codes "&gt;" ++ suf.
Proof. rewrite <- skipn_plus, em_at_colon2. reflexivity. Qed.

Lemma em_at_close :
  skipn (a0 + 1 + List.length name + 1 + List.length id) B = codes "&gt;" ++ suf.
Proof. rewrite <- skipn_plus, em_at_id. apply skipn_at0. Qed.

Lemma em_length :
  List.length (emoji_escaped animated name id)
  = 4 + List.length an + 1 + List.length name + 1 + List.length id + 4.
Proof.
  unfold emoji_escaped. rewrite !length_app. change (List.length (codes "&lt;")) with 4.
  change (List.length (codes ":")) with 1. change (List.length (codes "&gt;")) with 4. lia.
Qed.

Lemma em_name_span (rest : list N) :
  span Parser.emoji_name_cls (name ++ codes ":" ++ rest) = List.length name.
Proof. apply span_stop; [apply alnum_name, name_ok|reflexivity]. Qed.

Lemma em_id_span (y : N) (rest : list N) :
  digit y = false -> span Parser.digit_cls (id ++ y :: rest) = List.length id.
Proof. intros Hy. apply span_stop; [exact id_ok|exact Hy]. Qed.

(** The token pattern from the first colon on. *)
Lemma em_tail c0 :
  hd_error
    (mtk (Str (codes ":") ;;; Grp 2 (Rep true 2 (Some 32) Parser.emoji_name_cls) ;;;
          Str (codes ":") ;;; Grp 3 (Rep true 15 (Some 21) Parser.digit_cls) ;;;
          Str (codes "&gt;")) B a0 c0 (fun jc => [jc]))
  = Some (p + List.length (emoji_escaped animated name id),
          (3, (a0 + 1 + List.length name + 1, a0 + 1 + List.length name + 1 + List.length id))
            :: (2, (a0 + 1, a0 + 1 + List.length name)) :: c0).
Proof.
  rewrite mtk_seq, mtk_str, em_at_colon, starts_with_app.
  cbv beta. cbn [fst snd]. change (List.length (codes ":")) with 1.
  rewrite mtk_seq, mtk_grp.
  apply (mtk_greedy 2 (Some 32) _ _ _ _ _ _ (List.length name)).
  - rewrite em_at_name, em_name_span. lia.
  - exact name_min.
  - cbv beta. cbn [fst snd]. rewrite mtk_seq, mtk_str, em_at_colon2, starts_with_app.
    cbv beta. cbn [fst snd]. change (List.length (codes ":")) with 1.
    rewrite mtk_seq, mtk_grp.
    apply (mtk_greedy 15 (Some 21) _ _ _ _ _ _ (List.length id)).
    + rewrite em_at_id. change (codes "&gt;" ++ suf) with (ch "&" :: codes "gt;" ++ suf).
      rewrite em_id_span by reflexivity. lia.
    + exact id_min.
    + cbv beta. cbn [fst snd]. rewrite mtk_str, em_at_close, starts_with_app.
      cbn [hd_error]. rewrite em_length. change (List.length (codes "&gt;")) with 4.
      f_equal. f_equal. lia.
Qed.

Lemma em_match :
  match_at Parser.nitro_emote_pattern B p
  = Some (p + List.length (emoji_escaped animated name id), emoji_caps animated pre name id).
Proof.
  unfold Parser.nitro_emote_pattern.
  rewrite match_at_mtk, mtk_seq, mtk_str, em_at_open, starts_with_app.
  cbv beta. cbn [fst snd]. change (List.length (codes "&lt;")) with 4.
  rewrite mtk_seq, mtk_opt, mtk_grp, mtk_str, em_at_anim.
  pose proof (em_tail []) as T0.
  pose proof (em_tail [(1, (p + 4, p + 4 + 1))]) as T1.
  unfold emoji_caps. destruct animated; cbn [anim app] in *.
  - change (starts_with (codes "a")
              (codes "a" ++ codes ":" ++ name ++ codes ":" ++ id ++ codes "&gt;" ++ suf))
      with true.
    cbv beta iota. cbn [fst snd]. change (List.length (codes "a")) with 1 in *.
    replace (p + 5) with (p + 4 + 1) by lia.
    rewrite hd_error_app, T1. reflexivity.
  - change (starts_with (codes "a")
              (codes ":" ++ name ++ codes ":" ++ id ++ codes "&gt;" ++ suf))
      with false.
    cbv beta iota. cbn [app List.length fst snd] in *. rewrite Nat.add_0_r in T0.
    rewrite T0. rewrite Nat.add_0_r. reflexivity.
Qed.

Lemma em_dead i :
  i < p \/ p + List.length (emoji_escaped animated name id) <= i ->
  match_at Parser.nitro_emote_pattern B i = None.
Proof.
  intros Hi. unfold match_at, Parser.nitro_emote_pattern. rewrite str_dead; [reflexivity|].
  destruct Hi as [Hi|Hi].
  - apply (starts_with_inside (ch "&") (codes "lt;")); [avoid_solve|exact Hi].
  - replace i with (p + (List.length (emoji_escaped animated name id)
                         + (i - (p + List.length (emoji_escaped animated name id)))))
      by lia.
    rewrite !skipn_at. apply (starts_with_outside (ch "&") (codes "lt;")). avoid_solve.
Qed.

Lemma em_group2 j :
  group (mkMatch B p j (emoji_caps animated pre name id)) 2 = Some name.
Proof.
  clear name_min name_max id_min id_max.
  unfold group, emoji_caps. cbn [m_caps m_string get Nat.eqb]. f_equal.
  replace B with ((pre ++ codes "&lt;" ++ an ++ codes ":")
                    ++ name ++ codes ":" ++ id ++ codes "&gt;" ++ suf)
    by (unfold emoji_escaped; rewrite <- !app_assoc; reflexivity).
  replace (p + 4 + List.length an + 1)
    with (List.length (pre ++ codes "&lt;" ++ an ++ codes ":"))
    by (rewrite !length_app; change (List.length (codes "&lt;")) with 4;
        change (List.length (codes ":")) with 1; lia).
  apply slice_middle.
Qed.

Lemma em_group3 j :
  group (mkMatch B p j (emoji_caps animated pre name id)) 3 = Some id.
Proof.
  clear name_min name_max id_min id_max.
  unfold group, emoji_caps. cbn [m_caps m_string get Nat.eqb]. f_equal.
  replace B with ((pre ++ codes "&lt;" ++ an ++ codes ":" ++ name ++ codes ":")
                    ++ id ++ codes "&gt;" ++ suf)
    by (unfold emoji_escaped; rewrite <- !app_assoc; reflexivity).
  replace (p + 4 + List.length an + 1 + List.length name + 1)
    with (List.length (pre ++ codes "&lt;" ++ an ++ codes ":" ++ name ++ codes ":"))
    by (rewrite !length_app; change (List.length (codes "&lt;")) with 4;
        change (List.length (codes ":")) with 1; lia).
  apply slice_middle.
Qed.

Lemma em_group1 j :
  Parser.truthy (group (mkMatch B p j (emoji_caps animated pre name id)) 1) = animated.
Proof.
  unfold group, emoji_caps. cbn [m_caps m_string get Nat.eqb].
  destruct animated; cbn [get Nat.eqb Parser.truthy anim]; [|reflexivity].
  replace (p + 5) with (S (p + 4)) by lia.
  rewrite (slice_one _ _ (ch "a")
             (codes ":" ++ name ++ codes ":" ++ id ++ codes "&gt;" ++ suf)).
  - reflexivity.
  - rewrite <- skipn_plus, skipn_at0. unfold emoji_escaped. cbn [anim].
    rewrite <- !app_assoc. reflexivity.
Qed.

Lemma em_repl (large : bool) j :
  (if large then Parser.wombojify_repl else Parser.emojify_repl)
    (mkMatch B p j (emoji_caps animated pre name id))
  = Some (emoji_tag large animated name id).
Proof.
  destruct large; unfold Parser.wombojify_repl, Parser.emojify_repl, Parser.emoji_img;
    rewrite em_group1, em_group2, em_group3; unfold emoji_tag;
    destruct animated; cbn [fmt]; f_equal; cbn [text Glyph_N Parser.q lit];
    rewrite <- ?app_assoc; reflexivity.
Qed.

Lemma em_sub (large : bool) :
  sub Parser.nitro_emote_pattern
      (if large then Parser.wombojify_repl else Parser.emojify_repl) B
  = Some (pre ++ emoji_tag large animated name id ++ suf).
Proof.
  apply (sub_one _ _ _ _ _ (emoji_caps animated pre name id)).
  - discriminate.
  - intros i Hi. apply em_dead. left. exact Hi.
  - apply em_match.
  - intros k. apply em_dead. right. lia.
  - apply em_repl.
Qed.

End EmojiToken.

Section EmojiPipeline.
Variables (animated : bool) (pre name id suf : list N).
Hypothesis pre_inert : forallb inert pre = true.
Hypothesis suf_inert : forallb inert suf = true.
Hypothesis name_ok : forallb alnum name = true.
Hypothesis name_min : 2 <= List.length name.
Hypothesis name_max : List.length name <= 32.
Hypothesis id_ok : forallb digit id = true.
Hypothesis id_min : 15 <= List.length id.
Hypothesis id_max : List.length id <= 21.

Local Abbreviation an := (anim animated).
Local Abbreviation B := (pre ++ emoji_escaped animated name id ++ suf).
Local Abbreviation p := (List.length pre).
Local Abbreviation M := (codes "lt;" ++ anim animated ++ codes ":" ++ name ++ codes ":" ++ id).
Local Abbreviation g :=
  (List.length pre + 4 + List.length (anim animated) + 1 + List.length name + 1
   + List.length id).

Lemma em_name_ne : name <> [].
Proof. destruct name; [cbn [List.length] in name_min; lia|discriminate]. Qed.

Lemma em_id_ne : id <> [].
Proof. destruct id; [cbn [List.length] in id_min; lia|discriminate]. Qed.

Lemma em_id_alnum : forallb alnum id = true.
Proof. apply digit_alnum, id_ok. Qed.

Lemma em_shape : B = pre ++ ch "&" :: M ++ ch "&" :: codes "gt;" ++ suf.
Proof. unfold emoji_escaped. rewrite <- !app_assoc. reflexivity. Qed.

Lemma em_M_length : p + 1 + List.length M = g.
Proof.
  rewrite !length_app. change (List.length (codes "lt;")) with 3.
  change (List.length (codes ":")) with 1. lia.
Qed.

Lemma em_M_amp : forallb (avoid [ch "&"]) M = true.
Proof. pose proof em_id_alnum. emoji_avoid. Qed.

(** The buffer has its two ampersands where the token starts and where
    it ends. *)
Lemma em_amp_only w j :
  j <> p -> j <> g -> starts_with (ch "&" :: w) (skipn j B) = false.
Proof.
  intros H1 H2. rewrite em_shape. apply only_at2; try assumption.
  - avoid_solve.
  - apply em_M_amp.
  - avoid_solve.
  - rewrite em_M_length. exact H2.
Qed.

(** No colon of the buffer has a slash after it: no link pattern
    matches. *)
Lemma em_no_scheme : nowhere (codes ":/") B.
Proof.
  pose proof em_id_alnum as id_an.
  replace B with ((pre ++ codes "&lt;" ++ an)
                    ++ ch ":" :: name ++ ch ":" :: id ++ codes "&gt;" ++ suf)
    by (unfold emoji_escaped; rewrite <- !app_assoc; reflexivity).
  apply nowhere_app; [emoji_avoid|].
  apply nowhere_cons.
  - change (starts_with (codes ":/") (ch ":" :: name ++ ch ":" :: id ++ codes "&gt;" ++ suf))
      with (starts_with [ch "/"] (name ++ ch ":" :: id ++ codes "&gt;" ++ suf)).
    apply starts_with_first; [apply em_name_ne|emoji_avoid].
  - apply nowhere_app; [emoji_avoid|].
    apply nowhere_cons.
    + change (starts_with (codes ":/") (ch ":" :: id ++ codes "&gt;" ++ suf))
        with (starts_with [ch "/"] (id ++ codes "&gt;" ++ suf)).
      apply starts_with_first; [apply em_id_ne|emoji_avoid].
    + apply nowhere_avoid. emoji_avoid.
Qed.

Lemma em_front_length :
  List.length (pre ++ codes "&lt;" ++ an ++ codes ":" ++ name ++ codes ":") + List.length id
  = g.
Proof.
  rewrite !length_app. change (List.length (codes "&lt;")) with 4.
  change (List.length (codes ":")) with 1. lia.
Qed.

Lemma em_shape_id :
  B = (pre ++ codes "&lt;" ++ an ++ codes ":" ++ name ++ codes ":")
        ++ id ++ codes "&gt;" ++ suf.
Proof. unfold emoji_escaped. rewrite <- !app_assoc. reflexivity. Qed.

(** A digit of the id stands before the closing entity. *)
Lemma em_before_close :
  exists y, nth_error B (g - 1) = Some y /\ digit y = true.
Proof.
  pose proof em_id_ne as Hne.
  assert (Hl : 0 < List.length id) by (destruct id; [congruence|cbn [List.length]; lia]).
  destruct (nth_error_inside (pre ++ codes "&lt;" ++ an ++ codes ":" ++ name ++ codes ":")
              id (codes "&gt;" ++ suf) (List.length id - 1) ltac:(lia)) as (y & Hy & Iy).
  exists y. split.
  - rewrite em_shape_id. rewrite <- Hy. f_equal. rewrite <- em_front_length. lia.
  - exact (proj1 (forallb_forall _ _) id_ok y Iy).
Qed.

(** The closing entity of the token opens no quote: it does not stand
    at the start of a line. *)
Lemma em_quote_dead i : match_at Parser.blockQuote_pattern B i = None.
Proof.
  destruct em_before_close as (y & Hy & Dy).
  assert (Hg : 0 < g) by (pose proof id_min; lia).
  unfold Parser.blockQuote_pattern. apply match_at_neither; unfold match_at.
  - rewrite (needs_word_dead (codes "&gt;&")); [reflexivity|reflexivity|].
    rewrite em_shape. apply nowhere_app; [avoid_solve|].
    apply nowhere_cons; [reflexivity|].
    apply nowhere_app; [apply em_M_amp|].
    apply nowhere_cons.
    + change (starts_with (codes "&gt;&") (ch "&" :: codes "gt;" ++ suf))
        with (starts_with [ch "&"] suf).
      apply starts_with_one. avoid_solve.
    + apply nowhere_avoid. avoid_solve.
  - assert (Hs : mt Parser.blockQuote_single B i [] = []); [|rewrite Hs; reflexivity].
    rewrite mt_mtk. unfold Parser.blockQuote_single. rewrite mtk_seq, mtk_bol.
    destruct ((i =? 0) || prev_is (N.eqb newline) B i) eqn:Hb; [|reflexivity].
    cbv beta. cbn [fst snd]. rewrite mtk_seq. unfold mtk at 1.
    apply flat_map_nil. intros [j c'] Hin. apply in_mt_rep in Hin.
    destruct Hin as (_ & H1 & H2). cbv beta. cbn [fst snd]. rewrite mtk_seq, mtk_str.
    replace (starts_with (codes "&gt; ") (skipn j B)) with false; [reflexivity|].
    symmetry. destruct (Nat.eq_dec j g) as [Ej|Ej].
    + exfalso. destruct (Nat.eq_dec i g) as [Ei|Ei].
      * rewrite Ei in Hb. apply orb_true_iff in Hb. destruct Hb as [Hb|Hb].
        -- apply Nat.eqb_eq in Hb. lia.
        -- unfold prev_is in Hb. destruct g as [|g'] eqn:Eg; [lia|].
           replace (S g' - 1) with g' in Hy by lia. rewrite Hy in Hb.
           apply N.eqb_eq in Hb. subst y. discriminate Dy.
      * destruct (run_member spc B i j (g - 1) H2 ltac:(lia)) as (z & Hz & Kz).
        rewrite Hy in Hz. inversion Hz; subst z.
        unfold digit, Parser.digit_cls, spc in *. cbn [cls_mem existsb item_mem] in *.
        rewrite orb_false_r in *. apply N.eqb_eq in Kz. subst y. discriminate Dy.
    + destruct (Nat.eq_dec j p) as [Ep|Ep].
      * rewrite Ep, skipn_at0. reflexivity.
      * apply (em_amp_only (codes "gt; ")); assumption.
Qed.

Lemma em_escape :
  escape (pre ++ emoji_token animated name id ++ suf) = B.
Proof.
  pose proof em_id_alnum as id_an.
  unfold emoji_token, emoji_escaped. rewrite !escape_app.
  rewrite (escape_inert_N pre), (escape_inert_N suf) by assumption.
  rewrite (escape_avoid name), (escape_avoid id) by emoji_avoid.
  destruct animated; reflexivity.
Qed.

(** The whole pipeline on a token between plain texts: the size class
    is the decision of the detector on the raw input. *)
Lemma em_pipeline (large : bool) :
  Parser.womboji (pre ++ emoji_token animated name id ++ suf) = large ->
  Parser.markdown (pre ++ emoji_token animated name id ++ suf)
  = Some (pre ++ emoji_tag large animated name id ++ suf).
Proof.
  intros Hw. pose proof em_id_alnum as id_an.
  unfold Parser.markdown. rewrite em_escape.
  unfold Parser.codeblock. dead_e [ch "`"].
  unfold Parser.inline_codeblock. dead_e [ch "`"].
  unfold Parser.remove_suppressed_embed_arrows.
  rewrite (sub_nowhere (codes ":/")) by (first [reflexivity | apply em_no_scheme]).
  cbn [bind].
  unfold Parser.blockquote.
  rewrite sub_no_match
    by (intros i; cbn [code Glyph_N]; rewrite map_id; apply em_quote_dead).
  cbn [bind].
  unfold Parser.spoiler. dead_e [ch "|"].
  unfold Parser.strikethrough. dead_e [ch "~"].
  unfold Parser.bold. dead_e [ch "*"].
  unfold Parser.underline. dead_e [ch "_"].
  unfold Parser.italics. dead_e [ch "*"; ch "_"].
  unfold Parser.linkify.
  rewrite (sub_nowhere (codes ":/")) by (first [reflexivity | apply em_no_scheme]).
  cbn [bind].
  unfold Parser.emojify. rewrite Hw.
  assert (He : (if large
                then sub Parser.nitro_emote_pattern Parser.wombojify_repl B
                else sub Parser.nitro_emote_pattern Parser.emojify_repl B)
               = Some (pre ++ emoji_tag large animated name id ++ suf)).
  { destruct large.
    - apply (em_sub animated pre name id suf pre_inert suf_inert name_ok name_min name_max
               id_ok id_min id_max true).
    - apply (em_sub animated pre name id suf pre_inert suf_inert name_ok name_min name_max
               id_ok id_min id_max false). }
  rewrite He. cbn [bind].
  unfold Parser.remove_escaped_symbol. dead_e [backslash]. reflexivity.
Qed.

End EmojiPipeline.

(** *** The size of an emoji *)

Lemma last_cons_default (t : list N) : forall a b, last (b :: t) a = last t b.
Proof.
  induction t as [|c t IH]; intros a b; [reflexivity|].
  change (last (b :: c :: t) a) with (last (c :: t) a). rewrite (IH a c), (IH b c).
  reflexivity.
Qed.

Lemma pairs_ok_app p (l2 : list N) : forall l1,
  pairs_ok p l1 = true -> pairs_ok p l2 = true ->
  (forall a t y r, l1 = a :: t -> l2 = y :: r -> p (last t a) y = true) ->
  pairs_ok p (l1 ++ l2) = true.
Proof.
  induction l1 as [|a l1 IH]; intros H1 H2 Hb; [exact H2|].
  destruct l1 as [|b t].
  - destruct l2 as [|y r]; [reflexivity|].
    change ([a] ++ y :: r) with (a :: y :: r). rewrite pairs_ok_cons2, H2.
    pose proof (Hb a [] y r eq_refl eq_refl) as Hp. cbn [last] in Hp. rewrite Hp.
    reflexivity.
  - change ((a :: b :: t) ++ l2) with (a :: b :: (t ++ l2)).
    rewrite pairs_ok_cons2 in *. apply andb_true_iff in H1. destruct H1 as [Hab H1].
    rewrite Hab. cbn [andb]. apply (IH H1 H2).
    intros a' t' y r E1 E2. inversion E1; subst a' t'.
    rewrite <- (last_cons_default t a b). exact (Hb a (b :: t) y r eq_refl E2).
Qed.

Lemma pairs_ok_plain (l : list N) :
  forallb (avoid [ch "<"; ch ">"]) l = true -> pairs_ok stands_alone l = true.
Proof.
  induction l as [|x l IH]; intros H; [reflexivity|].
  cbn [forallb] in H. apply andb_true_iff in H. destruct H as [Hx Hl].
  destruct l as [|y t]; [reflexivity|].
  rewrite pairs_ok_cons2, (IH Hl), andb_true_r.
  cbn [forallb] in Hl. apply andb_true_iff in Hl. destruct Hl as [Hy _].
  unfold stands_alone, avoid in *. cbn [existsb] in *.
  rewrite orb_false_r in *. apply negb_true_iff in Hx, Hy.
  apply orb_false_iff in Hx, Hy. destruct Hx as [_ Hx]. destruct Hy as [Hy _].
  rewrite Hx, Hy. reflexivity.
Qed.

Lemma side_text_side y : side_text y = false -> cls_mem Parser.side_cls y = false.
Proof. unfold side_text. intros H. apply orb_false_iff in H. apply H. Qed.

Section EmojiSize.
Variables (animated : bool) (pre name id suf : list N).
Hypothesis pre_inert : forallb inert pre = true.
Hypothesis suf_inert : forallb inert suf = true.
Hypothesis name_ok : forallb alnum name = true.
Hypothesis name_min : 2 <= List.length name.
Hypothesis name_max : List.length name <= 32.
Hypothesis id_ok : forallb digit id = true.
Hypothesis id_min : 15 <= List.length id.
Hypothesis id_max : List.length id <= 21.

Local Abbreviation an := (anim animated).
Local Abbreviation mid := (anim animated ++ codes ":" ++ name ++ codes ":" ++ id).
Local Abbreviation raw := (pre ++ emoji_token animated name id ++ suf).

Lemma em_token_shape : emoji_token animated name id = ch "<" :: mid ++ [ch ">"].
Proof. unfold emoji_token. rewrite <- !app_assoc. reflexivity. Qed.

(** No text next to the token: the detector finds no side text. *)
Lemma em_large :
  last_is side_text pre = false -> first_is side_text suf = false ->
  Parser.womboji raw = true.
Proof.
  intros Hb Ha. pose proof (digit_alnum _ id_ok) as id_an.
  apply tokens_alone_large. rewrite em_token_shape.
  apply pairs_ok_app.
  - apply pairs_ok_plain. avoid_solve.
  - apply pairs_ok_app.
    + apply single_token_stands_alone; [reflexivity|].
      assert (Hm : forallb (avoid [ch "<"; ch ">"]) mid = true) by emoji_avoid.
      eapply forallb_weaken; [|exact Hm]. intros y Hy. unfold avoid in Hy.
      cbn [existsb] in Hy. rewrite orb_false_r in Hy. exact Hy.
    + apply pairs_ok_plain. avoid_solve.
    + intros a t y r E1 E2. inversion E1; subst a t. rewrite last_last.
      rewrite E2 in Ha, suf_inert. cbn [first_is] in Ha. apply side_text_side in Ha.
      cbn [forallb] in suf_inert. apply andb_true_iff in suf_inert.
      destruct suf_inert as [Hy _].
      assert (Hlt : (y =? ch "<")%N = false).
      { apply N.eqb_neq. intros ->. discriminate Hy. }
      unfold stands_alone. rewrite Hlt, Ha. reflexivity.
  - intros a t y r E1 E2. rewrite E1 in Hb. cbn [last_is] in Hb.
    apply side_text_side in Hb. cbn [app] in E2. inversion E2; subst y.
    unfold stands_alone. rewrite Hb.
    change (cls_mem Parser.side_cls 60) with false. cbn [negb].
    rewrite !orb_true_r. reflexivity.
Qed.

End EmojiSize.

Lemma last_is_snoc p (l : list N) x : last_is p (l ++ [x]) = p x.
Proof.
  destruct l as [|a l]; [reflexivity|].
  change ((a :: l) ++ [x]) with (a :: (l ++ [x])). cbn [last_is].
  rewrite last_last. reflexivity.
Qed.

(** A text that ends in a character of a class ends in a run of the
    class with a character outside the class, or nothing, before it. *)
Lemma class_suffix p (l : list N) :
  last_is p l = true ->
  exists l0 run, l = l0 ++ run /\ run <> [] /\ forallb p run = true
                 /\ last_is p l0 = false.
Proof.
  induction l as [|x l IH] using rev_ind; [discriminate|].
  rewrite last_is_snoc. intros Hx. destruct (last_is p l) eqn:Hl.
  - destruct (IH eq_refl) as (l0 & run & E & Hne & Hr & H0).
    exists l0, (run ++ [x]). repeat split.
    + rewrite E, <- app_assoc. reflexivity.
    + destruct run; discriminate.
    + rewrite forallb_app, Hr. cbn [forallb]. rewrite Hx. reflexivity.
    + exact H0.
  - exists l, [x]. repeat split; [discriminate| |exact Hl].
    cbn [forallb]. rewrite Hx. reflexivity.
Qed.

Lemma hd_app_first {X} (a b : list X) y : hd_error a = Some y -> hd_error (a ++ b) = Some y.
Proof. intros H. rewrite hd_error_app, H. reflexivity. Qed.

Lemma scan_first {C} `{Glyph C} r (subj : list C) cs rest i j c :
  match_at r cs i = Some (j, c) ->
  exists tl, scan_loop r subj cs rest i 0 = mkMatch subj i j c :: tl.
Proof.
  intros M. destruct rest; cbn [scan_loop]; rewrite M; eexists; reflexivity.
Qed.

Lemma not_side_not_space x :
  cls_mem Parser.side_cls x = false -> cls_mem (Pos [Space]) x = false.
Proof.
  intros H. destruct (cls_mem (Pos [Space]) x) eqn:E; [|reflexivity].
  rewrite (space_is_side _ E) in H. discriminate H.
Qed.

Section EmojiSmall.
Variables (animated : bool) (pre0 run name id suf : list N).
Hypothesis pre0_lt : forallb (avoid [ch "<"]) pre0 = true.
Hypothesis pre0_end : last_is (cls_mem Parser.side_cls) pre0 = false.
Hypothesis run_ne : run <> [].
Hypothesis run_side : forallb (cls_mem Parser.side_cls) run = true.
Hypothesis name_ok : forallb alnum name = true.
Hypothesis name_min : 2 <= List.length name.
Hypothesis name_max : List.length name <= 32.
Hypothesis id_ok : forallb digit id = true.
Hypothesis id_min : 15 <= List.length id.
Hypothesis id_max : List.length id <= 21.

Local Abbreviation an := (anim animated).
Local Abbreviation raw := (pre0 ++ run ++ emoji_token animated name id ++ suf).
Local Abbreviation i0 := (List.length pre0).
Local Abbreviation p := (List.length pre0 + List.length run).

Lemma wo_at_run : skipn i0 raw = run ++ emoji_token animated name id ++ suf.
Proof. apply skipn_at0. Qed.

Lemma wo_at_open :
  skipn p raw = codes "<" ++ an ++ codes ":" ++ name ++ codes ":" ++ id ++ codes ">" ++ suf.
Proof.
  rewrite <- skipn_plus, wo_at_run, skipn_at0. unfold emoji_token.
  rewrite <- !app_assoc. reflexivity.
Qed.

Lemma wo_at_anim :
  skipn (p + 1) raw = an ++ codes ":" ++ name ++ codes ":" ++ id ++ codes ">" ++ suf.
Proof. rewrite <- skipn_plus, wo_at_open. reflexivity. Qed.

Lemma wo_at_colon :
  skipn (p + 1 + List.length an) raw
  = codes ":" ++ name ++ codes ":" ++ id ++ codes ">" ++ suf.
Proof. rewrite <- skipn_plus, wo_at_anim. apply skipn_at0. Qed.

Lemma wo_at_name :
  skipn (p + 1 + List.length an + 1) raw = name ++ codes ":" ++ id ++ codes ">" ++ suf.
Proof. rewrite <- skipn_plus, wo_at_colon. reflexivity. Qed.

Lemma wo_at_colon2 :
  skipn (p + 1 + List.length an + 1 + List.length name) raw
  = codes ":" ++ id ++ codes ">" ++ suf.
Proof. rewrite <- skipn_plus, wo_at_name. apply skipn_at0. Qed.

Lemma wo_at_id :
  skipn (p + 1 + List.length an + 1 + List.length name + 1) raw = id ++ codes ">" ++ suf.
Proof. rewrite <- skipn_plus, wo_at_colon2. reflexivity. Qed.

Lemma wo_at_close :
  skipn (p + 1 + List.length an + 1 + List.length name + 1 + List.length id) raw
  = codes ">" ++ suf.
Proof. rewrite <- skipn_plus, wo_at_id. apply skipn_at0. Qed.

(** The detector from the opening bracket of the token on: it matches,
    and leaves the first capture as it was. *)
Lemma wo_tail c0 :
  exists j c,
    hd_error
      (mtk (Str (codes "<") ;;; Rep true 0 (Some 1) (Pos [One (ch "a")]) ;;;
            Str (codes ":") ;;; Rep true 2 (Some 32) Parser.emoji_name_cls ;;;
            Str (codes ":") ;;; Rep true 15 (Some 21) Parser.digit_cls ;;;
            Str (codes ">") ;;; Rep true 0 None (Pos [Space]) ;;;
            Opt (Grp 2 (Rep true 0 None Parser.side_cls))) raw p c0 (fun jc => [jc]))
    = Some (j, c)
    /\ get 1 c = get 1 c0.
Proof.
  eexists. eexists. split.
  - rewrite mtk_seq, mtk_str, wo_at_open, starts_with_app.
    cbv beta. cbn [fst snd]. change (List.length (codes "<")) with 1.
    rewrite mtk_seq.
    apply (mtk_greedy 0 (Some 1) _ _ _ _ _ _ (List.length an)).
    { rewrite wo_at_anim.
      rewrite (span_stop (Pos [One (ch "a")]) an) by (destruct animated; reflexivity).
      destruct animated; reflexivity. }
    { lia. }
    cbv beta. cbn [fst snd]. rewrite mtk_seq, mtk_str, wo_at_colon, starts_with_app.
    cbv beta. cbn [fst snd]. change (List.length (codes ":")) with 1.
    rewrite mtk_seq.
    apply (mtk_greedy 2 (Some 32) _ _ _ _ _ _ (List.length name)).
    { rewrite wo_at_name.
      rewrite (span_stop Parser.emoji_name_cls name)
        by (first [apply alnum_name, name_ok | reflexivity]).
      lia. }
    { exact name_min. }
    cbv beta. cbn [fst snd]. rewrite mtk_seq, mtk_str, wo_at_colon2, starts_with_app.
    cbv beta. cbn [fst snd]. change (List.length (codes ":")) with 1.
    rewrite mtk_seq.
    apply (mtk_greedy 15 (Some 21) _ _ _ _ _ _ (List.length id)).
    { rewrite wo_at_id.
      rewrite (span_stop Parser.digit_cls id) by (first [exact id_ok | reflexivity]).
      lia. }
    { exact id_min. }
    cbv beta. cbn [fst snd]. rewrite mtk_seq, mtk_str, wo_at_close, starts_with_app.
    cbv beta. cbn [fst snd].
    rewrite mtk_seq.
    eapply (mtk_greedy 0 None); [reflexivity|lia|].
    cbv beta. cbn [fst snd]. rewrite mtk_opt. apply hd_app_first. rewrite mtk_grp.
    eapply (mtk_greedy 0 None); [reflexivity|lia|].
    cbv beta. cbn [fst snd hd_error]. reflexivity.
  - reflexivity.
Qed.

Lemma wo_run_span : span Parser.side_cls (skipn i0 raw) = List.length run.
Proof.
  rewrite wo_at_run. apply span_stop; [exact run_side|].
  unfold emoji_token. reflexivity.
Qed.

(** Where the run of side text starts, the detector matches, with the
    run as its first capture. *)
Lemma wo_match :
  exists j c,
    match_at Parser.womboji_pattern raw i0 = Some (j, c) /\ get 1 c = Some (i0, p).
Proof.
  destruct (wo_tail [(1, (i0, p))]) as (j & c & Hm & Hg).
  exists j, c. split; [|exact Hg].
  unfold Parser.womboji_pattern. rewrite match_at_mtk, mtk_seq, mtk_opt.
  apply hd_app_first. rewrite mtk_grp.
  apply (mtk_greedy 0 None _ _ _ _ _ _ (List.length run));
    [symmetry; apply wo_run_span|lia|].
  cbv beta. cbn [fst snd]. rewrite mtk_seq.
  apply (mtk_greedy 0 None _ _ _ _ _ _ 0); [|lia|].
  - rewrite wo_at_open. reflexivity.
  - cbv beta. cbn [fst snd]. rewrite Nat.add_0_r. exact Hm.
Qed.

(** Before the run no match of the detector starts: the character
    before the run keeps every run of side text and of whitespace away
    from the token. *)
Lemma wo_dead_before i : i < i0 -> match_at Parser.womboji_pattern raw i = None.
Proof.
  intros Hi. destruct (match_at Parser.womboji_pattern raw i) as [[j c]|] eqn:M;
    [exfalso|reflexivity].
  apply match_at_In in M. unfold Parser.womboji_pattern in M.
  destruct pre0 as [|a0 t0] eqn:E0; [cbn [List.length] in Hi; lia|].
  destruct (@exists_last _ (a0 :: t0)) as (a & x0 & Ea); [discriminate|].
  assert (Hx : cls_mem Parser.side_cls x0 = false).
  { cbn [last_is] in pre0_end. rewrite <- (last_cons_default t0 x0 a0), Ea, last_last
      in pre0_end. exact pre0_end. }
  assert (Hlen : List.length (a0 :: t0) = S (List.length a))
    by (rewrite Ea, length_app; cbn [List.length]; lia).
  assert (Hsp : forall k q, q <= List.length a ->
                  (cls_mem k x0 = false) ->
                  q + span k (skipn q ((a0 :: t0) ++ run ++ emoji_token animated name id ++ suf))
                  <= List.length a).
  { intros k q Hq Hk. rewrite Ea, <- app_assoc, skipn_in by lia. cbn [app].
    pose proof (span_bound k x0 (run ++ emoji_token animated name id ++ suf)
                  (skipn q a) Hk) as Hb.
    rewrite length_skipn in Hb. lia. }
  apply in_mt_seq in M. destruct M as (k1 & c1 & M1 & M).
  assert (H1 : i <= k1 <= List.length a).
  { cbn [mt] in M1. apply in_app_or in M1. destruct M1 as [M1|[E|[]]].
    - apply in_map_iff in M1. destruct M1 as ([k c0] & E & M1). cbn [fst snd] in E.
      apply in_mt_rep in M1. destruct M1 as (_ & Ha & Hb). inversion E; subst.
      pose proof (Hsp Parser.side_cls i ltac:(lia) Hx). lia.
    - inversion E; subst. lia. }
  apply in_mt_seq in M. destruct M as (k2 & c2 & M2 & M).
  apply in_mt_rep in M2. destruct M2 as (_ & Ha & Hb).
  pose proof (Hsp (Pos [Space]) k1 ltac:(lia) (not_side_not_space _ Hx)) as H2.
  apply in_mt_seq in M. destruct M as (k3 & c3 & M3 & _).
  apply in_mt_str in M3. destruct M3 as (_ & _ & M3).
  rewrite (starts_with_inside (ch "<") [] (a0 :: t0)) in M3; [discriminate| |lia].
  exact pre0_lt.
Qed.

End EmojiSmall.

(** Text before the token: the detector captures it. *)
Lemma em_small (animated : bool) (pre name id suf : list N) :
  forallb inert pre = true ->
  forallb alnum name = true -> 2 <= List.length name -> List.length name <= 32 ->
  forallb digit id = true -> 15 <= List.length id -> List.length id <= 21 ->
  last_is (cls_mem Parser.side_cls) pre = true ->
  Parser.womboji (pre ++ emoji_token animated name id ++ suf) = false.
Proof.
  intros pre_inert name_ok name_min name_max id_ok id_min id_max Hside.
  destruct (class_suffix _ _ Hside) as (l0 & run & E & run_ne & run_side & l0_end).
  assert (l0_lt : forallb (avoid [ch "<"]) l0 = true).
  { assert (Hp : forallb (avoid [ch "<"]) pre = true) by avoid_solve.
    rewrite E, forallb_app in Hp. apply andb_true_iff in Hp. apply Hp. }
  rewrite E, <- app_assoc. rewrite womboji_unfold. unfold finditer.
  cbn [code Glyph_N]. rewrite map_id.
  rewrite (scan_loop_copy _ _ _ l0)
    by (intros k Hk; apply (wo_dead_before animated l0 run name id suf); assumption).
  destruct (wo_match animated l0 run name id suf run_side name_ok name_min name_max
              id_ok id_min id_max) as (j & c & Hm & Hg).
  destruct (scan_first Parser.womboji_pattern
              (l0 ++ run ++ emoji_token animated name id ++ suf)
              (l0 ++ run ++ emoji_token animated name id ++ suf)
              (run ++ emoji_token animated name id ++ suf) _ _ _ Hm) as (tl & Hs).
  cbn [Nat.add]. rewrite Hs. cbn [forallb].
  unfold group at 1. cbn [m_caps m_string]. rewrite Hg. cbn [expand].
  rewrite slice_middle. destruct run; [congruence|reflexivity].
Qed.

(** X18: an emoji token that stands alone renders large.  A token
    <:name:id> or <a:name:id>, with a name of 2 to 32 letters and digits
    and an id of 15 to 21 digits, between texts that hold none of the
    characters the engine looks for, renders as one image of the large
    size class when no side text touches it: the character before the
    token, if there is one, and the character after it are neither
    printable ASCII nor whitespace.  The image has the name as alt and
    title text and the address of the id, as a gif when the token is
    animated and as a png otherwise. *)
Theorem lone_emoji_renders_large (animated : bool) (pre name id suf : list N) :
  forallb inert pre = true -> forallb inert suf = true ->
  forallb alnum name = true -> 2 <= List.length name -> List.length name <= 32 ->
  forallb digit id = true -> 15 <= List.length id -> List.length id <= 21 ->
  last_is side_text pre = false -> first_is side_text suf = false ->
  Parser.markdown (pre ++ emoji_token animated name id ++ suf)
  = Some (pre ++ emoji_tag true animated name id ++ suf).
Proof.
  intros pre_inert suf_inert name_ok name_min name_max id_ok id_min id_max Hb Ha.
  apply em_pipeline; try assumption. apply em_large; assumption.
Qed.

Lemma lone_emoji_renders_large_witness :
  Parser.markdown (codes "<a:wave:123456789012345678>")
  = Some (emoji_tag true true (codes "wave") (codes "123456789012345678")).
Proof.
  apply (lone_emoji_renders_large true [] (codes "wave") (codes "123456789012345678") []);
    first [reflexivity | vm_compute; lia].
Defined.

(** X19: an emoji token after text renders small.  The same token
    renders as one image of the inline size class whenever the character
    before it is printable ASCII or whitespace, whatever follows the
    token; the text around the image stays as it is. *)
Theorem emoji_after_text_renders_small (animated : bool) (pre name id suf : list N) :
  forallb inert pre = true -> forallb inert suf = true ->
  forallb alnum name = true -> 2 <= List.length name -> List.length name <= 32 ->
  forallb digit id = true -> 15 <= List.length id -> List.length id <= 21 ->
  last_is (cls_mem Parser.side_cls) pre = true ->
  Parser.markdown (pre ++ emoji_token animated name id ++ suf)
  = Some (pre ++ emoji_tag false animated name id ++ suf).
Proof.
  intros pre_inert suf_inert name_ok name_min name_max id_ok id_min id_max Hb.
  apply em_pipeline; try assumption. apply em_small; assumption.
Qed.

Lemma emoji_after_text_renders_small_witness :
  Parser.markdown (codes "hello <:wave:123456789012345678> all")
  = Some (codes "hello " ++ emoji_tag false false (codes "wave") (codes "123456789012345678")
            ++ codes " all").
Proof.
  apply (emoji_after_text_renders_small false (codes "hello ") (codes "wave")
           (codes "123456789012345678") (codes " all"));
    first [reflexivity | vm_compute; lia].
Defined.

(** ** Code in the archive copy *)

Lemma first_is_app p (l1 l2 : list N) :
  first_is p l1 = false -> first_is p l2 = false -> first_is p (l1 ++ l2) = false.
Proof. destruct l1; intros H1 H2; [exact H2|exact H1]. Qed.

Lemma first_is_free (l : list N) :
  forallb (avoid [ch ">"]) l = true -> first_is (N.eqb (ch ">")) l = false.
Proof.
  destruct l as [|y l]; [reflexivity|]. cbn [forallb first_is]. intros H.
  apply andb_true_iff in H. destruct H as [H _]. unfold avoid in H. cbn [existsb] in H.
  rewrite orb_false_r in H. apply negb_true_iff in H. rewrite N.eqb_sym. exact H.
Qed.

Lemma quote_pairs_free (l : list N) :
  forallb (avoid [ch ">"]) l = true -> pairs_ok opens_no_quote l = true.
Proof.
  induction l as [|x l IH]; intros H; [reflexivity|].
  cbn [forallb] in H. apply andb_true_iff in H. destruct H as [_ Hl].
  destruct l as [|y t]; [reflexivity|].
  rewrite pairs_ok_cons2, (IH Hl), andb_true_r.
  cbn [forallb] in Hl. apply andb_true_iff in Hl. destruct Hl as [Hy _].
  unfold avoid in Hy. cbn [existsb] in Hy. rewrite orb_false_r in Hy.
  unfold opens_no_quote. rewrite Hy. reflexivity.
Qed.

Lemma quote_pairs_join (l1 l2 : list N) :
  pairs_ok opens_no_quote l1 = true -> pairs_ok opens_no_quote l2 = true ->
  first_is (N.eqb (ch ">")) l2 = false ->
  pairs_ok opens_no_quote (l1 ++ l2) = true.
Proof.
  intros H1 H2 Hf. apply pairs_ok_app; [exact H1|exact H2|].
  intros a t y r _ E. rewrite E in Hf. cbn [first_is] in Hf.
  unfold opens_no_quote. rewrite N.eqb_sym, Hf. reflexivity.
Qed.

(** Protected text opens no quote: its symbols stand after a backslash. *)
Lemma quote_pairs_protect (E : list N) :
  pairs_ok opens_no_quote (flat_map protect E) = true
  /\ first_is (N.eqb (ch ">")) (flat_map protect E) = false.
Proof.
  induction E as [|x E [IH1 IH2]]; [split; reflexivity|].
  cbn [flat_map].
  assert (Hx : pairs_ok opens_no_quote (protect x) = true
               /\ first_is (N.eqb (ch ">")) (protect x) = false).
  { unfold protect. cbn [code lit Glyph_N]. destruct (is_symbol x) eqn:S.
    - split; [|reflexivity]. cbn [pairs_ok]. unfold opens_no_quote.
      change ((backslash =? ch " ") || (backslash =? newline))%N with false.
      cbn [negb]. rewrite orb_true_r. reflexivity.
    - split; [reflexivity|]. cbn [first_is]. apply N.eqb_neq. intros <-.
      discriminate S. }
  destruct Hx as [Hx1 Hx2]. split.
  - apply quote_pairs_join; assumption.
  - apply first_is_app; assumption.
Qed.

(** Where no '>' comes first or after a blank or a line break, the
    quote pattern of the archive copy matches nowhere. *)
Lemma quote_needs_pair w3 w1 (s : list N) i :
  pairs_ok opens_no_quote s = true -> first_is (N.eqb (ch ">")) s = false ->
  match_at (quote_pattern (ch ">" :: w3) (ch ">" :: w1)) s i = None.
Proof.
  intros Hp Hf.
  assert (Hs : forall w t,
             mt (Bol ;;; Rep true 0 None spc ;;; Str (ch ">" :: w) ;;; t) s i [] = []).
  { intros w t. rewrite mt_mtk, mtk_seq, mtk_bol.
    destruct ((i =? 0) || prev_is (N.eqb newline) s i) eqn:Hb; [|reflexivity].
    cbv beta. cbn [fst snd]. rewrite mtk_seq. unfold mtk at 1.
    apply flat_map_nil. intros [j c'] Hin. apply in_mt_rep in Hin.
    destruct Hin as (_ & H1 & H2). cbv beta. cbn [fst snd]. rewrite mtk_seq, mtk_str.
    destruct (starts_with (ch ">" :: w) (skipn j s)) eqn:Hst; [exfalso|reflexivity].
    apply starts_with_hd in Hst.
    destruct j as [|j'].
    - destruct s as [|y s']; [discriminate Hst|]. cbn [nth_error] in Hst.
      inversion Hst; subst y. discriminate Hf.
    - destruct (nth_error s j') as [y|] eqn:Ey.
      2:{ apply nth_error_None in Ey.
          assert (nth_error s (S j') <> None) by congruence.
          apply nth_error_Some in H. lia. }
      pose proof (pairs_ok_nth _ _ _ _ _ Hp Ey Hst) as Hy.
      unfold opens_no_quote in Hy. rewrite N.eqb_refl in Hy. cbn [negb orb] in Hy.
      apply negb_true_iff, orb_false_iff in Hy. destruct Hy as [Hy1 Hy2].
      destruct (Nat.eq_dec i (S j')) as [Ei|Ei].
      + rewrite Ei in Hb. cbn [Nat.eqb orb prev_is] in Hb. rewrite Ey in Hb.
        rewrite N.eqb_sym in Hb. congruence.
      + destruct (run_member spc s i (S j') j' H2 ltac:(lia)) as (z & Hz & Kz).
        rewrite Ey in Hz. inversion Hz; subst z.
        unfold spc in Kz. cbn [cls_mem existsb item_mem] in Kz.
        rewrite orb_false_r in Kz. congruence. }
  unfold quote_pattern. apply match_at_neither; unfold match_at; rewrite Hs; reflexivity.
Qed.

Section BulkCodeSurvives.
Variables front E back : list N.
Hypothesis front_ok : forallb (avoid bulk_marks) front = true.
Hypothesis back_ok : forallb (avoid bulk_marks) back = true.
Hypothesis front_pairs : pairs_ok opens_no_quote front = true.
Hypothesis front_first : first_is (N.eqb (ch ">")) front = false.
Hypothesis back_pairs : pairs_ok opens_no_quote back = true.
Hypothesis back_first : first_is (N.eqb (ch ">")) back = false.

Local Abbreviation B := (front ++ flat_map protect E ++ back).

Lemma bulk_guarded x w t (repl : Match N -> option (list N)) :
  is_delim x = true -> existsb (N.eqb x) bulk_marks = true ->
  sub (NotBehind bs_cls ;;; Str (x :: w) ;;; t) repl B = Some B.
Proof.
  intros Hx Hm.
  assert (Hm' : forallb (fun k => existsb (N.eqb k) bulk_marks) [x] = true)
    by (cbn [forallb]; rewrite Hm; reflexivity).
  apply protected_guarded_sub; [exact Hx| |].
  - exact (avoid_all _ _ _ Hm' front_ok).
  - exact (avoid_all _ _ _ Hm' back_ok).
Qed.

Lemma bulk_quote_dead :
  sub BulkDelete.blockQuote_pattern BulkDelete.blockquote_repl B = Some B.
Proof.
  apply sub_no_match. intros i. cbn [code Glyph_N]. rewrite map_id.
  destruct (quote_pairs_protect E) as [P1 P2].
  change BulkDelete.blockQuote_pattern
    with (quote_pattern (ch ">" :: codes ">> ") (ch ">" :: codes " ")).
  apply quote_needs_pair.
  - apply quote_pairs_join; [exact front_pairs| |apply first_is_app; assumption].
    apply quote_pairs_join; assumption.
  - apply first_is_app; [exact front_first|]. apply first_is_app; assumption.
Qed.

Ltac guarded_n x w :=
  match goal with
  | |- context [subn ?r ?f ?b] =>
      let H := fresh in
      assert (H : sub r f b = Some b) by (apply (bulk_guarded x w); reflexivity);
      rewrite (subn_of_sub r f b b H); clear H; cbn [bind fst snd]
  end.

(** From the quote pass to the end of the pipeline of the archive copy. *)
Lemma bulk_code_survives :
  (oc <- BulkDelete.blockquote B ;;
   oc <- BulkDelete.spoiler (fst oc) ;;
   oc <- BulkDelete.strikethrough (fst oc) ;;
   oc <- BulkDelete.bold (fst oc) ;;
   oc <- BulkDelete.underline (fst oc) ;;
   oc <- BulkDelete.italics (fst oc) ;;
   BulkDelete.remove_escaped_symbol (fst oc))
  = Some (front ++ E ++ back).
Proof.
  unfold BulkDelete.blockquote. rewrite (subn_of_sub _ _ _ _ bulk_quote_dead).
  cbn [bind fst snd].
  unfold BulkDelete.spoiler. guarded_n (ch "|") [ch "|"].
  unfold BulkDelete.strikethrough. guarded_n (ch "~") [ch "~"].
  unfold BulkDelete.bold. guarded_n (ch "*") [ch "*"].
  unfold BulkDelete.underline. guarded_n (ch "_") [ch "_"].
  unfold BulkDelete.italics. guarded_n (ch "*") (@nil N). guarded_n (ch "_") (@nil N).
  change (@BulkDelete.remove_escaped_symbol N _) with (@Parser.remove_escaped_symbol N _).
  apply unprotect_in_context.
  - exact (avoid_all [backslash] bulk_marks front eq_refl front_ok).
  - exact (avoid_all [backslash] bulk_marks back eq_refl back_ok).
Qed.

End BulkCodeSurvives.

Lemma inert_bulk_marks (l : list N) :
  forallb inert l = true -> forallb (avoid bulk_marks) l = true.
Proof. intros Hl. exact (avoid_all bulk_marks marks l eq_refl Hl). Qed.

Lemma inert_quote_pairs (l : list N) :
  forallb inert l = true ->
  pairs_ok opens_no_quote l = true /\ first_is (N.eqb (ch ">")) l = false.
Proof.
  intros Hl. assert (H : forallb (avoid [ch ">"]) l = true) by avoid_solve.
  split; [apply quote_pairs_free, H|apply first_is_free, H].
Qed.

(** X20: inline code in the archive copy.  For every non-empty [body]
    without a backtick, between texts [pre] and [suf] that have none of
    the characters the engine looks for, the archive copy renders
    pre `body` suf as the inline-code span around the body itself: no
    later pass changes the body, and no character of it is escaped. *)
Theorem bulk_inline_code_is_literal (pre body suf : list N) :
  forallb inert pre = true -> forallb inert suf = true ->
  body <> [] -> forallb (avoid [ch "`"]) body = true ->
  BulkDelete.markdown (pre ++ codes "`" ++ body ++ codes "`" ++ suf)
  = Some (pre ++ span_inline ++ body ++ codes "</span>" ++ suf).
Proof.
  intros Hp Hs Hn Hb.
  destruct (inert_quote_pairs _ Hp) as [Pp Fp].
  destruct (inert_quote_pairs _ Hs) as [Ps Fs].
  unfold BulkDelete.markdown.
  change (pre ++ codes "`" ++ body ++ codes "`" ++ suf)
    with (pair_text [ch "`"] pre body suf).
  assert (H1 : sub BulkDelete.codeblock_pattern BulkDelete.codeblock_repl
                 (pair_text [ch "`"] pre body suf)
               = Some (pair_text [ch "`"] pre body suf)).
  { apply (codeblock_nowhere (pair_text [ch "`"] pre body suf)).
    apply (nowhere_double (ch "`") [ch "`"]), pairs_single;
      [marks_solve|exact Hb|marks_solve|exact Hn]. }
  unfold BulkDelete.codeblock. rewrite (subn_of_sub _ _ _ _ H1). cbn [bind fst snd].
  assert (H2 : sub BulkDelete.inlinecodeblock_pattern BulkDelete.inline_codeblock_repl
                 (pair_text [ch "`"] pre body suf)
               = Some (pre ++ (span_inline ++ flat_map protect body ++ codes "</span>")
                         ++ suf)).
  { apply (inline_pass pre body suf); [marks_solve|marks_solve|exact Hn|exact Hb|marks_solve]. }
  unfold BulkDelete.inline_codeblock. rewrite (subn_of_sub _ _ _ _ H2). cbn [bind fst snd].
  replace (pre ++ (span_inline ++ flat_map protect body ++ codes "</span>") ++ suf)
    with ((pre ++ span_inline) ++ flat_map protect body ++ (codes "</span>" ++ suf))
    by (rewrite <- !app_assoc; reflexivity).
  rewrite bulk_code_survives.
  - rewrite <- !app_assoc. reflexivity.
  - rewrite forallb_app. apply andb_true_intro. split;
      [apply inert_bulk_marks, Hp|reflexivity].
  - rewrite forallb_app. apply andb_true_intro. split;
      [reflexivity|apply inert_bulk_marks, Hs].
  - apply quote_pairs_join; [exact Pp|reflexivity|reflexivity].
  - apply first_is_app; [exact Fp|reflexivity].
  - apply quote_pairs_join; [reflexivity|exact Ps|exact Fs].
  - reflexivity.
Qed.

Lemma bulk_inline_code_is_literal_witness :
  BulkDelete.markdown (codes "type `**x** <b> \_` here")
  = Some (codes "type " ++ span_inline ++ codes "**x** <b> \_" ++ codes "</span>"
            ++ codes " here").
Proof.
  exact (bulk_inline_code_is_literal (codes "type ") (codes "**x** <b> \_")
           (codes " here") eq_refl eq_refl ltac:(discriminate) eq_refl).
Defined.

Lemma code_div_pairs (lang : list N) :
  forallb (cls_mem lang_cls) lang = true ->
  pairs_ok opens_no_quote (code_div lang) = true
  /\ first_is (N.eqb (ch ">")) (code_div lang) = false.
Proof.
  intros Hl. destruct lang as [|y l]; [split; reflexivity|].
  remember (y :: l) as lang eqn:El.
  assert (Hg : forallb (avoid [ch ">"]) lang = true)
    by (apply lang_avoid; [reflexivity|exact Hl]).
  split; [|rewrite El; reflexivity].
  replace (code_div lang)
    with ((codes "<div class=" ++ [dquote] ++ codes "pre pre--multiline language-")
            ++ lang ++ ([dquote] ++ codes ">")).
  - apply quote_pairs_join; [reflexivity| |].
    + apply quote_pairs_join; [apply quote_pairs_free, Hg|reflexivity|reflexivity].
    + apply first_is_app; [apply first_is_free, Hg|reflexivity].
  - rewrite El. unfold code_div, div_language. rewrite <- !app_assoc. reflexivity.
Qed.

(** X21: code blocks in the archive copy.  A fence, an optional
    language tag, one or more line breaks, a body without a backtick
    that neither starts nor ends with a line break, any number of line
    breaks and a fence, between texts that have none of the characters
    the engine looks for, is rendered by the archive copy as one block
    around the body itself, with the class of the language tag when
    there is one: the line breaks around the body are dropped, no later
    pass changes the body, and no character of it is escaped. *)
Theorem bulk_code_block_is_literal (pre lang nl1 body nl2 suf : list N) :
  forallb inert pre = true -> forallb inert suf = true ->
  forallb (cls_mem lang_cls) lang = true ->
  nl1 <> [] -> forallb (N.eqb newline) nl1 = true ->
  forallb (N.eqb newline) nl2 = true ->
  trimmed body = true -> forallb (avoid [ch "`"]) body = true ->
  BulkDelete.markdown (pre ++ fence ++ lang ++ nl1 ++ body ++ nl2 ++ fence ++ suf)
  = Some (pre ++ code_div lang ++ body ++ codes "</div>" ++ suf).
Proof.
  intros Hp Hs Hl Hn1 Hnl1 Hnl2 Ht Hb.
  destruct (inert_quote_pairs _ Hp) as [Pp Fp].
  destruct (inert_quote_pairs _ Hs) as [Ps Fs].
  destruct (code_div_pairs _ Hl) as [Pd Fd].
  unfold BulkDelete.markdown.
  change (pre ++ fence ++ lang ++ nl1 ++ body ++ nl2 ++ fence ++ suf)
    with (block_text pre lang nl1 body nl2 suf).
  assert (H1 : sub BulkDelete.codeblock_pattern BulkDelete.codeblock_repl
                 (block_text pre lang nl1 body nl2 suf)
               = Some (pre ++ (code_div lang ++ flat_map protect body ++ codes "</div>")
                         ++ suf)).
  { apply (block_pass pre lang nl1 body nl2 suf); try assumption; marks_solve. }
  unfold BulkDelete.codeblock. rewrite (subn_of_sub _ _ _ _ H1). cbn [bind fst snd].
  replace (pre ++ (code_div lang ++ flat_map protect body ++ codes "</div>") ++ suf)
    with ((pre ++ code_div lang) ++ flat_map protect body ++ (codes "</div>" ++ suf))
    by (rewrite <- !app_assoc; reflexivity).
  assert (Hf : forallb (avoid code_marks) (pre ++ code_div lang) = true).
  { rewrite forallb_app. apply andb_true_intro. split;
      [apply inert_code_marks, Hp|apply code_div_marks, Hl]. }
  assert (Hk : forallb (avoid code_marks) (codes "</div>" ++ suf) = true).
  { rewrite forallb_app. apply andb_true_intro. split;
      [reflexivity|apply inert_code_marks, Hs]. }
  assert (H2 : sub BulkDelete.inlinecodeblock_pattern BulkDelete.inline_codeblock_repl
                 ((pre ++ code_div lang) ++ flat_map protect body ++ (codes "</div>" ++ suf))
               = Some ((pre ++ code_div lang) ++ flat_map protect body
                         ++ (codes "</div>" ++ suf))).
  { exact (code_inline_dead (pre ++ code_div lang) body (codes "/div>" ++ suf) Hf Hk Hb). }
  unfold BulkDelete.inline_codeblock. rewrite (subn_of_sub _ _ _ _ H2). cbn [bind fst snd].
  rewrite bulk_code_survives.
  - rewrite <- !app_assoc. reflexivity.
  - exact (avoid_all bulk_marks code_marks _ eq_refl Hf).
  - exact (avoid_all bulk_marks code_marks _ eq_refl Hk).
  - apply quote_pairs_join; assumption.
  - apply first_is_app; assumption.
  - apply quote_pairs_join; [reflexivity|exact Ps|exact Fs].
  - reflexivity.
Qed.

Lemma bulk_code_block_is_literal_witness :
  BulkDelete.markdown
    (codes "see " ++ fence ++ codes "py" ++ [newline]
       ++ (codes "x = a*b*c" ++ [newline] ++ codes "> print(x < 3, '_')")
       ++ [newline] ++ fence ++ codes " ok")
  = Some (codes "see " ++ div_language (codes "py")
            ++ (codes "x = a*b*c" ++ [newline] ++ codes "> print(x < 3, '_')")
            ++ codes "</div>" ++ codes " ok").
Proof.
  exact (bulk_code_block_is_literal (codes "see ") (codes "py") [newline]
           (codes "x = a*b*c" ++ [newline] ++ codes "> print(x < 3, '_')")
           [newline] (codes " ok")
           eq_refl eq_refl eq_refl ltac:(discriminate) eq_refl eq_refl eq_refl eq_refl).
Defined.

(** ** A double delimiter around text that holds single ones *)

(** An opening delimiter with no closing one behind it starts no match. *)
Lemma unclosed_dead k k' d g (s : list N) i :
  (forall j, i + List.length d < j -> starts_with d (skipn j s) = false) ->
  match_at (NotBehind k ;;; Str d ;;; Grp g (Rep false 1 None dot)
            ;;; NotBehind k' ;;; Str d) s i = None.
Proof.
  intros Hd. unfold match_at.
  destruct (mt _ s i []) as [|[j c] l] eqn:E; [reflexivity|].
  assert (M : In (j, c) (mt (NotBehind k ;;; Str d ;;; Grp g (Rep false 1 None dot)
                             ;;; NotBehind k' ;;; Str d) s i []))
    by (rewrite E; left; reflexivity).
  apply in_mt_seq in M. destruct M as (i1 & c1 & M1 & M).
  apply in_mt_notbehind in M1. destruct M1 as (_ & -> & _).
  apply in_mt_seq in M. destruct M as (i2 & c2 & M2 & M).
  apply in_mt_str in M2. destruct M2 as (_ & -> & _).
  apply in_mt_seq in M. destruct M as (i3 & c3 & M3 & M).
  apply in_mt_grp in M3. destruct M3 as (c4 & M3 & _).
  apply in_mt_rep in M3. destruct M3 as (_ & H3 & _).
  apply in_mt_seq in M. destruct M as (i4 & c5 & M4 & M).
  apply in_mt_notbehind in M4. destruct M4 as (_ & -> & _).
  apply in_mt_str in M. destruct M as (_ & _ & S).
  rewrite Hd in S by lia. discriminate.
Qed.

Section LoosePair.
Variables (x : N) (w : list N) (g : nat).
Variables pre body suf : list N.

Local Abbreviation d := (x :: w).
Local Abbreviation s := (pair_text (x :: w) pre body suf).

Hypothesis pre_bs : forallb (avoid [backslash]) pre = true.
Hypothesis pre_x : forallb (avoid [x]) pre = true.
Hypothesis body_ne : body <> [].
Hypothesis body_bs : forallb (avoid [backslash]) body = true.
Hypothesis body_nl : forallb (avoid [newline]) body = true.
Hypothesis no_closer : forall k, 1 <= k -> k < List.length body ->
  starts_with (x :: w) (skipn k (body ++ (x :: w) ++ suf)) = false.

(** The pair is matched from its first delimiter up to the first
    closing one, whatever single delimiter characters the text holds. *)
Lemma loose_match :
  match_at (NotBehind bs_cls ;;; Str d ;;; Grp g (Rep false 1 None dot)
            ;;; NotBehind bs_cls ;;; Str d) s (List.length pre)
  = Some (pair_end d pre body, pair_caps g d pre body).
Proof.
  rewrite match_at_mtk, mtk_seq, mtk_notbehind.
  unfold pair_text at 1. rewrite (prev_is_end _ _ _ (avoid_not_bs _ pre_bs)).
  cbv beta. cbn [fst snd]. rewrite mtk_seq, mtk_str.
  unfold pair_text at 1. rewrite skipn_at0. rewrite starts_with_app.
  cbv beta. cbn [fst snd]. rewrite mtk_seq, mtk_grp.
  apply (mtk_lazy 1 dot s _ _ _ _ (List.length body)).
  - destruct body; [congruence|cbn [List.length]; lia].
  - rewrite delimited_body_at. apply span_all, avoid_dot, body_nl.
  - intros k Hk1 Hk2. cbv beta. cbn [fst snd].
    rewrite mtk_seq, mtk_notbehind.
    destruct (prev_is (cls_mem bs_cls) s (List.length pre + List.length d + k));
      [reflexivity|].
    cbv beta. cbn [fst snd]. rewrite mtk_str.
    replace (starts_with d (skipn (List.length pre + List.length d + k) s)) with false;
      [reflexivity|].
    symmetry. unfold pair_text. rewrite <- Nat.add_assoc, skipn_at, skipn_at.
    apply no_closer; assumption.
  - cbv beta. cbn [fst snd]. rewrite mtk_seq, mtk_notbehind.
    replace (prev_is (cls_mem bs_cls) s (List.length pre + List.length d + List.length body))
      with false.
    + cbv beta. cbn [fst snd]. rewrite mtk_str, delimited_closer_at, starts_with_app.
      reflexivity.
    + symmetry. unfold pair_text.
      replace (pre ++ d ++ body ++ d ++ suf) with ((pre ++ d) ++ body ++ d ++ suf)
        by (rewrite <- app_assoc; reflexivity).
      rewrite <- length_app. apply prev_is_body; [exact body_ne|].
      apply avoid_not_bs, body_bs.
Qed.

(** The pass replaces that one match when nothing behind it closes a
    second pair. *)
Lemma loose_sub (r : re) (repl : Match N -> option (list N)) c out :
  (forall i, starts_with d (skipn i s) = false -> match_at r s i = None) ->
  (forall k, match_at r s (pair_end d pre body + k) = None) ->
  match_at r s (List.length pre) = Some (pair_end d pre body, c) ->
  repl (mkMatch s (List.length pre) (pair_end d pre body) c) = Some out ->
  sub r repl s = Some (pre ++ out ++ suf).
Proof.
  intros Hd Hs M R. rewrite pair_text_mid in *. rewrite pair_end_mid in *.
  apply (sub_one r repl pre (d ++ body ++ d) suf c out).
  - discriminate.
  - intros i Hi. apply Hd. apply starts_with_inside; assumption.
  - exact M.
  - exact Hs.
  - exact R.
Qed.

End LoosePair.

(** No double delimiter starts inside a text that holds one pair of
    single ones. *)
Lemma single_pair_no_double x (a b c rest : list N) k :
  forallb (avoid [x]) a = true -> forallb (avoid [x]) b = true ->
  forallb (avoid [x]) c = true -> b <> [] -> c <> [] ->
  k < List.length (pair_text [x] a b c) ->
  starts_with [x; x] (skipn k (pair_text [x] a b c ++ rest)) = false.
Proof.
  intros Ha Hb Hc Nb Nc Hk. unfold pair_text in *.
  rewrite !length_app in Hk. cbn [List.length] in Hk.
  rewrite <- !app_assoc. cbn [app].
  destruct (Nat.lt_ge_cases k (List.length a)) as [K1|K1];
    [apply starts_with_inside; assumption|].
  replace k with (List.length a + (k - List.length a)) by lia.
  rewrite skipn_at. remember (k - List.length a) as k1 eqn:E1.
  destruct k1 as [|k1].
  { cbn [skipn starts_with]. rewrite N.eqb_refl. cbn [andb].
    destruct b as [|y b]; [congruence|]. cbn [app starts_with].
    rewrite andb_true_r. apply N.eqb_neq.
    cbn [forallb] in Hb. apply andb_true_iff in Hb.
    intros ->. exact (avoid_In _ _ (proj1 Hb) _ (or_introl eq_refl) eq_refl). }
  cbn [skipn].
  destruct (Nat.lt_ge_cases k1 (List.length b)) as [K2|K2];
    [apply starts_with_inside; assumption|].
  replace k1 with (List.length b + (k1 - List.length b)) by lia.
  rewrite skipn_at. remember (k1 - List.length b) as k2 eqn:E2.
  destruct k2 as [|k2].
  { cbn [skipn starts_with]. rewrite N.eqb_refl. cbn [andb].
    destruct c as [|y c]; [congruence|]. cbn [app starts_with].
    rewrite andb_true_r. apply N.eqb_neq.
    cbn [forallb] in Hc. apply andb_true_iff in Hc.
    intros ->. exact (avoid_In _ _ (proj1 Hc) _ (or_introl eq_refl) eq_refl). }
  cbn [skipn]. apply starts_with_inside; [assumption|lia].
Qed.


Ltac avoid_from :=
  match goal with
  | H : forallb (avoid ?ks') ?l = true |- forallb (avoid ?ks) ?l = true =>
      exact (avoid_all ks ks' l eq_refl H)
  end.

Ltac avoid_parts :=
  repeat rewrite forallb_app;
  repeat (apply andb_true_intro; split);
  first [reflexivity | assumption | avoid_from
        | match goal with
          | H : forallb inert ?l = true |- forallb (avoid ?ks) ?l = true =>
              exact (avoid_all ks marks l eq_refl H)
          end ].

(** The italics pass on one pair of single delimiters, whatever tags
    stand around it. *)
Lemma italics_star_pair (A B R : list N) :
  forallb (avoid [backslash; ch "*"; ch "_"]) A = true ->
  forallb (avoid [backslash; ch "*"; ch "_"]) B = true ->
  forallb (avoid [newline]) B = true ->
  forallb (avoid [ch "*"; ch "_"]) R = true ->
  B <> [] ->
  Parser.italics (pair_text (codes "*") A B R)
  = Some (A ++ (codes "<em>" ++ B ++ codes "</em>") ++ R).
Proof.
  intros HA HB HN HR NB.
  apply (pair_sub (ch "*") [] A B R) with (c := pair_caps 1 [ch "*"] A B).
  - avoid_from.
  - avoid_from.
  - intros i Hi. apply match_at_neither; [apply guarded_dead, Hi|].
    apply guarded_dead, starts_with_outside. unfold pair_text.
    avoid_parts.
  - apply match_at_left. apply (delimited_match (ch "*") [] 1).
    + avoid_from.
    + exact NB.
    + avoid_from.
    + avoid_from.
    + avoid_from.
  - unfold Parser.italics_repl. rewrite (pair_group 1 [ch "*"]). reflexivity.
Qed.

Lemma italics_under_pair (A B R : list N) :
  forallb (avoid [backslash; ch "*"; ch "_"]) A = true ->
  forallb (avoid [backslash; ch "*"; ch "_"]) B = true ->
  forallb (avoid [newline]) B = true ->
  forallb (avoid [ch "*"; ch "_"]) R = true ->
  B <> [] ->
  Parser.italics (pair_text (codes "_") A B R)
  = Some (A ++ (codes "<em>" ++ B ++ codes "</em>") ++ R).
Proof.
  intros HA HB HN HR NB.
  assert (Hs : forall i c, mt Parser.italics_star (pair_text (codes "_") A B R) i c = []).
  { intros i c. apply guarded_dead_mt, starts_with_outside. unfold pair_text.
    avoid_parts. }
  apply (pair_sub (ch "_") [] A B R) with (c := pair_caps 2 [ch "_"] A B).
  - avoid_from.
  - avoid_from.
  - intros i Hi. unfold Parser.italics_pattern. rewrite match_at_right by apply Hs.
    apply guarded_dead, Hi.
  - unfold Parser.italics_pattern. rewrite match_at_right by apply Hs.
    apply (delimited_match (ch "_") [] 2).
    + avoid_from.
    + exact NB.
    + avoid_from.
    + avoid_from.
    + avoid_from.
  - unfold Parser.italics_repl.
    replace (group _ 1) with (@None (list N)) by reflexivity.
    rewrite (pair_group 2 [ch "_"]). reflexivity.
Qed.

(** A pass of a double delimiter on a pair whose text holds a pair of
    single delimiter characters. *)
Lemma double_pass x (pre body suf : list N) (repl : Match N -> option (list N)) o c :
  forallb (avoid [backslash]) pre = true -> forallb (avoid [x]) pre = true ->
  body <> [] ->
  forallb (avoid [backslash]) body = true -> forallb (avoid [newline]) body = true ->
  (forall k, k < List.length body ->
     starts_with [x; x] (skipn k (body ++ [x; x] ++ suf)) = false) ->
  forallb (avoid [x]) suf = true ->
  (forall m, repl m = Some (o ++ expand (group m 1) ++ c)) ->
  sub (NotBehind bs_cls ;;; Str [x; x] ;;; Grp 1 (Rep false 1 None dot)
       ;;; NotBehind bs_cls ;;; Str [x; x]) repl (pair_text [x; x] pre body suf)
  = Some (pre ++ (o ++ body ++ c) ++ suf).
Proof.
  intros Pb Px Nb Bb Bn Hc Sx Hr.
  apply (loose_sub x [x] pre body suf Px) with (c := pair_caps 1 [x; x] pre body).
  - intros i. apply guarded_dead.
  - intros k. apply guarded_dead. rewrite pair_text_mid, pair_end_mid.
    rewrite <- Nat.add_assoc, skipn_at.
    rewrite <- (app_nil_r suf) at 1.
    replace (([x; x] ++ body ++ [x; x]) ++ suf ++ [])
      with (([x; x] ++ body ++ [x; x]) ++ suf) by (rewrite app_nil_r; reflexivity).
    rewrite skipn_at. apply starts_with_outside, Sx.
  - apply loose_match; try assumption. intros k _ Hk. apply Hc, Hk.
  - rewrite Hr, pair_group. reflexivity.
Qed.

(** ** Italics inside bold and underline *)

Section Nested.
Variables pre a b c suf : list N.
Hypothesis pre_inert : forallb inert pre = true.
Hypothesis a_inert : forallb inert a = true.
Hypothesis b_inert : forallb inert b = true.
Hypothesis c_inert : forallb inert c = true.
Hypothesis suf_inert : forallb inert suf = true.
Hypothesis b_ne : b <> [].
Hypothesis c_ne : c <> [].
Hypothesis a_nl : forallb (avoid [newline]) a = true.
Hypothesis b_nl : forallb (avoid [newline]) b = true.
Hypothesis c_nl : forallb (avoid [newline]) c = true.

Local Abbreviation nested o i := (pair_text o pre (pair_text i a b c) suf).
Local Abbreviation rendered o1 o2 :=
  (pre ++ (o1 ++ (a ++ (codes "<em>" ++ b ++ codes "</em>") ++ c) ++ o2) ++ suf).

Ltac parts := unfold pair_text; avoid_parts.
Ltac dead ks := rewrite (sub_avoid ks) by (first [reflexivity | parts]); cbn [bind].
Ltac fire H := rewrite H; cbn [bind].

Ltac before_pairs :=
  unfold Parser.markdown;
  rewrite escape_avoid by parts;
  unfold Parser.codeblock; dead [ch "`"];
  unfold Parser.inline_codeblock; dead [ch "`"];
  unfold Parser.remove_suppressed_embed_arrows; dead [ch "&"];
  unfold Parser.blockquote; dead [ch "&"];
  unfold Parser.spoiler; dead [ch "|"];
  unfold Parser.strikethrough; dead [ch "~"].

Ltac after_pairs :=
  unfold Parser.linkify; dead [ch ":"];
  unfold Parser.emojify;
  match goal with |- context [Parser.womboji ?t] => destruct (Parser.womboji t) end;
  dead [ch "&"]; unfold Parser.remove_escaped_symbol;
  dead [backslash]; reflexivity.

Lemma inner_ne i : pair_text i a b c <> [].
Proof.
  unfold pair_text. destruct b as [|y l]; [congruence|].
  intros E. apply (f_equal (@List.length N)) in E.
  rewrite !length_app in E. cbn [List.length] in E. lia.
Qed.

Lemma inner_as_pair o1 o2 i :
  pre ++ (o1 ++ pair_text i a b c ++ o2) ++ suf
  = pair_text i (pre ++ o1 ++ a) b (c ++ o2 ++ suf).
Proof. unfold pair_text. rewrite <- !app_assoc. reflexivity. Qed.

Lemma rendered_as_pair o1 o2 :
  (pre ++ o1 ++ a) ++ (codes "<em>" ++ b ++ codes "</em>") ++ c ++ o2 ++ suf
  = rendered o1 o2.
Proof. rewrite <- !app_assoc. reflexivity. Qed.

Lemma bold_star_nested :
  Parser.markdown (nested (codes "**") (codes "*"))
  = Some (rendered (codes "<strong>") (codes "</strong>")).
Proof.
  before_pairs.
  assert (Hb : Parser.bold (nested (codes "**") (codes "*"))
               = Some (pre ++ (codes "<strong>" ++ pair_text (codes "*") a b c
                                 ++ codes "</strong>") ++ suf)).
  { apply (double_pass (ch "*")); try (intros m; reflexivity); try parts.
    - apply inner_ne.
    - intros k Hk. apply single_pair_no_double; try assumption; avoid_parts. }
  fire Hb.
  unfold Parser.underline. dead [ch "_"].
  rewrite inner_as_pair, italics_star_pair by (first [exact b_ne | avoid_parts]).
  cbn [bind]. rewrite rendered_as_pair. after_pairs.
Qed.

Lemma bold_under_nested :
  Parser.markdown (nested (codes "**") (codes "_"))
  = Some (rendered (codes "<strong>") (codes "</strong>")).
Proof.
  before_pairs.
  assert (Hb : Parser.bold (nested (codes "**") (codes "_"))
               = Some (pre ++ (codes "<strong>" ++ pair_text (codes "_") a b c
                                 ++ codes "</strong>") ++ suf)).
  { apply (pair_wrap (ch "*") [ch "*"] 1); try (intros m; reflexivity); try parts.
    apply inner_ne. }
  fire Hb.
  rewrite inner_as_pair.
  assert (Hu : Parser.underline (pair_text (codes "_") (pre ++ codes "<strong>" ++ a) b
                                   (c ++ codes "</strong>" ++ suf))
               = Some (pair_text (codes "_") (pre ++ codes "<strong>" ++ a) b
                         (c ++ codes "</strong>" ++ suf))).
  { apply (sub_double (ch "_") []), pairs_single; try exact b_ne; avoid_parts. }
  fire Hu.
  rewrite italics_under_pair by (first [exact b_ne | avoid_parts]).
  cbn [bind]. rewrite rendered_as_pair. after_pairs.
Qed.

Lemma underline_under_nested :
  Parser.markdown (nested (codes "__") (codes "_"))
  = Some (rendered (codes "<u>") (codes "</u>")).
Proof.
  before_pairs.
  unfold Parser.bold. dead [ch "*"].
  assert (Hb : Parser.underline (nested (codes "__") (codes "_"))
               = Some (pre ++ (codes "<u>" ++ pair_text (codes "_") a b c
                                 ++ codes "</u>") ++ suf)).
  { apply (double_pass (ch "_")); try (intros m; reflexivity); try parts.
    - apply inner_ne.
    - intros k Hk. apply single_pair_no_double; try assumption; avoid_parts. }
  fire Hb.
  rewrite inner_as_pair, italics_under_pair by (first [exact b_ne | avoid_parts]).
  cbn [bind]. rewrite rendered_as_pair. after_pairs.
Qed.

Lemma underline_star_nested :
  Parser.markdown (nested (codes "__") (codes "*"))
  = Some (rendered (codes "<u>") (codes "</u>")).
Proof.
  before_pairs.
  assert (Hd : Parser.bold (nested (codes "__") (codes "*"))
               = Some (nested (codes "__") (codes "*"))).
  { change (nested (codes "__") (codes "*"))
      with (pre ++ codes "__" ++ pair_text (codes "*") a b c ++ codes "__" ++ suf).
    replace (pre ++ codes "__" ++ pair_text (codes "*") a b c ++ codes "__" ++ suf)
      with (pair_text (codes "*") (pre ++ codes "__" ++ a) b (c ++ codes "__" ++ suf))
      by (unfold pair_text; rewrite <- !app_assoc; reflexivity).
    apply (sub_double (ch "*") []), pairs_single; try exact b_ne; avoid_parts. }
  fire Hd.
  assert (Hb : Parser.underline (nested (codes "__") (codes "*"))
               = Some (pre ++ (codes "<u>" ++ pair_text (codes "*") a b c
                                 ++ codes "</u>") ++ suf)).
  { apply (pair_wrap (ch "_") [ch "_"] 1); try (intros m; reflexivity); try parts.
    apply inner_ne. }
  fire Hb.
  rewrite inner_as_pair, italics_star_pair by (first [exact b_ne | avoid_parts]).
  cbn [bind]. rewrite rendered_as_pair. after_pairs.
Qed.

End Nested.

(** ** The italics pass on a double delimiter *)

Section ItalicsFirst.
Variables pre body suf : list N.
Hypothesis pre_inert : forallb inert pre = true.
Hypothesis body_inert : forallb inert body = true.
Hypothesis suf_inert : forallb inert suf = true.
Hypothesis body_ne : body <> [].
Hypothesis body_nl : forallb (avoid [newline]) body = true.

Lemma double_as_single x :
  pair_text [x; x] pre body suf = pair_text [x] pre (x :: body) (x :: suf).
Proof. reflexivity. Qed.

Lemma single_behind x :
  forallb (avoid [x]) suf = true ->
  forall j, pair_end [x] pre (x :: body) < j ->
  starts_with [x] (skipn j (pair_text [x] pre (x :: body) (x :: suf))) = false.
Proof.
  intros Hs j Hj. unfold pair_text, pair_end in *. cbn [List.length] in Hj.
  replace (pre ++ [x] ++ (x :: body) ++ [x] ++ x :: suf)
    with ((pre ++ [x] ++ (x :: body) ++ [x] ++ [x]) ++ suf)
    by (rewrite <- !app_assoc; reflexivity).
  replace j with (List.length (pre ++ [x] ++ (x :: body) ++ [x] ++ [x])
                  + (j - List.length (pre ++ [x] ++ (x :: body) ++ [x] ++ [x])))
    by (rewrite !length_app; cbn [List.length]; lia).
  rewrite skipn_at. apply starts_with_outside, Hs.
Qed.

Lemma single_inside x k :
  forallb (avoid [x]) body = true -> 1 <= k -> k < List.length (x :: body) ->
  starts_with [x] (skipn k ((x :: body) ++ [x] ++ x :: suf)) = false.
Proof.
  intros Hb H1 Hk. destruct k as [|k]; [lia|]. cbn [List.length] in Hk.
  cbn [app skipn]. apply starts_with_inside; [exact Hb|lia].
Qed.

(** Run on the raw text, the italics pass pairs the second asterisk of
    the opening bold marker with the first one of the closing marker. *)
Lemma italics_on_bold :
  Parser.italics (pair_text (codes "**") pre body suf)
  = Some (pre ++ (codes "<em>" ++ (ch "*" :: body) ++ codes "</em>") ++ ch "*" :: suf).
Proof.
  change (codes "**") with [ch "*"; ch "*"]. rewrite double_as_single.
  apply (loose_sub (ch "*") [] pre (ch "*" :: body) (ch "*" :: suf))
    with (c := pair_caps 1 [ch "*"] pre (ch "*" :: body)).
  - avoid_parts.
  - intros i Hi. apply match_at_neither; [apply guarded_dead, Hi|].
    apply guarded_dead, starts_with_outside. unfold pair_text.
    change (ch "*" :: body) with ([ch "*"] ++ body).
    change (ch "*" :: suf) with ([ch "*"] ++ suf). avoid_parts.
  - intros k. apply match_at_neither.
    + apply unclosed_dead. intros j Hj. apply single_behind; [avoid_parts|].
      cbn [List.length] in Hj. lia.
    + apply guarded_dead, starts_with_outside. unfold pair_text.
      change (ch "*" :: body) with ([ch "*"] ++ body).
      change (ch "*" :: suf) with ([ch "*"] ++ suf). avoid_parts.
  - apply match_at_left. apply loose_match.
    + avoid_parts.
    + discriminate.
    + change (ch "*" :: body) with ([ch "*"] ++ body). avoid_parts.
    + change (ch "*" :: body) with ([ch "*"] ++ body). avoid_parts.
    + intros k. apply single_inside. avoid_parts.
  - unfold Parser.italics_repl. rewrite (pair_group 1 [ch "*"]). reflexivity.
Qed.

Lemma italics_on_underline :
  Parser.italics (pair_text (codes "__") pre body suf)
  = Some (pre ++ (codes "<em>" ++ (ch "_" :: body) ++ codes "</em>") ++ ch "_" :: suf).
Proof.
  change (codes "__") with [ch "_"; ch "_"]. rewrite double_as_single.
  assert (Hs : forall i c,
             mt Parser.italics_star
                (pair_text [ch "_"] pre (ch "_" :: body) (ch "_" :: suf)) i c = []).
  { intros i c. apply guarded_dead_mt, starts_with_outside. unfold pair_text.
    change (ch "_" :: body) with ([ch "_"] ++ body).
    change (ch "_" :: suf) with ([ch "_"] ++ suf). avoid_parts. }
  apply (loose_sub (ch "_") [] pre (ch "_" :: body) (ch "_" :: suf))
    with (c := pair_caps 2 [ch "_"] pre (ch "_" :: body)).
  - avoid_parts.
  - intros i Hi. unfold Parser.italics_pattern. rewrite match_at_right by apply Hs.
    apply guarded_dead, Hi.
  - intros k. unfold Parser.italics_pattern. rewrite match_at_right by apply Hs.
    apply unclosed_dead. intros j Hj. apply single_behind; [avoid_parts|].
    cbn [List.length] in Hj. lia.
  - unfold Parser.italics_pattern. rewrite match_at_right by apply Hs.
    apply loose_match.
    + avoid_parts.
    + discriminate.
    + change (ch "_" :: body) with ([ch "_"] ++ body). avoid_parts.
    + change (ch "_" :: body) with ([ch "_"] ++ body). avoid_parts.
    + intros k. apply single_inside. avoid_parts.
  - unfold Parser.italics_repl.
    replace (group _ 1) with (@None (list N)) by reflexivity.
    rewrite (pair_group 2 [ch "_"]). reflexivity.
Qed.

End ItalicsFirst.

(** C7: bold with italics nested inside.  For the example the bold
    pass turns the outer pair into a strong element and leaves the two
    inner asterisks, the italics pass after it finds exactly one match,
    the inner pair, and the pipeline returns the nested markup.  In
    general: the italics pass is the third of the three passes bold,
    underline, italics.  A pair of double asterisks or double
    underscores around plain text comes out as one strong or one
    underline element and no italics element, while the italics pass
    run on the same raw text would take the second character of the
    opening marker for an italics opener.  And a pair of single
    asterisks or underscores inside such a pair, with text after it,
    comes out as an italics element nested in the strong or underline
    element, as in the example. *)
Theorem bold_italics_nesting :
  (Parser.markdown (codes "**bold *and italic* text**")
     = Some (codes "<strong>bold <em>and italic</em> text</strong>")
   /\ Parser.bold (codes "**bold *and italic* text**")
      = Some (codes "<strong>bold *and italic* text</strong>")
   /\ Parser.underline (codes "<strong>bold *and italic* text</strong>")
      = Some (codes "<strong>bold *and italic* text</strong>")
   /\ spans (finditer Parser.italics_pattern (codes "<strong>bold *and italic* text</strong>"))
      = [(13, 25)]
   /\ Parser.italics (codes "<strong>bold *and italic* text</strong>")
      = Some (codes "<strong>bold <em>and italic</em> text</strong>")
   /\ Parser.italics (codes "**bold *and italic* text**")
      = Some (codes "<em>*bold </em>and italic<em> text</em>*"))
  /\ (forall _input : list N,
        Parser.markdown _input
        = (output <- run_passes (firstn 6 (construct_passes _input)) (escape _input) ;;
           output <- Parser.bold output ;;
           output <- Parser.underline output ;;
           output <- Parser.italics output ;;
           run_passes (skipn 9 (construct_passes _input)) output))
  /\ (forall pre body suf : list N,
        forallb inert pre = true -> forallb inert body = true ->
        forallb inert suf = true ->
        body <> [] -> forallb (avoid [newline]) body = true ->
        Parser.markdown (pair_text (codes "**") pre body suf)
          = Some (pre ++ (codes "<strong>" ++ body ++ codes "</strong>") ++ suf)
        /\ Parser.markdown (pair_text (codes "__") pre body suf)
           = Some (pre ++ (codes "<u>" ++ body ++ codes "</u>") ++ suf)
        /\ Parser.italics (pair_text (codes "**") pre body suf)
           = Some (pre ++ (codes "<em>" ++ (ch "*" :: body) ++ codes "</em>")
                     ++ ch "*" :: suf)
        /\ Parser.italics (pair_text (codes "__") pre body suf)
           = Some (pre ++ (codes "<em>" ++ (ch "_" :: body) ++ codes "</em>")
                     ++ ch "_" :: suf))
  /\ (forall pre a b c suf : list N,
        forallb inert pre = true -> forallb inert a = true ->
        forallb inert b = true -> forallb inert c = true ->
        forallb inert suf = true ->
        b <> [] -> c <> [] ->
        forallb (avoid [newline]) a = true -> forallb (avoid [newline]) b = true ->
        forallb (avoid [newline]) c = true ->
        Parser.markdown (pair_text (codes "**") pre (pair_text (codes "*") a b c) suf)
          = Some (pre ++ (codes "<strong>"
                            ++ (a ++ (codes "<em>" ++ b ++ codes "</em>") ++ c)
                            ++ codes "</strong>") ++ suf)
        /\ Parser.markdown (pair_text (codes "**") pre (pair_text (codes "_") a b c) suf)
           = Some (pre ++ (codes "<strong>"
                             ++ (a ++ (codes "<em>" ++ b ++ codes "</em>") ++ c)
                             ++ codes "</strong>") ++ suf)
        /\ Parser.markdown (pair_text (codes "__") pre (pair_text (codes "_") a b c) suf)
           = Some (pre ++ (codes "<u>"
                             ++ (a ++ (codes "<em>" ++ b ++ codes "</em>") ++ c)
                             ++ codes "</u>") ++ suf)
        /\ Parser.markdown (pair_text (codes "__") pre (pair_text (codes "*") a b c) suf)
           = Some (pre ++ (codes "<u>"
                             ++ (a ++ (codes "<em>" ++ b ++ codes "</em>") ++ c)
                             ++ codes "</u>") ++ suf)).
Proof.
  split; [repeat split; vm_compute; reflexivity|].
  split.
  { intros _input. unfold Parser.markdown, run_passes, construct_passes.
    cbn [firstn skipn fold_left bind].
    repeat match goal with
           | |- context [bind ?o _] =>
               match o with
               | Some _ => fail 1
               | None => fail 1
               | _ => destruct o; cbn [bind fold_left]
               end
           end; reflexivity. }
  split.
  { intros pre body suf Hp Hb Hs Nb Bn.
    split; [apply bold_renders; assumption|].
    split; [apply underline_renders; assumption|].
    split; [apply italics_on_bold; assumption|].
    apply italics_on_underline; assumption. }
  intros pre a b c suf Hp Ha Hb Hc Hs Nb Nc An Bn Cn.
  split; [apply bold_star_nested; assumption|].
  split; [apply bold_under_nested; assumption|].
  split; [apply underline_under_nested; assumption|].
  apply underline_star_nested; assumption.
Qed.

Lemma bold_italics_nesting_witness :
  Parser.markdown (pair_text (codes "**") []
                     (pair_text (codes "*") (codes "bold ") (codes "and italic")
                        (codes " text")) [])
    = Some (codes "<strong>bold <em>and italic</em> text</strong>")
  /\ Parser.markdown (pair_text (codes "__") (codes "so ")
                        (pair_text (codes "_") (codes "under ") (codes "and italic")
                           (codes " text")) (codes "!"))
     = Some (codes "so <u>under <em>and italic</em> text</u>!")
  /\ Parser.markdown (pair_text (codes "__") (codes "so ") (codes "under") (codes "!"))
     = Some (codes "so <u>under</u>!").
Proof.
  split.
  { apply (proj1 (proj2 (proj2 (proj2 bold_italics_nesting)) []
                   (codes "bold ") (codes "and italic") (codes " text") []
                   eq_refl eq_refl eq_refl eq_refl eq_refl
                   ltac:(discriminate) ltac:(discriminate) eq_refl eq_refl eq_refl)). }
  split.
  { apply (proj1 (proj2 (proj2 (proj2 (proj2 (proj2 bold_italics_nesting)) (codes "so ")
                   (codes "under ") (codes "and italic") (codes " text") (codes "!")
                   eq_refl eq_refl eq_refl eq_refl eq_refl
                   ltac:(discriminate) ltac:(discriminate) eq_refl eq_refl eq_refl)))). }
  apply (proj1 (proj2 (proj1 (proj2 (proj2 bold_italics_nesting)) (codes "so ")
                  (codes "under") (codes "!")
                  eq_refl eq_refl eq_refl ltac:(discriminate) eq_refl))).
Defined.

(** ** The two link forms *)

Lemma bare_link_dead (s : list N) i c :
  starts_with (codes "http") (skipn i s) = false -> mt Parser.bare_link s i c = [].
Proof.
  intros Hs. unfold Parser.bare_link, Parser.url_head. cbn [mt].
  rewrite Hs. reflexivity.
Qed.

(** The bracketed form starts with a square bracket and the bare form
    with the letter h: no position is the start of both. *)
Lemma link_forms_apart (s : list N) i :
  match_at Parser.labelled_link s i = None \/ match_at Parser.bare_link s i = None.
Proof.
  unfold match_at.
  destruct (starts_with (codes "[") (skipn i s)) eqn:E.
  - right. rewrite bare_link_dead; [reflexivity|].
    destruct (skipn i s) as [|y l]; [reflexivity|].
    cbn [starts_with codes] in E. apply andb_true_iff in E. destruct E as [E _].
    apply N.eqb_eq in E. subst y. reflexivity.
  - left. rewrite labelled_dead by exact E. reflexivity.
Qed.

(** A labelled link and a bare address in plain text, through the
    whole pipeline. *)
Lemma plain_labelled_link (secure : bool) (pre label b1 host b2 suf : list N) :
  forallb inert pre = true ->
  forallb inert label = true -> label <> [] -> forallb (avoid [newline]) label = true ->
  forallb (cls_mem blank) b1 = true ->
  forallb inert host = true -> host <> [] -> forallb visible host = true ->
  forallb (avoid [ch ")"]) host = true ->
  forallb (cls_mem blank) b2 = true ->
  forallb inert suf = true ->
  Parser.markdown (pre ++ linked_text label b1 (scheme secure ++ host) b2 ++ suf)
  = Some (pre ++ anchor (scheme secure ++ host) label ++ suf).
Proof.
  intros pre_inert label_inert label_ne label_nl b1_ok host_inert host_ne host_vis
    host_par b2_ok suf_inert.
  unfold Parser.markdown.
  rewrite escape_avoid by labelled_avoid.
  unfold Parser.codeblock. dead_ll [ch "`"].
  unfold Parser.inline_codeblock. dead_ll [ch "`"].
  unfold Parser.remove_suppressed_embed_arrows. dead_ll [ch "&"].
  unfold Parser.blockquote. dead_ll [ch "&"].
  unfold Parser.spoiler. dead_ll [ch "|"].
  unfold Parser.strikethrough. dead_ll [ch "~"].
  unfold Parser.bold. dead_ll [ch "*"].
  unfold Parser.underline. dead_ll [ch "_"].
  unfold Parser.italics. dead_ll [ch "*"; ch "_"].
  rewrite (linked_sub secure pre label b1 host b2 suf) by assumption. cbn [bind].
  unfold Parser.emojify.
  match goal with |- context [Parser.womboji ?t] => destruct (Parser.womboji t) end;
    dead_ll [ch "&"]; unfold Parser.remove_escaped_symbol; dead_ll [backslash];
    reflexivity.
Qed.

Lemma plain_bare_link (secure : bool) (pre host suf : list N) :
  forallb inert pre = true ->
  forallb inert host = true -> host <> [] -> forallb visible host = true ->
  forallb inert suf = true -> ends_word suf = true ->
  Parser.markdown (pre ++ (scheme secure ++ host) ++ suf)
  = Some (pre ++ anchor (scheme secure ++ host) (scheme secure ++ host) ++ suf).
Proof.
  intros pre_inert host_inert host_ne host_vis suf_inert suf_end.
  assert (Hs : escape (scheme secure) = scheme secure) by (destruct secure; reflexivity).
  unfold Parser.markdown.
  rewrite !escape_app, Hs.
  rewrite (escape_inert_N pre), (escape_inert_N host), (escape_inert_N suf) by assumption.
  unfold Parser.codeblock. dead_l [ch "`"].
  unfold Parser.inline_codeblock. dead_l [ch "`"].
  unfold Parser.remove_suppressed_embed_arrows. dead_l [ch "&"].
  apply bare_link_tail; assumption.
Qed.

(** C8: link precedence.  The labelled link of the example renders as
    an anchor with the label as its text and the address as its href,
    and so does every labelled link in plain text (no character of a
    label, an address or the text around is one the engine looks for):
    the address in the round brackets is not rendered as a bare
    address; a label that is an address itself stays the text.  A bare
    address in plain text renders as an anchor with the address in both
    places.  No position of any buffer starts both forms, so the order
    of the two alternatives never decides; whatever the buffer, a match
    of the bracketed form is written with its address as href and its
    label as text, a match of the bare form with the address in both
    places.  An address that holds formatting delimiters breaks this:
    the spoiler, strikethrough, bold, underline and italics passes run
    before the link pass and rewrite the address.  For
    https://example.com/a_b_c the link pass gets the address with an em
    element in it and writes that as href and as text; for
    [a](http://x.com/||b||) the spoiler element put into the address
    ends the bracketed form, and what is left of the address is rendered
    as a bare address.  On the same two inputs the link pass alone
    returns the anchors that the claim describes. *)
Theorem link_precedence :
  (Parser.markdown (codes "[click here](https://example.com)")
     = Some (anchor (codes "https://example.com") (codes "click here"))
   /\ Parser.markdown (codes "https://example.com")
      = Some (anchor (codes "https://example.com") (codes "https://example.com"))
   /\ Parser.markdown (codes "[https://a.com](https://b.com)")
      = Some (anchor (codes "https://b.com") (codes "https://a.com")))
  /\ (forall (secure : bool) (pre label b1 host b2 suf : list N),
        forallb inert pre = true ->
        forallb inert label = true -> label <> [] ->
        forallb (avoid [newline]) label = true ->
        forallb (cls_mem blank) b1 = true ->
        forallb inert host = true -> host <> [] -> forallb visible host = true ->
        forallb (avoid [ch ")"]) host = true ->
        forallb (cls_mem blank) b2 = true ->
        forallb inert suf = true ->
        Parser.markdown (pre ++ linked_text label b1 (scheme secure ++ host) b2 ++ suf)
        = Some (pre ++ anchor (scheme secure ++ host) label ++ suf))
  /\ (forall (secure : bool) (pre host suf : list N),
        forallb inert pre = true ->
        forallb inert host = true -> host <> [] -> forallb visible host = true ->
        forallb inert suf = true -> ends_word suf = true ->
        Parser.markdown (pre ++ (scheme secure ++ host) ++ suf)
        = Some (pre ++ anchor (scheme secure ++ host) (scheme secure ++ host) ++ suf))
  /\ (forall (s : list N) i,
        match_at Parser.labelled_link s i = None
        \/ match_at Parser.bare_link s i = None)
  /\ (forall (buf cs : list N) i,
        Forall (fun jc =>
                  exists label url,
                    group (mkMatch buf i (fst jc) (snd jc)) 1 = Some label
                    /\ group (mkMatch buf i (fst jc) (snd jc)) 2 = Some url
                    /\ group (mkMatch buf i (fst jc) (snd jc)) 3 = None
                    /\ Parser.linkify_repl (mkMatch buf i (fst jc) (snd jc))
                       = Some ((text "<a href=" ++ Parser.q) ++ url
                                 ++ (Parser.q ++ text ">") ++ label ++ text "</a>"))
               (mt Parser.labelled_link cs i []))
  /\ (forall (buf cs : list N) i,
        Forall (fun jc =>
                  exists url,
                    group (mkMatch buf i (fst jc) (snd jc)) 3 = Some url
                    /\ Parser.linkify_repl (mkMatch buf i (fst jc) (snd jc))
                       = Some ((text "<a href=" ++ Parser.q) ++ url
                                 ++ (Parser.q ++ text ">") ++ url ++ text "</a>"))
               (mt Parser.bare_link cs i []))
  /\ (Parser.markdown (codes "https://example.com/a_b_c")
        = Some (anchor (codes "https://example.com/a<em>b</em>c")
                       (codes "https://example.com/a<em>b</em>c"))
      /\ Parser.italics (codes "https://example.com/a_b_c")
         = Some (codes "https://example.com/a<em>b</em>c")
      /\ Parser.linkify (codes "https://example.com/a_b_c")
         = Some (anchor (codes "https://example.com/a_b_c")
                        (codes "https://example.com/a_b_c"))
      /\ Parser.markdown (codes "[a](http://x.com/||b||)")
         = Some (codes "[a](" ++ anchor (codes "http://x.com/<span")
                                        (codes "http://x.com/<span")
                   ++ codes " class=" ++ [dquote] ++ codes "spoiler" ++ [dquote]
                   ++ codes ">b</span>)")
      /\ Parser.spoiler (codes "[a](http://x.com/||b||)")
         = Some (codes "[a](http://x.com/" ++ spoiler_open ++ codes "b</span>)")
      /\ Parser.linkify (codes "[a](http://x.com/||b||)")
         = Some (anchor (codes "http://x.com/||b||") (codes "a"))).
Proof.
  split; [repeat split; vm_compute; reflexivity|].
  split; [exact plain_labelled_link|].
  split; [exact plain_bare_link|].
  split; [exact link_forms_apart|].
  split.
  { intros buf cs i. apply Forall_forall. intros [j c] M. cbn [fst snd].
    destruct (labelled_link_groups buf _ _ _ _ M) as (label & url & G1 & G2 & G3).
    exists label, url. repeat (split; [assumption|]).
    unfold Parser.linkify_repl. rewrite G1, G2, G3. reflexivity. }
  split.
  { intros buf cs i. apply Forall_forall. intros [j c] M. cbn [fst snd].
    destruct (group_of_branch 3 Parser.bare_link buf _ _ _ _ eq_refl M) as [url G3].
    exists url. split; [exact G3|].
    unfold Parser.linkify_repl. rewrite G3. reflexivity. }
  repeat split; vm_compute; reflexivity.
Qed.

Lemma link_precedence_witness :
  Parser.markdown (codes "[click here](https://example.com)")
    = Some (anchor (codes "https://example.com") (codes "click here"))
  /\ Parser.markdown (codes "see https://example.com/a?b=1 now")
     = Some (codes "see " ++ anchor (codes "https://example.com/a?b=1")
                                    (codes "https://example.com/a?b=1") ++ codes " now").
Proof.
  split.
  - apply (proj1 (proj2 link_precedence) true [] (codes "click here") []
             (codes "example.com") [] []); try reflexivity; discriminate.
  - apply (proj1 (proj2 (proj2 link_precedence)) true (codes "see ")
             (codes "example.com/a?b=1") (codes " now")); try reflexivity; discriminate.
Defined.

(** ** What a pass keeps of its buffer *)

Lemma forallb_is_Forall {A} (f : A -> bool) (l : list A) :
  forallb f l = true <-> Forall (fun x => f x = true) l.
Proof. rewrite forallb_forall, Forall_forall. reflexivity. Qed.

(** A pass writes characters of its buffer and characters of its
    replacements: a character that neither has is not in the result. *)
Lemma sub_keeps (f : N -> bool) r (repl : Match N -> option (list N)) (s out : list N) :
  forallb f s = true ->
  (forall i j c o, repl (mkMatch s i j c) = Some o -> forallb f o = true) ->
  sub r repl s = Some out -> forallb f out = true.
Proof.
  intros Hs Hr E. apply forallb_is_Forall.
  apply (sub_loop_Forall (fun x => f x = true) r repl s (map code s)
           (fun i j c o R => proj1 (forallb_is_Forall f o) (Hr i j c o R))
           s 0 0 out).
  - apply forallb_is_Forall, Hs.
  - exact E.
Qed.

Lemma forallb_slice {A} (f : A -> bool) (l : list A) a b :
  forallb f l = true -> forallb f (slice l a b) = true.
Proof.
  intros H. apply forallb_is_Forall, Forall_slice, forallb_is_Forall, H.
Qed.

Lemma forallb_group (f : N -> bool) (m : Match N) n :
  forallb f (m_string m) = true -> forallb f (expand (group m n)) = true.
Proof.
  intros H. unfold group. destruct (get n (m_caps m)) as [[a b]|]; [|reflexivity].
  apply forallb_slice, H.
Qed.

(** Two patterns that report matches of the same extent, replaced by
    the same text, make the same pass. *)
Lemma sub_loop_same r1 r2 (repl1 repl2 : Match N -> option (list N)) subj cs :
  (forall i,
     match match_at r1 cs i, match_at r2 cs i with
     | Some (j1, c1), Some (j2, c2) =>
         j1 = j2 /\ repl1 (mkMatch subj i j1 c1) = repl2 (mkMatch subj i j2 c2)
     | None, None => True
     | _, _ => False
     end) ->
  forall rest i skip,
    sub_loop r1 repl1 subj cs rest i skip = sub_loop r2 repl2 subj cs rest i skip.
Proof.
  intros Hm. induction rest as [|x rest IH]; intros i skip.
  - destruct skip; cbn [sub_loop]; [|reflexivity].
    specialize (Hm i).
    destruct (match_at r1 cs i) as [[j1 c1]|], (match_at r2 cs i) as [[j2 c2]|];
      try contradiction; [|reflexivity].
    destruct Hm as [-> ->]. reflexivity.
  - destruct skip as [|k]; cbn [sub_loop]; [|apply IH].
    specialize (Hm i).
    destruct (match_at r1 cs i) as [[j1 c1]|], (match_at r2 cs i) as [[j2 c2]|];
      try contradiction.
    + destruct Hm as [-> ->]. rewrite IH. reflexivity.
    + rewrite IH. reflexivity.
Qed.

(** ** Neighbours through a pass *)

Section PairGuard.
Variable p : N -> N -> bool.

Lemma pairs_ok_tail x (l : list N) : pairs_ok p (x :: l) = true -> pairs_ok p l = true.
Proof.
  destruct l as [|y l]; [reflexivity|]. rewrite pairs_ok_cons2.
  intros H. apply andb_true_iff in H. apply H.
Qed.

Lemma pairs_ok_solid prev (l : list N) :
  (forall y, p prev y = true) -> pairs_ok p l = true -> pairs_ok p (prev :: l) = true.
Proof.
  intros Hs Hp. destruct l as [|y l]; [reflexivity|].
  rewrite pairs_ok_cons2, Hp, Hs. reflexivity.
Qed.

Lemma pairs_ok_glue (l : list N) z tl :
  pairs_ok p (l ++ [z]) = true -> pairs_ok p (z :: tl) = true ->
  pairs_ok p (l ++ z :: tl) = true.
Proof.
  intros H1 H2. induction l as [|a l IH]; [exact H2|].
  destruct l as [|b l].
  - cbn [app] in *. rewrite pairs_ok_cons2 in *. apply andb_true_iff in H1.
    destruct H1 as [H1 _]. rewrite H1, H2. reflexivity.
  - cbn [app] in *. rewrite pairs_ok_cons2 in *. apply andb_true_iff in H1.
    destruct H1 as [H1 H3]. rewrite H1. cbn [andb]. apply IH, H3.
Qed.

(** Before a text that may stand after any character. *)
Lemma pairs_ok_before (l1 l2 : list N) :
  pairs_ok p l1 = true -> (forall prev, pairs_ok p (prev :: l2) = true) ->
  pairs_ok p (l1 ++ l2) = true.
Proof.
  intros H1 H2. induction l1 as [|a l1 IH]; [exact (pairs_ok_tail (ch " ") _ (H2 _))|].
  destruct l1 as [|b l1]; [apply H2|].
  cbn [app] in *. rewrite pairs_ok_cons2 in *. apply andb_true_iff in H1.
  destruct H1 as [H1 H3]. rewrite H1. cbn [andb]. apply IH, H3.
Qed.

(** Behind a text whose last character may stand before any character. *)
Lemma pairs_ok_behind (t : list N) z l2 :
  pairs_ok p (t ++ [z]) = true -> (forall y, p z y = true) -> pairs_ok p l2 = true ->
  pairs_ok p ((t ++ [z]) ++ l2) = true.
Proof.
  intros H1 Hz H2. rewrite <- app_assoc. cbn [app].
  apply pairs_ok_glue; [exact H1|]. apply pairs_ok_solid; assumption.
Qed.

Lemma pairs_ok_skipn (l : list N) : forall a,
  pairs_ok p l = true -> pairs_ok p (skipn a l) = true.
Proof.
  induction l as [|x l IH]; intros a H; [destruct a; reflexivity|].
  destruct a as [|a]; [exact H|]. cbn [skipn]. apply IH, (pairs_ok_tail x), H.
Qed.

Lemma pairs_ok_firstn (l : list N) : forall n,
  pairs_ok p l = true -> pairs_ok p (firstn n l) = true.
Proof.
  induction l as [|x l IH]; intros n H; [destruct n; reflexivity|].
  destruct n as [|n]; [reflexivity|]. cbn [firstn].
  destruct l as [|y l]; [destruct n; reflexivity|].
  destruct n as [|n]; [reflexivity|].
  rewrite pairs_ok_cons2 in H. apply andb_true_iff in H. destruct H as [H1 H2].
  change (firstn (S n) (y :: l)) with (y :: firstn n l).
  rewrite pairs_ok_cons2, H1. cbn [andb].
  exact (IH (S n) H2).
Qed.

Lemma pairs_ok_group (m : Match N) n :
  pairs_ok p (m_string m) = true -> pairs_ok p (expand (group m n)) = true.
Proof.
  intros H. unfold group. destruct (get n (m_caps m)) as [[a b]|]; [|reflexivity].
  cbn [expand]. unfold slice. apply pairs_ok_firstn, pairs_ok_skipn, H.
Qed.

Section PairScan.
Variables (r : re) (repl : Match N -> option (list N)) (subj : list N).

(** Every replacement may stand after any character and before any
    character. *)
Hypothesis repl_ok : forall i j c o,
  repl (mkMatch subj i j c) = Some o ->
  (forall prev, pairs_ok p (prev :: o) = true)
  /\ exists t z, o = t ++ [z] /\ forall y, p z y = true.

Lemma sub_loop_pairs cs : forall rest i skip out prev,
  sub_loop r repl subj cs rest i skip = Some out ->
  pairs_ok p rest = true ->
  (skip = 0 -> pairs_ok p (prev :: rest) = true) ->
  (skip <> 0 -> forall y, p prev y = true) ->
  pairs_ok p (prev :: out) = true.
Proof.
  induction rest as [|x rest IH]; intros i skip out prev E Hr H0 Hs.
  - destruct skip; cbn [sub_loop] in E; [|apply Some_inj in E; subst out; reflexivity].
    destruct (match_at r cs i) as [[j c]|];
      [|apply Some_inj in E; subst out; reflexivity].
    destruct (repl (mkMatch subj i j c)) as [o|] eqn:R; cbn [bind] in E; [|discriminate].
    apply Some_inj in E; subst out. apply (repl_ok _ _ _ _ R).
  - destruct skip as [|k]; cbn [sub_loop] in E.
    + destruct (match_at r cs i) as [[j c]|].
      * destruct (repl (mkMatch subj i j c)) as [o|] eqn:R; cbn [bind] in E;
          [|discriminate].
        destruct (sub_loop r repl subj cs rest (S i) (j - i - 1)) as [tl|] eqn:T;
          cbn [bind] in E; [|discriminate].
        apply Some_inj in E; subst out.
        destruct (repl_ok _ _ _ _ R) as (Po & t & z & Et & Hz).
        pose proof (Po prev) as Hpo. subst o.
        pose proof (pairs_ok_tail _ _ Hr) as Hr'.
        destruct (j <=? i) eqn:J.
        -- apply Nat.leb_le in J. replace (j - i - 1) with 0 in T by lia.
           pose proof (IH _ _ _ x T Hr' (fun _ => Hr) ltac:(congruence)) as Htl.
           rewrite <- app_assoc. cbn [app].
           change (prev :: t ++ z :: x :: tl) with ((prev :: t) ++ z :: x :: tl).
           apply pairs_ok_glue; [exact Hpo|]. apply pairs_ok_solid; assumption.
        -- assert (Htl : pairs_ok p (z :: tl) = true).
           { apply (IH _ _ _ _ T Hr').
             - intros _. apply pairs_ok_solid; assumption.
             - intros _. exact Hz. }
           cbn [app]. rewrite <- app_assoc. cbn [app].
           change (prev :: t ++ z :: tl) with ((prev :: t) ++ z :: tl).
           apply pairs_ok_glue; assumption.
      * destruct (sub_loop r repl subj cs rest (S i) 0) as [tl|] eqn:T;
          cbn [bind] in E; [|discriminate].
        apply Some_inj in E; subst out.
        pose proof (IH _ _ _ x T (pairs_ok_tail _ _ Hr) (fun _ => Hr)
                      ltac:(congruence)) as Htl.
        specialize (H0 eq_refl). rewrite pairs_ok_cons2 in H0.
        apply andb_true_iff in H0. destruct H0 as [H0 _].
        rewrite pairs_ok_cons2, Htl, andb_true_r. exact H0.
    + apply (IH _ _ _ _ E (pairs_ok_tail _ _ Hr)).
      * intros _. apply pairs_ok_solid; [|exact (pairs_ok_tail _ _ Hr)].
        apply Hs. discriminate.
      * intros _. apply Hs. discriminate.
Qed.

Lemma sub_pairs prev (out : list N) :
  pairs_ok p (prev :: subj) = true ->
  sub r repl subj = Some out -> pairs_ok p (prev :: out) = true.
Proof.
  intros Hp E. unfold sub in E.
  apply (sub_loop_pairs _ subj 0 0 out prev E (pairs_ok_tail _ _ Hp)).
  - intros _. exact Hp.
  - congruence.
Qed.

End PairScan.

End PairGuard.

Lemma avoid_written ks (big small : list N) :
  forallb (fun c => existsb (N.eqb c) big) small = true ->
  forallb (avoid ks) big = true -> forallb (avoid ks) small = true.
Proof.
  rewrite !forallb_forall. intros Hs Hb x Hx.
  specialize (Hs x Hx). apply existsb_exists in Hs. destruct Hs as (y & Hy & E).
  apply N.eqb_eq in E. subst y. apply Hb, Hy.
Qed.

(** ** The passes that the two copies share *)

(** A character that neither the buffer nor the engine's own text has
    is not in the result of a pass. *)
Section Written.
Variable ks : list N.
Hypothesis ks_ok : forallb (avoid ks) engine_text = true.

Ltac written := apply (avoid_written ks engine_text); [reflexivity|exact ks_ok].

Ltac parts_of tac :=
  repeat match goal with
         | |- forallb _ (_ ++ _) = true =>
             rewrite forallb_app; apply andb_true_intro; split
         end;
  first [assumption | tac | written].

Lemma wrap_keeps r (o c s out : list N) :
  forallb (fun x => existsb (N.eqb x) engine_text) o = true ->
  forallb (fun x => existsb (N.eqb x) engine_text) c = true ->
  forallb (avoid ks) s = true ->
  sub r (Parser.wrap o c) s = Some out -> forallb (avoid ks) out = true.
Proof.
  intros Ho Hc Hs. apply sub_keeps; [exact Hs|].
  intros i j c0 o0 R. unfold Parser.wrap in R. apply Some_inj in R; subst o0.
  rewrite !forallb_app.
  rewrite (avoid_written ks engine_text o Ho ks_ok), (avoid_written ks engine_text c Hc ks_ok).
  rewrite (forallb_group (avoid ks) (mkMatch s i j c0) 1 Hs). reflexivity.
Qed.

Lemma protected_keeps (l : list N) :
  forallb (avoid ks) l = true -> forallb (avoid ks) (flat_map protect l) = true.
Proof.
  apply forallb_protect.
  assert (H : forallb (avoid ks) [backslash] = true) by written.
  cbn [forallb] in H. rewrite andb_true_r in H. exact H.
Qed.

Lemma codeblock_keeps (s out : list N) :
  forallb (avoid ks) s = true ->
  Parser.codeblock s = Some out -> forallb (avoid ks) out = true.
Proof.
  intros Hs. apply sub_keeps; [exact Hs|].
  intros i j c o R. unfold Parser.codeblock_repl in R.
  pose proof (forallb_group (avoid ks) (mkMatch s i j c) 3 Hs) as H3.
  pose proof (forallb_group (avoid ks) (mkMatch s i j c) 2 Hs) as H2.
  destruct (group (mkMatch s i j c) 3) as [content|]; [|discriminate R].
  cbn [bind expand] in *. rewrite escape_symbols_spec in R. cbn [bind] in R.
  destruct (group (mkMatch s i j c) 2) as [lang|]; apply Some_inj in R; subst o;
    cbn [expand] in *; parts_of ltac:(apply protected_keeps; assumption).
Qed.

Lemma inline_codeblock_keeps (s out : list N) :
  forallb (avoid ks) s = true ->
  Parser.inline_codeblock s = Some out -> forallb (avoid ks) out = true.
Proof.
  intros Hs. apply sub_keeps; [exact Hs|].
  intros i j c o R. unfold Parser.inline_codeblock_repl in R.
  pose proof (forallb_group (avoid ks) (mkMatch s i j c) 2 Hs) as H2.
  destruct (group (mkMatch s i j c) 2) as [content|]; [|discriminate R].
  cbn [bind expand] in *. rewrite escape_symbols_spec in R. cbn [bind] in R.
  apply Some_inj in R; subst o.
  parts_of ltac:(apply protected_keeps; assumption).
Qed.

Lemma italics_keeps (s out : list N) :
  forallb (avoid ks) s = true ->
  Parser.italics s = Some out -> forallb (avoid ks) out = true.
Proof.
  intros Hs. apply sub_keeps; [exact Hs|].
  intros i j c o R. unfold Parser.italics_repl in R.
  pose proof (forallb_group (avoid ks) (mkMatch s i j c) 1 Hs) as H1.
  pose proof (forallb_group (avoid ks) (mkMatch s i j c) 2 Hs) as H2.
  destruct (group (mkMatch s i j c) 1) as [g1|];
    [|destruct (group (mkMatch s i j c) 2) as [g2|]; [|discriminate R]];
    apply Some_inj in R; subst o; cbn [expand] in *; parts_of fail.
Qed.

End Written.

(** No forbidden pair of neighbours comes out of a pass when the
    engine's tags have none, '<' may stand after any character and '>'
    before any character. *)
Section TagPairs.
Variable p : N -> N -> bool.
Hypothesis p_lt : forall x, p x (ch "<") = true.
Hypothesis p_dq : forall x, p x dquote = true.
Hypothesis p_gt : forall y, p (ch ">") y = true.
Hypothesis p_dash : forall y, p (ch "-") y = true.
Hypothesis p_tags : forallb (pairs_ok p) engine_tags = true.
Hypothesis p_protect : forall l : list N, pairs_ok p (flat_map protect l) = true.

Lemma tag_ok t : In t engine_tags -> pairs_ok p t = true.
Proof. intros Ht. exact (proj1 (forallb_forall _ _) p_tags t Ht). Qed.

Ltac a_tag := apply tag_ok; solve [repeat (first [left; reflexivity | right])].

(** An opening tag, a text and a closing tag. *)
Lemma tagged (o1 o2 c1 c2 M : list N) :
  ch "<" :: o1 = o2 ++ [ch ">"] -> ch "<" :: c1 = c2 ++ [ch ">"] ->
  pairs_ok p (ch "<" :: o1) = true -> pairs_ok p (ch "<" :: c1) = true ->
  pairs_ok p M = true ->
  (forall prev, pairs_ok p (prev :: (ch "<" :: o1) ++ M ++ ch "<" :: c1) = true)
  /\ exists t z, (ch "<" :: o1) ++ M ++ ch "<" :: c1 = t ++ [z]
                 /\ forall y, p z y = true.
Proof.
  intros Eo Ec Po Pc PM. split.
  - intros prev. cbn [app]. rewrite pairs_ok_cons2, p_lt. cbn [andb].
    change (ch "<" :: o1 ++ M ++ ch "<" :: c1) with ((ch "<" :: o1) ++ M ++ ch "<" :: c1).
    rewrite Eo. apply pairs_ok_behind; [rewrite <- Eo; exact Po|exact p_gt|].
    apply pairs_ok_before; [exact PM|].
    intros x. rewrite pairs_ok_cons2, p_lt, Pc. reflexivity.
  - exists ((ch "<" :: o1) ++ M ++ c2), (ch ">"). split; [|exact p_gt].
    rewrite Ec, <- !app_assoc. reflexivity.
Qed.

Lemma wrap_pairs r (o1 o2 c1 c2 s out : list N) prev :
  ch "<" :: o1 = o2 ++ [ch ">"] -> ch "<" :: c1 = c2 ++ [ch ">"] ->
  In (ch "<" :: o1) engine_tags -> In (ch "<" :: c1) engine_tags ->
  pairs_ok p (prev :: s) = true ->
  sub r (Parser.wrap (ch "<" :: o1) (ch "<" :: c1)) s = Some out ->
  pairs_ok p (prev :: out) = true.
Proof.
  intros Eo Ec Io Ic Hs. apply sub_pairs; [|exact Hs].
  intros i j c o R. unfold Parser.wrap in R. apply Some_inj in R; subst o.
  apply (tagged o1 o2 c1 c2); try assumption; try (apply tag_ok; assumption).
  apply (pairs_ok_group p (mkMatch s i j c) 1). exact (pairs_ok_tail p _ _ Hs).
Qed.

Lemma italics_pairs (s out : list N) prev :
  pairs_ok p (prev :: s) = true -> Parser.italics s = Some out ->
  pairs_ok p (prev :: out) = true.
Proof.
  intros Hs. apply sub_pairs; [|exact Hs].
  intros i j c o R. unfold Parser.italics_repl in R.
  pose proof (pairs_ok_group p (mkMatch s i j c) 1 (pairs_ok_tail p _ _ Hs)) as H1.
  pose proof (pairs_ok_group p (mkMatch s i j c) 2 (pairs_ok_tail p _ _ Hs)) as H2.
  destruct (group (mkMatch s i j c) 1) as [g1|];
    [|destruct (group (mkMatch s i j c) 2) as [g2|]; [|discriminate R]];
    apply Some_inj in R; subst o; cbn [expand] in *.
  - apply (tagged (codes "em>") (codes "<em") (codes "/em>") (codes "</em") g1);
      first [reflexivity | assumption | a_tag].
  - apply (tagged (codes "em>") (codes "<em") (codes "/em>") (codes "</em") g2);
      first [reflexivity | assumption | a_tag].
Qed.

Lemma inline_codeblock_pairs (s out : list N) prev :
  pairs_ok p (prev :: s) = true -> Parser.inline_codeblock s = Some out ->
  pairs_ok p (prev :: out) = true.
Proof.
  intros Hs. apply sub_pairs; [|exact Hs].
  intros i j c o R. unfold Parser.inline_codeblock_repl in R.
  destruct (group (mkMatch s i j c) 2) as [content|]; [|discriminate R].
  cbn [bind] in R. rewrite escape_symbols_spec in R. cbn [bind] in R.
  apply Some_inj in R; subst o.
  apply (tagged (codes "span class=" ++ [dquote] ++ codes "pre pre--inline"
                   ++ [dquote] ++ codes ">")
                (codes "<span class=" ++ [dquote] ++ codes "pre pre--inline" ++ [dquote])
                (codes "/span>") (codes "</span") (flat_map protect content));
    first [reflexivity | apply p_protect | a_tag].
Qed.

Lemma codeblock_pairs (s out : list N) prev :
  pairs_ok p (prev :: s) = true -> Parser.codeblock s = Some out ->
  pairs_ok p (prev :: out) = true.
Proof.
  intros Hs. apply sub_pairs; [|exact Hs].
  intros i j c o R. unfold Parser.codeblock_repl in R.
  pose proof (pairs_ok_group p (mkMatch s i j c) 2 (pairs_ok_tail p _ _ Hs)) as H2.
  destruct (group (mkMatch s i j c) 3) as [content|]; [|discriminate R].
  cbn [bind] in R. rewrite escape_symbols_spec in R. cbn [bind] in R.
  destruct (group (mkMatch s i j c) 2) as [lang|]; apply Some_inj in R; subst o;
    cbn [expand] in *.
  - apply (tagged (codes "div class=" ++ [dquote] ++ codes "pre pre--multiline language-"
                     ++ lang ++ [dquote] ++ codes ">")
                  (codes "<div class=" ++ [dquote] ++ codes "pre pre--multiline language-"
                     ++ lang ++ [dquote])
                  (codes "/div>") (codes "</div") (flat_map protect content));
      first [reflexivity | apply p_protect | a_tag | idtac].
    + rewrite <- !app_assoc. reflexivity.
    + change (ch "<" :: codes "div class=" ++ [dquote]
                ++ codes "pre pre--multiline language-" ++ lang ++ [dquote] ++ codes ">")
        with (((codes "<div class=" ++ [dquote] ++ codes "pre pre--multiline language")
                 ++ [ch "-"]) ++ lang ++ [dquote] ++ codes ">").
      apply pairs_ok_behind; [a_tag|exact p_dash|].
      apply pairs_ok_before; [exact H2|].
      intros x. change ([dquote] ++ codes ">") with (dquote :: codes ">").
      rewrite pairs_ok_cons2, p_dq. cbn [andb].
      change (dquote :: codes ">") with ([dquote] ++ codes ">"). a_tag.
  - apply (tagged (codes "div class=" ++ [dquote] ++ codes "pre pre--multiline nohighlight"
                     ++ [dquote] ++ codes ">")
                  (codes "<div class=" ++ [dquote] ++ codes "pre pre--multiline nohighlight"
                     ++ [dquote])
                  (codes "/div>") (codes "</div") (flat_map protect content));
      first [reflexivity | apply p_protect | a_tag].
Qed.

End TagPairs.

(** ** No quote of the archive copy, no link of the parser copy *)

Lemma quote_free_pairs (l : list N) :
  quote_free l <-> pairs_ok opens_no_quote (newline :: l) = true.
Proof.
  unfold quote_free. destruct l as [|y l]; [split; [reflexivity|split; reflexivity]|].
  rewrite pairs_ok_cons2. cbn [first_is]. unfold opens_no_quote at 2.
  rewrite (N.eqb_sym y). rewrite N.eqb_refl, orb_true_r. cbn [negb].
  rewrite orb_false_r. split.
  - intros [H1 H2]. rewrite H1, H2. reflexivity.
  - intros H. apply andb_true_iff in H. destruct H as [H1 H2].
    apply negb_true_iff in H1. split; assumption.
Qed.

Lemma quote_kit_gt y : opens_no_quote (ch ">") y = true.
Proof. unfold opens_no_quote. apply orb_true_r. Qed.

Lemma quote_kit_dash y : opens_no_quote (ch "-") y = true.
Proof. unfold opens_no_quote. apply orb_true_r. Qed.

Lemma codeblock_guard (s out : list N) :
  quote_free s -> Parser.codeblock s = Some out -> quote_free out.
Proof.
  rewrite !quote_free_pairs.
  apply (codeblock_pairs opens_no_quote); first [reflexivity | intros x; reflexivity
    | exact quote_kit_gt | exact quote_kit_dash | intros l; apply quote_pairs_protect ].
Qed.

Lemma inline_codeblock_guard (s out : list N) :
  quote_free s -> Parser.inline_codeblock s = Some out -> quote_free out.
Proof.
  rewrite !quote_free_pairs.
  apply (inline_codeblock_pairs opens_no_quote); first [reflexivity | intros x; reflexivity
    | exact quote_kit_gt | exact quote_kit_dash | intros l; apply quote_pairs_protect ].
Qed.

(** The quote pass of the archive copy does nothing on such a buffer. *)
Lemma bulk_quote_free (s : list N) :
  quote_free s -> sub BulkDelete.blockQuote_pattern BulkDelete.blockquote_repl s = Some s.
Proof.
  intros [Hp Hf]. apply sub_no_match. intros i. cbn [code Glyph_N]. rewrite map_id.
  change BulkDelete.blockQuote_pattern
    with (quote_pattern (ch ">" :: codes ">> ") (ch ">" :: codes " ")).
  apply quote_needs_pair; assumption.
Qed.

Lemma quote_free_plain (l : list N) : forallb (avoid [ch ">"]) l = true -> quote_free l.
Proof. intros H. split; [apply quote_pairs_free, H|apply first_is_free, H]. Qed.

Lemma scheme_kit_gt y : no_scheme (ch ">") y = true.
Proof. unfold no_scheme. rewrite andb_false_r. reflexivity. Qed.

Lemma scheme_kit_dash y : no_scheme (ch "-") y = true.
Proof. unfold no_scheme. rewrite andb_false_r. reflexivity. Qed.

(** Protected text holds no slash without a backslash before it. *)
Lemma scheme_protect (l : list N) :
  pairs_ok no_scheme (flat_map protect l) = true
  /\ first_is (N.eqb (ch "/")) (flat_map protect l) = false.
Proof.
  induction l as [|x l [IH1 IH2]]; [split; reflexivity|].
  cbn [flat_map].
  assert (Hh : forall prev, pairs_ok no_scheme (prev :: flat_map protect l) = true).
  { intros prev. destruct (flat_map protect l) as [|y t]; [reflexivity|].
    rewrite pairs_ok_cons2, IH1, andb_true_r. cbn [first_is] in IH2.
    unfold no_scheme. rewrite N.eqb_sym, IH2. reflexivity. }
  unfold protect. cbn [code lit Glyph_N]. destruct (is_symbol x) eqn:S.
  - split; [|reflexivity]. cbn [app]. rewrite pairs_ok_cons2, Hh, andb_true_r.
    unfold no_scheme. rewrite andb_false_r. reflexivity.
  - split; [apply Hh|]. cbn [app first_is]. apply N.eqb_neq. intros <-. discriminate S.
Qed.

Ltac scheme_kit :=
  first [ reflexivity | intros x; reflexivity | exact scheme_kit_gt | exact scheme_kit_dash
        | intros l; apply scheme_protect ].

Lemma no_scheme_input (l : list N) :
  contains (codes ":/") l = false -> pairs_ok no_scheme l = true.
Proof.
  induction l as [|x l IH]; intros H; [reflexivity|].
  cbn [contains] in H. apply orb_false_iff in H. destruct H as [H0 H].
  destruct l as [|y l]; [reflexivity|].
  rewrite pairs_ok_cons2, (IH H), andb_true_r.
  cbn [starts_with codes] in H0. unfold no_scheme.
  change (codes ":/") with [ch ":"; ch "/"] in H0. cbn [starts_with] in H0.
  rewrite andb_true_r in H0. rewrite (N.eqb_sym y), (N.eqb_sym x), andb_comm, H0.
  reflexivity.
Qed.

Lemma no_scheme_nowhere (l : list N) :
  pairs_ok no_scheme l = true -> nowhere (codes ":/") l.
Proof.
  intros Hp i. destruct (starts_with (codes ":/") (skipn i l)) eqn:E; [|reflexivity].
  pose proof (starts_with_at _ _ i 0 (ch ":") E eq_refl) as H0.
  pose proof (starts_with_at _ _ i 1 (ch "/") E eq_refl) as H1.
  rewrite Nat.add_0_r in H0. rewrite Nat.add_1_r in H1.
  pose proof (pairs_ok_nth _ _ _ _ _ Hp H0 H1) as H. discriminate H.
Qed.

(** The link pass of the parser copy does nothing on such a buffer. *)
Lemma link_free (s : list N) :
  pairs_ok no_scheme s = true -> Parser.linkify s = Some s.
Proof.
  intros Hp. apply (sub_nowhere (codes ":/")); [reflexivity|].
  apply no_scheme_nowhere, Hp.
Qed.

(** ** The italics of the two copies *)

(** The matches of a delimiter pattern at a position: one per closing
    delimiter the content can reach, whatever number the group has. *)
Lemma pair_mt_shape d (s : list N) i :
  exists ends : list nat, forall g,
    mt (NotBehind bs_cls ;;; Str d ;;; Grp g (Rep false 1 None dot)
        ;;; NotBehind bs_cls ;;; Str d) s i []
    = map (fun e => (e + List.length d, [(g, (i + List.length d, e))])) ends.
Proof.
  exists (if prev_is (cls_mem bs_cls) s i then []
          else if starts_with d (skipn i s)
               then filter (fun j => negb (prev_is (cls_mem bs_cls) s j)
                                     && starts_with d (skipn j s))
                           (rep_ends false 1 None dot s (i + List.length d))
               else []).
  intros g. rewrite mt_mtk, mtk_seq, mtk_notbehind.
  destruct (prev_is (cls_mem bs_cls) s i); [reflexivity|].
  cbv beta. cbn [fst snd]. rewrite mtk_seq, mtk_str.
  destruct (starts_with d (skipn i s)); [|reflexivity].
  cbv beta. cbn [fst snd]. rewrite mtk_seq, mtk_grp, mtk_rep.
  induction (rep_ends false 1 None dot s (i + List.length d)) as [|j l IH];
    [reflexivity|].
  cbn [flat_map filter]. rewrite IH. cbv beta. cbn [fst snd].
  rewrite mtk_seq, mtk_notbehind.
  destruct (prev_is (cls_mem bs_cls) s j); [reflexivity|].
  cbv beta. cbn [fst snd negb andb]. rewrite mtk_str.
  destruct (starts_with d (skipn j s)); reflexivity.
Qed.

(** Without an underscore in the buffer the one italics pass of the
    parser copy is the asterisk pass of the archive copy. *)
Lemma italics_star_only (s : list N) :
  forallb (avoid [ch "_"]) s = true ->
  Parser.italics s
  = sub BulkDelete.italics_pattern1 (BulkDelete.wrap (text "<em>") (text "</em>")) s.
Proof.
  intros Hs. unfold Parser.italics, sub. apply sub_loop_same. intros i.
  cbn [code Glyph_N]. rewrite map_id.
  change BulkDelete.italics_pattern1 with Parser.italics_star.
  assert (E : match_at Parser.italics_pattern s i = match_at Parser.italics_star s i).
  { unfold match_at, Parser.italics_pattern. cbn [mt].
    rewrite (needs_lit_dead (avoid [ch "_"]) Parser.italics_under s eq_refl Hs i []).
    rewrite app_nil_r. reflexivity. }
  rewrite E. destruct (match_at Parser.italics_star s i) as [[j c]|] eqn:M; [|exact I].
  split; [reflexivity|].
  destruct (group_of_match 1 Parser.italics_star s _ _ _ _ eq_refl M) as [g G].
  unfold Parser.italics_repl, BulkDelete.wrap. rewrite G. reflexivity.
Qed.

(** Without an asterisk it is the underscore pass. *)
Lemma italics_under_only (s : list N) :
  forallb (avoid [ch "*"]) s = true ->
  Parser.italics s
  = sub BulkDelete.italics_pattern2 (BulkDelete.wrap (text "<em>") (text "</em>")) s.
Proof.
  intros Hs. unfold Parser.italics, sub. apply sub_loop_same. intros i.
  cbn [code Glyph_N]. rewrite map_id.
  unfold match_at, Parser.italics_pattern. cbn [mt].
  rewrite (needs_lit_dead (avoid [ch "*"]) Parser.italics_star s eq_refl Hs i []).
  cbn [app].
  destruct (pair_mt_shape [ch "_"] s i) as [ends He].
  unfold Parser.italics_under, BulkDelete.italics_pattern2.
  change (codes "_") with [ch "_"]. rewrite !He.
  destruct ends as [|e ends]; [exact I|]. cbn [map hd_error].
  split; reflexivity.
Qed.

(** The two italics passes of the archive copy, one after the other. *)
Lemma bulk_italics_fst (s : list N) :
  option_map fst (BulkDelete.italics s)
  = (o <- sub BulkDelete.italics_pattern1
            (BulkDelete.wrap (text "<em>") (text "</em>")) s ;;
     sub BulkDelete.italics_pattern2 (BulkDelete.wrap (text "<em>") (text "</em>")) o).
Proof.
  unfold BulkDelete.italics, subn.
  destruct (sub BulkDelete.italics_pattern1 _ s) as [o|]; [|reflexivity].
  cbn [bind fst snd].
  destruct (sub BulkDelete.italics_pattern2 _ o); reflexivity.
Qed.

(** Either way both copies make the same buffer of it. *)
Lemma italics_agree (s : list N) :
  forallb (avoid [ch "*"]) s = true \/ forallb (avoid [ch "_"]) s = true ->
  option_map fst (BulkDelete.italics s) = Parser.italics s.
Proof.
  rewrite bulk_italics_fst. intros [Hs|Hs].
  - rewrite (sub_avoid [ch "*"]) by (first [reflexivity | exact Hs]). cbn [bind].
    symmetry. apply italics_under_only, Hs.
  - rewrite <- (italics_star_only s Hs).
    destruct (Parser.italics s) as [o|] eqn:E; [|reflexivity]. cbn [bind].
    apply (sub_avoid [ch "_"]); [reflexivity|].
    exact (italics_keeps [ch "_"] eq_refl s o Hs E).
Qed.

(** ** Both copies on text without HTML-special characters and links *)

Lemma bind_fst {A B} (o : option (A * nat)) (k : A -> option B) :
  (oc <- o ;; k (fst oc)) = (x <- option_map fst o ;; k x).
Proof. destruct o; reflexivity. Qed.

Section FourPairs.
Variables (b x3 x4 x5 x6 : list N).
Hypothesis E3 : Parser.spoiler b = Some x3.
Hypothesis E4 : Parser.strikethrough x3 = Some x4.
Hypothesis E5 : Parser.bold x4 = Some x5.
Hypothesis E6 : Parser.underline x5 = Some x6.

(** Through the spoiler, strikethrough, bold and underline passes. *)
Lemma pairs_keep ks :
  forallb (avoid ks) engine_text = true ->
  forallb (avoid ks) b = true -> forallb (avoid ks) x6 = true.
Proof.
  intros W A.
  eapply (wrap_keeps ks W); [ | | |exact E6]; [reflexivity|reflexivity|].
  eapply (wrap_keeps ks W); [ | | |exact E5]; [reflexivity|reflexivity|].
  eapply (wrap_keeps ks W); [ | | |exact E4]; [reflexivity|reflexivity|].
  eapply (wrap_keeps ks W); [ | | |exact E3]; [reflexivity|reflexivity|].
  exact A.
Qed.

Lemma pairs_scheme : pairs_ok no_scheme b = true -> pairs_ok no_scheme x6 = true.
Proof.
  intros A. apply (pairs_ok_tail no_scheme (ch ">")).
  apply (wrap_pairs no_scheme ltac:(scheme_kit) scheme_kit_gt ltac:(scheme_kit)
           Parser.underline_pattern (codes "u>") (codes "<u") (codes "/u>") (codes "</u")
           x5 x6 (ch ">") eq_refl eq_refl);
    [solve [repeat (first [left; reflexivity | right])]
    |solve [repeat (first [left; reflexivity | right])]| |exact E6].
  apply (wrap_pairs no_scheme ltac:(scheme_kit) scheme_kit_gt ltac:(scheme_kit)
           Parser.bold_pattern (codes "strong>") (codes "<strong") (codes "/strong>")
           (codes "</strong") x4 x5 (ch ">") eq_refl eq_refl);
    [solve [repeat (first [left; reflexivity | right])]
    |solve [repeat (first [left; reflexivity | right])]| |exact E5].
  apply (wrap_pairs no_scheme ltac:(scheme_kit) scheme_kit_gt ltac:(scheme_kit)
           Parser.strikethrough_pattern (codes "s>") (codes "<s") (codes "/s>")
           (codes "</s") x3 x4 (ch ">") eq_refl eq_refl);
    [solve [repeat (first [left; reflexivity | right])]
    |solve [repeat (first [left; reflexivity | right])]| |exact E4].
  apply (wrap_pairs no_scheme ltac:(scheme_kit) scheme_kit_gt ltac:(scheme_kit)
           Parser.spoiler_pattern
           (codes "span class=" ++ [dquote] ++ codes "spoiler" ++ [dquote] ++ codes ">")
           (codes "<span class=" ++ [dquote] ++ codes "spoiler" ++ [dquote])
           (codes "/span>") (codes "</span") b x3 (ch ">") eq_refl eq_refl);
    [solve [repeat (first [left; reflexivity | right])]
    |solve [repeat (first [left; reflexivity | right])]| |exact E3].
  apply pairs_ok_solid; [exact scheme_kit_gt|exact A].
Qed.

End FourPairs.

Section PlainText.
Variable s : list N.
Hypothesis s_html : forallb (avoid escaped_chars) s = true.
Hypothesis s_link : contains (codes ":/") s = false.

Ltac from_input :=
  match goal with
  | |- forallb (avoid ?ks) s = true => exact (avoid_all ks escaped_chars s eq_refl s_html)
  end.

Ltac stage f x E :=
  destruct f as [x|] eqn:E; cbn [bind fst snd option_map]; [|reflexivity].

(** The parser copy: its suppressed-link, quote, link and emoji passes
    find nothing to do. *)
Lemma parser_on_plain :
  Parser.markdown s
  = (output <- shared_passes s ;;
     output <- Parser.italics output ;;
     Parser.remove_escaped_symbol output).
Proof.
  unfold Parser.markdown, shared_passes. rewrite (escape_avoid s) by from_input.
  stage (Parser.codeblock s) x1 E1.
  stage (Parser.inline_codeblock x1) x2 E2.
  assert (K2 : forallb (avoid [ch "&"]) x2 = true).
  { apply (inline_codeblock_keeps [ch "&"] eq_refl x1); [|exact E2].
    apply (codeblock_keeps [ch "&"] eq_refl s); [from_input|exact E1]. }
  assert (L2 : pairs_ok no_scheme x2 = true).
  { apply (pairs_ok_tail no_scheme (ch ">")).
    apply (inline_codeblock_pairs no_scheme ltac:(scheme_kit) scheme_kit_gt
             ltac:(scheme_kit) ltac:(intros l; apply scheme_protect) x1); [|exact E2].
    apply (codeblock_pairs no_scheme ltac:(scheme_kit) ltac:(scheme_kit) scheme_kit_gt
             scheme_kit_dash ltac:(scheme_kit) ltac:(intros l; apply scheme_protect) s);
      [|exact E1].
    apply pairs_ok_solid; [exact scheme_kit_gt|]. apply no_scheme_input, s_link. }
  unfold Parser.remove_suppressed_embed_arrows.
  rewrite (sub_avoid [ch "&"]) by (first [reflexivity | exact K2]). cbn [bind].
  unfold Parser.blockquote.
  rewrite (sub_avoid [ch "&"]) by (first [reflexivity | exact K2]). cbn [bind].
  stage (Parser.spoiler x2) x3 E3.
  stage (Parser.strikethrough x3) x4 E4.
  stage (Parser.bold x4) x5 E5.
  stage (Parser.underline x5) x6 E6.
  stage (Parser.italics x6) x7 E7.
  assert (K7 : forallb (avoid [ch "&"]) x7 = true).
  { apply (italics_keeps [ch "&"] eq_refl x6); [|exact E7].
    exact (pairs_keep x2 x3 x4 x5 x6 E3 E4 E5 E6 [ch "&"] eq_refl K2). }
  assert (L7 : pairs_ok no_scheme x7 = true).
  { apply (pairs_ok_tail no_scheme (ch ">")).
    apply (italics_pairs no_scheme ltac:(scheme_kit) scheme_kit_gt ltac:(scheme_kit) x6);
      [|exact E7].
    apply pairs_ok_solid; [exact scheme_kit_gt|].
    exact (pairs_scheme x2 x3 x4 x5 x6 E3 E4 E5 E6 L2). }
  rewrite (link_free x7 L7). cbn [bind]. unfold Parser.emojify.
  destruct (Parser.womboji s);
    rewrite (sub_avoid [ch "&"]) by (first [reflexivity | exact K7]); reflexivity.
Qed.

(** The archive copy: its quote pass finds nothing to do. *)
Lemma bulk_on_plain :
  BulkDelete.markdown s
  = (output <- shared_passes s ;;
     oc <- BulkDelete.italics output ;;
     BulkDelete.remove_escaped_symbol (fst oc)).
Proof.
  unfold BulkDelete.markdown, shared_passes.
  unfold BulkDelete.codeblock, BulkDelete.inline_codeblock, BulkDelete.blockquote,
    BulkDelete.spoiler, BulkDelete.strikethrough, BulkDelete.bold, BulkDelete.underline.
  unfold subn.
  change (sub BulkDelete.codeblock_pattern BulkDelete.codeblock_repl s)
    with (Parser.codeblock s).
  stage (Parser.codeblock s) x1 E1.
  change (sub BulkDelete.inlinecodeblock_pattern BulkDelete.inline_codeblock_repl x1)
    with (Parser.inline_codeblock x1).
  stage (Parser.inline_codeblock x1) x2 E2.
  assert (G2 : quote_free x2).
  { apply (inline_codeblock_guard x1); [|exact E2].
    apply (codeblock_guard s); [|exact E1]. apply quote_free_plain. from_input. }
  rewrite (bulk_quote_free x2 G2). cbn [bind fst snd].
  match goal with
  | |- context [sub BulkDelete.spoiler_pattern ?f x2] =>
      change (sub BulkDelete.spoiler_pattern f x2) with (Parser.spoiler x2)
  end.
  stage (Parser.spoiler x2) x3 E3.
  match goal with
  | |- context [sub BulkDelete.strikethrough_pattern ?f x3] =>
      change (sub BulkDelete.strikethrough_pattern f x3) with (Parser.strikethrough x3)
  end.
  stage (Parser.strikethrough x3) x4 E4.
  match goal with
  | |- context [sub BulkDelete.bold_pattern ?f x4] =>
      change (sub BulkDelete.bold_pattern f x4) with (Parser.bold x4)
  end.
  stage (Parser.bold x4) x5 E5.
  match goal with
  | |- context [sub BulkDelete.underline_pattern ?f x5] =>
      change (sub BulkDelete.underline_pattern f x5) with (Parser.underline x5)
  end.
  stage (Parser.underline x5) x6 E6.
  reflexivity.
Qed.

(** What the buffer holds when the italics passes run. *)
Lemma shared_passes_keep ks (b : list N) :
  forallb (avoid ks) engine_text = true -> forallb (avoid ks) s = true ->
  shared_passes s = Some b -> forallb (avoid ks) b = true.
Proof.
  intros W A. unfold shared_passes.
  destruct (Parser.codeblock s) as [x1|] eqn:E1; cbn [bind]; [|discriminate].
  destruct (Parser.inline_codeblock x1) as [x2|] eqn:E2; cbn [bind]; [|discriminate].
  destruct (Parser.spoiler x2) as [x3|] eqn:E3; cbn [bind]; [|discriminate].
  destruct (Parser.strikethrough x3) as [x4|] eqn:E4; cbn [bind]; [|discriminate].
  destruct (Parser.bold x4) as [x5|] eqn:E5; cbn [bind]; [|discriminate].
  intros E6. apply (pairs_keep x2 x3 x4 x5 b E3 E4 E5 E6 ks W).
  apply (inline_codeblock_keeps ks W x1); [|exact E2].
  apply (codeblock_keeps ks W s); [exact A|exact E1].
Qed.

(** With one of the two italics delimiters only, both copies return
    the same. *)
Lemma engines_agree_plain :
  forallb (avoid [ch "*"]) s = true \/ forallb (avoid [ch "_"]) s = true ->
  BulkDelete.markdown s = Parser.markdown s.
Proof.
  intros H. rewrite parser_on_plain, bulk_on_plain.
  destruct (shared_passes s) as [b|] eqn:E; cbn [bind]; [|reflexivity].
  rewrite (bind_fst (BulkDelete.italics b) BulkDelete.remove_escaped_symbol).
  rewrite italics_agree; [reflexivity|].
  destruct H as [A|A]; [left|right].
  - exact (shared_passes_keep [ch "*"] b eq_refl A E).
  - exact (shared_passes_keep [ch "_"] b eq_refl A E).
Qed.

End PlainText.

(** C6, as the code has it.  The two copies are not the same function:
    the copy in events/bulkMessageDelete.py has no HTML escape and no
    suppressed-link, link or emoji pass, looks for raw '>' quote markers
    and applies the two italics forms one after the other.  On every
    input that has none of the characters the escape rewrites and no
    colon directly before a slash, these differences but the last do not
    show: each copy runs the six passes they share (code block, inline
    code, spoiler, strikethrough, bold, underline) on the input, then
    its own italics, then the final unprotect pass, and nothing else
    changes the buffer.  When the input moreover has no asterisk or no
    underscore, the two italics give the same buffer and both copies
    return the same string. *)
Theorem engines_agree_without_html_or_links (s : list N) :
  forallb (avoid escaped_chars) s = true ->
  contains (codes ":/") s = false ->
  (Parser.markdown s
   = (output <- shared_passes s ;;
      output <- Parser.italics output ;;
      Parser.remove_escaped_symbol output)
   /\ BulkDelete.markdown s
      = (output <- shared_passes s ;;
         oc <- BulkDelete.italics output ;;
         BulkDelete.remove_escaped_symbol (fst oc)))
  /\ (forallb (avoid [ch "*"]) s = true \/ forallb (avoid [ch "_"]) s = true ->
      BulkDelete.markdown s = Parser.markdown s
      /\ exists out, Parser.markdown s = Some out).
Proof.
  intros Hh Hl. split.
  - split; [apply parser_on_plain|apply bulk_on_plain]; assumption.
  - intros H. split; [apply engines_agree_plain; assumption|].
    apply markdown_returns.
Qed.

Lemma engines_agree_without_html_or_links_witness :
  BulkDelete.markdown (codes "note: **a** `b*c` ||d|| ~~e~~ *f*")
  = Parser.markdown (codes "note: **a** `b*c` ||d|| ~~e~~ *f*")
  /\ Parser.markdown (codes "note: **a** `b*c` ||d|| ~~e~~ *f*")
     = Some (codes "note: <strong>a</strong> " ++ span_inline ++ codes "b*c</span> "
               ++ spoiler_open ++ codes "d</span> <s>e</s> <em>f</em>").
Proof.
  split; [|vm_compute; reflexivity].
  apply (proj2 (engines_agree_without_html_or_links
                  (codes "note: **a** `b*c` ||d|| ~~e~~ *f*") eq_refl eq_refl)).
  right. reflexivity.
Defined.
